(* ===== verification/_CoqProject ===== *)
-Q . S2P
Prelude.v
Text.v
Paths.v
LogRecord.v
Posix.v
TopicLog.v
Framing.v
Protocol.v
Metrics.v
Topics.v
Groups.v
Client.v
ClientMoves.v
Broker.v
Recovery.v
Durability.v
Servers.v
Sessions.v
EventLoop.v
Startup.v
Replication.v
Concurrency.v
Programs.v
Consumption.v
