(* ===== verification/Prelude.v ===== *)
(** * A verification library for the Kafka-inspired message broker

    The program is a broker in C++17.  Clients send framed text requests over TCP; a
    blocking server ([src/tcp_server.cpp], a thread per connection) or an event loop
    ([src/epoll_server.cpp]) hands them to [Broker::handle_request] ([src/broker.cpp]),
    which keeps topics of partitions in memory, appends every message to a log file with a
    CRC32 ([src/record.hpp], [src/topic_log.hpp]), forwards it to a follower broker
    ([src/client.hpp]), and manages consumer groups and metrics ([src/metrics.cpp]).  At
    startup the logs are read back.

    ** Files and what they model

    - [Prelude]: bytes, machine integers ([u32], [u64]), the state-and-outcome monad [M]
      with [Ret], [Throw] (a C++ exception) and [Crash] (the process stops there), [zoom]
      to run a computation on a part of the state, tactics and shared lemmas.
    - [Text]: [std::to_string], [stoi]/[stoll]/[stoull], [istringstream], [getline].
    - [Paths]: file names as the kernel resolves them: which strings name the same file.
    - [LogRecord]: [src/record.hpp], the record codec with its CRC32.
    - [Posix]: the kernel under the broker: a script of answers, one per call, and a map
      from resolved paths to files that remember how much of them is on disk.
    - [TopicLog]: [src/topic_log.hpp]: [append] and [read_all], system call by system call.
    - [Framing]: [src/framing.hpp] over sockets that deliver any segments and accept any
      partial sends.
    - [Protocol]: [src/protocol.cpp], [parse_request], and the request lines that the
      clients and the leader build.
    - [Metrics]: [src/metrics.cpp]: counters modulo 2^64, percentiles in binary64.
    - [Topics]: the data of [src/broker.hpp]: topics, partitions, and the unspecified order
      of an [unordered_map] as the class [IterOrder].
    - [Groups]: the consumer-group half of [src/broker.cpp], from [join_group] to
      [rebalance_group].
    - [Client]: [src/client.hpp], and the class [Peer]: what replication needs of a session
      with another broker.  [client_peer] implements it over [Framing].
    - [ClientMoves]: several [BrokerClient]s over one descriptor table: constructors, move
      assignment (into itself too) and destructor.
    - [Broker]: [handle_request] with all its handlers, the leader's side of replication
      ([synchronize_follower], [catch_up_follower], [query_follower_progress],
      [get_missing_records]), against any [Peer].
    - [Recovery]: [recover_from_disk], over the directory tree read off the file paths.
    - [Durability]: the contract of the broker as an abstract machine on lists of messages,
      and the proof that runs with exceptions, crashes and restarts refine it, partition by
      partition.
    - [Servers]: [handle_client] and what the event loop does for each client, with the
      table of open descriptors.
    - [Sessions]: one connection of the event loop over arbitrary events, against
      [handle_client].
    - [EventLoop]: the life of [EpollServer]: its set-up, the loop around [epoll_wait], the
      clean-up of [start], the destructor.
    - [Startup]: [src/main.cpp] and [src/server_mode.cpp]: the command line, the broker that
      is configured and recovered, [TcpServer::start], and the exit code.
    - [Replication]: two brokers: a [Peer] that is a broker of the program itself, behind a
      link that fails.
    - [Concurrency]: requests that threads handle at the same time: [advance] is one step of
      a thread, [run_schedule] an interleaving.
    - [Programs]: [src/clients/producer.cpp] and [src/clients/consumer.cpp] against any
      [Peer].
    - [Consumption]: the programs over [Service], a [Peer] that is a broker behind one
      connection of its server.

    The state of a process is [World P]: the [Broker] record (its members by their names),
    the kernel [OS], and the peer of type [P].  Handlers keep the names of the functions
    and the branches of the [switch] they translate; constants and field names are those of
    the source.  A [std::lock_guard] makes a handler's locked section one step.  Up to
    [Replication] a request is handled from its start to its end ([handle_request]); in
    [Concurrency] a request is a sequence of steps, one per locked section and one per
    exchange with the follower, and [alone_is_handle_request] ties the two together.
    [Server] adds the clients, their sockets and the open descriptors to the broker,
    [Process] the listening socket and the epoll instance, [Program] the threads and the
    exit of [main].

    Topic names are part of file names, and the parser takes almost any word for one.  A
    topic is [plain] when a directory can have an entry of that name, [normal] when each
    component of the name is [plain].  The logs of distinct normal topics are distinct files
    ([log_at_inj]); those of plain topics are where recovery looks.  For other topics
    ("a/b", ".", "./t") messages are lost or mixed up at a restart
    ([slash_topic_not_recovered], [dot_topic_not_recovered], [alias_topics_share_log]), so
    the theorems on durability ask the appending requests for plain topics.

    ** What the theorems show

    - Storage: [deserialize_record] inverts [serialize_record] exactly, rejects damage, and
      [read_all] finds the longest valid prefix of any file; [append] against any kernel,
      stopped anywhere, leaves the old records or the old and the new one.
    - Durability: memory and disk agree as long as requests return ([disk_invariant]); any
      request cut short at any point, followed by a crash and a restart, is a step of the
      contract, and the restarted broker holds what was acknowledged
      ([crash_restart_recovers]); over any history each partition none of whose own appends
      failed while the process went on serving keeps every acknowledged message, in order,
      and none is invented ([acknowledged_messages_survive]).
      A failed append that the process survives breaks this for its partition
      ([failed_append_stays_in_memory], [append_after_failed_write_lost]).
    - Replication, with one producer at a time: when a follower's replicas are prefixes of
      the leader's logs they stay so while synchronization succeeds, and then an [OK] means
      both hold the same messages.
    - Threads: any interleaving of requests is, for the logs, some sequential run of the
      contract, and keeps memory and disk in step.
    - Protocol and framing: the parser inverts the printers on well-formed requests, and
      everything it accepts is well formed; frames survive any segmentation, partial sends
      and interruptions, and oversized ones are refused.
    - Servers: both serve a connection alike, whatever the segmentation and, in the event
      loop, whatever the events and wherever reads and writes block; a connection that
      ends gives back its memberships; whenever the event loop waits, every client is
      registered and asks for [EPOLLOUT] exactly when bytes are unsent; no handler throws;
      when the server ends, the open descriptors are those that were open before it, and
      none was closed that was not open.
    - Startup: command lines and configurations correspond; [main] serves what the disk
      holds, and ends with code 1 or not at all.
    - Client programs: on a broker that is ready for it ([ready_for]) the consumer ends, prints
      exactly what its group had not read and commits exactly that; a producer's message of
      one visible line is stored as it was given; what they see of a broker is what the
      server's byte streams carry.  Every open descriptor has one owner.
    - Groups: the reachable states are well formed, assignments are the balanced round
      robin over sorted subscribers, offsets change by [COMMIT] alone.
    - Metrics: counters count, and the snapshot does not depend on the order of recording.
    - Behaviour that contradicts what the code or its documents intend is stated as closed
      theorems: a torn record that hides later acknowledged ones, blank payloads that grow,
      offsets lost with the last member, responses the event loop drops, stale memberships,
      stray log files read twice, topics with a slash or called "." lost at restart,
      topics that share a log, the hole in a
      follower after an ignored failed synchronization, the message that two producers at
      the same time store twice there, the messages and backlogs that stop a consumer, and
      the arguments of the producer that end up in another partition.

    ** Bounds

    Loops that use up a script (kernel answers, received segments) are structural on it;
    a script that runs out is [Crash], so a theorem over all scripts covers a stop at every
    call, and the theorems on progress ([append_returns], [recover_from_disk_restores],
    [epoll_event_serves]) give scripts that are long enough; in [servers_agree] a stop is
    shown to be one for an answer that the kernel owes.  [scan] has the buffer's length as
    fuel: each record takes at least eight bytes.  [extract_loop] has the length of the
    read buffer, [read_loop] the number of segments and bytes to come, [write_client_loop]
    the number of answers of [send]; [client_loop] is given one turn per request and one
    for the end; [parse_lines] has the length of the response, [poll_loop] two turns
    ([consumer_reads_unread]).  [recover_from_disk] uses at most three kernel answers per log.
    [std::size_t] and [std::uint64_t] arithmetic is reduced modulo 2^64 where it can wrap.
    Running out of memory is not modelled.

    A crash keeps, of each file, a prefix with every byte an [fsync] covered
    ([crash_image]); that a file whose [fsync] returned has its directory entry on disk is
    taken for granted, since the code syncs no directory.

    ** What is not modelled

    Symbolic links; a relative path that leaves the working directory is only known by how
    far up it goes.  Logging, to [cout] by the broker and to [cerr]; the error codes of directory iteration
    (an unreadable directory is an empty one); the guard that closes a log's descriptor on
    an exception; [std::bad_alloc], and the exception of [std::thread]'s constructor; the
    unused [get_log_path]; the tests and the benchmarks.  Threads are interleaved at the
    mutexes and at the exchanges with the follower: accesses without a lock ([role_] and
    [follower_port_] are only read once the servers run) are atomic, and [metrics_] has its
    own atomics, each request's recording being one step.  A group or topic operation that
    holds its mutex throughout is one step.

    ** Plan

    Next: liveness over healthy kernels and links (a PRODUCE is answered [OK], a
    synchronization succeeds), the follower's side under concurrent REPLICATEs, memberships
    and consumer groups under threads, and the limit that frames put on REPLICATE lines. *)

From stdpp Require Export base tactics option list gmap fin_maps strings numbers sorting.
From Stdlib Require Export ZArith Lia.
From Stdlib Require Import Ascii.

(** ** Bytes

    A [std::string] is a sequence of 8-bit characters that may hold any byte,
    so it is a list of [char] (Rocq's [ascii]); [lit] writes a C++ string literal. *)

Abbreviation char := Ascii.ascii.
Abbreviation bytes := (list Ascii.ascii).

Definition lit (s : String.string) : bytes := String.list_ascii_of_string s.

(** The value of a byte seen as [unsigned char], and the low byte of an integer. *)
Definition byte_val (c : char) : Z := Z.of_N (N_of_ascii c).

Definition byte_of (z : Z) : char := ascii_of_N (Z.to_N (z mod 256)).

(** The object representation of [htonl(z)] (its four bytes in memory), and the
    value [ntohl] gives back for four bytes of memory. *)
Definition be32_enc (z : Z) : bytes :=
  [byte_of (Z.shiftr z 24); byte_of (Z.shiftr z 16);
   byte_of (Z.shiftr z 8); byte_of z].

Definition be32_dec (l : bytes) : Z :=
  fold_left (fun acc c => Z.lor (Z.shiftl acc 8) (byte_val c)) l 0%Z.

(** Machine integers are their value in [Z]; a conversion to a narrower unsigned
    type is written out. *)
Definition u32 (z : Z) : Z := z mod 2 ^ 32.

Definition u64 (z : Z) : Z := z mod 2 ^ 64.

(** Unsigned 32- and 64-bit values. *)
Definition is_u32 (z : Z) : Prop := (0 <= z < 2 ^ 32)%Z.

Definition is_u64 (z : Z) : Prop := (0 <= z < 2 ^ 64)%Z.

Definition INT_MAX : Z := 2 ^ 31 - 1.

Definition blen (l : bytes) : Z := Z.of_nat (length l).

(** ** Outcomes

    A C++ call returns, throws, or is cut short because the process stops in
    the middle of it ([Crash]).  Stateful code is a state-passing function; what it
    did to the state before throwing stays done, as in C++. *)

Inductive exn :=
| invalid_argument
| out_of_range
| runtime_error.

Inductive outcome (A : Type) :=
| Ret (a : A)
| Throw (e : exn)
| Crash.
Arguments Ret {A} a.
Arguments Throw {A} e.
Arguments Crash {A}.

Definition M (S A : Type) : Type := S -> outcome A * S.

#[export] Instance M_ret {S} : MRet (M S) := fun A a s => (Ret a, s).

#[export] Instance M_bind {S} : MBind (M S) := fun A B k m s =>
  match m s with
  | (Ret a, s') => k a s'
  | (Throw e, s') => (Throw e, s')
  | (Crash, s') => (Crash, s')
  end.

Definition throw {S A} (e : exn) : M S A := fun s => (Throw e, s).

Definition gets {S A} (f : S -> A) : M S A := fun s => (Ret (f s), s).

Definition modify {S} (f : S -> S) : M S unit := fun s => (Ret tt, f s).

(** [try { m } catch (const std::exception &) { h }]: a crash is not caught. *)
Definition try_catch {S A} (m : M S A) (h : M S A) : M S A := fun s =>
  match m s with
  | (Throw _, s') => h s'
  | r => r
  end.

(** Run a computation on a component of the state. *)
Definition zoom {S T A} (get : S -> T) (put : T -> S -> S) (m : M T A) : M S A :=
  fun s => let (r, t) := m (get s) in (r, put t s).

Create HintDb kafka.

#[export] Hint Resolve Forall_cons_2 Forall_nil_2 : kafka.

(** ** Tactics *)

(** Case analysis on the first [match] or [if] of the goal or of a hypothesis. *)
Ltac case_step :=
  match goal with
  | |- context [match ?x with _ => _ end] => let E := fresh "E" in destruct x eqn:E
  | H : context [match ?x with _ => _ end] |- _ => let E := fresh "E" in destruct x eqn:E
  end.

Ltac run := repeat (case_step; simplify_eq/=; try done).

(** [lia] with division and modulo wants numerals, not powers. *)
Ltac pow2_consts :=
  change (2 ^ 8)%Z with 256%Z in *; change (2 ^ 16)%Z with 65536%Z in *;
  change (2 ^ 24)%Z with 16777216%Z in *; change (2 ^ 31)%Z with 2147483648%Z in *;
  change (2 ^ 32)%Z with 4294967296%Z in *;
  change (2 ^ 63)%Z with 9223372036854775808%Z in *;
  change (2 ^ 64)%Z with 18446744073709551616%Z in *.

(** A fact about closed terms, by evaluation. *)
Ltac closed :=
  vm_compute;
  first [ reflexivity | discriminate | split; congruence | congruence | lia
        | repeat constructor; congruence ].

(** Solve an equation between exclusive ors from another one, bit by bit. *)
Ltac lxor_bits H :=
  let i := fresh "i" in let Hi := fresh "Hi" in
  apply Z.bits_inj'; intros i Hi;
  apply (f_equal (fun z => Z.testbit z i)) in H;
  rewrite ?Z.lxor_spec in H |- *;
  repeat match goal with
  | |- context [Z.testbit ?a i] => destruct (Z.testbit a i)
  | _ : context [Z.testbit ?a i] |- _ => destruct (Z.testbit a i)
  end; simpl in *; try congruence.

(** ** Facts about outcomes *)

Definition outcome_map {A B} (f : A -> B) (o : outcome A) : outcome B :=
  match o with Ret a => Ret (f a) | Throw e => Throw e | Crash => Crash end.

Lemma bind_ret {S A B} (m : M S A) (k : A -> M S B) s a s' :
  m s = (Ret a, s') -> (m ≫= k) s = k a s'.
Proof. unfold mbind, M_bind. by intros ->. Qed.

Lemma bind_throw {S A B} (m : M S A) (k : A -> M S B) s e s' :
  m s = (Throw e, s') -> (m ≫= k) s = (Throw e, s').
Proof. unfold mbind, M_bind. by intros ->. Qed.

(** A sequence ran to its second part, or stopped in the first. *)
Lemma bind_inv {S A B} (m : M S A) (k : A -> M S B) s o s' :
  (m ≫= k) s = (o, s') ->
  (exists a s1, m s = (Ret a, s1) /\ k a s1 = (o, s')) \/
  (exists o1, m s = (o1, s') /\ (forall a, o1 <> Ret a) /\ (forall b, o <> Ret b)).
Proof.
  unfold mbind, M_bind. destruct (m s) as [[a|e|] s1]; intros Hk.
  - left. by exists a, s1.
  - right. exists (Throw e). by simplify_eq.
  - right. exists Crash. by simplify_eq.
Qed.

(** ** Facts about bytes and machine integers *)

Section bytes_facts.

Lemma byte_val_range c : (0 <= byte_val c < 256)%Z.
Proof.
  unfold byte_val. pose proof (N_ascii_bounded c). lia.
Qed.

Lemma byte_of_val c : byte_of (byte_val c) = c.
Proof.
  unfold byte_of. rewrite Z.mod_small by apply byte_val_range.
  unfold byte_val. rewrite N2Z.id. apply ascii_N_embedding.
Qed.

Lemma byte_val_of z : byte_val (byte_of z) = (z mod 256)%Z.
Proof.
  unfold byte_val, byte_of.
  pose proof (Z.mod_pos_bound z 256 ltac:(lia)).
  rewrite N_ascii_embedding by lia. lia.
Qed.

Lemma byte_val_inj c d : byte_val c = byte_val d -> c = d.
Proof. intros H. by rewrite <-(byte_of_val c), <-(byte_of_val d), H. Qed.

Lemma length_be32_enc z : length (be32_enc z) = 4.
Proof. done. Qed.

Lemma bits_above z n i :
  (0 <= z < 2 ^ n)%Z -> (0 <= n <= i)%Z -> Z.testbit z i = false.
Proof.
  intros Hz Hi. destruct (decide (z = 0)%Z) as [->|]; [apply Z.bits_0|].
  apply Z.bits_above_log2; [lia|].
  apply Z.lt_le_trans with n; [apply Z.log2_lt_pow2; lia|lia].
Qed.

Lemma byte_bits_disjoint x c i :
  (0 <= i)%Z -> Z.testbit (Z.shiftl x 8) i = false \/ Z.testbit (byte_val c) i = false.
Proof.
  intros Hi. pose proof (byte_val_range c). destruct (decide (i < 8)%Z).
  - left. rewrite Z.shiftl_spec by lia. apply Z.testbit_neg_r. lia.
  - right. apply (bits_above _ 8); lia.
Qed.

Lemma lor_shiftl_8 x c :
  Z.lor (Z.shiftl x 8) (byte_val c) = (x * 256 + byte_val c)%Z.
Proof.
  pose proof (byte_val_range c).
  assert (Z.land (Z.shiftl x 8) (byte_val c) = 0)%Z as Hland.
  { apply Z.bits_inj'; intros i Hi. rewrite Z.land_spec, Z.bits_0.
    destruct (byte_bits_disjoint x c i Hi) as [-> | ->]; [done|apply andb_false_r]. }
  pose proof (Z.add_lor_land (Z.shiftl x 8) (byte_val c)).
  rewrite Z.shiftl_mul_pow2 in * by lia. lia.
Qed.

(** The same for [lxor]: the two operands have no bit in common. *)
Lemma lxor_shiftl_8 x c :
  Z.lxor (Z.shiftl x 8) (byte_val c) = (x * 256 + byte_val c)%Z.
Proof.
  rewrite <-lor_shiftl_8. apply Z.bits_inj'; intros i Hi.
  rewrite Z.lxor_spec, Z.lor_spec.
  destruct (byte_bits_disjoint x c i Hi) as [-> | ->]; by destruct (Z.testbit _ _).
Qed.

Lemma be32_dec_eq a b c d :
  be32_dec [a; b; c; d] =
  (byte_val a * 2 ^ 24 + byte_val b * 2 ^ 16 + byte_val c * 2 ^ 8 + byte_val d)%Z.
Proof. unfold be32_dec; simpl. rewrite !lor_shiftl_8. lia. Qed.

Lemma be32_dec_range a b c d : (0 <= be32_dec [a; b; c; d] < 2 ^ 32)%Z.
Proof.
  rewrite be32_dec_eq.
  pose proof (byte_val_range a); pose proof (byte_val_range b).
  pose proof (byte_val_range c); pose proof (byte_val_range d). lia.
Qed.

(** [ntohl] undoes [htonl] on 32-bit values, and [htonl] undoes [ntohl] on any four
    bytes: the two encodings of a length agree. *)
Lemma be32_dec_enc z : (0 <= z < 2 ^ 32)%Z -> be32_dec (be32_enc z) = z.
Proof.
  intros Hz. unfold be32_enc. rewrite be32_dec_eq, !byte_val_of.
  rewrite !Z.shiftr_div_pow2 by lia. pow2_consts. Z.div_mod_to_equations. lia.
Qed.

Lemma be32_enc_dec a b c d : be32_enc (be32_dec [a; b; c; d]) = [a; b; c; d].
Proof.
  unfold be32_enc. rewrite be32_dec_eq, !Z.shiftr_div_pow2 by lia.
  pose proof (byte_val_range a); pose proof (byte_val_range b).
  pose proof (byte_val_range c); pose proof (byte_val_range d).
  pow2_consts.
  repeat f_equal; apply byte_val_inj; rewrite byte_val_of; Z.div_mod_to_equations; lia.
Qed.

Lemma u64_small z : is_u64 z -> u64 z = z.
Proof. apply Z.mod_small. Qed.

Lemma u32_small z : is_u32 z -> u32 z = z.
Proof. apply Z.mod_small. Qed.

Lemma be32_enc_inj y z :
  (0 <= y < 2 ^ 32)%Z -> (0 <= z < 2 ^ 32)%Z -> be32_enc y = be32_enc z -> y = z.
Proof. intros Hy Hz H. by rewrite <-(be32_dec_enc y), <-(be32_dec_enc z), H. Qed.

Lemma blen_app l1 l2 : blen (l1 ++ l2) = (blen l1 + blen l2)%Z.
Proof. unfold blen. rewrite length_app. lia. Qed.

Lemma blen_nonneg l : (0 <= blen l)%Z.
Proof. unfold blen. lia. Qed.

Lemma is_u64_prefix l1 l2 : is_u64 (blen (l1 ++ l2)) -> is_u64 (blen l1).
Proof.
  unfold is_u64. rewrite blen_app.
  pose proof (blen_nonneg l1). pose proof (blen_nonneg l2). lia.
Qed.

End bytes_facts.
