(* ===== verification/Text.v ===== *)
(** * The C++ text library as the broker uses it

    [std::to_string], [std::stoi]/[stoll]/[stoull], and the parts of
    [std::istringstream] that the parser relies on: [operator>>(std::string&)],
    [std::getline], [find_first_not_of(' ')].  The locale is the classic one. *)

From S2P Require Import Prelude.

(** ** Definitions *)

(** [std::isspace] in the classic locale: space, \t, \n, \v, \f, \r. *)
Definition isspace (c : char) : bool :=
  (byte_val c =? 32)%Z || ((9 <=? byte_val c) && (byte_val c <=? 13))%Z.

Definition isdigit (c : char) : bool := ((48 <=? byte_val c) && (byte_val c <=? 57))%Z.

Definition space : char := byte_of 32.

Definition newline : char := byte_of 10.

Fixpoint span (p : char -> bool) (l : bytes) : bytes * bytes :=
  match l with
  | [] => ([], [])
  | c :: l' => if p c then let (a, b) := span p l' in (c :: a, b) else ([], l)
  end.

(** *** Numbers *)

Definition digit (z : Z) : char := byte_of (48 + z).

(** Twenty digits hold every 64-bit value. *)
Fixpoint dec_digits (fuel : nat) (n : Z) (acc : bytes) : bytes :=
  match fuel with
  | O => acc
  | S fuel =>
      let acc := digit (n mod 10) :: acc in
      if (n <? 10)%Z then acc else dec_digits fuel (n / 10) acc
  end.

Definition to_string (n : Z) : bytes :=
  if (n <? 0)%Z then byte_of 45 :: dec_digits 20 (- n) [] else dec_digits 20 n [].

Definition digits_val (ds : bytes) : Z :=
  fold_left (fun acc c => acc * 10 + (byte_val c - 48))%Z ds 0%Z.

(** [strtol]-style scan in base 10: white space, an optional sign, digits.  The result
    is the sign, the magnitude and the number of characters consumed. *)
Definition scan_int (s : bytes) : option (bool * Z * Z) :=
  let (ws, s1) := span isspace s in
  let '(neg, sgn, s2) :=
    match s1 with
    | c :: r => if (byte_val c =? 45)%Z then (true, 1%Z, r)
                else if (byte_val c =? 43)%Z then (false, 1%Z, r) else (false, 0%Z, s1)
    | [] => (false, 0%Z, s1)
    end in
  let (ds, _) := span isdigit s2 in
  match ds with
  | [] => None
  | _ => Some (neg, digits_val ds, (blen ws + sgn + blen ds)%Z)
  end.

Definition signed_val (neg : bool) (m : Z) : Z := if neg then (- m)%Z else m.

(** [std::stoi] and [std::stoll] reject a value out of the range of the type;
    [std::stoull] accepts a minus sign and negates modulo 2^64. *)
Definition sto_signed (w : Z) (s : bytes) : exn + Z * Z :=
  match scan_int s with
  | None => inl invalid_argument
  | Some (neg, m, pos) =>
      let v := signed_val neg m in
      if ((- 2 ^ (w - 1) <=? v) && (v <? 2 ^ (w - 1)))%Z then inr (v, pos)
      else inl out_of_range
  end.

Definition stoi (s : bytes) : exn + Z * Z := sto_signed 32 s.

Definition stoll (s : bytes) : exn + Z * Z := sto_signed 64 s.

Definition stoull (s : bytes) : exn + Z * Z :=
  match scan_int s with
  | None => inl invalid_argument
  | Some (neg, m, pos) =>
      if (m <? 2 ^ 64)%Z then inr (u64 (signed_val neg m), pos) else inl out_of_range
  end.

(** *** [std::istringstream]

    [rest] is the unread part; [good] is false once [eofbit] or [failbit] is set. *)
Record istringstream := mkStream { rest : bytes; good : bool }.

Definition open_stream (s : bytes) : istringstream := mkStream s true.

(** [iss >> word]: [None] when the extraction fails. *)
Definition extract (iss : istringstream) : option bytes * istringstream :=
  if negb (good iss) then (None, iss) else
  let (_, s) := span isspace (rest iss) in
  match s with
  | [] => (None, mkStream [] false)
  | _ =>
      let (w, s') := span (fun c => negb (isspace c)) s in
      (Some w, mkStream s' (match s' with [] => false | _ => true end))
  end.

(** [std::getline(iss, line)] on an empty [line]: what the line holds afterwards. *)
Definition getline (iss : istringstream) : bytes * istringstream :=
  if negb (good iss) then ([], iss) else
  let (l, s) := span (fun c => negb (byte_val c =? 10)%Z) (rest iss) in
  match s with
  | [] => (l, mkStream [] false)
  | _ :: s' => (l, mkStream s' true)
  end.

(** [while (std::getline(lines, line))]: [None] when the call sets [failbit], at the end of
    the input. *)
Definition next_line (lines : istringstream) : option (bytes * istringstream) :=
  if negb (good lines) || bool_decide (rest lines = []) then None else Some (getline lines).

(** The field of an integer for [iss >> n]: a sign and digits, up to the first character
    that does not belong to it. *)
Definition extract_number (iss : istringstream) : option (bool * Z) * istringstream :=
  if negb (good iss) then (None, iss) else
  let (_, s) := span isspace (rest iss) in
  let '(neg, s) :=
    match s with
    | c :: r => if (byte_val c =? 45)%Z then (true, r)
                else if (byte_val c =? 43)%Z then (false, r) else (false, s)
    | [] => (false, s)
    end in
  let (ds, s) := span isdigit s in
  match ds with
  | [] => (None, mkStream s false)
  | _ => (Some (neg, digits_val ds), mkStream s (match s with [] => false | _ => true end))
  end.

(** [iss >> n] for an [int] and for a [std::uint64_t], which accepts a minus sign; [None]
    when the extraction sets [failbit]. *)
Definition extract_int (iss : istringstream) : option Z * istringstream :=
  match extract_number iss with
  | (Some (neg, m), iss) =>
      let v := signed_val neg m in
      if ((- 2 ^ 31 <=? v) && (v <? 2 ^ 31))%Z then (Some v, iss)
      else (None, mkStream (rest iss) false)
  | (None, iss) => (None, iss)
  end.

Definition extract_u64 (iss : istringstream) : option Z * istringstream :=
  match extract_number iss with
  | (Some (neg, m), iss) =>
      if (m <? 2 ^ 64)%Z then (Some (u64 (signed_val neg m)), iss)
      else (None, mkStream (rest iss) false)
  | (None, iss) => (None, iss)
  end.

(** [find_first_not_of(' ')] and the [substr] it guards: a string of spaces only
    ([npos]) is left as it is. *)
Definition strip_leading_spaces (s : bytes) : bytes :=
  let (_, s') := span (fun c => (byte_val c =? 32)%Z) s in
  match s' with [] => s | _ => s' end.

(** Lines with a newline between two of them, as [FETCH] and [GROUP_POLL] build them. *)
Fixpoint join_lines (ls : list bytes) : bytes :=
  match ls with
  | [] => []
  | [l] => l
  | l :: ls => l ++ newline :: join_lines ls
  end.

(** ** Predicates on words *)

(** A word is what [>>] extracts: not empty, no white space. *)
Definition is_word (w : bytes) : Prop := w <> [] /\ forallb (fun c => negb (isspace c)) w = true.

Definition no_newline (l : bytes) : Prop :=
  forallb (fun c => negb (byte_val c =? 10)%Z) l = true.

#[export] Instance is_word_dec w : Decision (is_word w).
Proof. unfold is_word. apply _. Defined.

(** The first character, if any, fails [p]. *)
Definition stops (p : char -> bool) (l : bytes) : Prop :=
  match l with [] => True | c :: _ => p c = false end.

(** ** Lemmas *)

Lemma span_app p a b :
  forallb p a = true -> stops p b -> span p (a ++ b) = (a, b).
Proof.
  induction a as [|c a IH]; intros Ha Hb; simpl.
  - destruct b as [|d b]; simpl in *; [done|]. by rewrite Hb.
  - simpl in Ha. apply andb_true_iff in Ha as [-> Ha]. by rewrite IH.
Qed.

Lemma span_all p a : forallb p a = true -> span p a = (a, []).
Proof. intros H. rewrite <-(app_nil_r a) at 1. by apply span_app. Qed.

Lemma span_none p b : stops p b -> span p b = ([], b).
Proof. intros H. by apply (span_app p []). Qed.

Lemma span_spec p l a b :
  span p l = (a, b) -> l = a ++ b /\ forallb p a = true /\ stops p b.
Proof.
  revert a b. induction l as [|c l IH]; intros a b H; simpl in H; [by simplify_eq|].
  destruct (p c) eqn:Hc.
  - destruct (span p l) as [a' b']. simplify_eq.
    destruct (IH a' b eq_refl) as (-> & Ha & Hb). simpl. by rewrite Hc.
  - by simplify_eq.
Qed.

(** *** Decimal numbers *)

Lemma digits_val_app l1 l2 :
  digits_val (l1 ++ l2) =
  fold_left (fun acc c => acc * 10 + (byte_val c - 48))%Z l2 (digits_val l1).
Proof. unfold digits_val. by rewrite fold_left_app. Qed.

Lemma digits_val_snoc l c :
  digits_val (l ++ [c]) = (digits_val l * 10 + (byte_val c - 48))%Z.
Proof. by rewrite digits_val_app. Qed.

Lemma byte_val_digit z : (0 <= z < 10)%Z -> byte_val (digit z) = (48 + z)%Z.
Proof. intros. unfold digit. rewrite byte_val_of. apply Z.mod_small. lia. Qed.

Lemma isdigit_digit z : (0 <= z < 10)%Z -> isdigit (digit z) = true.
Proof. intros. unfold isdigit. rewrite byte_val_digit by done. lia. Qed.

Lemma isdigit_not_space c : isdigit c = true -> isspace c = false.
Proof. unfold isdigit, isspace. lia. Qed.

Lemma dec_digits_spec fuel n acc :
  (0 <= n < 10 ^ Z.of_nat fuel)%Z -> (0 < fuel) ->
  exists ds, dec_digits fuel n acc = ds ++ acc /\ ds <> [] /\
             forallb isdigit ds = true /\ digits_val ds = n.
Proof.
  revert n acc. induction fuel as [|fuel IH]; intros n acc Hn Hf; [lia|].
  pose proof (Z.mod_pos_bound n 10 ltac:(lia)).
  cbn [dec_digits]. destruct (n <? 10)%Z eqn:E.
  - apply Z.ltb_lt in E. exists [digit (n mod 10)]. split_and!; [done..| |].
    + simpl. by rewrite isdigit_digit.
    + rewrite Z.mod_small by lia. unfold digits_val. simpl.
      rewrite byte_val_digit by lia. lia.
  - apply Z.ltb_ge in E.
    destruct fuel as [|fuel]; [simpl in Hn; lia|].
    rewrite Nat2Z.inj_succ, Z.pow_succ_r in Hn by lia.
    destruct (IH (n / 10)%Z (digit (n mod 10) :: acc)) as (ds & -> & Hne & Hds & Hv).
    { Z.div_mod_to_equations; lia. } { lia. }
    exists (ds ++ [digit (n mod 10)]). rewrite <-app_assoc. split_and!; [done|..].
    + by destruct ds.
    + rewrite forallb_app, Hds. simpl. by rewrite isdigit_digit.
    + rewrite digits_val_snoc, Hv, byte_val_digit by done.
      Z.div_mod_to_equations; lia.
Qed.

Lemma to_string_nonneg n :
  (0 <= n < 10 ^ 20)%Z ->
  to_string n <> [] /\ forallb isdigit (to_string n) = true /\ digits_val (to_string n) = n.
Proof.
  intros Hn. unfold to_string. rewrite (proj2 (Z.ltb_ge n 0)) by lia.
  destruct (dec_digits_spec 20 n [] Hn ltac:(lia)) as (ds & -> & ?).
  by rewrite app_nil_r.
Qed.

Lemma digits_word ds : ds <> [] -> forallb isdigit ds = true -> is_word ds.
Proof.
  intros Hne Hds. split; [done|]. clear Hne.
  induction ds as [|c ds IH]; [done|]; simpl in *.
  apply andb_true_iff in Hds as [Hc Hds]. by rewrite (isdigit_not_space c), IH.
Qed.

Lemma to_string_word n : (0 <= n < 10 ^ 20)%Z -> is_word (to_string n).
Proof. intros Hn. destruct (to_string_nonneg n Hn) as (? & ? & _). by apply digits_word. Qed.

Lemma digits_head c ds s :
  forallb isdigit (c :: ds) = true ->
  stops isspace ((c :: ds) ++ s) /\ byte_val c <> 45%Z /\ byte_val c <> 43%Z.
Proof.
  simpl. intros [Hc _]%andb_true_iff. split; [by apply isdigit_not_space|].
  unfold isdigit in Hc. lia.
Qed.

Lemma scan_int_digits ds s :
  ds <> [] -> forallb isdigit ds = true -> stops isdigit s ->
  scan_int (ds ++ s) = Some (false, digits_val ds, blen ds).
Proof.
  intros Hne Hds Hs. destruct ds as [|c ds]; [done|].
  destruct (digits_head c ds s Hds) as (Hsp & H1 & H2).
  unfold scan_int. rewrite span_none by done.
  cbn beta iota zeta. cbn [app].
  rewrite (proj2 (Z.eqb_neq _ 45)), (proj2 (Z.eqb_neq _ 43)) by done.
  rewrite app_comm_cons, span_app by done. done.
Qed.

Lemma scan_int_to_string n :
  (0 <= n < 10 ^ 20)%Z ->
  scan_int (to_string n) = Some (false, n, blen (to_string n)).
Proof.
  intros Hn. destruct (to_string_nonneg n Hn) as (Hne & Hds & Hv).
  rewrite <-Hv at 2. rewrite <-(app_nil_r (to_string n)) at 1.
  by apply scan_int_digits.
Qed.

(** Reading back what [std::to_string] printed. *)
Lemma sto_signed_to_string w n :
  (0 <= w <= 64)%Z -> (0 <= n < 2 ^ (w - 1))%Z ->
  sto_signed w (to_string n) = inr (n, blen (to_string n)).
Proof.
  intros Hw Hn. assert (2 ^ (w - 1) <= 2 ^ 63)%Z by (apply Z.pow_le_mono_r; lia).
  unfold sto_signed. rewrite scan_int_to_string by (pow2_consts; lia). simpl.
  by rewrite (proj2 (Z.leb_le _ n)), (proj2 (Z.ltb_lt n _)) by lia.
Qed.

Lemma stoull_to_string n :
  is_u64 n -> stoull (to_string n) = inr (n, blen (to_string n)).
Proof.
  intros Hn. unfold is_u64 in Hn. pose proof Hn. pow2_consts.
  unfold stoull. rewrite scan_int_to_string by lia. simpl.
  rewrite (proj2 (Z.ltb_lt n _)) by lia. by rewrite u64_small.
Qed.

Lemma to_string_inj n m :
  (0 <= n < 10 ^ 20)%Z -> (0 <= m < 10 ^ 20)%Z -> to_string n = to_string m -> n = m.
Proof.
  intros Hn Hm H. pose proof (scan_int_to_string n Hn) as E.
  rewrite H, scan_int_to_string in E by done. by simplify_eq.
Qed.

(** *** Streams *)

Lemma word_head_stops w s : is_word w -> stops isspace (w ++ s).
Proof.
  intros [Hne Hw]. destruct w as [|c w]; [done|]. simpl in *.
  apply andb_true_iff in Hw as [Hw _]. by apply negb_true_iff.
Qed.

Lemma extract_word ws w s :
  forallb isspace ws = true -> is_word w -> stops (fun c => negb (isspace c)) s ->
  extract (mkStream (ws ++ w ++ s) true) =
    (Some w, mkStream s (match s with [] => false | _ => true end)).
Proof.
  intros Hws Hw Hs. unfold extract; simpl.
  rewrite span_app by (done || by apply word_head_stops).
  destruct Hw as [Hne Hw]. rewrite (span_app _ w s) by done.
  by destruct w.
Qed.

(** The two shapes the broker's requests have: a word and a space, or a last word. *)
Lemma extract_first w s : is_word w ->
  extract (open_stream (w ++ space :: s)) = (Some w, mkStream (space :: s) true).
Proof. intros Hw. by apply (extract_word [] w (space :: s)). Qed.

Lemma extract_mid w s : is_word w ->
  extract (mkStream (space :: w ++ space :: s) true) = (Some w, mkStream (space :: s) true).
Proof. intros Hw. by apply (extract_word [space] w (space :: s)). Qed.

Lemma extract_last w : is_word w ->
  extract (mkStream (space :: w) true) = (Some w, mkStream [] false).
Proof.
  intros Hw. rewrite <-(app_nil_r w) at 1. by apply (extract_word [space] w []).
Qed.

Lemma extract_only w : is_word w ->
  extract (open_stream w) = (Some w, mkStream [] false).
Proof. intros Hw. rewrite <-(app_nil_r w) at 1. by apply (extract_word [] w []). Qed.

Lemma extract_bad s : extract (mkStream s false) = (None, mkStream s false).
Proof. done. Qed.

(** Reading a number that [std::to_string] printed. *)
Lemma extract_number_to_string n s :
  (0 <= n < 10 ^ 20)%Z -> stops isdigit s ->
  extract_number (mkStream (space :: to_string n ++ s) true) =
    (Some (false, n), mkStream s (match s with [] => false | _ => true end)).
Proof.
  intros Hn Hs. destruct (to_string_nonneg n Hn) as (Hne & Hds & Hv).
  unfold extract_number. cbn [good rest negb].
  destruct (to_string n) as [|c ds] eqn:E; [done|].
  destruct (digits_head c ds s Hds) as (Hsp & H1 & H2).
  change (space :: (c :: ds) ++ s) with ([space] ++ (c :: ds) ++ s).
  rewrite (span_app isspace [space]) by done. cbn [app].
  rewrite (proj2 (Z.eqb_neq _ 45)), (proj2 (Z.eqb_neq _ 43)) by done.
  rewrite app_comm_cons, span_app by done. by rewrite <-Hv.
Qed.

Lemma extract_int_to_string n s :
  (0 <= n < 2 ^ 31)%Z -> stops isdigit s ->
  extract_int (mkStream (space :: to_string n ++ s) true) =
    (Some n, mkStream s (match s with [] => false | _ => true end)).
Proof.
  intros Hn Hs. unfold extract_int. rewrite extract_number_to_string by (done || lia). simpl.
  by rewrite (proj2 (Z.leb_le _ n)), (proj2 (Z.ltb_lt n _)) by lia.
Qed.

Lemma extract_u64_to_string n s :
  is_u64 n -> stops isdigit s ->
  extract_u64 (mkStream (space :: to_string n ++ s) true) =
    (Some n, mkStream s (match s with [] => false | _ => true end)).
Proof.
  intros Hn Hs. pose proof Hn as Hn'. unfold is_u64 in Hn'. pow2_consts. unfold extract_u64.
  rewrite extract_number_to_string by (done || lia).
  rewrite (proj2 (Z.ltb_lt n _)) by (pow2_consts; lia). simpl. by rewrite u64_small.
Qed.

Lemma extract_Some iss w iss' : extract iss = (Some w, iss') -> is_word w.
Proof.
  unfold extract. destruct (good iss); [|done]. simpl.
  destruct (span isspace (rest iss)) as [ws s] eqn:E1.
  destruct s as [|c s]; [done|].
  destruct (span _ (c :: s)) as [w' s'] eqn:E2. intros [= <- <-].
  apply span_spec in E1 as (_ & _ & Hc). apply span_spec in E2 as (Heq & Hw & Hs).
  split; [|done]. destruct w'; [|done]. simpl in Heq, Hc. subst s'. simpl in Hs.
  by rewrite Hc in Hs.
Qed.

Lemma getline_all l : no_newline l ->
  getline (mkStream l true) = (l, mkStream [] false).
Proof. intros Hl. unfold getline; simpl. by rewrite span_all. Qed.

Lemma getline_no_newline iss : no_newline (getline iss).1.
Proof.
  unfold getline. destruct (good iss); [|done]. simpl.
  destruct (span _ (rest iss)) as [l s] eqn:E. apply span_spec in E as (_ & Hl & _).
  by destruct s.
Qed.

Lemma next_line_last l : l <> [] -> no_newline l ->
  next_line (open_stream l) = Some (l, mkStream [] false).
Proof.
  intros Hne Hl. unfold next_line, open_stream. cbn [good rest negb orb].
  rewrite bool_decide_eq_false_2 by done.
  by rewrite getline_all.
Qed.

Lemma next_line_more l s : no_newline l ->
  next_line (open_stream (l ++ newline :: s)) = Some (l, open_stream s).
Proof.
  intros Hl. unfold next_line, getline. simpl.
  rewrite bool_decide_eq_false_2 by (by destruct l). by rewrite span_app.
Qed.

Lemma strip_space_cons s c l :
  forallb (fun c => (byte_val c =? 32)%Z) s = true -> (byte_val c =? 32)%Z = false ->
  strip_leading_spaces (s ++ c :: l) = c :: l.
Proof. intros Hs Hc. unfold strip_leading_spaces. by rewrite span_app. Qed.

Lemma strip_sublist s : exists pre, s = pre ++ strip_leading_spaces s.
Proof.
  unfold strip_leading_spaces. destruct (span _ s) as [a b] eqn:E.
  apply span_spec in E as (-> & _). destruct b; [by exists []|by exists a].
Qed.

Lemma strip_no_newline s : no_newline s -> no_newline (strip_leading_spaces s).
Proof.
  destruct (strip_sublist s) as [pre Hpre]. unfold no_newline. rewrite Hpre at 1.
  rewrite forallb_app. by intros [_ ?]%andb_true_iff.
Qed.

#[export] Hint Resolve to_string_word extract_Some strip_no_newline getline_no_newline : kafka.
