(* ===== verification/Paths.v ===== *)
(** * File names ([std::filesystem::path] and the kernel's path resolution)

    The code builds file names as strings; the kernel reads them up to the first null
    byte, component by component, skips empty ones and ".", and goes up at "..".  Two
    strings are the same file when they resolve to the same path.  Symbolic links are not
    modelled, and a relative path that climbs above the working directory only knows how
    far. *)

From S2P Require Import Prelude Text.

(** ** Definitions *)

(** A resolved path: absolute ([None]), or some levels above the working directory; and the
    names from there down. *)
Record Path := mkPath { up : option nat; names : list bytes }.

#[export] Instance path_eq_dec : EqDecision Path.
Proof. solve_decision. Defined.

(** A path as one list, each part of it followed by a [None]. *)
Definition flatten (ns : list bytes) : list (option char) :=
  concat (map (fun name => map Some name ++ [None]) ns).

Fixpoint unflatten (l : list (option char)) (name : bytes) : list bytes :=
  match l with
  | [] => []
  | Some c :: l => unflatten l (name ++ [c])
  | None :: l => name :: unflatten l []
  end.

Lemma unflatten_flatten ns : unflatten (flatten ns) [] = ns.
Proof.
  assert (forall name pre l, unflatten (map Some name ++ None :: l) pre =
    (pre ++ name) :: unflatten l []) as Hone.
  { induction name as [|c name IH]; intros pre l; simpl; [by rewrite app_nil_r|].
    by rewrite IH, <-app_assoc. }
  unfold flatten. induction ns as [|name ns IH]; [done|]. cbn [map concat].
  rewrite <-app_assoc. cbn [app]. by rewrite Hone, IH.
Qed.

Definition path_parts (p : Path) : list bytes :=
  match up p with None => lit "/" | Some n => repeat (byte_of 46) n end :: names p.

Definition of_parts (parts : list bytes) : option Path :=
  match parts with
  | [] => None
  | c :: ns => Some (mkPath (if bool_decide (c = lit "/") then None else Some (length c)) ns)
  end.

Lemma of_path_parts p : of_parts (path_parts p) = Some p.
Proof.
  destruct p as [[n|] ns]; [|done]. unfold of_parts, path_parts; simpl.
  rewrite bool_decide_eq_false_2, repeat_length; [done|]. by destruct n as [|[|n]].
Qed.

#[export] Program Instance path_countable : Countable Path :=
  inj_countable (fun p => flatten (path_parts p)) (fun l => of_parts (unflatten l [])) _.
Next Obligation. intros p. simpl. by rewrite unflatten_flatten, of_path_parts. Qed.

Definition not_slash (c : char) : bool := negb (byte_val c =? 47)%Z.

Definition not_nul (c : char) : bool := negb (byte_val c =? 0)%Z.

(** What [c_str()] passes to the kernel. *)
Definition c_str (s : bytes) : bytes := (span not_nul s).1.

(** The components between the slashes. *)
Fixpoint components (s : bytes) : list bytes :=
  match s with
  | [] => [[]]
  | c :: s =>
      if not_slash c then
        match components s with
        | [] => [[c]]
        | name :: rest => (c :: name) :: rest
        end
      else [] :: components s
  end.

Definition enter (p : Path) (name : bytes) : Path :=
  if bool_decide (name = [] \/ name = lit ".") then p
  else if bool_decide (name = lit "..") then
    match names p with
    | [] => mkPath (S <$> up p) []
    | ns => mkPath (up p) (removelast ns)
    end
  else mkPath (up p) (names p ++ [name]).

Definition base_of (s : bytes) : option nat :=
  match s with
  | c :: _ => if not_slash c then Some 0 else None
  | [] => Some 0
  end.

Definition resolve (s : bytes) : Path :=
  fold_left enter (components (c_str s)) (mkPath (base_of (c_str s)) []).

(** *** Specification *)

(** A name that a directory can have as an entry. *)
Definition plain (name : bytes) : Prop :=
  name <> [] /\ name <> lit "." /\ name <> lit ".." /\
  forallb not_slash name = true /\ forallb not_nul name = true.

(** A relative path whose components are such names. *)
Definition normal (s : bytes) : Prop := Forall plain (components s).

(** The name of a directory that the code may be given. *)
Definition dir_ok (dir : bytes) : Prop := dir <> [] /\ forallb not_nul dir = true.

(** What lies below a directory. *)
Definition under (dir : Path) (ns : list bytes) : Path := mkPath (up dir) (names dir ++ ns).

(** ** Lemmas *)

Lemma components_nonempty s : components s <> [].
Proof. destruct s as [|c s]; [done|]. simpl. destruct (not_slash c), (components s); done. Qed.

Lemma components_no_slash s : forallb not_slash s = true -> components s = [s].
Proof.
  induction s as [|c s IH]; [done|]. simpl. intros [Hc Hs]%andb_true_iff.
  by rewrite Hc, IH.
Qed.

Lemma components_app a b : components (a ++ lit "/" ++ b) = components a ++ components b.
Proof.
  induction a as [|c a IH]; [done|].
  change ((c :: a) ++ lit "/" ++ b) with (c :: (a ++ lit "/" ++ b)). cbn [components].
  rewrite IH. pose proof (components_nonempty a).
  destruct (not_slash c); [|done]. by destruct (components a).
Qed.

Fixpoint join_slash (ns : list bytes) : bytes :=
  match ns with
  | [] => []
  | [name] => name
  | name :: ns => name ++ lit "/" ++ join_slash ns
  end.

Lemma join_components s : join_slash (components s) = s.
Proof.
  induction s as [|c s IH]; [done|]. cbn [components].
  destruct (not_slash c) eqn:Hc.
  - destruct (components s) as [|name [|name' rest]]; simpl in *; by subst s.
  - pose proof (components_nonempty s). destruct (components s) as [|name rest]; [done|].
    apply negb_false_iff, Z.eqb_eq in Hc.
    assert (c = byte_of 47) as -> by (by apply byte_val_inj). simpl in *. by subst s.
Qed.

Lemma components_inj s1 s2 : components s1 = components s2 -> s1 = s2.
Proof. intros Heq. by rewrite <-(join_components s1), Heq, join_components. Qed.

Lemma plain_components name : plain name -> components name = [name].
Proof. intros (_ & _ & _ & Hs & _). by apply components_no_slash. Qed.

Lemma plain_normal name : plain name -> normal name.
Proof. intros Hp. unfold normal. rewrite plain_components by done. by apply Forall_singleton. Qed.

Lemma enter_plain p name : plain name -> enter p name = under p [name].
Proof.
  intros (H1 & H2 & H3 & _). unfold enter. rewrite !bool_decide_eq_false_2; [done|done|].
  by intros [?|?].
Qed.

Lemma enter_all ns : forall p, Forall plain ns -> fold_left enter ns p = under p ns.
Proof.
  induction ns as [|name ns IH]; intros p Hns; unfold under.
  { rewrite app_nil_r. by destruct p. }
  apply Forall_cons in Hns as [Hn Hns]. cbn [fold_left]. rewrite IH, enter_plain by done.
  unfold under; simpl. by rewrite <-app_assoc.
Qed.

Lemma c_str_id s : forallb not_nul s = true -> c_str s = s.
Proof. intros Hs. unfold c_str. by rewrite span_all. Qed.

Lemma normal_not_nul s : normal s -> forallb not_nul s = true.
Proof.
  unfold normal. rewrite <-(join_components s) at 2.
  induction (components s) as [|name ns IH]; [done|]. intros [Hn Hns]%Forall_cons.
  destruct Hn as (_ & _ & _ & _ & Hn). destruct ns as [|name' ns]; [done|].
  change (join_slash (name :: name' :: ns)) with (name ++ lit "/" ++ join_slash (name' :: ns)).
  by rewrite !forallb_app, Hn, IH.
Qed.

Lemma normal_nonempty s : normal s -> s <> [].
Proof. intros Hs ->. apply Forall_singleton in Hs as [Hne _]. by apply Hne. Qed.

(** The files below a directory. *)
Lemma resolve_under dir s :
  dir_ok dir -> normal s ->
  resolve (dir ++ lit "/" ++ s) = under (resolve dir) (components s).
Proof.
  intros [Hne Hnul] Hs. unfold resolve.
  rewrite !c_str_id; [|done|by rewrite !forallb_app, Hnul, (normal_not_nul s Hs)].
  rewrite components_app, fold_left_app, enter_all by done.
  by destruct dir as [|c dir].
Qed.

Lemma under_inj dir ns1 ns2 : under dir ns1 = under dir ns2 -> ns1 = ns2.
Proof. intros [= Heq]. by apply app_inv_head in Heq. Qed.

Lemma normal_app a b : normal (a ++ lit "/" ++ b) <-> normal a /\ normal b.
Proof. unfold normal. by rewrite components_app, Forall_app. Qed.

(** The same file by another name. *)
Example resolve_aliases :
  resolve (lit "data/./t//x/../partition-0.log") = resolve (lit "data/t/partition-0.log") /\
  resolve (lit "data/../partition-0.log") = resolve (lit "partition-0.log") /\
  resolve (lit "/../a") = resolve (lit "/a") /\ resolve (lit "../a") <> resolve (lit "a").
Proof. split_and!; [vm_compute; reflexivity..|vm_compute; discriminate]. Qed.
