(* ===== verification/LogRecord.v ===== *)
(** * Log records: CRC32 and the persistent record format ([src/record.hpp])

    [serialize_record] lays a record out as
    [4-byte big-endian length][payload][4-byte big-endian CRC32]; the checksum
    covers the length bytes and the payload.  Sizes are [size_t] and [uint32_t]
    values in [Z], their wrap-around written out with [u64] and [u32]. *)

From S2P Require Import Prelude.

(** ** Definitions *)

(** [struct Record]; the keyword forces another name. *)
Record LogRecord := mkRecord { payload : bytes }.

#[export] Instance LogRecord_eq_dec : EqDecision LogRecord.
Proof. solve_decision. Defined.

Section crc.
Local Open Scope Z_scope.

(** The body of the inner loop, [for (int bit = 0; bit < 8; ++bit)]. *)
Definition crc32_bit (crc : Z) : Z :=
  if negb (Z.land crc 1 =? 0)
  then Z.lxor (Z.shiftr crc 1) 0xEDB88320
  else Z.shiftr crc 1.

(** One turn of the outer loop: [crc ^= (unsigned char)data[i]], then the inner loop. *)
Definition crc32_byte (crc : Z) (c : char) : Z :=
  Nat.iter 8 crc32_bit (Z.lxor crc (byte_val c)).

Definition crc32 (data : bytes) : Z :=
  Z.lxor (fold_left crc32_byte data 0xFFFFFFFF) 0xFFFFFFFF.

(** Eight register updates: a turn of the outer loop after the exclusive or. *)
Definition crc32_step (z : Z) : Z := Nat.iter 8 crc32_bit z.

Fixpoint le_val (w : bytes) : Z :=
  match w with
  | [] => 0
  | c :: w => Z.lxor (byte_val c) (Z.shiftl (le_val w) 8)
  end.

Definition serialize_record (record : LogRecord) : bytes :=
  let len := u32 (blen (payload record)) in
  let buffer := be32_enc len ++ payload record in
  let checksum := crc32 buffer in
  buffer ++ be32_enc checksum.

(** [buffer.substr(pos, n)] and the [memcpy] from [buffer.data() + pos]. *)
Definition slice (buffer : bytes) (pos n : Z) : bytes :=
  take (Z.to_nat n) (drop (Z.to_nat pos) buffer).

(** [None] is [return false]: neither the caller's offset nor the record changed. *)
Definition deserialize_record (buffer : bytes) (buffer_offset : Z)
    : option (LogRecord * Z) :=
  let record_start := buffer_offset in
  let length_size := 4 in
  let checksum_size := 4 in
  let size := blen buffer in
  if (size <? record_start) || (u64 (size - record_start) <? length_size)
  then None else
  let payload_length := be32_dec (slice buffer record_start 4) in
  if u64 (u64 (size - record_start) - length_size) <? payload_length
  then None else
  let payload_start := u64 (record_start + length_size) in
  let checksum_start := u64 (payload_start + payload_length) in
  if u64 (size - checksum_start) <? checksum_size
  then None else
  let stored_checksum := be32_dec (slice buffer checksum_start 4) in
  let calculated_checksum :=
    crc32 (slice buffer record_start (u64 (length_size + payload_length))) in
  if negb (calculated_checksum =? stored_checksum)
  then None else
  Some (mkRecord (slice buffer payload_start payload_length),
        u64 (checksum_start + checksum_size)).

End crc.

(** ** The checksum register stays a 32-bit value *)

Section crc_facts.
Local Open Scope Z_scope.

Lemma is_u32_bits z : 0 <= z -> is_u32 z <-> forall i, 32 <= i -> Z.testbit z i = false.
Proof.
  intros Hz. split.
  - intros [_ H] i Hi. destruct (decide (z = 0)) as [->|]; [apply Z.bits_0|].
    apply Z.bits_above_log2; [lia|].
    apply Z.lt_le_trans with 32; [apply Z.log2_lt_pow2; lia|lia].
  - intros H. split; [done|].
    destruct (decide (z = 0)) as [->|]; [lia|].
    apply Z.log2_lt_pow2; [lia|].
    destruct (decide (32 <= Z.log2 z)); [|lia].
    specialize (H (Z.log2 z) ltac:(done)). rewrite Z.bit_log2 in H by lia. done.
Qed.

Lemma is_u32_lxor a b : is_u32 a -> is_u32 b -> is_u32 (Z.lxor a b).
Proof.
  intros Ha Hb.
  assert (0 <= Z.lxor a b) by (apply Z.lxor_nonneg; unfold is_u32 in *; lia).
  apply is_u32_bits; [done|]. intros i Hi. rewrite Z.lxor_spec.
  rewrite (proj1 (is_u32_bits a (proj1 Ha)) Ha i Hi).
  by rewrite (proj1 (is_u32_bits b (proj1 Hb)) Hb i Hi).
Qed.

Lemma is_u32_byte c : is_u32 (byte_val c).
Proof. pose proof (byte_val_range c). unfold is_u32. lia. Qed.

Lemma land_1_odd z : negb (Z.land z 1 =? 0) = Z.odd z.
Proof.
  change 1 with (Z.ones 1). rewrite Z.land_ones by lia.
  change (2 ^ 1) with 2. rewrite Zmod_odd. by destruct (Z.odd z).
Qed.

Lemma crc32_bit_alt z :
  crc32_bit z = Z.lxor (Z.shiftr z 1) (if Z.odd z then 0xEDB88320 else 0).
Proof.
  unfold crc32_bit. rewrite land_1_odd. destruct (Z.odd z); [done|].
  by rewrite Z.lxor_0_r.
Qed.

Lemma crc32_bit_u32 z : is_u32 z -> is_u32 (crc32_bit z).
Proof.
  intros Hz. rewrite crc32_bit_alt. apply is_u32_lxor.
  - rewrite Z.shiftr_div_pow2 by lia. unfold is_u32 in *. pow2_consts.
    change (2 ^ 1) with 2. Z.div_mod_to_equations. lia.
  - destruct (Z.odd z); unfold is_u32; lia.
Qed.

(** The register update is linear over exclusive or ... *)
Lemma crc32_bit_lxor a b :
  crc32_bit (Z.lxor a b) = Z.lxor (crc32_bit a) (crc32_bit b).
Proof.
  rewrite !crc32_bit_alt, Z.shiftr_lxor.
  assert (Z.odd (Z.lxor a b) = xorb (Z.odd a) (Z.odd b)) as ->.
  { by rewrite <-!Z.bit0_odd, Z.lxor_spec. }
  apply Z.bits_inj'; intros i Hi.
  destruct (Z.odd a), (Z.odd b); simpl xorb; cbn iota; rewrite !Z.lxor_spec, ?Z.bits_0;
    destruct (Z.testbit (Z.shiftr a 1) i), (Z.testbit (Z.shiftr b 1) i),
      (Z.testbit 3988292384 i); done.
Qed.

(** ... and one-to-one, because bit 31 of the polynomial is set. *)
Lemma crc32_bit_kernel z : is_u32 z -> crc32_bit z = 0 -> z = 0.
Proof.
  intros [Hz1 Hz2] H. rewrite crc32_bit_alt in H. apply Z.lxor_eq in H.
  rewrite Z.shiftr_div_pow2 in H by lia. change (2 ^ 1) with 2 in H.
  pose proof (Zmod_odd z) as Hodd.
  destruct (Z.odd z); Z.div_mod_to_equations; lia.
Qed.

Lemma iter_crc32_bit_lxor n a b :
  Nat.iter n crc32_bit (Z.lxor a b) =
  Z.lxor (Nat.iter n crc32_bit a) (Nat.iter n crc32_bit b).
Proof.
  induction n as [|n IH]; [done|]. by rewrite !Nat.iter_succ, IH, crc32_bit_lxor.
Qed.

Lemma iter_crc32_bit_u32 n z : is_u32 z -> is_u32 (Nat.iter n crc32_bit z).
Proof. intros Hz. induction n as [|n IH]; [done|].
  rewrite Nat.iter_succ. by apply crc32_bit_u32. Qed.

Lemma iter_crc32_bit_kernel n z :
  is_u32 z -> Nat.iter n crc32_bit z = 0 -> z = 0.
Proof.
  intros Hz. induction n as [|n IH]; [done|]. rewrite Nat.iter_succ. intros H.
  apply IH. apply crc32_bit_kernel; [by apply iter_crc32_bit_u32|done].
Qed.

Lemma crc32_step_lxor a b :
  crc32_step (Z.lxor a b) = Z.lxor (crc32_step a) (crc32_step b).
Proof. apply iter_crc32_bit_lxor. Qed.

Lemma crc32_step_u32 z : is_u32 z -> is_u32 (crc32_step z).
Proof. apply iter_crc32_bit_u32. Qed.

Lemma crc32_step_inj a b :
  is_u32 a -> is_u32 b -> crc32_step a = crc32_step b -> a = b.
Proof.
  intros Ha Hb H. apply Z.lxor_eq.
  apply (iter_crc32_bit_kernel 8); [by apply is_u32_lxor|].
  fold (crc32_step (Z.lxor a b)). by rewrite crc32_step_lxor, H, Z.lxor_nilpotent.
Qed.

(** Eight steps shift a register whose low byte is zero down by one byte. *)
Lemma crc32_step_shiftl n : 0 <= n -> crc32_step (Z.shiftl n 8) = n.
Proof.
  intros Hn.
  assert (Heven : forall x, crc32_bit (2 * x) = x).
  { intros x. rewrite crc32_bit_alt, Z.odd_mul. simpl.
    rewrite Z.lxor_0_r, Z.shiftr_div_pow2 by lia. change (2 ^ 1) with 2.
    rewrite Z.mul_comm. apply Z.div_mul. lia. }
  rewrite Z.shiftl_mul_pow2 by lia.
  replace (n * 2 ^ 8) with (2 * (2 * (2 * (2 * (2 * (2 * (2 * (2 * n)))))))) by lia.
  unfold crc32_step. rewrite !Nat.iter_succ.
  match goal with |- context [Nat.iter 0 _ ?x] => change (Nat.iter 0 crc32_bit x) with x end.
  by rewrite !Heven.
Qed.

Lemma crc32_byte_alt s c : crc32_byte s c = crc32_step (Z.lxor s (byte_val c)).
Proof. done. Qed.

Lemma crc32_state_u32 data s : is_u32 s -> is_u32 (fold_left crc32_byte data s).
Proof.
  revert s. induction data as [|c data IH]; intros s Hs; [done|].
  cbn [fold_left]. apply IH, crc32_step_u32, is_u32_lxor; [done|apply is_u32_byte].
Qed.

Lemma crc32_u32 data : is_u32 (crc32 data).
Proof.
  apply is_u32_lxor; [apply crc32_state_u32|]; unfold is_u32; lia.
Qed.

Lemma crc32_state_inj data s t :
  is_u32 s -> is_u32 t ->
  fold_left crc32_byte data s = fold_left crc32_byte data t -> s = t.
Proof.
  revert s t. induction data as [|c data IH]; intros s t Hs Ht H; [done|].
  cbn [fold_left] in H. pose proof (is_u32_byte c).
  apply IH in H; [|by apply crc32_step_u32, is_u32_lxor..].
  apply crc32_step_inj in H; [|by apply is_u32_lxor..].
  apply (f_equal (fun z => Z.lxor z (byte_val c))) in H.
  by rewrite !Z.lxor_assoc, Z.lxor_nilpotent, !Z.lxor_0_r in H.
Qed.

(** *** Bursts

    [le_val] reads a window of bytes with the first byte lowest, the order in which
    the register takes them in. *)

Lemma le_val_range w : 0 <= le_val w < 2 ^ (8 * Z.of_nat (length w)).
Proof.
  induction w as [|c w IH]; simpl le_val; [simpl; lia|].
  pose proof (byte_val_range c).
  rewrite Z.lxor_comm, lxor_shiftl_8, length_cons, Nat2Z.inj_succ.
  replace (8 * Z.succ (Z.of_nat (length w))) with (8 + 8 * Z.of_nat (length w)) by lia.
  rewrite Z.pow_add_r by lia. pow2_consts. lia.
Qed.

Lemma le_val_inj w1 w2 : length w1 = length w2 -> le_val w1 = le_val w2 -> w1 = w2.
Proof.
  revert w2. induction w1 as [|c w1 IH]; intros [|d w2] Hlen H; try done.
  simpl in H. rewrite !(Z.lxor_comm (byte_val _)), !lxor_shiftl_8 in H.
  pose proof (byte_val_range c); pose proof (byte_val_range d).
  f_equal; [apply byte_val_inj; lia|]. apply IH; [by simplify_eq/=|lia].
Qed.

Lemma le_val_shift_u32 w : (length w <= 3)%nat -> is_u32 (Z.shiftl (le_val w) 8).
Proof.
  intros Hw. pose proof (le_val_range w).
  assert (2 ^ (8 * Z.of_nat (length w)) <= 2 ^ 24) by (apply Z.pow_le_mono_r; lia).
  rewrite Z.shiftl_mul_pow2 by lia. unfold is_u32. pow2_consts. lia.
Qed.

(** Two registers that agree after a window of at most four bytes differ, before it,
    by exactly the difference of the windows. *)
Lemma crc32_window w1 w2 s t :
  is_u32 s -> is_u32 t -> length w1 = length w2 -> (length w1 <= 4)%nat ->
  fold_left crc32_byte w1 s = fold_left crc32_byte w2 t ->
  Z.lxor s t = Z.lxor (le_val w1) (le_val w2).
Proof.
  revert w2 s t. induction w1 as [|c w1 IH]; intros [|d w2] s t Hs Ht Hlen Hmax H;
    try done; simpl in H |- *.
  { subst. by rewrite Z.lxor_nilpotent. }
  pose proof (is_u32_byte c); pose proof (is_u32_byte d).
  simplify_eq/=.
  apply IH in H; [|by apply crc32_step_u32, is_u32_lxor..|done|lia].
  set (D := Z.lxor (le_val w1) (le_val w2)) in *.
  assert (0 <= D) by (apply Z.lxor_nonneg; pose proof (le_val_range w1);
    pose proof (le_val_range w2); lia).
  rewrite !crc32_byte_alt, <-crc32_step_lxor, <-(crc32_step_shiftl D) in H by done.
  unfold D in H. rewrite Z.shiftl_lxor in H.
  apply crc32_step_inj in H; [by lxor_bits H|by repeat apply is_u32_lxor|].
  apply is_u32_lxor; apply le_val_shift_u32; lia.
Qed.

End crc_facts.

(** ** The record format *)

Section format.
Local Open Scope Z_scope.

Lemma slice_app pre mid post pos n :
  pos = blen pre -> n = blen mid -> slice (pre ++ mid ++ post) pos n = mid.
Proof.
  intros -> ->. unfold slice, blen. rewrite !Nat2Z.id, drop_app_length.
  by rewrite take_app_length.
Qed.

Lemma blen_slice buffer pos n :
  0 <= pos -> 0 <= n -> pos + n <= blen buffer -> blen (slice buffer pos n) = n.
Proof. unfold blen, slice. intros. rewrite length_take, length_drop. lia. Qed.

Lemma slice_split buffer pos n m :
  0 <= pos -> 0 <= n -> 0 <= m ->
  slice buffer pos (n + m) = slice buffer pos n ++ slice buffer (pos + n) m.
Proof.
  intros. unfold slice. rewrite !Z2Nat.inj_add by lia.
  by rewrite <-drop_drop, take_take_drop.
Qed.

Lemma slice_decomp buffer pos n :
  0 <= pos -> 0 <= n ->
  buffer = take (Z.to_nat pos) buffer ++ slice buffer pos n
           ++ drop (Z.to_nat (pos + n)) buffer.
Proof.
  intros. unfold slice. rewrite Z2Nat.inj_add by lia.
  by rewrite <-drop_drop, !take_drop.
Qed.

Lemma be32_dec_slice_u32 buffer pos :
  0 <= pos -> pos + 4 <= blen buffer ->
  is_u32 (be32_dec (slice buffer pos 4)) /\
  be32_enc (be32_dec (slice buffer pos 4)) = slice buffer pos 4.
Proof.
  intros. pose proof (blen_slice buffer pos 4 ltac:(lia) ltac:(lia) ltac:(lia)) as Hlen.
  destruct (slice buffer pos 4) as [|a [|b [|c [|d [|]]]]]; unfold blen in Hlen;
    simpl length in Hlen; try lia.
  split; [apply be32_dec_range|apply be32_enc_dec].
Qed.

(** The guards of [deserialize_record] keep every [size_t] computation in range: its
    value is the one computed without wrap-around. *)
Lemma deserialize_no_wrap buffer off :
  is_u64 (blen buffer) -> 0 <= off ->
  deserialize_record buffer off =
    if decide (off + 4 <= blen buffer) then
      let n := be32_dec (slice buffer off 4) in
      if decide (off + 8 + n <= blen buffer) then
        if crc32 (slice buffer off (4 + n)) =? be32_dec (slice buffer (off + 4 + n) 4)
        then Some (mkRecord (slice buffer (off + 4) n), off + 8 + n)
        else None
      else None
    else None.
Proof.
  intros Hb Hoff. unfold deserialize_record; cbv zeta.
  case_decide as H1; [|case_match eqn:E; [done|]]; cycle 1.
  { apply orb_false_iff in E as [E1 E2]. apply Z.ltb_ge in E1.
    rewrite u64_small in E2 by (unfold is_u64 in *; lia). apply Z.ltb_ge in E2. lia. }
  pose proof (be32_dec_slice_u32 buffer off Hoff H1) as [Hn _].
  set (n := be32_dec (slice buffer off 4)) in *.
  rewrite (proj2 (Z.ltb_ge _ off)) by lia. unfold is_u32, is_u64 in *.
  rewrite (u64_small (blen buffer - off)) by (unfold is_u64; lia).
  rewrite (proj2 (Z.ltb_ge (_ - _) 4)) by lia. simpl orb; cbv iota.
  rewrite (u64_small (blen buffer - off - 4)) by (unfold is_u64; lia).
  case_decide as H2.
  - rewrite (proj2 (Z.ltb_ge _ n)) by lia.
    rewrite !(u64_small (off + 4)) by (unfold is_u64; lia).
    rewrite !(u64_small (off + 4 + n)) by (unfold is_u64; lia).
    rewrite !(u64_small (blen buffer - (off + 4 + n))) by (unfold is_u64; lia).
    rewrite (proj2 (Z.ltb_ge _ 4)) by lia.
    rewrite (u64_small (4 + n)), (u64_small (off + 4 + n + 4)) by (unfold is_u64; lia).
    replace (off + 4 + n + 4) with (off + 8 + n) by lia.
    by destruct (_ =? _).
  - case_match eqn:E1; [done|]. apply Z.ltb_ge in E1.
    rewrite (u64_small (off + 4)), (u64_small (off + 4 + n)),
      (u64_small (blen buffer - (off + 4 + n))) by (unfold is_u64; lia).
    by rewrite (proj2 (Z.ltb_lt _ 4)) by lia.
Qed.

Lemma serialize_record_split r :
  is_u32 (blen (payload r)) ->
  serialize_record r =
    be32_enc (blen (payload r)) ++ payload r ++
    be32_enc (crc32 (be32_enc (blen (payload r)) ++ payload r)).
Proof. intros H. unfold serialize_record. by rewrite u32_small, <-app_assoc. Qed.

Lemma blen_serialize r : blen (serialize_record r) = blen (payload r) + 8.
Proof. unfold serialize_record, blen. rewrite !length_app, !length_be32_enc. lia. Qed.

Lemma record_slices pre lenb p crcb post :
  blen lenb = 4 -> blen crcb = 4 ->
  let b := pre ++ lenb ++ p ++ crcb ++ post in
  slice b (blen pre) 4 = lenb /\ slice b (blen pre + 4) (blen p) = p /\
  slice b (blen pre + 4 + blen p) 4 = crcb.
Proof.
  intros Hl Hc b. unfold b. split_and!.
  - by apply slice_app.
  - rewrite (app_assoc pre). apply slice_app; rewrite ?blen_app; lia.
  - rewrite (app_assoc pre), (app_assoc (pre ++ lenb)).
    apply slice_app; rewrite ?blen_app; lia.
Qed.

(** A complete frame of three fields is accepted exactly when its checksum matches. *)
Lemma deserialize_fields pre p crcb post :
  let lenb := be32_enc (blen p) in
  let b := pre ++ lenb ++ p ++ crcb ++ post in
  is_u32 (blen p) -> is_u64 (blen b) -> blen crcb = 4 ->
  deserialize_record b (blen pre) =
    if crc32 (lenb ++ p) =? be32_dec crcb
    then Some (mkRecord p, blen pre + 8 + blen p) else None.
Proof.
  intros lenb b Hp Hb Hc. rewrite deserialize_no_wrap by (done || apply blen_nonneg).
  assert (blen lenb = 4) as Hl by done.
  destruct (record_slices pre lenb p crcb post Hl Hc) as (H1 & H2 & H3).
  fold b in H1, H2, H3. cbv zeta.
  pose proof (blen_nonneg pre); pose proof (blen_nonneg p); pose proof (blen_nonneg post).
  rewrite H1. assert (be32_dec lenb = blen p) as -> by (by apply be32_dec_enc).
  rewrite slice_split, H1, H2, H3 by lia. unfold b. rewrite !decide_True by (rewrite !blen_app; lia). done.
Qed.

Lemma deserialize_serialize pre r post :
  is_u32 (blen (payload r)) -> is_u64 (blen (pre ++ serialize_record r ++ post)) ->
  deserialize_record (pre ++ serialize_record r ++ post) (blen pre) =
    Some (r, blen pre + blen (serialize_record r)).
Proof.
  intros Hr. rewrite blen_serialize, serialize_record_split, <-!app_assoc by done.
  intros Hb. rewrite deserialize_fields by done.
  rewrite be32_dec_enc by apply crc32_u32. rewrite Z.eqb_refl.
  destruct r; simpl. do 2 f_equal. lia.
Qed.

Lemma deserialize_canonical buffer off r off' :
  is_u64 (blen buffer) -> 0 <= off ->
  deserialize_record buffer off = Some (r, off') ->
  is_u32 (blen (payload r)) /\ off' = off + blen (serialize_record r) /\
  exists pre post, blen pre = off /\ buffer = pre ++ serialize_record r ++ post.
Proof.
  intros Hb Hoff. rewrite deserialize_no_wrap by done.
  case_decide as H1; [|done]. cbv zeta.
  pose proof (be32_dec_slice_u32 buffer off Hoff H1) as [Hn Henc].
  set (n := be32_dec (slice buffer off 4)) in *.
  case_decide as H2; [|done]. unfold is_u32 in *.
  destruct (_ =? _) eqn:Hcrc; [|done]. apply Z.eqb_eq in Hcrc. intros [= <- <-].
  pose proof (blen_slice buffer (off + 4) n ltac:(lia) ltac:(lia) ltac:(lia)) as Hpl.
  pose proof (be32_dec_slice_u32 buffer (off + 4 + n) ltac:(lia) ltac:(lia)) as [_ Hcrcb].
  simpl payload. rewrite blen_serialize. simpl payload. rewrite Hpl.
  split; [lia|]. split; [lia|].
  exists (take (Z.to_nat off) buffer), (drop (Z.to_nat (off + (4 + n + 4))) buffer).
  split; [unfold blen in *; rewrite length_take; lia|].
  rewrite serialize_record_split; simpl payload; rewrite Hpl; [|done].
  rewrite Henc, <-slice_split, Hcrc, Hcrcb by lia.
  rewrite (slice_decomp buffer off (4 + n + 4)) at 1 by lia.
  do 2 f_equal. rewrite !slice_split by lia.
  rewrite <-!app_assoc. by rewrite (Z.add_assoc off 4 n).
Qed.

(** No record is a proper prefix of another one, whatever follows it. *)
Lemma serialize_prefix_free r1 r2 l1 l2 :
  is_u32 (blen (payload r1)) -> is_u32 (blen (payload r2)) ->
  is_u64 (blen (serialize_record r1 ++ l1)) ->
  serialize_record r1 ++ l1 = serialize_record r2 ++ l2 -> r1 = r2 /\ l1 = l2.
Proof.
  intros H1 H2 Hb Heq.
  pose proof (deserialize_serialize [] r1 l1 H1 Hb) as E1.
  rewrite Heq in Hb.
  pose proof (deserialize_serialize [] r2 l2 H2 Hb) as E2.
  rewrite app_nil_l in E1, E2. rewrite <-Heq, E1 in E2. injection E2 as -> _.
  split; [done|]. by apply app_inv_head in Heq.
Qed.

Lemma deserialize_torn pre l1 l2 r :
  is_u32 (blen (payload r)) -> is_u64 (blen (pre ++ serialize_record r)) ->
  serialize_record r = l1 ++ l2 -> l2 <> [] ->
  deserialize_record (pre ++ l1) (blen pre) = None.
Proof.
  intros Hr Hb Hs Hl2. pose proof (blen_nonneg pre) as Hpre.
  destruct (deserialize_record _ _) as [[r' off']|] eqn:E; [exfalso|done].
  assert (is_u64 (blen (pre ++ l1))) as Hb1.
  { rewrite Hs in Hb. unfold is_u64 in *. rewrite !blen_app in *.
    pose proof (blen_nonneg l1); pose proof (blen_nonneg l2). lia. }
  apply deserialize_canonical in E as (Hr' & _ & pre' & post' & Hpre' & Heq); [|done..].
  apply app_inj_1 in Heq as [<- ->]; [|unfold blen in *; lia].
  rewrite <-app_assoc in Hs.
  assert (serialize_record r ++ [] = serialize_record r' ++ post' ++ l2) as Heq
    by (by rewrite app_nil_r).
  apply serialize_prefix_free in Heq as [_ Heq]; [|done..|].
  - destruct post', l2; done.
  - rewrite app_nil_r. unfold is_u64 in *. rewrite blen_app in Hb.
    pose proof (blen_nonneg (serialize_record r)). lia.
Qed.

(** Two inputs that differ only inside a window of at most four bytes have different
    checksums. *)
Lemma crc32_burst pre w1 w2 post :
  length w1 = length w2 -> (length w1 <= 4)%nat ->
  crc32 (pre ++ w1 ++ post) = crc32 (pre ++ w2 ++ post) -> w1 = w2.
Proof.
  intros Hlen Hmax H. unfold crc32 in H.
  assert (Hinit : is_u32 0xFFFFFFFF) by (unfold is_u32; lia).
  apply (f_equal (fun z => Z.lxor z 0xFFFFFFFF)) in H.
  rewrite !Z.lxor_assoc, Z.lxor_nilpotent, !Z.lxor_0_r, !fold_left_app in H.
  apply crc32_state_inj in H; [|by repeat apply crc32_state_u32..].
  apply crc32_window in H; [|by apply crc32_state_u32..|done|done].
  rewrite Z.lxor_nilpotent in H. symmetry in H. apply Z.lxor_eq in H.
  by apply le_val_inj.
Qed.

End format.

(** ** Properties *)

(** C13. [deserialize_record] accepts at an offset of a buffer exactly the bytes that
    [serialize_record] writes for some record whose payload length fits the 32-bit
    field, whatever surrounds them; it returns that record and moves the offset to the
    end of it. *)
Theorem deserialize_record_iff buffer off r off' :
  is_u64 (blen buffer) -> (0 <= off)%Z ->
  deserialize_record buffer off = Some (r, off') <->
  is_u32 (blen (payload r)) /\ off' = (off + blen (serialize_record r))%Z /\
  exists pre post, blen pre = off /\ buffer = pre ++ serialize_record r ++ post.
Proof.
  intros Hb Hoff. split; [by apply deserialize_canonical|].
  intros (Hr & -> & pre & post & <- & ->). by apply deserialize_serialize.
Qed.

Lemma deserialize_record_iff_witness :
  let b := lit "xx" ++ serialize_record (mkRecord (lit "hello")) ++ lit "yy" in
  deserialize_record b 2 = Some (mkRecord (lit "hello"), 15%Z) /\
  is_u32 (blen (lit "hello")).
Proof.
  intros b. assert (is_u64 (blen b)) as Hb by (vm_compute; split; congruence).
  assert (deserialize_record b 2 = Some (mkRecord (lit "hello"), 15%Z)) as H
    by (vm_compute; reflexivity).
  split; [exact H|].
  exact (proj1 (proj1 (deserialize_record_iff b 2 _ _ Hb ltac:(lia)) H)).
Defined.

(** A record cut short at any point (a torn write) is never accepted, whatever
    bytes its checksum or payload hold. *)
Theorem torn_record_rejected pre l1 l2 r :
  is_u32 (blen (payload r)) -> is_u64 (blen (pre ++ serialize_record r)) ->
  serialize_record r = l1 ++ l2 -> l2 <> [] ->
  deserialize_record (pre ++ l1) (blen pre) = None.
Proof. apply deserialize_torn. Qed.

(** C31. The CRC detects every corruption confined to four consecutive payload bytes:
    the damaged record is rejected. *)
Theorem corrupt_payload_rejected pre p1 w w' p2 post :
  let r := mkRecord (p1 ++ w ++ p2) in
  let damaged := be32_enc (blen (payload r)) ++ (p1 ++ w' ++ p2) ++
                 be32_enc (crc32 (be32_enc (blen (payload r)) ++ payload r)) in
  is_u32 (blen (payload r)) -> is_u64 (blen (pre ++ serialize_record r ++ post)) ->
  length w' = length w -> (length w <= 4)%nat -> w' <> w ->
  deserialize_record (pre ++ damaged ++ post) (blen pre) = None.
Proof.
  intros r damaged Hr Hb Hlen Hmax Hne. unfold damaged; clear damaged.
  assert (blen (payload r) = blen (p1 ++ w' ++ p2)) as Hbl
    by (unfold r, blen; simpl; rewrite !length_app; lia).
  rewrite serialize_record_split in Hb by done.
  rewrite Hbl in *. rewrite <-!(app_assoc (be32_enc _)), <-(app_assoc (p1 ++ w' ++ p2)).
  rewrite deserialize_fields; [|done| |done].
  - rewrite be32_dec_enc by apply crc32_u32.
    destruct (_ =? _)%Z eqn:E; [|done]. apply Z.eqb_eq in E.
    unfold r in E; simpl payload in E.
    rewrite !(app_assoc _ p1 _) in E. apply crc32_burst in E; [done|done|lia].
  - unfold r, is_u64 in *; simpl payload in Hb. rewrite !blen_app in *.
    change (blen (be32_enc _)) with 4%Z in *. unfold blen in *. lia.
Qed.

Lemma corrupt_payload_rejected_witness :
  deserialize_record
    (be32_enc 11 ++ lit "hello_world" ++
     be32_enc (crc32 (be32_enc 11 ++ lit "hello world"))) 0 = None.
Proof.
  apply (corrupt_payload_rejected [] (lit "hello") (lit " ") (lit "_") (lit "world") []);
    closed.
Defined.

(** Clients use the lemmas above; evaluation on concrete records is unaffected. *)
#[global] Opaque crc32 serialize_record deserialize_record.
