(* ===== verification/Posix.v ===== *)
(** * The operating system under the broker

    The kernel's answers are a script, one entry per call, consumed in order; a
    script that runs out is the process stopping at that call ([Crash]).  A theorem
    that quantifies over scripts covers partial writes, interrupted calls, errors and
    crashes at every point.  Files are keyed by the path that their names resolve to; [durable] is
    how many leading bytes have reached the disk through [fsync]. *)

From S2P Require Import Prelude Text Paths.

(** ** Definitions *)

(** [SysOk n] is a non-negative result (the byte count for [read], [write], [send] and
    [recv]); the others are -1 with [errno] EINTR, EAGAIN or anything else. *)
Inductive sys_result :=
| SysOk (n : nat)
| SysIntr
| SysAgain
| SysErr.

#[export] Instance sys_result_eq_dec : EqDecision sys_result.
Proof. solve_decision. Defined.

Record file := mkFile { content : bytes; durable : nat }.

#[export] Instance file_eq_dec : EqDecision file.
Proof. solve_decision. Defined.

Record OS := mkOS { script : list sys_result; files : gmap Path file }.

Definition sys : M OS sys_result := fun s =>
  match script s with
  | [] => (Crash, s)
  | r :: rs => (Ret r, mkOS rs (files s))
  end.

Fixpoint skip_intr (rs : list sys_result) : option (sys_result * list sys_result) :=
  match rs with
  | [] => None
  | SysIntr :: rs => skip_intr rs
  | r :: rs => Some (r, rs)
  end.

(** [do { r = call(); } while (r < 0 && errno == EINTR)]. *)
Definition sys_retry : M OS sys_result := fun s =>
  match skip_intr (script s) with
  | None => (Crash, mkOS [] (files s))
  | Some (r, rs) => (Ret r, mkOS rs (files s))
  end.

Definition on_files (f : gmap Path file -> gmap Path file) (s : OS) : OS :=
  mkOS (script s) (f (files s)).

Definition file_at (fs : gmap Path file) (path : Path) : file :=
  default (mkFile [] 0) (fs !! path).

(** [open] with [O_CREAT]: an absent file appears, empty. *)
Definition create_file (path : Path) (fs : gmap Path file) : gmap Path file :=
  <[path := file_at fs path]> fs.

(** What [write] on an [O_APPEND] descriptor does with the bytes it accepts. *)
Definition append_file (path : Path) (data : bytes) (fs : gmap Path file) : gmap Path file :=
  let f := file_at fs path in
  <[path := mkFile (content f ++ data) (durable f)]> fs.

Definition sync_file (path : Path) (fs : gmap Path file) : gmap Path file :=
  let f := file_at fs path in
  <[path := mkFile (content f) (length (content f))]> fs.

Definition truncate_file (path : Path) (n : nat) (fs : gmap Path file)
    : gmap Path file :=
  let f := file_at fs path in
  <[path := mkFile (take n (content f)) (min n (durable f))]> fs.

(** What a crash may leave of an appended-to file: a prefix that holds every byte an
    [fsync] covered. *)
Definition crash_image (f f' : file) : Prop :=
  exists n, durable f <= n /\ content f' = take n (content f).

(** ** Lemmas *)

Lemma file_at_insert fs path f : file_at (<[path := f]> fs) path = f.
Proof. unfold file_at. by rewrite lookup_insert_eq. Qed.

Lemma file_at_insert_ne fs p q f : p <> q -> file_at (<[p := f]> fs) q = file_at fs q.
Proof. intros H. unfold file_at. by rewrite lookup_insert_ne. Qed.

Lemma file_at_append fs path data :
  file_at (append_file path data fs) path =
  mkFile (content (file_at fs path) ++ data) (durable (file_at fs path)).
Proof. apply file_at_insert. Qed.

Lemma file_at_create fs path : file_at (create_file path fs) path = file_at fs path.
Proof. apply file_at_insert. Qed.

Lemma append_append path d1 d2 fs :
  append_file path d2 (append_file path d1 fs) = append_file path (d1 ++ d2) fs.
Proof.
  unfold append_file at 1. rewrite file_at_append. simpl. unfold append_file.
  by rewrite insert_insert_eq, <-app_assoc.
Qed.

Lemma append_nil_create path fs : append_file path [] fs = create_file path fs.
Proof.
  unfold append_file, create_file. rewrite app_nil_r. by destruct (file_at fs path).
Qed.

Lemma append_create path data fs :
  append_file path data (create_file path fs) = append_file path data fs.
Proof. by rewrite <-append_nil_create, append_append. Qed.

Create Rewrite HintDb files.

#[export] Hint Rewrite file_at_insert file_at_append file_at_create append_append
  append_create : files.
