(* ===== verification/TopicLog.v ===== *)
(** * Partition logs ([src/topic_log.hpp])

    [TopicLog::append] writes one serialized record with [open]/[write]/[fsync]/[close]
    and [read_all] recovers the records of a log and cuts its invalid tail. *)

From S2P Require Import Prelude Text LogRecord Paths Posix.

(** ** Definitions *)

(** The class's members. *)
Record TopicLog := mkTopicLog {
  topic_ : bytes;
  partition_id_ : Z;
  log_data_dir_ : bytes;
  log_path_ : bytes
}.

Definition log_path_of (data_dir topic : bytes) (partition_id : Z) : bytes :=
  data_dir ++ lit "/" ++ topic ++ lit "/partition-" ++ to_string partition_id ++ lit ".log".

(** The file that the log's name leads to. *)
Definition file_of (log : TopicLog) : Path := resolve (log_path_ log).

(** The constructor, with its two [std::invalid_argument]s. *)
Definition new_TopicLog {S} (topic : bytes) (partition_id : Z) (data_dir : bytes)
    : M S TopicLog :=
  if bool_decide (topic = []) then throw invalid_argument
  else if (partition_id <? 0)%Z then throw invalid_argument
  else mret (mkTopicLog topic partition_id data_dir
               (log_path_of data_dir topic partition_id)).

(** [create_directories] with its error code turned into an exception. *)
Definition ensure_directory_exists : M OS unit :=
  r ← sys;
  match r with SysOk _ => mret tt | _ => throw runtime_error end.

(** The [while (total_written < total_bytes)] loop; each turn consumes an answer. *)
Fixpoint write_loop (path : Path) (buffer : bytes) (total_written : nat)
    (rs : list sys_result) (fs : gmap Path file) : outcome unit * OS :=
  if length buffer <=? total_written then (Ret tt, mkOS rs fs) else
  match rs with
  | [] => (Crash, mkOS [] fs)
  | SysIntr :: rs => write_loop path buffer total_written rs fs
  | SysOk O :: rs => (Throw runtime_error, mkOS rs fs)
  | SysOk n :: rs =>
      let n := min n (length buffer - total_written) in
      write_loop path buffer (total_written + n) rs
        (append_file path (take n (drop total_written buffer)) fs)
  | _ :: rs => (Throw runtime_error, mkOS rs fs)
  end.

Definition append (log : TopicLog) (record : LogRecord) : M OS unit :=
  _ ← ensure_directory_exists;
  let serialized := serialize_record record in
  fd ← sys_retry;
  match fd with
  | SysOk _ =>
      _ ← modify (on_files (create_file (file_of log)));
      _ ← (fun s => write_loop (file_of log) serialized 0 (script s) (files s));
      fsync_res ← sys_retry;
      match fsync_res with
      | SysOk _ =>
          _ ← modify (on_files (sync_file (file_of log)));
          close_res ← sys;
          match close_res with SysOk _ => mret tt | _ => throw runtime_error end
      | _ => throw runtime_error
      end
  | _ => throw runtime_error
  end.

(** [while (deserialize_record(buffer, buffer_offset, record)) records.push_back(record)];
    every turn moves the offset by at least eight, so the buffer's length bounds the
    number of turns. *)
Fixpoint scan_loop (fuel : nat) (buffer : bytes) (buffer_offset : Z)
    (records : list LogRecord) : list LogRecord * Z :=
  match fuel with
  | O => (records, buffer_offset)
  | S fuel =>
      match deserialize_record buffer buffer_offset with
      | Some (record, off) => scan_loop fuel buffer off (records ++ [record])
      | None => (records, buffer_offset)
      end
  end.

Definition scan (buffer : bytes) : list LogRecord * Z :=
  scan_loop (S (length buffer)) buffer 0 [].

(** [std::filesystem::exists(path, ec)] is false on an error too. *)
Definition file_exists (path : bytes) : M OS bool :=
  r ← sys;
  fs ← gets files;
  mret (match r with SysOk _ => bool_decide (is_Some (fs !! resolve path)) | _ => false end).

Definition read_all (log : TopicLog) : M OS (list LogRecord) :=
  found ← file_exists (log_path_ log);
  if negb found then mret [] else
  opened ← sys;
  match opened with
  | SysOk _ =>
      fs ← gets files;
      let buffer := content (file_at fs (file_of log)) in
      let (records, buffer_offset) := scan buffer in
      if (buffer_offset <? blen buffer)%Z then
        r ← sys;
        match r with
        | SysOk _ =>
            _ ← modify (on_files (truncate_file (file_of log) (Z.to_nat buffer_offset)));
            mret records
        | _ => throw runtime_error
        end
      else mret records
  | _ => throw runtime_error
  end.

(** *** Specification *)

(** The contents of a log that holds exactly these records. *)
Definition log_bytes (rs : list LogRecord) : bytes := concat (map serialize_record rs).

Definition record_ok (r : LogRecord) : Prop := is_u32 (blen (payload r)).

(** [rs] is the longest run of valid records at the start of [buffer], [n] bytes long. *)
Definition valid_prefix (buffer : bytes) (rs : list LogRecord) (n : Z) : Prop :=
  Forall record_ok rs /\ n = blen (log_bytes rs) /\
  (exists tail, buffer = log_bytes rs ++ tail) /\
  deserialize_record buffer n = None.

(** ** Scanning a log *)

Lemma log_bytes_app rs1 rs2 : log_bytes (rs1 ++ rs2) = log_bytes rs1 ++ log_bytes rs2.
Proof. unfold log_bytes. by rewrite map_app, concat_app. Qed.

Lemma log_bytes_snoc rs r : log_bytes (rs ++ [r]) = log_bytes rs ++ serialize_record r.
Proof. rewrite log_bytes_app. unfold log_bytes at 2. simpl. by rewrite app_nil_r. Qed.

Lemma length_serialize r : length (serialize_record r) = length (payload r) + 8.
Proof. pose proof (blen_serialize r). unfold blen in *. lia. Qed.

Lemma log_bytes_length rs : 8 * length rs <= length (log_bytes rs).
Proof.
  induction rs as [|r rs IH]; [simpl; lia|]. unfold log_bytes in *; simpl.
  rewrite length_app, length_serialize. lia.
Qed.

Lemma scan_loop_spec fuel done rs tail :
  Forall record_ok rs -> length rs < fuel ->
  let buffer := log_bytes (done ++ rs) ++ tail in
  is_u64 (blen buffer) ->
  deserialize_record buffer (blen (log_bytes (done ++ rs))) = None ->
  scan_loop fuel buffer (blen (log_bytes done)) done =
    (done ++ rs, blen (log_bytes (done ++ rs))).
Proof.
  revert done rs. induction fuel as [|fuel IH]; intros done rs Hok Hfuel buffer Hb Hnone;
    [lia|].
  destruct rs as [|r rs]; cbn [scan_loop].
  { unfold buffer in *. rewrite app_nil_r in *. by rewrite Hnone. }
  apply Forall_cons in Hok as [Hr Hok].
  assert (buffer = log_bytes done ++ serialize_record r ++ (log_bytes rs ++ tail)) as Hsplit
    by (unfold buffer; rewrite log_bytes_app; cbn; by rewrite <-!app_assoc).
  assert (deserialize_record buffer (blen (log_bytes done)) =
    Some (r, blen (log_bytes (done ++ [r])))) as Hd.
  { rewrite Hsplit in Hb |- *. by rewrite deserialize_serialize, log_bytes_snoc, blen_app. }
  rewrite Hd. clear Hd Hsplit. unfold buffer in *; clear buffer.
  replace (done ++ r :: rs) with ((done ++ [r]) ++ rs) in * by (by rewrite <-app_assoc).
  apply IH; [done| |done|done]. simpl in Hfuel. lia.
Qed.

Lemma scan_spec rs tail :
  Forall record_ok rs -> is_u64 (blen (log_bytes rs ++ tail)) ->
  deserialize_record (log_bytes rs ++ tail) (blen (log_bytes rs)) = None ->
  scan (log_bytes rs ++ tail) = (rs, blen (log_bytes rs)).
Proof.
  intros Hok Hb Hnone. apply (scan_loop_spec _ [] rs tail); try done.
  pose proof (log_bytes_length rs). rewrite length_app. lia.
Qed.

(** The loop really stops because there is no further record, never for lack of fuel. *)
Lemma scan_loop_valid fuel buffer done :
  is_u64 (blen buffer) -> Forall record_ok done ->
  (exists tail, buffer = log_bytes done ++ tail) ->
  length buffer < fuel + length (log_bytes done) ->
  let res := scan_loop fuel buffer (blen (log_bytes done)) done in
  valid_prefix buffer res.1 res.2.
Proof.
  revert done. induction fuel as [|fuel IH]; intros done Hb Hok [tail Ht] Hlen.
  { rewrite Ht, length_app in Hlen. lia. }
  cbn [scan_loop]. destruct (deserialize_record _ _) as [[r off]|] eqn:E; cycle 1.
  { split_and!; [done|done|by exists tail|done]. }
  apply deserialize_canonical in E as (Hr & -> & pre & post & Hpre & Heq);
    [|done|apply blen_nonneg].
  rewrite Ht in Heq. apply app_inj_1 in Heq as [<- ->]; [|unfold blen in *; lia].
  rewrite <-blen_app, <-log_bytes_snoc. apply IH; [done|..].
  - apply Forall_app; split; [done|]. by apply Forall_singleton.
  - exists post. by rewrite log_bytes_snoc, <-app_assoc.
  - rewrite log_bytes_snoc, length_app, length_serialize. lia.
Qed.

Lemma scan_valid buffer :
  is_u64 (blen buffer) -> valid_prefix buffer (scan buffer).1 (scan buffer).2.
Proof.
  intros Hb. apply (scan_loop_valid _ buffer []); [done|by apply Forall_nil|by exists buffer|].
  simpl. lia.
Qed.

Lemma scan_log_bytes rs :
  Forall record_ok rs -> is_u64 (blen (log_bytes rs)) ->
  scan (log_bytes rs) = (rs, blen (log_bytes rs)).
Proof.
  intros Hok Hb. rewrite <-(app_nil_r (log_bytes rs)) at 1.
  apply scan_spec; rewrite ?app_nil_r; [done|done|].
  rewrite deserialize_no_wrap by (done || apply blen_nonneg).
  rewrite decide_False by lia. done.
Qed.

(** ** Appending *)

Lemma append_file_nil path fs : is_Some (fs !! path) -> append_file path [] fs = fs.
Proof.
  intros [f Hf]. unfold append_file, file_at. rewrite Hf. simpl. rewrite app_nil_r.
  apply insert_id. rewrite Hf. by destruct f.
Qed.

Lemma append_file_some path d fs : is_Some (append_file path d fs !! path).
Proof. unfold append_file. rewrite lookup_insert_eq. done. Qed.

Lemma write_loop_spec path buffer rs :
  forall total fs, total <= length buffer -> is_Some (fs !! path) ->
  exists k, total <= k <= length buffer /\
    files (write_loop path buffer total rs fs).2 =
      append_file path (take (k - total) (drop total buffer)) fs /\
    ((write_loop path buffer total rs fs).1 = Ret tt -> k = length buffer).
Proof.
  assert (Hstop : forall total fs (o : outcome unit) l, total <= length buffer ->
    is_Some (fs !! path) -> (o = Ret tt -> total = length buffer) ->
    exists k, total <= k <= length buffer /\
      files (o, mkOS l fs).2 = append_file path (take (k - total) (drop total buffer)) fs /\
      ((o, mkOS l fs).1 = Ret tt -> k = length buffer)).
  { intros total fs o l Ht Hfs Ho. exists total.
    rewrite Nat.sub_diag, take_0, append_file_nil by done. auto. }
  induction rs as [|r rs IH]; intros total fs Ht Hfs; cbn [write_loop];
    destruct (_ <=? _) eqn:E; try (apply Hstop; [done..|]; apply Nat.leb_le in E; lia);
    try (by apply Hstop).
  apply Nat.leb_gt in E.
  destruct r as [[|n]| | |]; try (by apply Hstop); [|by apply IH].
  set (m := min (S n) (length buffer - total)).
  destruct (IH (total + m) (append_file path (take m (drop total buffer)) fs))
    as (k & Hk & Hfiles & Hret); [lia|apply append_file_some|].
  exists k. split; [lia|]. split; [|done].
  rewrite Hfiles, append_append. f_equal.
  replace (k - total) with (m + (k - (total + m))) by lia.
  rewrite <-drop_drop. by rewrite take_take_drop.
Qed.

(** What one [append] does to the files, for every script of answers. *)
Definition append_effect (path : Path) (ser : bytes) (o : outcome unit)
    (fs fs' : gmap Path file) : Prop :=
  (fs' = fs /\ o <> Ret tt) \/
  (exists k, fs' = append_file path (take k ser) fs /\ o <> Ret tt) \/
  fs' = sync_file path (append_file path ser fs).

Lemma append_spec log r s :
  append_effect (file_of log) (serialize_record r)
    (append log r s).1 (files s) (files (append log r s).2).
Proof.
  set (path := file_of log). set (ser := serialize_record r).
  destruct s as [rs fs]. unfold append, ensure_directory_exists, sys, sys_retry.
  unfold mbind, M_bind, mret, M_ret, throw, modify, on_files. simpl.
  destruct rs as [|[n| | |] rs]; simpl; try (by left).
  destruct (skip_intr rs) as [[[n'| | |] rs']|]; simpl; try (by left).
  destruct (write_loop_spec path ser rs' 0 (create_file path fs))
    as (k & Hk & Hfiles & Hret); [lia|by eexists; apply lookup_insert_eq|].
  rewrite append_create, Nat.sub_0_r, drop_0 in Hfiles. fold path ser.
  destruct (write_loop _ _ _ _ _) as [[[]| |] [rs2 fs2]]; simpl in *; subst fs2;
    try (right; left; exists k; done).
  rewrite (Hret eq_refl), take_ge in * by lia.
  destruct (skip_intr rs2) as [[[n''| | |] rs3]|]; simpl;
    try (right; left; exists (length ser); rewrite take_ge by lia; done).
  right; right. destruct rs3 as [|[? | | |] ?]; done.
Qed.

Lemma append_returned log r s :
  (append log r s).1 = Ret tt ->
  files (append log r s).2 =
    sync_file (file_of log) (append_file (file_of log) (serialize_record r) (files s)).
Proof. intros H. destruct (append_spec log r s) as [[_ ?]|[(k & _ & ?)|?]]; done. Qed.

(** ** Progress *)

(** Answers a [write] loop makes progress on: interruptions and positive counts; and
    how many bytes they accept together. *)
Definition write_answer (r : sys_result) : bool :=
  match r with SysIntr | SysOk (S _) => true | _ => false end.

Definition accepted (ws : list sys_result) : nat :=
  sum_list_with (fun r => match r with SysOk n => n | _ => 0 end) ws.

Lemma skip_intr_repeat i n rs :
  skip_intr (repeat SysIntr i ++ SysOk n :: rs) = Some (SysOk n, rs).
Proof. by induction i. Qed.

Lemma accepted_zero_intr ws :
  forallb write_answer ws = true -> accepted ws = 0 -> ws = repeat SysIntr (length ws).
Proof.
  induction ws as [|[[|n]| | |] ws IH]; try done. simpl. intros Hws Ha. f_equal. by apply IH.
Qed.

Lemma write_loop_done path buffer ws :
  forall total fs rs, total <= length buffer -> forallb write_answer ws = true ->
  accepted ws = length buffer - total ->
  exists j fs', write_loop path buffer total (ws ++ rs) fs =
    (Ret tt, mkOS (repeat SysIntr j ++ rs) fs').
Proof.
  induction ws as [|r ws IH]; intros total fs rs Ht Hws Ha.
  { exists 0, fs. simpl in *. destruct rs; cbn [write_loop];
      by rewrite (proj2 (Nat.leb_le _ _)) by lia. }
  destruct (decide (length buffer <= total)) as [Hle|Hlt].
  { exists (length (r :: ws)), fs.
    rewrite (accepted_zero_intr (r :: ws)) at 1 by (done || lia).
    cbn [app write_loop length repeat]. by rewrite (proj2 (Nat.leb_le _ _)). }
  cbn [app write_loop]. rewrite (proj2 (Nat.leb_gt _ _)) by lia.
  destruct r as [[|n]| | |]; try done; simpl in Hws; [|by apply IH].
  unfold accepted in *; simpl in Ha. apply IH; [lia|done|].
  rewrite Nat.min_l by lia. lia.
Qed.

Lemma append_done log r a b c d i j ws rs fs :
  forallb write_answer ws = true -> accepted ws = length (serialize_record r) ->
  exists fs', append log r (mkOS (SysOk a :: repeat SysIntr i ++ SysOk b :: ws ++
      repeat SysIntr j ++ SysOk c :: SysOk d :: rs) fs) = (Ret tt, mkOS rs fs').
Proof.
  intros Hws Ha. unfold append, ensure_directory_exists, sys, sys_retry.
  unfold mbind, M_bind, mret, M_ret, throw, modify, on_files. simpl.
  rewrite skip_intr_repeat. simpl.
  destruct (write_loop_done (file_of log) (serialize_record r) ws 0
    (create_file (file_of log) fs) (repeat SysIntr j ++ SysOk c :: SysOk d :: rs))
    as (k & fs' & ->); [lia|done|lia|].
  cbn [script]. rewrite app_assoc, <-repeat_app, skip_intr_repeat. simpl. by eexists.
Qed.

(** A [write] that fails after a partial one leaves the part it wrote. *)
Lemma append_write_error log r a b n rs fs :
  S n < length (serialize_record r) ->
  append log r (mkOS (SysOk a :: SysOk b :: SysOk (S n) :: SysErr :: rs) fs) =
    (Throw runtime_error,
     mkOS rs (append_file (file_of log) (take (S n) (serialize_record r)) fs)).
Proof.
  intros Hn. unfold append. remember (serialize_record r) as ser.
  unfold ensure_directory_exists, sys, sys_retry.
  unfold mbind, M_bind, mret, M_ret, throw, modify, on_files. cbn [script files skip_intr].
  cbn [write_loop]. rewrite !(proj2 (Nat.leb_gt _ _)) by lia.
  by rewrite append_create, drop_0, Nat.sub_0_r, Nat.min_l by lia.
Qed.

(** ** Recovery *)

(** Reading a record does not depend on what precedes it. *)
Lemma deserialize_shift pre b :
  is_u64 (blen (pre ++ b)) ->
  deserialize_record (pre ++ b) (blen pre) =
    match deserialize_record b 0 with
    | Some (r, n) => Some (r, blen pre + n)%Z
    | None => None
    end.
Proof.
  intros Hb. assert (is_u64 (blen b)) as Hb'.
  { unfold is_u64 in *. rewrite blen_app in Hb.
    pose proof (blen_nonneg pre). pose proof (blen_nonneg b). lia. }
  destruct (deserialize_record b 0) as [[r n]|] eqn:E.
  - apply deserialize_canonical in E as (Hr & -> & pre' & post & Hpre & ->); [|done|lia].
    destruct pre'; [|unfold blen in Hpre; simpl in Hpre; lia].
    simpl app in *. by rewrite deserialize_serialize.
  - destruct (deserialize_record (pre ++ b) _) as [[r n]|] eqn:E'; [|done].
    apply deserialize_canonical in E' as (Hr & -> & pre' & post & Hpre & Heq);
      [|done|apply blen_nonneg].
    apply app_inj_1 in Heq as [<- ->]; [|unfold blen in *; lia].
    pose proof (deserialize_serialize [] r post Hr Hb') as E'. 
    change (blen []) with 0%Z in E'. rewrite app_nil_l, E in E'. done.
Qed.

(** Whatever a crash leaves of an append to a sound log, the scan finds the old records,
    and the new one or not. *)
Lemma scan_torn_append rs r k :
  Forall record_ok (rs ++ [r]) -> is_u64 (blen (log_bytes (rs ++ [r]))) ->
  scan (log_bytes rs ++ take k (serialize_record r)) =
    if decide (length (serialize_record r) <= k)
    then (rs ++ [r], blen (log_bytes (rs ++ [r]))) else (rs, blen (log_bytes rs)).
Proof.
  intros Hok Hb. pose proof Hok as [Hrs [Hr _]%Forall_cons]%Forall_app.
  case_decide as Hk.
  { rewrite take_ge, <-log_bytes_snoc by done. by apply scan_log_bytes. }
  rewrite log_bytes_snoc in Hb.
  rewrite <-(take_drop k (serialize_record r)), app_assoc in Hb.
  apply scan_spec; [done|by apply is_u64_prefix in Hb|].
  apply (deserialize_torn _ _ (drop k (serialize_record r)) r Hr).
  - by rewrite <-app_assoc, take_drop in Hb.
  - by rewrite take_drop.
  - intros H%(f_equal length). rewrite length_drop in H. simpl in H. lia.
Qed.

Lemma effect_crash_scan path rs r o fs fs' f' :
  file_at fs path = mkFile (log_bytes rs) (length (log_bytes rs)) ->
  Forall record_ok (rs ++ [r]) -> is_u64 (blen (log_bytes (rs ++ [r]))) ->
  append_effect path (serialize_record r) o fs fs' ->
  crash_image (file_at fs' path) f' ->
  ((scan (content f')).1 = rs \/ (scan (content f')).1 = rs ++ [r]) /\
  (o = Ret tt -> (scan (content f')).1 = rs ++ [r]).
Proof.
  intros Hf Hok Hb Heff (n & Hn & Hc).
  assert (exists k, content f' = log_bytes rs ++ take k (serialize_record r) /\
    (o = Ret tt -> length (serialize_record r) <= k)) as (k & Hk & Hret).
  { destruct Heff as [[Heq Hne]|[(k & Heq & Hne)|Heq]];
      rewrite Heq in Hc, Hn; unfold sync_file in *;
      rewrite ?file_at_insert, ?file_at_append, Hf in *; simpl in *.
    - exists 0. rewrite take_0, app_nil_r, Hc, take_ge by done. done.
    - exists (min (n - length (log_bytes rs)) k).
      rewrite Hc, take_app, take_take, take_ge by done. done.
    - exists (length (serialize_record r)). by rewrite Hc, !take_ge by done. }
  rewrite Hk, scan_torn_append by done.
  split; [case_decide; auto|]. intros H. by rewrite decide_True by auto.
Qed.

(** The other files are untouched. *)
Lemma effect_frame path ser o fs fs' q :
  append_effect path ser o fs fs' -> q <> path -> file_at fs' q = file_at fs q.
Proof.
  intros [[-> _]|[(k & -> & _)| ->]] Hq; [done|..];
    unfold sync_file, append_file; by rewrite ?file_at_insert_ne by done.
Qed.

Lemma read_all_run log rs f a b c script fs :
  fs !! file_of log = Some f -> scan (content f) = rs ->
  (rs.2 <= blen (content f))%Z ->
  let s := mkOS (SysOk a :: SysOk b :: SysOk c :: script) fs in
  (read_all log s).1 = Ret rs.1 /\
  file_at (files (read_all log s).2) (file_of log) =
    mkFile (take (Z.to_nat rs.2) (content f))
      (if (rs.2 <? blen (content f))%Z then min (Z.to_nat rs.2) (durable f) else durable f)
  /\ forall p, p <> file_of log -> file_at (files (read_all log s).2) p = file_at fs p.
Proof.
  intros Hf Hscan Hle s. unfold s, read_all, file_exists, sys, gets.
  unfold mbind, M_bind, mret, M_ret, throw, modify, on_files. simpl.
  rewrite bool_decide_eq_true_2 by (by exists f). simpl.
  assert (file_at fs (file_of log) = f) as Hat by (unfold file_at; by rewrite Hf).
  rewrite Hat, Hscan. destruct rs as [rs n]; simpl in *.
  destruct (_ <? _)%Z eqn:E; simpl; split_and!; try done.
  - unfold truncate_file. by rewrite file_at_insert, Hat.
  - intros p Hp. unfold truncate_file. by rewrite file_at_insert_ne.
  - rewrite Hat. apply Z.ltb_ge in E. rewrite take_ge by (unfold blen in *; lia).
    by destruct f.
Qed.

(** *** Paths *)

(** The file name of a partition's log. *)
Definition log_name (p : Z) : bytes := lit "partition-" ++ to_string p ++ lit ".log".

Lemma log_path_split dir t p : log_path_of dir t p = dir ++ lit "/" ++ t ++ lit "/" ++ log_name p.
Proof. done. Qed.

Lemma digits_plain ds c :
  forallb isdigit ds = true -> c ∈ ds -> not_slash c = true /\ not_nul c = true.
Proof.
  intros Hd Hc%list_elem_of_In. apply (proj1 (forallb_forall _ _) Hd) in Hc.
  unfold isdigit, not_slash, not_nul in *. lia.
Qed.

Lemma log_name_plain p : (0 <= p < 10 ^ 20)%Z -> plain (log_name p).
Proof.
  intros Hp. destruct (to_string_nonneg p Hp) as (_ & Hd & _). unfold log_name.
  split_and!; [done..| |]; rewrite !forallb_app; simpl; rewrite andb_true_r;
    apply forallb_forall; intros c Hc%list_elem_of_In; by apply (digits_plain _ c Hd).
Qed.

Lemma log_name_digits p q :
  (0 <= p < 10 ^ 20)%Z -> (0 <= q < 10 ^ 20)%Z -> log_name p = log_name q -> p = q.
Proof.
  intros Hp Hq Heq. unfold log_name in Heq.
  apply app_inv_head, app_inv_tail in Heq. by apply to_string_inj.
Qed.

(** Where the log of a partition is. *)
Definition log_at (dir topic : bytes) (partition_id : Z) : Path :=
  resolve (log_path_of dir topic partition_id).

Lemma resolve_log_path dir t p :
  dir_ok dir -> normal t -> (0 <= p < 10 ^ 20)%Z ->
  log_at dir t p = under (resolve dir) (components t ++ [log_name p]).
Proof.
  unfold log_at.
  intros Hdir Ht Hp. pose proof (log_name_plain p Hp) as Hn. rewrite log_path_split.
  rewrite resolve_under; [|done|apply normal_app; split; [done|by apply plain_normal]].
  by rewrite components_app, (plain_components (log_name p)).
Qed.

Lemma log_at_inj dir t1 t2 p1 p2 :
  dir_ok dir -> normal t1 -> normal t2 -> (0 <= p1 < 10 ^ 20)%Z -> (0 <= p2 < 10 ^ 20)%Z ->
  log_at dir t1 p1 = log_at dir t2 p2 -> t1 = t2 /\ p1 = p2.
Proof.
  intros Hdir H1 H2 Hp1 Hp2. rewrite !resolve_log_path by done.
  intros [Ht Hn]%under_inj%app_inj_tail.
  split; [by apply components_inj|by apply log_name_digits].
Qed.

#[export] Hint Resolve log_at_inj : kafka.

(** ** Properties *)

Section properties.
Context (log : TopicLog).

Abbreviation path := (file_of log).

(** C15. Crash safety of [append].  Start from a log that holds the records [rs], all of
    it on disk, and run [append] against any answers of the kernel: partial writes,
    interruptions, errors, or the process dying at any call.  Whatever prefix a crash
    then leaves of the file, as long as it keeps the bytes an [fsync] covered, the
    recovery scan finds exactly [rs] or [rs] with the new record; if [append] returned,
    it finds the new record. *)
Theorem append_crash_recovery rs r s f' :
  file_at (files s) path = mkFile (log_bytes rs) (length (log_bytes rs)) ->
  Forall record_ok (rs ++ [r]) -> is_u64 (blen (log_bytes (rs ++ [r]))) ->
  crash_image (file_at (files (append log r s).2) path) f' ->
  ((scan (content f')).1 = rs \/ (scan (content f')).1 = rs ++ [r]) /\
  ((append log r s).1 = Ret tt -> (scan (content f')).1 = rs ++ [r]).
Proof. intros Hf Hok Hb. by eapply effect_crash_scan; [|done|done|apply append_spec]. Qed.

(** C23. [append] terminates: once the directory exists and the file opens, any run of
    interruptions and positive partial writes that accept the whole record, followed by
    a successful [fsync] and [close], makes it return, and the file then ends with the
    whole record, every byte of it on disk. *)
Theorem append_returns r a b c d i j ws rs fs :
  forallb write_answer ws = true -> accepted ws = length (serialize_record r) ->
  let s := mkOS (SysOk a :: repeat SysIntr i ++ SysOk b :: ws ++
                 repeat SysIntr j ++ SysOk c :: SysOk d :: rs) fs in
  let old := content (file_at fs path) in
  (append log r s).1 = Ret tt /\
  file_at (files (append log r s).2) path =
    mkFile (old ++ serialize_record r) (length (old ++ serialize_record r)).
Proof.
  intros Hws Ha s old. destruct (append_done log r a b c d i j ws rs fs Hws Ha) as [fs' H].
  fold s in H. assert ((append log r s).1 = Ret tt) as Hret by (by rewrite H).
  split; [done|]. rewrite append_returned by done.
  unfold sync_file. by rewrite file_at_insert, file_at_append.
Qed.

(** C39. Whatever an existing file holds, when no call of the kernel fails [read_all] returns
    the longest run of valid records at its start and leaves exactly those records on disk;
    no other file changes, and reading again returns the same records. *)
Theorem read_all_recovers f a b c script fs :
  fs !! path = Some f -> is_u64 (blen (content f)) ->
  let s := mkOS (SysOk a :: SysOk b :: SysOk c :: script) fs in
  exists rs n, valid_prefix (content f) rs n /\
    (read_all log s).1 = Ret rs /\
    content (file_at (files (read_all log s).2) path) = log_bytes rs /\
    (forall p, p <> path -> file_at (files (read_all log s).2) p = file_at fs p) /\
    scan (log_bytes rs) = (rs, n).
Proof.
  intros Hf Hb s. pose proof (scan_valid _ Hb) as Hv.
  exists (scan (content f)).1, (scan (content f)).2. split; [done|].
  destruct Hv as (Hok & Hn & [tail Ht] & _).
  assert ((scan (content f)).2 <= blen (content f))%Z as Hle.
  { rewrite Hn. rewrite Ht at 2. rewrite blen_app. pose proof (blen_nonneg tail). lia. }
  destruct (read_all_run log _ f a b c script fs Hf eq_refl Hle) as (H1 & H2 & H3).
  fold s in H1, H2, H3. rewrite H1, H2. split; [done|]. simpl content. split_and!.
  - rewrite Hn. unfold blen. rewrite Nat2Z.id. rewrite Ht at 2. by rewrite take_app_length.
  - done.
  - rewrite Hn. apply scan_log_bytes; [done|]. rewrite Ht in Hb. by apply is_u64_prefix in Hb.
Qed.

End properties.

(** A process that goes on after a failed write: [append] leaves the first six bytes of a
    record behind, and the next [append] succeeds. *)
Definition after_failed_write (log : TopicLog) (fs : gmap Path file) : outcome unit * OS :=
  let s1 := mkOS [SysOk 0; SysOk 3; SysOk 6; SysErr] fs in
  let fs1 := files (append log (mkRecord (lit "first")) s1).2 in
  append log (mkRecord (lit "second"))
    (mkOS [SysOk 0; SysOk 3; SysOk 14; SysOk 0; SysOk 0] fs1).

(** C40. A failed write is not cleaned up, so the log keeps a torn record in its middle:
    the next [append] returns successfully, with [fsync] done, and yet recovery does not
    find its record. *)
Theorem append_after_failed_write_lost log rs fs :
  file_at fs (file_of log) = mkFile (log_bytes rs) (length (log_bytes rs)) ->
  Forall record_ok rs -> (blen (log_bytes rs) < 2 ^ 60)%Z ->
  (after_failed_write log fs).1 = Ret tt /\
  (scan (content (file_at (files (after_failed_write log fs).2) (file_of log)))).1 = rs.
Proof.
  intros Hf Hok Hb. set (t := take 6 (serialize_record (mkRecord (lit "first")))).
  set (ser := serialize_record (mkRecord (lit "second"))).
  assert ((after_failed_write log fs).1 = Ret tt /\
    files (after_failed_write log fs).2 =
      sync_file (file_of log) (append_file (file_of log) (t ++ ser) fs)) as [Hret ->].
  { unfold after_failed_write. cbv zeta.
    rewrite append_write_error by (vm_compute; lia). cbn [snd files]. fold t.
    destruct (append_done log (mkRecord (lit "second")) 0 3 0 0 0 0 [SysOk 14] []
      (append_file (file_of log) t fs) eq_refl ltac:(vm_compute; reflexivity))
      as [fs' H]. cbn [repeat app] in H.
    rewrite <-append_append, <-append_returned with (r := mkRecord (lit "second"))
      (s := mkOS [SysOk 0; SysOk 3; SysOk 14; SysOk 0; SysOk 0]
              (append_file (file_of log) t fs)); rewrite H; done. }
  split; [done|]. unfold sync_file. rewrite file_at_insert, file_at_append, Hf.
  simpl content.
  assert (is_u64 (blen (log_bytes rs ++ t ++ ser))) as Hb'.
  { unfold is_u64. rewrite blen_app. pose proof (blen_nonneg (log_bytes rs)).
    assert (blen (t ++ ser) = 20%Z) as -> by (vm_compute; reflexivity). lia. }
  rewrite scan_spec; [done|done|done|].
  rewrite deserialize_shift by done.
  assert (deserialize_record (t ++ ser) 0 = None) as -> by (vm_compute; reflexivity). done.
Qed.

(** Distinct topics or partitions never share a log file, as long as the topics' names are
    paths without empty, "." or ".." components. *)
Theorem log_path_injective dir t1 t2 p1 p2 l1 l2 (s : OS) :
  dir_ok dir -> normal t1 -> normal t2 -> (p1 <= INT_MAX)%Z -> (p2 <= INT_MAX)%Z ->
  new_TopicLog t1 p1 dir s = (Ret l1, s) -> new_TopicLog t2 p2 dir s = (Ret l2, s) ->
  file_of l1 = file_of l2 -> t1 = t2 /\ p1 = p2.
Proof.
  unfold new_TopicLog, INT_MAX, throw, mret, M_ret. intros Hdir Ht1 Ht2 Hp1 Hp2.
  intros H1 H2 Heq.
  destruct (bool_decide (t1 = [])), (p1 <? 0)%Z eqn:?,
    (bool_decide (t2 = [])), (p2 <? 0)%Z eqn:?; simplify_eq/=.
  apply (log_at_inj dir); [done..|pow2_consts; lia|pow2_consts; lia|done].
Qed.

(** *** Witnesses *)

Definition demo_log : TopicLog := mkTopicLog (lit "t") 0 (lit "d") (log_path_of (lit "d") (lit "t") 0).

Lemma append_crash_recovery_witness :
  let fs := {[ file_of demo_log := mkFile (log_bytes [mkRecord (lit "a")]) 9 ]} in
  let s := mkOS [SysOk 0; SysOk 3; SysOk 4; SysIntr; SysOk 2] fs in
  (scan (log_bytes [mkRecord (lit "a")] ++
         take 5 (serialize_record (mkRecord (lit "bc"))))).1 = [mkRecord (lit "a")] \/
  (scan (log_bytes [mkRecord (lit "a")] ++
         take 5 (serialize_record (mkRecord (lit "bc"))))).1 =
    [mkRecord (lit "a"); mkRecord (lit "bc")].
Proof.
  intros fs s.
  apply (append_crash_recovery demo_log [mkRecord (lit "a")] (mkRecord (lit "bc")) s
    (mkFile (log_bytes [mkRecord (lit "a")] ++
             take 5 (serialize_record (mkRecord (lit "bc")))) 0)).
  - vm_compute; reflexivity.
  - repeat constructor; vm_compute; congruence.
  - closed.
  - exists 14. split; [vm_compute; lia|vm_compute; reflexivity].
Defined.

Lemma append_returns_witness :
  (append demo_log (mkRecord (lit "bc"))
    (mkOS [SysOk 0; SysIntr; SysOk 3; SysOk 4; SysIntr; SysOk 6; SysIntr; SysOk 0; SysOk 0] ∅)).1
  = Ret tt.
Proof.
  exact (proj1 (append_returns demo_log (mkRecord (lit "bc")) 0 3 0 0 1 1
    [SysOk 4; SysIntr; SysOk 6] [] ∅ eq_refl ltac:(vm_compute; reflexivity))).
Defined.

Lemma read_all_recovers_witness :
  let f := mkFile (log_bytes [mkRecord (lit "a")] ++ lit "junk") 13 in
  exists rs, (read_all demo_log (mkOS [SysOk 0; SysOk 0; SysOk 0] {[ file_of demo_log := f ]})).1
    = Ret rs.
Proof.
  intros f. destruct (read_all_recovers demo_log f 0 0 0 [] {[ file_of demo_log := f ]})
    as (rs & n & _ & H & _).
  - apply lookup_singleton_eq.
  - closed.
  - exists rs. exact H.
Defined.

Lemma append_after_failed_write_lost_witness :
  (after_failed_write demo_log {[ file_of demo_log := mkFile [] 0 ]}).1 = Ret tt.
Proof.
  apply (append_after_failed_write_lost demo_log [] {[ file_of demo_log := mkFile [] 0 ]});
    [vm_compute; reflexivity|constructor|closed].
Defined.
