(* ===== verification/Framing.v ===== *)
(** * Length-prefixed frames over a blocking socket ([src/framing.hpp])

    [recv] may deliver any non-empty part of what has arrived, so what a socket yields
    is a script of segments; [send] may accept any part of what it is given. *)

From S2P Require Import Prelude Posix.

(** ** Definitions *)

Definition kMaxPayloadSize : Z := 64 * 1024.

(** What the network does next on the receiving side. *)
Inductive recv_event :=
| RecvData (segment : bytes)
| RecvEof
| RecvIntr
| RecvAgain
| RecvErr.

Record Sock := mkSock {
  rx : list recv_event;
  tx : list sys_result;
  sent : bytes
}.

(** The [while (total_read < bytes)] loop with [n] bytes to go: the bytes read, or [None]
    for [return false].  A segment longer than [n] is left in the socket past its [n]
    first bytes. *)
Fixpoint recv_loop (n : nat) (evs : list recv_event)
    : outcome (option bytes) * list recv_event :=
  if n =? 0 then (Ret (Some []), evs) else
  match evs with
  | [] => (Crash, [])
  | RecvIntr :: evs => recv_loop n evs
  | RecvEof :: evs => (Ret None, RecvEof :: evs)
  | RecvData [] :: evs => (Ret None, evs)
  | RecvData seg :: evs =>
      if n <? length seg then (Ret (Some (take n seg)), RecvData (drop n seg) :: evs)
      else match recv_loop (n - length seg) evs with
           | (Ret (Some l), evs) => (Ret (Some (seg ++ l)), evs)
           | r => r
           end
  | _ :: evs => (Throw runtime_error, evs)
  end.

Definition read_exactly (n : nat) : M Sock (option bytes) := fun s =>
  let (r, evs) := recv_loop n (rx s) in (r, mkSock evs (tx s) (sent s)).

(** The [while (total_sent < bytes)] loop. *)
Fixpoint send_loop (buffer : bytes) (total_sent : nat) (rs : list sys_result)
    (out : bytes) : outcome unit * (list sys_result * bytes) :=
  if length buffer <=? total_sent then (Ret tt, (rs, out)) else
  match rs with
  | [] => (Crash, ([], out))
  | SysIntr :: rs => send_loop buffer total_sent rs out
  | SysOk O :: rs => (Throw runtime_error, (rs, out))
  | SysOk n :: rs =>
      let n := min n (length buffer - total_sent) in
      send_loop buffer (total_sent + n) rs (out ++ take n (drop total_sent buffer))
  | _ :: rs => (Throw runtime_error, (rs, out))
  end.

Definition write_exactly (buffer : bytes) : M Sock unit := fun s =>
  let '(r, (rs, out)) := send_loop buffer 0 (tx s) (sent s) in (r, mkSock (rx s) rs out).

Definition write_frame (payload : bytes) : M Sock unit :=
  if (kMaxPayloadSize <? blen payload)%Z then throw runtime_error else
  let payload_size := u32 (blen payload) in
  _ ← write_exactly (be32_enc payload_size);
  if bool_decide (payload = []) then mret tt else write_exactly payload.

(** [None] is [return false]: the peer closed the connection between frames. *)
Definition read_frame : M Sock (option bytes) :=
  header ← read_exactly 4;
  match header with
  | None => mret None
  | Some header =>
      let payload_size := be32_dec header in
      if (kMaxPayloadSize <? payload_size)%Z then throw runtime_error else
      if (payload_size =? 0)%Z then mret (Some []) else
      payload ← read_exactly (Z.to_nat payload_size);
      match payload with
      | None => throw runtime_error
      | Some payload => mret (Some payload)
      end
  end.

(** *** Specification *)

(** The bytes of a frame on the wire. *)
Definition frame (payload : bytes) : bytes := be32_enc (blen payload) ++ payload.

(** Receive scripts in which only data and interruptions happen, and their data. *)
Definition arriving (evs : list recv_event) : Prop :=
  Forall (fun e => e = RecvIntr \/ exists seg, seg <> [] /\ e = RecvData seg) evs.

Definition data_of (evs : list recv_event) : bytes :=
  concat (map (fun e => match e with RecvData seg => seg | _ => [] end) evs).

Definition frame_ok (p : bytes) : Prop := (blen p <= kMaxPayloadSize)%Z.

(** Reading [n] frames in a row. *)
Fixpoint read_frames (n : nat) : M Sock (list bytes) :=
  match n with
  | O => mret []
  | S n =>
      p ← read_frame;
      match p with
      | None => mret []
      | Some p => ps ← read_frames n; mret (p :: ps)
      end
  end.

(** ** Receiving *)

Lemma recv_loop_spec evs : forall n,
  arriving evs -> n <= length (data_of evs) ->
  exists evs', recv_loop n evs = (Ret (Some (take n (data_of evs))), evs') /\
    arriving evs' /\ data_of evs' = drop n (data_of evs).
Proof.
  induction evs as [|e evs IH]; intros n Harr Hn.
  { simpl in Hn. replace n with 0 by lia. by exists []. }
  destruct n as [|n]; [by exists (e :: evs)|].
  apply Forall_cons in Harr as [He Harr].
  destruct He as [-> | (seg & Hseg & ->)].
  { unfold data_of in *; simpl in *. by apply IH. }
  unfold data_of in *; simpl in Hn |- *. fold (data_of evs) in *.
  rewrite length_app in Hn. destruct seg as [|c seg]; [done|].
  destruct (S n <? length (c :: seg)) eqn:E.
  - apply Nat.ltb_lt in E. exists (RecvData (drop (S n) (c :: seg)) :: evs). split_and!.
    + by rewrite take_app_le by lia.
    + apply Forall_cons; split; [|done]. right. eexists; split; [|done].
      intros H%(f_equal length). rewrite length_drop in H. simpl in *. lia.
    + rewrite drop_app_le by lia. done.
  - apply Nat.ltb_ge in E.
    destruct (IH (S n - length (c :: seg))) as (evs' & -> & Harr' & Hd); [done|lia|].
    exists evs'. split_and!; [|done|].
    + by rewrite take_app_ge by lia.
    + by rewrite drop_app_ge by lia.
Qed.

Lemma read_exactly_spec n s :
  arriving (rx s) -> n <= length (data_of (rx s)) ->
  exists evs', read_exactly n s =
    (Ret (Some (take n (data_of (rx s)))), mkSock evs' (tx s) (sent s)) /\
    arriving evs' /\ data_of evs' = drop n (data_of (rx s)).
Proof.
  intros Harr Hn. destruct (recv_loop_spec (rx s) n Harr Hn) as (evs' & H & ?).
  exists evs'. unfold read_exactly. by rewrite H.
Qed.

Lemma read_frame_spec p rest s :
  frame_ok p -> arriving (rx s) -> data_of (rx s) = frame p ++ rest ->
  exists evs', read_frame s = (Ret (Some p), mkSock evs' (tx s) (sent s)) /\
    arriving evs' /\ data_of evs' = rest.
Proof.
  intros Hp Harr Hdata. unfold frame_ok, kMaxPayloadSize in Hp.
  pose proof (blen_nonneg p).
  unfold frame in Hdata. rewrite <-app_assoc in Hdata.
  destruct (read_exactly_spec 4 s Harr) as (evs1 & H1 & Harr1 & Hd1).
  { rewrite Hdata, length_app, length_be32_enc. lia. }
  rewrite Hdata in H1, Hd1. change 4 with (length (be32_enc (blen p))) in H1 at 2, Hd1.
  rewrite take_app_length in H1. rewrite drop_app_length in Hd1.
  unfold read_frame, mbind, M_bind. rewrite H1.
  rewrite be32_dec_enc by lia. unfold kMaxPayloadSize.
  rewrite (proj2 (Z.ltb_ge _ _)) by lia.
  destruct (blen p =? 0)%Z eqn:E.
  { apply Z.eqb_eq in E. assert (p = []) as ->.
    { unfold blen in E. destruct p; [done|simpl in E; lia]. }
    by exists evs1. }
  destruct (read_exactly_spec (Z.to_nat (blen p)) (mkSock evs1 (tx s) (sent s)) Harr1)
    as (evs2 & H2 & Harr2 & Hd2); simpl in *.
  { rewrite Hd1, length_app. unfold blen. lia. }
  rewrite H2, Hd1. unfold blen in *. rewrite Nat2Z.id in *.
  exists evs2. rewrite take_app_length. split_and!; [done|done|].
  by rewrite Hd2, Hd1, drop_app_length.
Qed.

(** What a call did does not depend on the events it has not reached. *)
Lemma recv_loop_app n evs tail o evs' :
  recv_loop n evs = (o, evs') -> o <> Crash -> recv_loop n (evs ++ tail) = (o, evs' ++ tail).
Proof.
  revert n o evs'. induction evs as [|e evs IH]; intros n o evs' Hr Ho;
    cbn [recv_loop app] in *; destruct (n =? 0) eqn:E0; simplify_eq; try done.
  { apply Nat.eqb_eq in E0 as ->. by destruct tail. }
  destruct e as [[|c seg]| | | |]; simplify_eq; try done; [|by apply IH].
  destruct (n <? length (c :: seg)); simplify_eq; [done|].
  destruct (recv_loop (n - length (c :: seg)) evs) as [o1 evs1] eqn:E1.
  rewrite (IH _ o1 evs1 E1); [|by intros ->; simplify_eq].
  by destruct o1 as [[l|]| |]; simplify_eq.
Qed.

Definition more_rx (tail : list recv_event) (s : Sock) : Sock := mkSock (rx s ++ tail) (tx s) (sent s).

Lemma read_exactly_app n s tail o s' :
  read_exactly n s = (o, s') -> o <> Crash -> read_exactly n (more_rx tail s) = (o, more_rx tail s').
Proof.
  unfold read_exactly. destruct (recv_loop n (rx s)) as [o1 evs1] eqn:E. intros [= <- <-] Ho.
  simpl. by rewrite (recv_loop_app _ _ tail _ _ E Ho).
Qed.

Lemma read_frame_app s tail p s' :
  read_frame s = (Ret (Some p), s') ->
  read_frame (more_rx tail s) = (Ret (Some p), more_rx tail s').
Proof.
  unfold read_frame, mbind, M_bind.
  destruct (read_exactly 4 s) as [[[header|]|e|] s1] eqn:E1; try done.
  rewrite (read_exactly_app _ _ tail _ _ E1) by done.
  destruct (_ <? _)%Z; [done|]. destruct (_ =? 0)%Z; [by intros [= <- <-]|].
  destruct (read_exactly (Z.to_nat _) s1) as [[[payload|]|e|] s2] eqn:E2; try done.
  rewrite (read_exactly_app _ _ tail _ _ E2) by done. by intros [= <- <-].
Qed.

(** The end of the stream, after interruptions only. *)
Lemma read_frame_eof evs s :
  arriving evs -> data_of evs = [] -> rx s = evs ++ [RecvEof] ->
  read_frame s = (Ret None, mkSock [RecvEof] (tx s) (sent s)).
Proof.
  intros Harr Hd Hrx. unfold read_frame, read_exactly, mbind, M_bind. rewrite Hrx. clear Hrx.
  assert (recv_loop 4 (evs ++ [RecvEof]) = (Ret None, [RecvEof])) as ->; [|done].
  induction Harr as [|e evs [-> | (seg & Hseg & ->)] _ IH]; [done|by apply IH|].
  unfold data_of in Hd; simpl in Hd. by apply app_eq_nil in Hd as [? _].
Qed.

(** ** Sending *)

Lemma send_loop_spec buffer rs : forall total out,
  total <= length buffer ->
  exists k, total <= k <= length buffer /\
    (send_loop buffer total rs out).2.2 = out ++ take (k - total) (drop total buffer) /\
    ((send_loop buffer total rs out).1 = Ret tt -> k = length buffer).
Proof.
  assert (Hstop : forall total out (o : outcome unit) (l : list sys_result),
    total <= length buffer -> (o = Ret tt -> total = length buffer) ->
    exists k, total <= k <= length buffer /\
      (o, (l, out)).2.2 = out ++ take (k - total) (drop total buffer) /\
      ((o, (l, out)).1 = Ret tt -> k = length buffer)).
  { intros total out o l Ht Ho. exists total.
    rewrite Nat.sub_diag, take_0, app_nil_r. auto. }
  induction rs as [|r rs IH]; intros total out Ht; cbn [send_loop];
    destruct (_ <=? _) eqn:E; try (apply Hstop; [done|]; apply Nat.leb_le in E; lia);
    try (by apply Hstop).
  apply Nat.leb_gt in E.
  destruct r as [[|n]| | |]; try (by apply Hstop); [|by apply IH].
  set (m := min (S n) (length buffer - total)).
  destruct (IH (total + m) (out ++ take m (drop total buffer))) as (k & Hk & Hout & Hret);
    [lia|].
  exists k. split; [lia|]. split; [|done]. rewrite Hout, <-app_assoc. f_equal.
  replace (k - total) with (m + (k - (total + m))) by lia.
  rewrite <-drop_drop. by rewrite take_take_drop.
Qed.

Lemma write_exactly_spec buffer s :
  exists k, k <= length buffer /\
    sent (write_exactly buffer s).2 = sent s ++ take k buffer /\
    rx (write_exactly buffer s).2 = rx s /\
    ((write_exactly buffer s).1 = Ret tt -> k = length buffer).
Proof.
  destruct (send_loop_spec buffer (tx s) 0 (sent s)) as (k & Hk & Hout & Hret); [lia|].
  rewrite Nat.sub_0_r, drop_0 in Hout. exists k. unfold write_exactly.
  destruct (send_loop _ _ _ _) as [o [rs out]]. simpl in *. auto with lia.
Qed.

(** *** Progress *)

(** Answers that accept something or are interruptions, at least [n] of them the former:
    enough to send [n] bytes. *)
Definition sends (rs : list sys_result) (n : nat) : Prop :=
  Forall (fun r => r = SysIntr \/ exists k, r = SysOk (S k)) rs /\
  n <= length (filter (fun r => r <> SysIntr) rs).

Lemma send_loop_done buffer rs : forall total out n,
  total <= length buffer -> sends rs (length buffer - total + n) ->
  exists rs', send_loop buffer total rs out = (Ret tt, (rs', out ++ drop total buffer)) /\
    sends rs' n.
Proof.
  induction rs as [|r rs IH]; intros total out n Ht [Hpos Hn]; cbn [send_loop].
  { exists []. simpl in Hn. rewrite drop_ge, app_nil_r, (proj2 (Nat.leb_le _ _)) by lia.
    split; [done|]. split; [done|simpl; lia]. }
  destruct (_ <=? _) eqn:E.
  { apply Nat.leb_le in E. exists (r :: rs). rewrite drop_ge, app_nil_r by lia.
    split; [done|]. split; [done|lia]. }
  apply Nat.leb_gt in E. apply Forall_cons in Hpos as [Hr Hpos].
  destruct Hr as [-> | [k ->]].
  { rewrite filter_cons_False in Hn by auto. by apply IH. }
  rewrite filter_cons_True in Hn by done. simpl in Hn.
  set (m := min (S k) (length buffer - total)).
  destruct (IH (total + m) (out ++ take m (drop total buffer)) n) as (rs' & H & Hs);
    [lia|split; [done|lia]|].
  exists rs'. split; [|done]. rewrite H, <-app_assoc. repeat f_equal.
  by rewrite <-drop_drop, take_drop.
Qed.

Lemma write_exactly_done buffer s n :
  sends (tx s) (length buffer + n) ->
  exists tx', write_exactly buffer s = (Ret tt, mkSock (rx s) tx' (sent s ++ buffer)) /\
    sends tx' n.
Proof.
  intros Hs. destruct (send_loop_done buffer (tx s) 0 (sent s) n) as (tx' & H & ?);
    [lia|by rewrite Nat.sub_0_r|].
  exists tx'. unfold write_exactly. by rewrite H.
Qed.

Lemma write_frame_done p s n :
  frame_ok p -> sends (tx s) (length (frame p) + n) ->
  exists tx', write_frame p s = (Ret tt, mkSock (rx s) tx' (sent s ++ frame p)) /\
    sends tx' n.
Proof.
  intros Hp Hs. unfold frame_ok, kMaxPayloadSize in Hp. pose proof (blen_nonneg p).
  unfold write_frame, frame, kMaxPayloadSize in *. rewrite (proj2 (Z.ltb_ge _ _)) by lia.
  rewrite u32_small by (unfold is_u32; lia).
  rewrite length_app, <-Nat.add_assoc in Hs.
  destruct (write_exactly_done _ s _ Hs) as (tx1 & H1 & Hs1).
  unfold mbind, M_bind. rewrite H1. case_bool_decide as Hp0.
  - subst p. exists tx1. by rewrite app_nil_r.
  - destruct (write_exactly_done p (mkSock (rx s) tx1 (sent s ++ be32_enc (blen p))) n Hs1)
      as (tx2 & H2 & Hs2).
    exists tx2. rewrite H2. simpl. by rewrite <-app_assoc.
Qed.

(** ** Properties *)

(** C12. Reading frames back does not depend on how the network cut the byte stream:
    whatever the segments and interruptions, [read_frame] called once per frame returns
    the payloads in order and leaves the bytes that follow. *)
Theorem read_frames_any_segmentation ps rest s :
  Forall frame_ok ps -> arriving (rx s) ->
  data_of (rx s) = concat (map frame ps) ++ rest ->
  exists evs', read_frames (length ps) s = (Ret ps, mkSock evs' (tx s) (sent s)) /\
    data_of evs' = rest.
Proof.
  revert s. induction ps as [|p ps IH]; intros s Hps Harr Hdata.
  { exists (rx s). by destruct s. }
  apply Forall_cons in Hps as [Hp Hps]. simpl in Hdata. rewrite <-app_assoc in Hdata.
  destruct (read_frame_spec p _ s Hp Harr Hdata) as (evs1 & H1 & Harr1 & Hd1).
  destruct (IH (mkSock evs1 (tx s) (sent s)) Hps Harr1 Hd1) as (evs2 & H2 & Hd2).
  exists evs2. split; [|done]. cbn [length read_frames].
  unfold mbind, M_bind in *. by rewrite H1, H2.
Qed.

Lemma read_frames_any_segmentation_witness :
  exists evs', read_frames 2
    (mkSock [RecvData (take 2 (frame (lit "ab"))); RecvIntr;
             RecvData (drop 2 (frame (lit "ab")) ++ frame []); RecvIntr] [] [])
    = (Ret [lit "ab"; []], mkSock evs' [] []) /\ data_of evs' = [].
Proof.
  apply (read_frames_any_segmentation [lit "ab"; []] []).
  - repeat constructor; closed.
  - repeat (constructor; [first [by left|right; eexists; split; [|done]; done]|]).
    constructor.
  - vm_compute; reflexivity.
Defined.

(** [write_frame] puts on the wire a prefix of the frame, whatever [send] does; the
    whole frame if it returns; and nothing at all for a payload over the maximum, which
    it refuses. *)
Theorem write_frame_sends_frame p s :
  (exists k, sent (write_frame p s).2 = sent s ++ take k (frame p)) /\
  ((write_frame p s).1 = Ret tt ->
     frame_ok p /\ sent (write_frame p s).2 = sent s ++ frame p) /\
  (~ frame_ok p -> write_frame p s = (Throw runtime_error, s)).
Proof.
  unfold write_frame, frame_ok, kMaxPayloadSize.
  destruct (_ <? _)%Z eqn:E.
  { split_and!; [|done|done]. exists 0. by rewrite take_0, app_nil_r. }
  apply Z.ltb_ge in E. pose proof (blen_nonneg p).
  rewrite u32_small by (unfold is_u32; lia). unfold mbind, M_bind.
  destruct (write_exactly_spec (be32_enc (blen p)) s) as (k1 & Hk1 & Hs1 & _ & Hr1).
  destruct (write_exactly _ s) as [[[]| |] s1]; simpl in *.
  2,3: split_and!; [exists k1; unfold frame; by rewrite take_app_le by done|done|lia].
  assert (sent s1 = sent s ++ be32_enc (blen p)) as Hs1'.
  { rewrite Hs1, (Hr1 eq_refl). by rewrite take_ge. }
  case_bool_decide as Hp; simpl.
  { subst p. split_and!; [exists 4|intros _; split; [done|]|lia]; by rewrite Hs1'. }
  destruct (write_exactly_spec p s1) as (k2 & Hk2 & Hs2 & _ & Hr2).
  split_and!.
  - exists (4 + k2). unfold frame. rewrite Hs2, Hs1', <-app_assoc.
    by rewrite take_app_add' by done.
  - intros Hr. split; [done|]. rewrite Hs2, (Hr2 Hr), take_ge, Hs1' by lia.
    by rewrite <-app_assoc.
  - lia.
Qed.

Lemma write_frame_sends_frame_witness :
  sent (write_frame (lit "hi") (mkSock [] [SysOk 3; SysIntr; SysOk 9; SysOk 2] [])).2 =
  frame (lit "hi").
Proof.
  apply (write_frame_sends_frame (lit "hi")
    (mkSock [] [SysOk 3; SysIntr; SysOk 9; SysOk 2] [])). vm_compute; reflexivity.
Defined.

(** [read_frame] refuses a header that announces more than the maximum before it
    reads any of the payload. *)
Theorem read_frame_oversize z rest s :
  is_u32 z -> (kMaxPayloadSize < z)%Z -> arriving (rx s) ->
  data_of (rx s) = be32_enc z ++ rest ->
  exists evs', read_frame s = (Throw runtime_error, mkSock evs' (tx s) (sent s)) /\
    data_of evs' = rest.
Proof.
  intros Hz Hmax Harr Hdata.
  destruct (read_exactly_spec 4 s Harr) as (evs1 & H1 & _ & Hd1).
  { rewrite Hdata, length_app, length_be32_enc. lia. }
  rewrite Hdata in H1, Hd1. change 4 with (length (be32_enc z)) in H1 at 2, Hd1.
  rewrite take_app_length in H1. rewrite drop_app_length in Hd1.
  exists evs1. split; [|done]. unfold read_frame, mbind, M_bind. rewrite H1.
  by rewrite be32_dec_enc, (proj2 (Z.ltb_lt _ _)).
Qed.

