(* ===== verification/Protocol.v ===== *)
(** * The text protocol ([src/protocol.hpp], [src/protocol.cpp])

    [parse_request] turns the payload of a frame into a [Request]; the request lines are
    the texts that the clients and the leader build. *)

From S2P Require Import Prelude Text.

(** ** Definitions *)

Inductive RequestType :=
| PRODUCE | FETCH | JOIN | LEAVE | GROUP_POLL | COMMIT | REPLICATE
| REPLICATION_PROGRESS | PING | METRICS | INVALID.

#[export] Instance RequestType_eq_dec : EqDecision RequestType.
Proof. solve_decision. Defined.

Record Request := mkRequest {
  r_type : RequestType;
  r_group_id : bytes;
  r_consumer_id : bytes;
  r_topic : bytes;
  r_partition : Z;
  r_offset : Z;
  r_payload : bytes
}.

#[export] Instance Request_eq_dec : EqDecision Request.
Proof. solve_decision. Defined.

(** [Request req;] with the member initializers. *)
Definition new_Request : Request := mkRequest INVALID [] [] [] 0 0 [].

(** An [int], and the offsets [std::stoll] can give. *)
Definition is_int (z : Z) : Prop := (0 <= z <= INT_MAX)%Z.

Definition is_offset (z : Z) : Prop := (0 <= z < 2 ^ 63)%Z.

Definition has_extra_tokens (iss : istringstream) : bool :=
  bool_decide (is_Some (extract iss).1).

(** [None] is [return false], after which the caller's variable is unchanged. *)
Definition parse_partition (partition_str : bytes) : option Z :=
  match stoi partition_str with
  | inl _ => None
  | inr (parsed, pos) =>
      if negb (pos =? blen partition_str)%Z || (parsed <? 0)%Z || (3 <=? parsed)%Z
      then None else Some parsed
  end.

Definition parse_non_negative_int (value : bytes) : option Z :=
  match stoi value with
  | inl _ => None
  | inr (parsed, pos) =>
      if negb (pos =? blen value)%Z || (parsed <? 0)%Z then None else Some parsed
  end.

Definition parse_offset (offset_str : bytes) : option Z :=
  match stoll offset_str with
  | inl _ => None
  | inr (parsed, pos) =>
      if negb (pos =? blen offset_str)%Z || (parsed <? 0)%Z
      then None else Some (u64 parsed)
  end.

(** [iss >> w1 >> ... >> wn]. *)
Fixpoint extract_words (n : nat) (iss : istringstream)
    : option (list bytes) * istringstream :=
  match n with
  | O => (Some [], iss)
  | S n =>
      match extract iss with
      | (Some w, iss) =>
          match extract_words n iss with
          | (Some ws, iss) => (Some (w :: ws), iss)
          | (None, iss) => (None, iss)
          end
      | (None, iss) => (None, iss)
      end
  end.

Definition parse_produce (iss : istringstream) : Request :=
  match extract_words 2 iss with
  | (Some [topic; partition_str], iss) =>
      let payload := strip_leading_spaces (getline iss).1 in
      if bool_decide (topic = []) || bool_decide (payload = []) then new_Request else
      match parse_partition partition_str with
      | None => new_Request
      | Some p => mkRequest PRODUCE [] [] topic p 0 payload
      end
  | _ => new_Request
  end.

Definition parse_fetch (iss : istringstream) : Request :=
  match extract_words 3 iss with
  | (Some [topic; partition_str; offset_str], iss) =>
      if has_extra_tokens iss then new_Request else
      match parse_partition partition_str with
      | None => new_Request
      | Some p =>
          match parse_offset offset_str with
          | None => mkRequest INVALID [] [] [] p 0 []
          | Some off => mkRequest FETCH [] [] topic p off []
          end
      end
  | _ => new_Request
  end.

Definition parse_replicate (iss : istringstream) : Request :=
  match extract_words 3 iss with
  | (Some [topic; partition_str; offset_str], iss) =>
      let payload := strip_leading_spaces (getline iss).1 in
      if bool_decide (topic = []) || bool_decide (payload = []) then new_Request else
      match parse_non_negative_int partition_str with
      | None => new_Request
      | Some p =>
          match parse_offset offset_str with
          | None => mkRequest INVALID [] [] [] p 0 []
          | Some off => mkRequest REPLICATE [] [] topic p off payload
          end
      end
  | _ => new_Request
  end.

Definition parse_replication_progress (iss : istringstream) : Request :=
  match extract_words 2 iss with
  | (Some [topic; partition_str], iss) =>
      if has_extra_tokens iss then new_Request else
      match parse_non_negative_int partition_str with
      | None => new_Request
      | Some p => mkRequest REPLICATION_PROGRESS [] [] topic p 0 []
      end
  | _ => new_Request
  end.

Definition parse_join (iss : istringstream) : Request :=
  match extract_words 3 iss with
  | (Some [group_id; consumer_id; topic], iss) =>
      if has_extra_tokens iss then new_Request
      else mkRequest JOIN group_id consumer_id topic 0 0 []
  | _ => new_Request
  end.

(** The [LEAVE] and [GROUP_POLL] branches differ in the type they set only. *)
Definition parse_member (ty : RequestType) (iss : istringstream) : Request :=
  match extract_words 2 iss with
  | (Some [group_id; consumer_id], iss) =>
      if has_extra_tokens iss then new_Request
      else mkRequest ty group_id consumer_id [] 0 0 []
  | _ => new_Request
  end.

Definition parse_commit (iss : istringstream) : Request :=
  match extract_words 5 iss with
  | (Some [group_id; consumer_id; topic; partition_str; offset_str], iss) =>
      if has_extra_tokens iss then new_Request else
      match parse_partition partition_str with
      | None => new_Request
      | Some p =>
          match parse_offset offset_str with
          | None => mkRequest INVALID [] [] [] p 0 []
          | Some off => mkRequest COMMIT group_id consumer_id topic p off []
          end
      end
  | _ => new_Request
  end.

(** The [PING] and [METRICS] branches. *)
Definition parse_bare (ty : RequestType) (iss : istringstream) : Request :=
  if has_extra_tokens iss then new_Request else mkRequest ty [] [] [] 0 0 [].

Definition parse_request (raw_request : bytes) : Request :=
  let (w, iss) := extract (open_stream raw_request) in
  let command := default [] w in
  if bool_decide (command = lit "PING") then parse_bare PING iss
  else if bool_decide (command = lit "METRICS") then parse_bare METRICS iss
  else if bool_decide (command = lit "PRODUCE") then parse_produce iss
  else if bool_decide (command = lit "FETCH") then parse_fetch iss
  else if bool_decide (command = lit "REPLICATE") then parse_replicate iss
  else if bool_decide (command = lit "REPLICATION_PROGRESS")
       then parse_replication_progress iss
  else if bool_decide (command = lit "JOIN") then parse_join iss
  else if bool_decide (command = lit "LEAVE") then parse_member LEAVE iss
  else if bool_decide (command = lit "GROUP_POLL") then parse_member GROUP_POLL iss
  else if bool_decide (command = lit "COMMIT") then parse_commit iss
  else new_Request.

(** *** Request lines *)

(** Fields joined by single spaces. *)
Fixpoint join_sp (ws : list bytes) : bytes :=
  match ws with
  | [] => []
  | [w] => w
  | w :: ws => w ++ space :: join_sp ws
  end.

Definition produce_line (topic : bytes) (p : Z) (message : bytes) : bytes :=
  join_sp [lit "PRODUCE"; topic; to_string p; message].

Definition replicate_line (topic : bytes) (p off : Z) (payload : bytes) : bytes :=
  join_sp [lit "REPLICATE"; topic; to_string p; to_string off; payload].

Definition progress_line (topic : bytes) (p : Z) : bytes :=
  join_sp [lit "REPLICATION_PROGRESS"; topic; to_string p].

Definition fetch_line (topic : bytes) (p off : Z) : bytes :=
  join_sp [lit "FETCH"; topic; to_string p; to_string off].

Definition join_line (group consumer topic : bytes) : bytes :=
  join_sp [lit "JOIN"; group; consumer; topic].

Definition leave_line (group consumer : bytes) : bytes :=
  join_sp [lit "LEAVE"; group; consumer].

Definition poll_line (group consumer : bytes) : bytes :=
  join_sp [lit "GROUP_POLL"; group; consumer].

Definition commit_line (group consumer topic : bytes) (p off : Z) : bytes :=
  join_sp [lit "COMMIT"; group; consumer; topic; to_string p; to_string off].

(** The line of a request. *)
Definition request_line (r : Request) : bytes :=
  match r_type r with
  | PRODUCE => produce_line (r_topic r) (r_partition r) (r_payload r)
  | FETCH => fetch_line (r_topic r) (r_partition r) (r_offset r)
  | JOIN => join_line (r_group_id r) (r_consumer_id r) (r_topic r)
  | LEAVE => leave_line (r_group_id r) (r_consumer_id r)
  | GROUP_POLL => poll_line (r_group_id r) (r_consumer_id r)
  | COMMIT => commit_line (r_group_id r) (r_consumer_id r) (r_topic r)
                (r_partition r) (r_offset r)
  | REPLICATE => replicate_line (r_topic r) (r_partition r) (r_offset r) (r_payload r)
  | REPLICATION_PROGRESS => progress_line (r_topic r) (r_partition r)
  | PING => lit "PING"
  | METRICS => lit "METRICS"
  | INVALID => []
  end.

(** *** Specification *)

(** A payload the protocol can carry: one non-empty line ... *)
Definition is_payload (p : bytes) : Prop := p <> [] /\ no_newline p.

(** ... which starts with a visible character (or another white space than ' '), or which
    consists of spaces only. *)
Definition starts_visible (p : bytes) : Prop :=
  stops (fun c => (byte_val c =? 32)%Z) p.

Definition all_spaces (p : bytes) : Prop :=
  forallb (fun c => (byte_val c =? 32)%Z) p = true.

(** What a request of each type may hold. *)
Inductive wf_request : Request -> Prop :=
| wf_produce t p m : is_word t -> (0 <= p < 3)%Z -> is_payload m ->
    wf_request (mkRequest PRODUCE [] [] t p 0 m)
| wf_fetch t p o : is_word t -> (0 <= p < 3)%Z -> is_offset o ->
    wf_request (mkRequest FETCH [] [] t p o [])
| wf_replicate t p o m : is_word t -> is_int p -> is_offset o -> is_payload m ->
    wf_request (mkRequest REPLICATE [] [] t p o m)
| wf_progress t p : is_word t -> is_int p ->
    wf_request (mkRequest REPLICATION_PROGRESS [] [] t p 0 [])
| wf_join g c t : is_word g -> is_word c -> is_word t ->
    wf_request (mkRequest JOIN g c t 0 0 [])
| wf_leave g c : is_word g -> is_word c -> wf_request (mkRequest LEAVE g c [] 0 0 [])
| wf_poll g c : is_word g -> is_word c -> wf_request (mkRequest GROUP_POLL g c [] 0 0 [])
| wf_commit g c t p o : is_word g -> is_word c -> is_word t -> (0 <= p < 3)%Z ->
    is_offset o -> wf_request (mkRequest COMMIT g c t p o [])
| wf_ping : wf_request (mkRequest PING [] [] [] 0 0 [])
| wf_metrics : wf_request (mkRequest METRICS [] [] [] 0 0 []).

#[export] Hint Constructors wf_request : kafka.

(** ** Parsing numbers *)

Lemma parse_partition_range s p : parse_partition s = Some p -> (0 <= p < 3)%Z.
Proof.
  unfold parse_partition. destruct (stoi s) as [|[v pos]]; [done|].
  destruct (negb _) eqn:?; [done|]; simpl.
  destruct (v <? 0)%Z eqn:?; [done|]; simpl. destruct (3 <=? v)%Z eqn:?; [done|].
  intros [= <-]. lia.
Qed.

Lemma sto_signed_range w s v pos :
  sto_signed w s = inr (v, pos) -> (- 2 ^ (w - 1) <= v < 2 ^ (w - 1))%Z.
Proof.
  unfold sto_signed. destruct (scan_int s) as [[[neg m] pos']|]; [|done].
  destruct (_ && _) eqn:E; [|done]. intros [= <- <-]. lia.
Qed.

Lemma parse_non_negative_int_range s p : parse_non_negative_int s = Some p -> is_int p.
Proof.
  unfold parse_non_negative_int. destruct (stoi s) as [|[v pos]] eqn:E; [done|].
  apply sto_signed_range in E. destruct (negb _); [done|]; simpl.
  destruct (v <? 0)%Z eqn:?; [done|]. intros [= <-].
  unfold is_int, INT_MAX. pow2_consts. change (2 ^ (32 - 1))%Z with 2147483648%Z in E. lia.
Qed.

Lemma parse_offset_range s o : parse_offset s = Some o -> is_offset o.
Proof.
  unfold parse_offset. destruct (stoll s) as [|[v pos]] eqn:E; [done|].
  apply sto_signed_range in E. change (2 ^ (64 - 1))%Z with (2 ^ 63)%Z in E.
  destruct (negb _); [done|]; simpl.
  destruct (v <? 0)%Z eqn:?; [done|]. intros [= <-].
  unfold is_offset. rewrite u64_small; unfold is_u64; pow2_consts; lia.
Qed.

Lemma parse_partition_to_string p : (0 <= p < 3)%Z -> parse_partition (to_string p) = Some p.
Proof.
  intros Hp. unfold parse_partition, stoi.
  rewrite sto_signed_to_string by (change (2 ^ (32 - 1))%Z with 2147483648%Z; lia).
  rewrite Z.eqb_refl. simpl.
  by rewrite (proj2 (Z.ltb_ge p 0)), (proj2 (Z.leb_gt 3 p)) by lia.
Qed.

Lemma parse_int_to_string p : is_int p -> parse_non_negative_int (to_string p) = Some p.
Proof.
  unfold is_int, INT_MAX. pow2_consts. intros Hp. unfold parse_non_negative_int, stoi.
  rewrite sto_signed_to_string by (change (2 ^ (32 - 1))%Z with 2147483648%Z; lia).
  rewrite Z.eqb_refl. simpl. by rewrite (proj2 (Z.ltb_ge p 0)) by lia.
Qed.

Lemma parse_offset_to_string o : is_offset o -> parse_offset (to_string o) = Some o.
Proof.
  unfold is_offset. intros Ho. unfold parse_offset, stoll.
  rewrite sto_signed_to_string by (change (2 ^ (64 - 1))%Z with (2 ^ 63)%Z; lia).
  rewrite Z.eqb_refl. simpl. rewrite (proj2 (Z.ltb_ge o 0)) by lia.
  rewrite u64_small by (unfold is_u64; pow2_consts; lia). done.
Qed.

Lemma small_word p : (0 <= p < 3)%Z -> is_word (to_string p).
Proof. intros. apply to_string_word. lia. Qed.

Lemma int_word p : is_int p -> is_word (to_string p).
Proof. unfold is_int, INT_MAX. pow2_consts. intros. apply to_string_word. lia. Qed.

Lemma offset_word o : is_offset o -> is_word (to_string o).
Proof. unfold is_offset. pow2_consts. intros. apply to_string_word. lia. Qed.

#[export] Hint Resolve parse_partition_range parse_non_negative_int_range
  parse_offset_range small_word int_word offset_word : kafka.

(** ** Parsing words *)

Lemma extract_words_Some n iss ws iss' :
  extract_words n iss = (Some ws, iss') -> length ws = n /\ Forall is_word ws.
Proof.
  revert iss ws. induction n as [|n IH]; intros iss ws H; simpl in H; [by simplify_eq|].
  destruct (extract iss) as [[w|] iss1] eqn:E1; [|done].
  destruct (extract_words n iss1) as [[ws1|] iss2] eqn:E2; [|done].
  simplify_eq. destruct (IH _ _ E2) as [<- ?]. split; [done|].
  apply Forall_cons; split; [|done]. by apply extract_Some in E1.
Qed.

(** Words after the command, to the end of the line. *)
Lemma extract_words_all ws n :
  n = length ws -> ws <> [] -> Forall is_word ws ->
  extract_words n (mkStream (space :: join_sp ws) true) = (Some ws, mkStream [] false).
Proof.
  intros ->. induction ws as [|w [|w' ws] IH]; intros Hne Hws; [done|..];
    apply Forall_cons in Hws as [Hw Hws].
  - cbn [length extract_words join_sp]. by rewrite extract_last.
  - cbn [length extract_words]. change (join_sp (w :: w' :: ws)) with
      (w ++ space :: join_sp (w' :: ws)).
    rewrite extract_mid by done. cbn [length extract_words] in IH. by rewrite IH.
Qed.

(** Words after the command, with a payload after them. *)
Lemma extract_words_more ws m n l :
  n = length ws -> l = ws ++ [m] -> Forall is_word ws ->
  extract_words n (mkStream (space :: join_sp l) true) =
    (Some ws, mkStream (space :: m) true).
Proof.
  intros -> ->. induction ws as [|w ws IH]; intros Hws; [done|].
  apply Forall_cons in Hws as [Hw Hws]. cbn [length extract_words].
  assert (join_sp ((w :: ws) ++ [m]) = w ++ space :: join_sp (ws ++ [m])) as ->
    by (by destruct ws).
  rewrite extract_mid by done. by rewrite IH.
Qed.

Lemma strip_visible m :
  m <> [] -> starts_visible m -> strip_leading_spaces (space :: m) = m.
Proof.
  intros Hne Hm. destruct m as [|c m]; [done|].
  apply (strip_space_cons [space] c m); done.
Qed.

Lemma strip_all_spaces m : all_spaces m -> strip_leading_spaces (space :: m) = space :: m.
Proof. intros Hm. unfold strip_leading_spaces. by rewrite span_all. Qed.

Lemma strip_shape s :
  starts_visible (strip_leading_spaces s) \/ all_spaces (strip_leading_spaces s).
Proof.
  unfold strip_leading_spaces. destruct (span _ s) as [a b] eqn:E.
  apply span_spec in E as (-> & Ha & Hb). destruct b; [right|by left].
  by rewrite app_nil_r.
Qed.

(** ** The command dispatch *)

Lemma parse_request_cmd cmd s :
  is_word cmd ->
  parse_request (cmd ++ space :: s) =
  let iss := mkStream (space :: s) true in
  if bool_decide (cmd = lit "PING") then parse_bare PING iss
  else if bool_decide (cmd = lit "METRICS") then parse_bare METRICS iss
  else if bool_decide (cmd = lit "PRODUCE") then parse_produce iss
  else if bool_decide (cmd = lit "FETCH") then parse_fetch iss
  else if bool_decide (cmd = lit "REPLICATE") then parse_replicate iss
  else if bool_decide (cmd = lit "REPLICATION_PROGRESS")
       then parse_replication_progress iss
  else if bool_decide (cmd = lit "JOIN") then parse_join iss
  else if bool_decide (cmd = lit "LEAVE") then parse_member LEAVE iss
  else if bool_decide (cmd = lit "GROUP_POLL") then parse_member GROUP_POLL iss
  else if bool_decide (cmd = lit "COMMIT") then parse_commit iss
  else new_Request.
Proof. intros Hc. unfold parse_request. by rewrite extract_first. Qed.

(** Put the goal in the form [parse_<command> stream = request]. *)
Ltac parse_cmd :=
  match goal with
  | |- parse_request (join_sp (?c :: ?w :: ?ws)) = _ =>
      change (join_sp (c :: w :: ws)) with (c ++ space :: join_sp (w :: ws));
      rewrite parse_request_cmd by closed
  end;
  cbv zeta;
  repeat (rewrite bool_decide_eq_false_2 by (vm_compute; congruence));
  rewrite bool_decide_eq_true_2 by reflexivity.

Lemma is_word_nonempty w : is_word w -> bool_decide (w = []) = false.
Proof. intros [? _]. by apply bool_decide_eq_false. Qed.

Lemma parse_produce_gen t p m m' :
  is_word t -> (0 <= p < 3)%Z -> no_newline m ->
  strip_leading_spaces (space :: m) = m' -> m' <> [] ->
  parse_request (produce_line t p m) = mkRequest PRODUCE [] [] t p 0 m'.
Proof.
  intros Ht Hp Hm Hs Hne. unfold produce_line. parse_cmd.
  unfold parse_produce.
  rewrite (extract_words_more [t; to_string p] m) by (done || eauto 8 with kafka).
  rewrite getline_all by done. simpl fst. rewrite Hs.
  rewrite is_word_nonempty, bool_decide_eq_false_2 by done. simpl.
  by rewrite parse_partition_to_string.
Qed.

Lemma parse_replicate_gen t p o m m' :
  is_word t -> is_int p -> is_offset o -> no_newline m ->
  strip_leading_spaces (space :: m) = m' -> m' <> [] ->
  parse_request (replicate_line t p o m) = mkRequest REPLICATE [] [] t p o m'.
Proof.
  intros Ht Hp Ho Hm Hs Hne. unfold replicate_line. parse_cmd.
  unfold parse_replicate.
  rewrite (extract_words_more [t; to_string p; to_string o] m) by (done || eauto 8 with kafka).
  rewrite getline_all by done. simpl fst. rewrite Hs.
  rewrite is_word_nonempty, bool_decide_eq_false_2 by done. simpl.
  by rewrite parse_int_to_string, parse_offset_to_string.
Qed.

(** The commands without a payload. *)
Ltac parse_words parser ws :=
  parse_cmd; unfold parser;
  rewrite (extract_words_all ws) by (done || eauto 12 with kafka);
  cbn [has_extra_tokens extract good negb fst];
  rewrite ?parse_partition_to_string, ?parse_int_to_string, ?parse_offset_to_string by done;
  done.

(** Printing a request and parsing the line gives the request back. *)
Lemma parse_request_line r :
  wf_request r -> starts_visible (r_payload r) -> parse_request (request_line r) = r.
Proof.
  destruct 1 as [t p m ? ? [? ?]|t p o|t p o m ? ? ? [? ?]|t p|g c t|g c|g c|g c t p o| |];
    intros Hv; unfold request_line; simpl in Hv |- *.
  - apply parse_produce_gen; [done..|by apply strip_visible|done].
  - unfold fetch_line. parse_words parse_fetch [t; to_string p; to_string o].
  - apply parse_replicate_gen; [done..|by apply strip_visible|done].
  - unfold progress_line. parse_words parse_replication_progress [t; to_string p].
  - unfold join_line. parse_words parse_join [g; c; t].
  - unfold leave_line. parse_words parse_member [g; c].
  - unfold poll_line. parse_words parse_member [g; c].
  - unfold commit_line.
    parse_words parse_commit [g; c; t; to_string p; to_string o].
  - reflexivity.
  - reflexivity.
Qed.

(** ** What the parser accepts *)

Lemma payload_wf iss (topic : bytes) :
  let m := strip_leading_spaces (getline iss).1 in
  bool_decide (topic = []) || bool_decide (m = []) = false -> is_payload m.
Proof.
  intros m H. apply orb_false_iff in H as [_ H%bool_decide_eq_false].
  split; [done|]. unfold m. eauto with kafka.
Qed.

(** The words a parser matched, with what is known of each. *)
Ltac words_of :=
  match goal with
  | |- context [extract_words ?n ?iss] =>
      let E := fresh "E" in let ws := fresh "ws" in let Hl := fresh in let Hw := fresh in
      destruct (extract_words n iss) as [[ws|] ?] eqn:E; [|done];
      apply extract_words_Some in E as [Hl Hw];
      repeat (destruct ws as [|? ws]; simpl in Hl; try done; try lia);
      repeat (apply Forall_cons in Hw as [? Hw])
  end.

Ltac parsed :=
  words_of; repeat (case_match; try done); intros _;
  try match goal with
  | H : bool_decide _ || bool_decide _ = false |- _ => apply payload_wf in H
  end; eauto with kafka.

Lemma parse_request_wf raw :
  r_type (parse_request raw) <> INVALID -> wf_request (parse_request raw).
Proof.
  unfold parse_request. destruct (extract (open_stream raw)) as [w iss].
  repeat (case_bool_decide; [clear; unfold parse_bare, parse_produce, parse_fetch,
    parse_replicate, parse_replication_progress, parse_join, parse_member, parse_commit;
    try (case_match; [done|by auto with kafka]); parsed|]).
  done.
Qed.

Lemma parse_request_shape raw :
  starts_visible (r_payload (parse_request raw)) \/ all_spaces (r_payload (parse_request raw)).
Proof.
  unfold parse_request. destruct (extract (open_stream raw)) as [w iss].
  repeat (case_bool_decide; [clear; unfold parse_bare, parse_produce, parse_fetch,
    parse_replicate, parse_replication_progress, parse_join, parse_member, parse_commit;
    repeat (case_match; try by left); apply strip_shape|]).
  by left.
Qed.

(** Requests that carry no payload leave nothing unread on their line. *)
Definition has_payload (ty : RequestType) : bool :=
  match ty with PRODUCE | REPLICATE => true | _ => false end.

Lemma join_sp_snoc ws w : ws <> [] -> join_sp ws ++ space :: w = join_sp (ws ++ [w]).
Proof.
  induction ws as [|v [|v' ws] IH]; intros Hne; [done..|].
  cbn [app]. change (join_sp (v :: v' :: ws)) with (v ++ space :: join_sp (v' :: ws)).
  change (join_sp (v :: v' :: ws ++ [w])) with (v ++ space :: join_sp ((v' :: ws) ++ [w])).
  rewrite <-IH by done. by rewrite <-app_assoc.
Qed.

Lemma extra_token w : is_word w -> has_extra_tokens (mkStream (space :: w) true) = true.
Proof. intros Hw. unfold has_extra_tokens. by rewrite extract_last. Qed.

(** A command whose words are followed by one more word. *)
Ltac extra_words parser ws w :=
  rewrite join_sp_snoc by done; cbn [app]; parse_cmd; unfold parser;
  rewrite (extract_words_more ws w) by (done || eauto 12 with kafka);
  cbv beta iota; by rewrite extra_token.

Lemma parse_extra_token r w :
  wf_request r -> has_payload (r_type r) = false -> is_word w ->
  parse_request (request_line r ++ space :: w) = new_Request.
Proof.
  destruct 1 as [t p m|t p o|t p o m|t p|g c t|g c|g c|g c t p o| |];
    intros Hp Hw; try done; unfold request_line;
    cbn [r_type r_group_id r_consumer_id r_topic r_partition r_offset].
  - unfold fetch_line. extra_words parse_fetch [t; to_string p; to_string o] w.
  - unfold progress_line. extra_words parse_replication_progress [t; to_string p] w.
  - unfold join_line. extra_words parse_join [g; c; t] w.
  - unfold leave_line. extra_words parse_member [g; c] w.
  - unfold poll_line. extra_words parse_member [g; c] w.
  - unfold commit_line.
    extra_words parse_commit [g; c; t; to_string p; to_string o] w.
  - rewrite (parse_request_cmd (lit "PING")) by closed.
    change (parse_bare PING (mkStream (space :: w) true) = new_Request).
    unfold parse_bare. by rewrite extra_token.
  - rewrite (parse_request_cmd (lit "METRICS")) by closed.
    change (parse_bare METRICS (mkStream (space :: w) true) = new_Request).
    unfold parse_bare. by rewrite extra_token.
Qed.

#[global] Opaque parse_request.

(** ** Properties *)

(** C11. Round trip: the line a client (or the leader) prints for a well-formed request whose
    payload is empty or starts with a visible character parses back to that request.  (A
    payload that starts with a space loses it.) *)
Theorem parse_request_roundtrip r :
  wf_request r -> starts_visible (r_payload r) -> parse_request (request_line r) = r.
Proof. apply parse_request_line. Qed.

Lemma parse_request_roundtrip_witness :
  parse_request (lit "REPLICATE orders 1 42 payload with spaces") =
  mkRequest REPLICATE [] [] (lit "orders") 1 42 (lit "payload with spaces").
Proof.
  apply (parse_request_roundtrip
    (mkRequest REPLICATE [] [] (lit "orders") 1 42 (lit "payload with spaces"))).
  - apply wf_replicate; split; closed.
  - reflexivity.
Defined.

(** C30. Soundness of the parser, for any bytes received: a request it does not mark
    [INVALID] has non-empty white-space-free names, a partition in range (0..2 for the
    public commands, any [int] for the replication ones), an offset below 2^63 and, for
    [PRODUCE] and [REPLICATE], a non-empty payload without line break.  Printing it and
    parsing again gives the same request, except for a payload that consists of spaces. *)
Theorem parse_request_sound raw :
  let r := parse_request raw in
  r_type r <> INVALID ->
  wf_request r /\
  (starts_visible (r_payload r) -> parse_request (request_line r) = r) /\
  (~ starts_visible (r_payload r) -> all_spaces (r_payload r)).
Proof.
  intros r Hr. pose proof (parse_request_wf raw Hr) as Hwf.
  pose proof (parse_request_shape raw) as Hshape. fold r in Hwf, Hshape.
  split_and!; [done|by apply parse_request_line|]. by destruct Hshape.
Qed.

Lemma parse_request_sound_witness :
  wf_request (parse_request (lit "  FETCH   orders	2 +7 ")).
Proof.
  apply (parse_request_sound (lit "  FETCH   orders	2 +7 ")). vm_compute. discriminate.
Defined.

(** A payload of spaces grows by one space each time it is sent: the [REPLICATE]
    line the leader builds for it parses, on the follower, to a different payload. *)
Theorem blank_payload_grows t p o m :
  is_word t -> is_int p -> is_offset o -> all_spaces m -> m <> [] ->
  r_payload (parse_request (replicate_line t p o m)) = space :: m.
Proof.
  intros Ht Hp Ho Hm Hne.
  assert (no_newline m) as Hnl.
  { apply forallb_forall. intros c Hc.
    apply (proj1 (forallb_forall _ _) Hm) in Hc. lia. }
  by rewrite (parse_replicate_gen t p o m (space :: m)) by (done || by apply strip_all_spaces).
Qed.

Lemma blank_payload_grows_witness :
  parse_request (lit "PRODUCE t 0  ") = mkRequest PRODUCE [] [] (lit "t") 0 0 (lit "  ") /\
  r_payload (parse_request (replicate_line (lit "t") 0 0 (lit "  "))) = lit "   ".
Proof.
  split; [vm_compute; reflexivity|].
  apply (blank_payload_grows (lit "t") 0 0 (lit "  ")); try split; closed.
Defined.

(** A command that takes no payload is rejected when anything follows its last
    field. *)
Theorem extra_token_rejected r w :
  wf_request r -> has_payload (r_type r) = false -> is_word w ->
  parse_request (request_line r ++ space :: w) = new_Request.
Proof. apply parse_extra_token. Qed.
