(* ===== verification/Metrics.v ===== *)
(** * Broker metrics ([src/metrics.hpp], [src/metrics.cpp])

    Counters are [std::atomic<std::uint64_t>], so [fetch_add] wraps modulo 2^64.  The
    [double] computations of the snapshot are binary64 operations of the Standard
    Library's [SpecFloat], rounding to nearest even. *)

From S2P Require Import Prelude Text Protocol.
From Stdlib Require Import SpecFloat.

(** ** Definitions *)

Section floats.
Local Open Scope Z_scope.

(** [static_cast<double>] of an integer, and the [double] literal [n / d]. *)
Definition double_of (z : Z) : spec_float := binary_normalize 53 1024 z 0 false.

Definition double_lit (n d : Z) : spec_float := SFdiv 53 1024 (double_of n) (double_of d).

Definition dmul := SFmul 53 1024.

Definition dadd := SFadd 53 1024.

Definition dsub := SFsub 53 1024.

Definition ddiv := SFdiv 53 1024.

(** [static_cast<std::uint64_t>] of a non-negative [double] truncates; on a non-negative
    value [std::floor] followed by the cast is the same function. *)
Definition double_floor (f : spec_float) : Z :=
  match f with
  | S754_finite false m e => if 0 <=? e then Z.shiftl (Zpos m) e else Z.shiftr (Zpos m) (- e)
  | _ => 0
  end.

(** [std::ceil] followed by the cast, on a non-negative value. *)
Definition double_ceil (f : spec_float) : Z :=
  match f with
  | S754_finite false m e =>
      if 0 <=? e then Z.shiftl (Zpos m) e
      else - Z.shiftr (- Zpos m) (- e)
  | _ => 0
  end.

End floats.

Record MetricsSnapshot := mkSnapshot {
  total_requests : Z;
  successful_requests : Z;
  failed_requests : Z;
  produce_requests : Z;
  fetch_requests : Z;
  join_requests : Z;
  commit_requests : Z;
  total_bytes_processed : Z;
  average_latency_us : Z;
  p50_latency_us : Z;
  p95_latency_us : Z;
  p99_latency_us : Z;
  max_latency_us : Z
}.

Record Metrics := mkMetrics {
  total_requests_ : Z;
  successful_requests_ : Z;
  failed_requests_ : Z;
  produce_requests_ : Z;
  fetch_requests_ : Z;
  join_requests_ : Z;
  commit_requests_ : Z;
  total_bytes_processed_ : Z;
  latency_samples_us_ : list Z
}.

(** The initial counters; [Metrics::reset] stores the same values again. *)
Definition new_Metrics : Metrics := mkMetrics 0 0 0 0 0 0 0 0 [].

Definition reset (m : Metrics) : Metrics := mkMetrics 0 0 0 0 0 0 0 0 [].

(** [duration_cast<microseconds>] of a count of nanoseconds rounds toward zero. *)
Definition to_us (elapsed : Z) : Z := u64 (Z.quot elapsed 1000).

(** [counter.fetch_add(1)] when [b]. *)
Definition fetch_add_if (b : bool) (counter : Z) : Z :=
  if b then u64 (counter + 1) else counter.

Definition record_request (ty : RequestType) (success : bool) (bytes_processed elapsed : Z)
    (m : Metrics) : Metrics :=
  let elapsed_us := to_us elapsed in
  let of_type t := bool_decide (ty = t) in
  mkMetrics
    (u64 (total_requests_ m + 1))
    (fetch_add_if success (successful_requests_ m))
    (fetch_add_if (negb success) (failed_requests_ m))
    (fetch_add_if (of_type PRODUCE) (produce_requests_ m))
    (fetch_add_if (of_type FETCH) (fetch_requests_ m))
    (fetch_add_if (of_type JOIN) (join_requests_ m))
    (fetch_add_if (of_type COMMIT) (commit_requests_ m))
    (u64 (total_bytes_processed_ m + bytes_processed))
    (latency_samples_us_ m ++ [elapsed_us]).

Definition percentile_value (values : list Z) (percentile : spec_float) : Z :=
  match values with
  | [] => 0%Z
  | _ =>
      let sorted := merge_sort Z.le values in
      let size := Z.of_nat (length sorted) in
      if (size =? 1)%Z then nth 0 sorted 0%Z else
      let rank := dmul percentile (dsub (double_of size) (double_of 1)) in
      let lower_index := double_floor rank in
      let upper_index := double_ceil rank in
      let weight := dsub rank (double_of lower_index) in
      let lower_value := nth (Z.to_nat lower_index) sorted 0%Z in
      let upper_value := nth (Z.to_nat
        (if (upper_index <? size)%Z then upper_index else (size - 1)%Z)) sorted 0%Z in
      u64 (double_floor (dadd (double_of lower_value)
        (dmul (double_of (u64 (upper_value - lower_value))) weight)))
  end.

(** [std::accumulate] in [unsigned long long]. *)
Definition accumulate (l : list Z) : Z := fold_left (fun acc x => u64 (acc + x)) l 0%Z.

Definition max_element (l : list Z) : Z := fold_right Z.max 0%Z l.

(** A latency statistic, left at zero [if (latencies.empty())]. *)
Definition stat (f : list Z -> Z) (latencies : list Z) : Z :=
  match latencies with [] => 0%Z | _ => f latencies end.

Definition snapshot (m : Metrics) : MetricsSnapshot :=
  let latencies := latency_samples_us_ m in
  mkSnapshot
    (total_requests_ m) (successful_requests_ m) (failed_requests_ m)
    (produce_requests_ m) (fetch_requests_ m) (join_requests_ m) (commit_requests_ m)
    (total_bytes_processed_ m)
    (stat (fun l => u64 (double_floor
       (ddiv (double_of (accumulate l)) (double_of (Z.of_nat (length l)))))) latencies)
    (stat (fun l => percentile_value l (double_lit 1 2)) latencies)
    (stat (fun l => percentile_value l (double_lit 95 100)) latencies)
    (stat (fun l => percentile_value l (double_lit 99 100)) latencies)
    (stat max_element latencies).

Definition comma : char := byte_of 44.

Fixpoint join_comma (fs : list bytes) : bytes :=
  match fs with
  | [] => []
  | [f] => f
  | f :: fs => f ++ comma :: join_comma fs
  end.

Definition to_csv_header : bytes :=
  lit "total_requests,successful_requests,failed_requests,produce_requests,fetch_requests,join_requests,commit_requests,total_bytes_processed,avg_latency_us,p50_latency_us,p95_latency_us,p99_latency_us,max_latency_us".

Definition snapshot_fields (s : MetricsSnapshot) : list Z :=
  [total_requests s; successful_requests s; failed_requests s; produce_requests s;
   fetch_requests s; join_requests s; commit_requests s; total_bytes_processed s;
   average_latency_us s; p50_latency_us s; p95_latency_us s; p99_latency_us s;
   max_latency_us s].

Definition to_csv_row (m : Metrics) : bytes :=
  join_comma (map to_string (snapshot_fields (snapshot m))).

(** *** Specification *)

(** One call of [record_request]. *)
Record event := mkEvent {
  ev_type : RequestType; ev_success : bool; ev_bytes : Z; ev_elapsed : Z
}.

Definition record_event (m : Metrics) (e : event) : Metrics :=
  record_request (ev_type e) (ev_success e) (ev_bytes e) (ev_elapsed e) m.

Definition record_all (es : list event) : Metrics := fold_left record_event es new_Metrics.

Definition count (p : event -> bool) (es : list event) : Z :=
  Z.of_nat (length (filter (fun e => p e = true) es)).

Definition sum_bytes (es : list event) : Z := fold_right (fun e a => (ev_bytes e + a)%Z) 0%Z es.

(** Cut a line at its commas, as [std::getline(fields, field, ',')] does. *)
Fixpoint split_comma (l : bytes) : list bytes :=
  match l with
  | [] => [[]]
  | c :: l =>
      match split_comma l with
      | f :: fs => if bool_decide (c = comma) then [] :: f :: fs else (c :: f) :: fs
      | [] => []
      end
  end.

(** The values a scanner reads in a row. *)
Definition parse_fields (l : bytes) : list (option Z) :=
  map (fun f => match stoull f with inr (v, pos) => Some v | inl _ => None end)
    (split_comma l).

Example p50_of_test : percentile_value [250; 1000; 400; 500]%Z (double_lit 1 2) = 450%Z.
Proof. vm_compute. reflexivity. Qed.

(** The exact value is 925; the product 0.95 * 3 rounds below 2.85. *)
Example p95_of_test : percentile_value [250; 1000; 400; 500]%Z (double_lit 95 100) = 924%Z.
Proof. vm_compute. reflexivity. Qed.

(** ** Counters *)

Lemma u64_add_l a b : u64 (u64 a + b) = u64 (a + b).
Proof. unfold u64. by rewrite Zplus_mod_idemp_l. Qed.

Lemma u64_range z : is_u64 (u64 z).
Proof. apply Z.mod_pos_bound. lia. Qed.

Lemma count_snoc p es e : count p (es ++ [e]) = (count p es + if p e then 1 else 0)%Z.
Proof.
  unfold count. rewrite filter_app, length_app, filter_cons, filter_nil.
  destruct (p e) eqn:E.
  - rewrite decide_True by done. simpl. lia.
  - rewrite decide_False by congruence. simpl. lia.
Qed.

Lemma sum_bytes_snoc es e : sum_bytes (es ++ [e]) = (sum_bytes es + ev_bytes e)%Z.
Proof. induction es as [|e' es IH]; simpl; lia. Qed.

Lemma fetch_add_if_count p es e :
  fetch_add_if (p e) (u64 (count p es)) = u64 (count p (es ++ [e])).
Proof.
  rewrite count_snoc. unfold fetch_add_if. destruct (p e).
  - apply u64_add_l.
  - by rewrite Z.add_0_r.
Qed.

Definition is_type (t : RequestType) (e : event) : bool := bool_decide (ev_type e = t).

Lemma record_all_spec es :
  record_all es = mkMetrics
    (u64 (Z.of_nat (length es))) (u64 (count ev_success es))
    (u64 (count (fun e => negb (ev_success e)) es))
    (u64 (count (is_type PRODUCE) es)) (u64 (count (is_type FETCH) es))
    (u64 (count (is_type JOIN) es)) (u64 (count (is_type COMMIT) es))
    (u64 (sum_bytes es)) (map (fun e => to_us (ev_elapsed e)) es).
Proof.
  induction es as [|e es IH] using rev_ind; [done|].
  unfold record_all in *. rewrite fold_left_app. cbn [fold_left]. rewrite IH.
  unfold record_event at 1, record_request. simpl.
  change (bool_decide (ev_type e = PRODUCE)) with (is_type PRODUCE e).
  change (bool_decide (ev_type e = FETCH)) with (is_type FETCH e).
  change (bool_decide (ev_type e = JOIN)) with (is_type JOIN e).
  change (bool_decide (ev_type e = COMMIT)) with (is_type COMMIT e).
  rewrite (fetch_add_if_count ev_success), (fetch_add_if_count (fun e => negb (ev_success e))).
  rewrite !fetch_add_if_count, !u64_add_l, sum_bytes_snoc, map_app, length_app.
  simpl. by rewrite Nat2Z.inj_add.
Qed.

Lemma count_range p es : (0 <= count p es <= Z.of_nat (length es))%Z.
Proof.
  unfold count. pose proof (length_filter (fun e => p e = true) es). lia.
Qed.

Lemma count_negb p es :
  (count p es + count (fun e => negb (p e)) es)%Z = Z.of_nat (length es).
Proof.
  induction es as [|e es IH] using rev_ind; [done|].
  rewrite !count_snoc, length_app. simpl. destruct (p e); simpl; lia.
Qed.

(** ** Order of the samples *)

Lemma merge_sort_perm (l1 l2 : list Z) : l1 ≡ₚ l2 -> merge_sort Z.le l1 = merge_sort Z.le l2.
Proof.
  intros Hp. apply (StronglySorted_unique Z.le).
  - apply (StronglySorted_merge_sort Z.le).
  - apply (StronglySorted_merge_sort Z.le).
  - by rewrite !merge_sort_Permutation.
Qed.

Lemma percentile_perm l1 l2 p : l1 ≡ₚ l2 -> percentile_value l1 p = percentile_value l2 p.
Proof.
  intros Hp. unfold percentile_value. rewrite (merge_sort_perm l1 l2 Hp).
  destruct l1, l2; try done; by apply Permutation_length in Hp.
Qed.

Lemma stat_perm f l1 l2 : l1 ≡ₚ l2 -> f l1 = f l2 -> stat f l1 = stat f l2.
Proof. intros Hp Hf. apply Permutation_length in Hp. by destruct l1, l2. Qed.

Lemma accumulate_sum l a :
  fold_left (fun acc x => u64 (acc + x)) l (u64 a) = u64 (a + fold_right Z.add 0%Z l).
Proof.
  revert a. induction l as [|x l IH]; intros a; simpl; [by rewrite Z.add_0_r|].
  rewrite u64_add_l, IH. f_equal. lia.
Qed.

#[export] Instance sum_perm : Proper ((≡ₚ) ==> eq) (fold_right Z.add 0%Z).
Proof. induction 1; simpl; lia. Qed.

#[export] Instance max_element_perm : Proper ((≡ₚ) ==> eq) max_element.
Proof. unfold max_element. induction 1; simpl; lia. Qed.

Lemma accumulate_perm l1 l2 : l1 ≡ₚ l2 -> accumulate l1 = accumulate l2.
Proof.
  intros Hp. unfold accumulate. change 0%Z with (u64 0).
  by rewrite !accumulate_sum, Hp.
Qed.

Lemma count_perm p es1 es2 : es1 ≡ₚ es2 -> count p es1 = count p es2.
Proof. intros Hp. unfold count. by rewrite Hp. Qed.

Lemma sum_bytes_perm es1 es2 : es1 ≡ₚ es2 -> sum_bytes es1 = sum_bytes es2.
Proof. unfold sum_bytes. induction 1; simpl; lia. Qed.

(** ** Rows *)

Lemma split_comma_cons l : exists f fs, split_comma l = f :: fs.
Proof.
  induction l as [|c l (f & fs & IH)]; simpl; [by eexists _, _|].
  rewrite IH. case_bool_decide; by eexists _, _.
Qed.

Lemma split_comma_app f l :
  comma ∉ f -> split_comma (f ++ comma :: l) = f :: split_comma l.
Proof.
  destruct (split_comma_cons l) as (f' & fs & Hl).
  induction f as [|c f IH]; intros Hf; simpl.
  - by rewrite Hl.
  - rewrite IH by set_solver. by rewrite bool_decide_eq_false_2 by set_solver.
Qed.

Lemma split_comma_none f : comma ∉ f -> split_comma f = [f].
Proof.
  induction f as [|c f IH]; intros Hf; simpl; [done|].
  rewrite IH by set_solver. by rewrite bool_decide_eq_false_2 by set_solver.
Qed.

Lemma split_join_comma fs :
  fs <> [] -> Forall (fun f => comma ∉ f) fs -> split_comma (join_comma fs) = fs.
Proof.
  induction fs as [|f [|f' fs] IH]; intros Hne Hfs; [done|..];
    apply Forall_cons in Hfs as [Hf Hfs].
  - by apply split_comma_none.
  - change (join_comma (f :: f' :: fs)) with (f ++ comma :: join_comma (f' :: fs)).
    rewrite split_comma_app by done. by rewrite IH.
Qed.

Lemma to_string_no_comma n : (0 <= n < 10 ^ 20)%Z -> comma ∉ to_string n.
Proof.
  intros Hn Hin. destruct (to_string_nonneg n Hn) as (_ & Hd & _).
  apply list_elem_of_In in Hin. apply (proj1 (forallb_forall _ _) Hd) in Hin. done.
Qed.

Lemma parse_fields_row zs :
  zs <> [] -> Forall is_u64 zs ->
  parse_fields (join_comma (map to_string zs)) = map Some zs.
Proof.
  intros Hne Hzs. unfold parse_fields. rewrite split_join_comma.
  - rewrite map_map. clear Hne. induction Hzs as [|z zs Hz Hzs IH]; [done|].
    simpl. by rewrite stoull_to_string, IH.
  - by destruct zs.
  - apply Forall_map. eapply Forall_impl; [exact Hzs|]. intros z Hz.
    apply to_string_no_comma. unfold is_u64 in Hz. pow2_consts. lia.
Qed.

(** Every field of the metrics stays a 64-bit value. *)
Definition metrics_ok (m : Metrics) : Prop :=
  Forall is_u64 [total_requests_ m; successful_requests_ m; failed_requests_ m;
    produce_requests_ m; fetch_requests_ m; join_requests_ m; commit_requests_ m;
    total_bytes_processed_ m] /\ Forall is_u64 (latency_samples_us_ m).

Lemma percentile_u64 l p : Forall is_u64 l -> is_u64 (percentile_value l p).
Proof.
  intros Hl. unfold percentile_value. destruct l as [|x l]; [unfold is_u64; lia|].
  destruct (_ =? 1)%Z; [|apply u64_range].
  assert (Forall is_u64 (merge_sort Z.le (x :: l))) as Hs by (by rewrite merge_sort_Permutation).
  destruct (merge_sort Z.le (x :: l)); simpl; [unfold is_u64; lia|].
  by apply Forall_cons in Hs as [? _].
Qed.

Lemma max_element_u64 l : Forall is_u64 l -> is_u64 (max_element l).
Proof. unfold max_element, is_u64. induction 1; simpl in *; lia. Qed.

Lemma snapshot_fields_u64 m : metrics_ok m -> Forall is_u64 (snapshot_fields (snapshot m)).
Proof.
  intros [Hc Hl]. assert (is_u64 0) by (unfold is_u64; lia).
  repeat (apply Forall_cons in Hc as [? Hc]).
  unfold snapshot_fields, snapshot. cbv zeta.
  cbn [total_requests successful_requests failed_requests produce_requests fetch_requests
    join_requests commit_requests total_bytes_processed average_latency_us p50_latency_us
    p95_latency_us p99_latency_us max_latency_us].
  repeat (apply Forall_cons_2; [try done|]); try apply Forall_nil_2;
    unfold stat; (destruct (latency_samples_us_ m); [done|]);
    first [apply u64_range | by apply percentile_u64 | by apply max_element_u64].
Qed.

Lemma record_all_ok es : metrics_ok (record_all es).
Proof.
  rewrite record_all_spec. split; simpl.
  - repeat (apply Forall_cons_2; [apply u64_range|]). apply Forall_nil_2.
  - apply Forall_map. apply Forall_forall. intros. apply u64_range.
Qed.

(** ** Properties *)

(** The counters count: after any sequence of requests (fewer than 2^64) the totals are
    the number of requests, of successes, of failures and of each counted type, and the
    successes and failures add up to the total. *)
Theorem counters_count es :
  (Z.of_nat (length es) < 2 ^ 64)%Z ->
  let s := snapshot (record_all es) in
  total_requests s = Z.of_nat (length es) /\
  successful_requests s = count ev_success es /\
  (successful_requests s + failed_requests s)%Z = total_requests s /\
  produce_requests s = count (is_type PRODUCE) es /\
  fetch_requests s = count (is_type FETCH) es /\
  join_requests s = count (is_type JOIN) es /\
  commit_requests s = count (is_type COMMIT) es /\
  total_bytes_processed s = u64 (sum_bytes es).
Proof.
  intros Hlen s. unfold s. rewrite record_all_spec. unfold snapshot; simpl.
  assert (Hsmall : forall p, u64 (count p es) = count p es).
  { intros p. apply u64_small. pose proof (count_range p es). unfold is_u64. lia. }
  rewrite !Hsmall, (u64_small (Z.of_nat _)) by (unfold is_u64; lia).
  split_and!; try done. apply count_negb.
Qed.

Lemma counters_count_witness :
  total_requests (snapshot (record_all
    [mkEvent PRODUCE true 51 250000; mkEvent FETCH false 40 1000])) = 2%Z.
Proof.
  apply (counters_count [mkEvent PRODUCE true 51 250000; mkEvent FETCH false 40 1000]).
  closed.
Defined.

(** C32. The snapshot does not depend on the order in which requests recorded themselves:
    interleaved threads that record the same requests give the same counters, average,
    percentiles and maximum. *)
Theorem snapshot_order_independent es1 es2 :
  es1 ≡ₚ es2 -> snapshot (record_all es1) = snapshot (record_all es2).
Proof.
  intros Hp. rewrite !record_all_spec. unfold snapshot; simpl.
  rewrite !(count_perm _ es1 es2 Hp), (sum_bytes_perm es1 es2 Hp), (Permutation_length Hp).
  assert (map (fun e => to_us (ev_elapsed e)) es1 ≡ₚ map (fun e => to_us (ev_elapsed e)) es2)
    as Hl by (by apply Permutation_map).
  set (l1 := map _ es1) in *. set (l2 := map _ es2) in *.
  f_equal; apply stat_perm; try (by apply percentile_perm); try by rewrite Hl; try done.
  by rewrite (accumulate_perm l1 l2 Hl), (Permutation_length Hl).
Qed.

Lemma snapshot_order_independent_witness :
  snapshot (record_all [mkEvent PRODUCE true 51 250000; mkEvent FETCH false 40 1000]) =
  snapshot (record_all [mkEvent FETCH false 40 1000; mkEvent PRODUCE true 51 250000]).
Proof. apply snapshot_order_independent, perm_swap. Defined.

(** A row reads back: the line [to_csv_row] prints has one field per column of
    [to_csv_header], and scanning the fields gives the values of the snapshot. *)
Theorem csv_row_roundtrip es :
  let m := record_all es in
  length (split_comma (to_csv_row m)) = length (split_comma to_csv_header) /\
  parse_fields (to_csv_row m) = map Some (snapshot_fields (snapshot m)).
Proof.
  intros m. pose proof (parse_fields_row (snapshot_fields (snapshot m)) ltac:(done)
    (snapshot_fields_u64 m (record_all_ok es))) as Hrow. fold (to_csv_row m) in Hrow.
  split; [|done]. unfold parse_fields in Hrow. apply (f_equal (@length _)) in Hrow.
  rewrite !length_map in Hrow. rewrite Hrow. vm_compute. reflexivity.
Qed.
