(* ===== verification/Topics.v ===== *)
(** * Topics and partitions ([struct Partition], [struct Topic], [struct TopicPartition]
    of [src/broker.hpp])

    The in-memory state of a topic, its bounds-checked access, and the iteration order
    of the [std::unordered_map]s the broker keeps. *)

From S2P Require Import Prelude.

(** ** Definitions *)

Definition kDefaultPartitionCount : nat := 3.

Record Partition := mkPartition { p_id : Z; messages : list bytes }.

Record Topic := mkTopic { t_name : bytes; partitions : list Partition }.

(** [Partition(partition_id)] and [Topic(topic_name)]. *)
Definition new_Partition (partition_id : Z) : Partition := mkPartition partition_id [].

Definition new_Topic (topic_name : bytes) : Topic :=
  mkTopic topic_name
    (map (fun i => new_Partition (Z.of_nat i)) (seq 0 kDefaultPartitionCount)).

Record TopicPartition := mkTP { tp_topic : bytes; tp_partition : Z }.

#[export] Instance TopicPartition_eq_dec : EqDecision TopicPartition.
Proof. solve_decision. Defined.

#[export] Instance TopicPartition_countable : Countable TopicPartition.
Proof.
  refine (inj_countable' (fun tp => (tp_topic tp, tp_partition tp))
            (fun x => mkTP x.1 x.2) _).
  by intros [].
Defined.

(** [std::string] comparison is by unsigned bytes. *)
Fixpoint bytes_leb (a b : bytes) : bool :=
  match a, b with
  | [], _ => true
  | _ :: _, [] => false
  | c :: a, d :: b =>
      if (byte_val c <? byte_val d)%Z then true
      else if (byte_val d <? byte_val c)%Z then false else bytes_leb a b
  end.

Definition bytes_le (a b : bytes) : Prop := bytes_leb a b = true.

#[export] Instance bytes_le_dec : RelDecision bytes_le.
Proof. intros a b. unfold bytes_le. apply _. Defined.

(** [TopicPartition::operator<]. *)
Definition tp_ltb (a b : TopicPartition) : bool :=
  if bool_decide (tp_topic a = tp_topic b) then (tp_partition a <? tp_partition b)%Z
  else bytes_leb (tp_topic a) (tp_topic b).

(** The guard [partition < 0 || partition >= (int)topic.partitions.size()]. *)
Definition bad_partition (topic : Topic) (p : Z) : bool :=
  (p <? 0)%Z || (Z.of_nat (length (partitions topic)) <=? p)%Z.

(** [topic.partitions[p].messages], after the guard. *)
Definition messages_of (topic : Topic) (p : Z) : list bytes :=
  match partitions topic !! Z.to_nat p with
  | Some part => messages part
  | None => []
  end.

(** [topic.partitions[p].messages.push_back(payload)]. *)
Definition push_message (p : Z) (payload : bytes) (topic : Topic) : Topic :=
  mkTopic (t_name topic)
    (alter (fun part => mkPartition (p_id part) (messages part ++ [payload]))
       (Z.to_nat p) (partitions topic)).

(** [topics_.find(name)], creating the topic when it is absent. *)
Definition find_or_create (name : bytes) (topics : gmap bytes Topic) : gmap bytes Topic :=
  match topics !! name with
  | Some _ => topics
  | None => <[name := new_Topic name]> topics
  end.

(** The order a [std::unordered_map] is walked in is unspecified: any permutation. *)
Class IterOrder := {
  iter : forall {V}, gmap bytes V -> list (bytes * V);
  iter_perm : forall V (m : gmap bytes V), iter m ≡ₚ map_to_list m
}.

(** One order, to evaluate examples with. *)
Definition canonical_order : IterOrder :=
  {| iter := fun V m => map_to_list m; iter_perm := fun V m => Permutation_refl _ |}.

(** *** Specification *)

(** The log of a partition as clients see it; absent topics and partitions are empty. *)
Definition log_view (topics : gmap bytes Topic) (tp : TopicPartition) : list bytes :=
  match topics !! tp_topic tp with
  | Some topic =>
      if (tp_partition tp <? 0)%Z then [] else messages_of topic (tp_partition tp)
  | None => []
  end.

(** Topics carry their own name and number their partitions from zero. *)
Definition topic_ok (name : bytes) (topic : Topic) : Prop :=
  t_name topic = name /\ 3 <= length (partitions topic) /\
  forall i part, partitions topic !! i = Some part -> p_id part = Z.of_nat i.

Definition topics_ok (topics : gmap bytes Topic) : Prop := map_Forall topic_ok topics.

(** ** Lemmas *)

Lemma bytes_leb_refl a : bytes_leb a a = true.
Proof. induction a as [|c a IH]; simpl; [done|]. by rewrite Z.ltb_irrefl. Qed.

#[export] Instance bytes_le_trans : Transitive bytes_le.
Proof.
  unfold bytes_le. intros a. induction a as [|c a IH]; intros [|d b] [|e l]; simpl; try done.
  destruct (byte_val c <? byte_val d)%Z eqn:E1, (byte_val d <? byte_val e)%Z eqn:E2,
    (byte_val d <? byte_val c)%Z eqn:E3, (byte_val e <? byte_val d)%Z eqn:E4;
    try done; intros Hab Hbc; try lia;
    destruct (byte_val c <? byte_val e)%Z eqn:E5, (byte_val e <? byte_val c)%Z eqn:E6;
    try done; try lia.
  by apply (IH b).
Qed.

#[export] Instance bytes_le_total : Total bytes_le.
Proof.
  unfold bytes_le. intros a. induction a as [|c a IH]; intros [|d b]; simpl; auto.
  destruct (byte_val c <? byte_val d)%Z eqn:E1; [by left|].
  destruct (byte_val d <? byte_val c)%Z eqn:E2; [by right|]. apply IH.
Qed.

#[export] Instance bytes_le_antisymm : AntiSymm eq bytes_le.
Proof.
  unfold bytes_le. intros a. induction a as [|c a IH]; intros [|d b]; simpl; try done.
  destruct (byte_val c <? byte_val d)%Z eqn:E1, (byte_val d <? byte_val c)%Z eqn:E2;
    try done; try lia.
  intros. f_equal; [apply byte_val_inj; lia|by apply IH].
Qed.

(** *** Messages *)

Section topics.
Local Open Scope Z_scope.

Lemma bad_partition_false topic p :
  bad_partition topic p = false <-> 0 <= p < Z.of_nat (length (partitions topic)).
Proof. unfold bad_partition. lia. Qed.

Lemma messages_of_push topic p payload q :
  0 <= p < Z.of_nat (length (partitions topic)) -> 0 <= q ->
  messages_of (push_message p payload topic) q =
    if decide (q = p) then messages_of topic p ++ [payload] else messages_of topic q.
Proof.
  intros Hp Hq. unfold messages_of, push_message; simpl.
  case_decide as H.
  - subst q. rewrite list_lookup_alter_eq.
    destruct (partitions topic !! Z.to_nat p) eqn:E; [done|].
    apply lookup_ge_None in E. lia.
  - rewrite list_lookup_alter_ne by lia. done.
Qed.

Lemma length_push topic p payload :
  length (partitions (push_message p payload topic)) = length (partitions topic).
Proof. apply length_alter. Qed.

Lemma bad_partition_push topic p payload q :
  bad_partition (push_message p payload topic) q = bad_partition topic q.
Proof. unfold bad_partition. by rewrite length_push. Qed.

Lemma topic_ok_new name : topic_ok name (new_Topic name).
Proof.
  split_and!; [done|simpl; lia|]. intros i part H.
  do 3 (destruct i as [|i]; [by simplify_eq/=|]). done.
Qed.

Lemma topic_ok_push name topic p payload :
  topic_ok name topic -> topic_ok name (push_message p payload topic).
Proof.
  intros (Hn & Hl & Hid). split_and!; [done|by rewrite length_push|].
  intros i part. unfold push_message; simpl. rewrite list_lookup_alter.
  case_decide; [|apply Hid].
  intros (q & Hq & ->)%fmap_Some. subst i. simpl. by apply Hid.
Qed.

Lemma messages_of_new name p : messages_of (new_Topic name) p = [].
Proof.
  unfold messages_of. destruct (partitions _ !! _) as [part|] eqn:E; [|done].
  destruct (Z.to_nat p) as [|[|[|n]]]; by simplify_eq/=.
Qed.

Lemma find_or_create_lookup name topics :
  exists topic, find_or_create name topics !! name = Some topic /\
    (topics !! name = Some topic \/ (topics !! name = None /\ topic = new_Topic name)).
Proof.
  unfold find_or_create. destruct (topics !! name) as [topic|] eqn:E.
  - exists topic. auto.
  - exists (new_Topic name). rewrite lookup_insert_eq. auto.
Qed.

Lemma find_or_create_ok name topics : topics_ok topics -> topics_ok (find_or_create name topics).
Proof.
  intros Hok. unfold find_or_create. destruct (topics !! name); [done|].
  apply map_Forall_insert_2; [apply topic_ok_new|done].
Qed.

Lemma log_view_find_or_create name topics tp :
  log_view (find_or_create name topics) tp = log_view topics tp.
Proof.
  unfold log_view, find_or_create. destruct (topics !! name) eqn:E; [done|].
  rewrite lookup_insert. case_decide as H; [|done]. subst. rewrite E.
  destruct (_ <? _); [done|apply messages_of_new].
Qed.

(** Appending to a partition is appending to its view, and to no other. *)
Lemma log_view_push topics name topic p payload tp :
  topics !! name = Some topic -> bad_partition topic p = false ->
  log_view (<[name := push_message p payload topic]> topics) tp =
    if decide (tp = mkTP name p) then log_view topics tp ++ [payload] else log_view topics tp.
Proof.
  intros Ht Hp%bad_partition_false. unfold log_view. destruct tp as [t q]; simpl.
  rewrite lookup_insert. destruct (decide (name = t)) as [<-|Hne]; cycle 1.
  { rewrite decide_False by congruence. done. }
  rewrite Ht. destruct (q <? 0) eqn:E.
  { rewrite decide_False; [done|]. intros [= ->]. lia. }
  rewrite messages_of_push by lia. repeat case_decide; simplify_eq; done.
Qed.

End topics.

#[export] Hint Resolve topic_ok_new topic_ok_push find_or_create_ok : kafka.
