(* ===== verification/Groups.v ===== *)
(** * Consumer groups ([join_group] ... [rebalance_group] of [src/broker.cpp])

    Every operation runs under [consumer_groups_mutex_], so each is one atomic function
    on the map of groups.  [rebalance_group] walks two [unordered_map]s; the result is
    proved not to depend on the order. *)

From S2P Require Import Prelude Text Protocol Topics.

(** ** Definitions *)

Record GroupMember := mkMember {
  m_consumer_id : bytes;
  m_topic : bytes;
  assignments : list TopicPartition
}.

Record ConsumerGroup := mkGroup {
  g_group_id : bytes;
  members : gmap bytes GroupMember;
  committed_offsets : gmap TopicPartition Z
}.

Abbreviation Groups := (gmap bytes ConsumerGroup).

Definition set_members (g : ConsumerGroup) (ms : gmap bytes GroupMember) : ConsumerGroup :=
  mkGroup (g_group_id g) ms (committed_offsets g).

Definition set_assignments (m : GroupMember) (tps : list TopicPartition) : GroupMember :=
  mkMember (m_consumer_id m) (m_topic m) tps.

(** [topic_to_consumers[entry.second.topic].push_back(entry.first)]. *)
Definition push_consumer (acc : gmap bytes (list bytes)) (entry : bytes * GroupMember)
    : gmap bytes (list bytes) :=
  <[m_topic entry.2 := default [] (acc !! m_topic entry.2) ++ [entry.1]]> acc.

(** [group.members[consumer_id].assignments.push_back(tp)]; [operator[]] makes an absent
    entry with empty fields. *)
Definition push_assignment (ms : gmap bytes GroupMember) (entry : bytes * TopicPartition)
    : gmap bytes GroupMember :=
  let m := default (mkMember [] [] []) (ms !! entry.1) in
  <[entry.1 := set_assignments m (assignments m ++ [entry.2])]> ms.

(** The turns of the [for (partition ...)] loop of one topic, whose consumer ids are not
    empty: which id gets which partition. *)
Definition topic_turns (topic : bytes) (consumer_ids : list bytes)
    : list (bytes * TopicPartition) :=
  map (fun partition =>
         (default [] (consumer_ids !! (partition mod length consumer_ids)),
          mkTP topic (Z.of_nat partition)))
      (seq 0 kDefaultPartitionCount).

(** A [std::map] is walked in the order of its keys. *)
Definition in_key_order {V} (m : gmap bytes V) : list bytes :=
  merge_sort bytes_le (map fst (map_to_list m)).

Section groups.
Context {order : IterOrder}.

Definition topic_to_consumers (ms : gmap bytes GroupMember) : gmap bytes (list bytes) :=
  fold_left push_consumer (iter ms) ∅.

Definition rebalance_group (group : ConsumerGroup) : ConsumerGroup :=
  let ms := (fun m => set_assignments m []) <$> members group in
  let ttc := topic_to_consumers ms in
  set_members group
    (fold_left
       (fun ms topic =>
          let consumer_ids := merge_sort bytes_le (default [] (ttc !! topic)) in
          fold_left push_assignment (topic_turns topic consumer_ids) ms)
       (in_key_order ttc) ms).

Definition join_group (req : Request) (groups : Groups) : bytes * Groups :=
  let group := default (mkGroup (r_group_id req) ∅ ∅) (groups !! r_group_id req) in
  match members group !! r_consumer_id req with
  | Some _ => (lit "ERROR", <[r_group_id req := group]> groups)
  | None =>
      let member := mkMember (r_consumer_id req) (r_topic req) [] in
      (lit "OK",
       <[r_group_id req :=
           rebalance_group (set_members group
             (<[r_consumer_id req := member]> (members group)))]> groups)
  end.

(** [members.erase(id)] and what follows it in [leave_group] and
    [remove_consumer_from_group]. *)
Definition erase_member (gid cid : bytes) (group : ConsumerGroup) (groups : Groups)
    : Groups :=
  let ms := delete cid (members group) in
  if bool_decide (ms = ∅) then delete gid groups
  else <[gid := rebalance_group (set_members group ms)]> groups.

Definition leave_group (req : Request) (groups : Groups) : bytes * Groups :=
  match groups !! r_group_id req with
  | None => (lit "ERROR", groups)
  | Some group =>
      match members group !! r_consumer_id req with
      | None => (lit "ERROR", groups)
      | Some _ =>
          (lit "OK", erase_member (r_group_id req) (r_consumer_id req) group groups)
      end
  end.

Definition remove_consumer_from_group (gid cid : bytes) (groups : Groups) : Groups :=
  match groups !! gid with
  | None => groups
  | Some group => erase_member gid cid group groups
  end.

Definition committed_or_zero (group : ConsumerGroup) (tp : TopicPartition) : Z :=
  default 0%Z (committed_offsets group !! tp).

Definition assignment_line (group : ConsumerGroup) (tp : TopicPartition) : bytes :=
  tp_topic tp ++ [space] ++ to_string (tp_partition tp) ++ [space] ++
  to_string (committed_or_zero group tp).

Definition group_poll (req : Request) (groups : Groups) : bytes :=
  match groups !! r_group_id req with
  | None => lit "ERROR"
  | Some group =>
      match members group !! r_consumer_id req with
      | None => lit "ERROR"
      | Some member => join_lines (map (assignment_line group) (assignments member))
      end
  end.

Definition commit_offset (topics : gmap bytes Topic) (req : Request) (groups : Groups)
    : bytes * Groups :=
  match groups !! r_group_id req with
  | None => (lit "ERROR", groups)
  | Some group =>
      match members group !! r_consumer_id req with
      | None => (lit "ERROR", groups)
      | Some _ =>
          match topics !! r_topic req with
          | None => (lit "ERROR", groups)
          | Some topic =>
              if bad_partition topic (r_partition req) then (lit "ERROR", groups) else
              (lit "OK",
               <[r_group_id req :=
                   mkGroup (g_group_id group) (members group)
                     (<[mkTP (r_topic req) (r_partition req) := r_offset req]>
                        (committed_offsets group))]> groups)
          end
      end
  end.

Definition get_committed_offset (gid topic : bytes) (partition : Z) (groups : Groups)
    : option Z :=
  match groups !! gid with
  | None => None
  | Some group => committed_offsets group !! mkTP topic partition
  end.

End groups.

(** *** Specification *)

(** The ids subscribed to a topic, sorted. *)
Definition subscribers (ms : gmap bytes GroupMember) (topic : bytes) : list bytes :=
  merge_sort bytes_le
    (map fst (filter (fun entry => m_topic entry.2 = topic) (map_to_list ms))).

(** Round robin over the sorted subscribers. *)
Definition owner (ms : gmap bytes GroupMember) (topic : bytes) (p : nat) : option bytes :=
  subscribers ms topic !! (p mod length (subscribers ms topic)).

Definition fair_share (ms : gmap bytes GroupMember) (id topic : bytes)
    : list TopicPartition :=
  map (fun p => mkTP topic (Z.of_nat p))
    (filter (fun p => owner ms topic p = Some id) (seq 0 kDefaultPartitionCount)).

Definition balanced (ms : gmap bytes GroupMember) : gmap bytes GroupMember :=
  map_imap (fun id m => Some (set_assignments m (fair_share ms id (m_topic m)))) ms.

(** Every group has a member, is filed under its id, its members under theirs, and holds
    the round-robin assignment. *)
Definition group_ok (gid : bytes) (g : ConsumerGroup) : Prop :=
  g_group_id g = gid /\ members g <> ∅ /\
  map_Forall (fun cid m => m_consumer_id m = cid) (members g) /\
  members g = balanced (members g) /\
  map_Forall (fun _ off => is_u64 off) (committed_offsets g).

Definition groups_ok (groups : Groups) : Prop := map_Forall group_ok groups.

(** ** Sorted lists of ids *)

Lemma merge_sort_perm_eq (l k : list bytes) :
  l ≡ₚ k -> merge_sort bytes_le l = merge_sort bytes_le k.
Proof.
  intros H. apply (StronglySorted_unique bytes_le);
    [apply (StronglySorted_merge_sort bytes_le)..|].
  by rewrite !merge_sort_Permutation.
Qed.

Lemma elem_of_in_key_order {V} (m : gmap bytes V) k :
  k ∈ in_key_order m <-> is_Some (m !! k).
Proof.
  unfold in_key_order. rewrite merge_sort_Permutation, list_elem_of_fmap. split.
  - intros ([k' v] & -> & H%elem_of_map_to_list). by exists v.
  - intros [v H]. exists (k, v). by rewrite elem_of_map_to_list.
Qed.

Lemma NoDup_in_key_order {V} (m : gmap bytes V) : NoDup (in_key_order m).
Proof. unfold in_key_order. rewrite merge_sort_Permutation. apply NoDup_fst_map_to_list. Qed.

(** ** Round robin *)

Section rebalance.
Context {order : IterOrder}.

Lemma push_consumer_fold L acc t :
  fold_left push_consumer L acc !! t =
    match map fst (filter (fun e => m_topic e.2 = t) L) with
    | [] => acc !! t
    | ids => Some (default [] (acc !! t) ++ ids)
    end.
Proof.
  induction L as [|[id m] L IH] using rev_ind; [done|].
  rewrite fold_left_app, filter_app, map_app. simpl. unfold push_consumer at 1; simpl.
  destruct (decide (m_topic m = t)) as [<-|Hne]; cycle 1.
  { rewrite lookup_insert_ne, IH, filter_cons_False, app_nil_r by done. done. }
  rewrite lookup_insert_eq, IH, filter_cons_True by done. simpl.
  destruct (map fst _) as [|c ids]; [done|]. simpl. by rewrite <-app_assoc.
Qed.

Lemma iter_filter (ms : gmap bytes GroupMember) t :
  map fst (filter (fun e => m_topic e.2 = t) (iter ms)) ≡ₚ
  map fst (filter (fun e => m_topic e.2 = t) (map_to_list ms)).
Proof. by rewrite iter_perm. Qed.

(** Whatever the iteration order, sorting gives the same ids. *)
Lemma topic_to_consumers_sorted ms t :
  merge_sort bytes_le (default [] (topic_to_consumers ms !! t)) = subscribers ms t.
Proof.
  unfold topic_to_consumers, subscribers. rewrite push_consumer_fold, lookup_empty.
  apply merge_sort_perm_eq. rewrite <-iter_filter. by destruct (map fst _).
Qed.

Lemma topic_to_consumers_present ms t :
  is_Some (topic_to_consumers ms !! t) <-> subscribers ms t <> [].
Proof.
  unfold topic_to_consumers, subscribers. rewrite push_consumer_fold, lookup_empty.
  pose proof (merge_sort_Permutation bytes_le
    (map fst (filter (fun e => m_topic e.2 = t) (map_to_list ms)))) as Hp.
  rewrite <-iter_filter in Hp at 2.
  destruct (map fst (filter _ (iter ms))) as [|c l].
  - apply Permutation_nil_r in Hp. rewrite Hp. split; [by intros []|done].
  - split; [|by eexists]. intros _ H. rewrite H in Hp. by apply Permutation_nil_l in Hp.
Qed.

Lemma push_assignment_fold L : forall ms,
  Forall (fun e => is_Some (ms !! e.1)) L ->
  fold_left push_assignment L ms =
    map_imap (fun id m => Some (set_assignments m
      (assignments m ++ map snd (filter (fun e => e.1 = id) L)))) ms.
Proof.
  induction L as [|[id tp] L IH]; intros ms Hin; simpl.
  { apply map_eq. intros i. rewrite map_lookup_imap. destruct (ms !! i) as [m|]; [|done].
    simpl. rewrite app_nil_r. by destruct m. }
  apply Forall_cons in Hin as [[m Hm] Hin]. simpl in Hm. rewrite IH; cycle 1.
  { eapply Forall_impl; [done|]. intros e [m' H].
    unfold push_assignment; simpl. rewrite lookup_insert. case_decide; eauto. }
  apply map_eq. intros i. rewrite !map_lookup_imap. unfold push_assignment; simpl.
  destruct (decide (id = i)) as [<-|Hne].
  - rewrite lookup_insert_eq, Hm. simpl. by rewrite filter_cons_True, <-app_assoc.
  - rewrite lookup_insert_ne, filter_cons_False by done. done.
Qed.

Lemma fold_left_concat_map {A B C} (f : A -> B -> A) (g : C -> list B) l a :
  fold_left (fun a c => fold_left f (g c) a) l a = fold_left f (concat (map g l)) a.
Proof.
  revert a. induction l as [|c l IH]; intros a; simpl; [done|]. by rewrite fold_left_app, IH.
Qed.

Lemma fold_left_ext {A B} (f g : A -> B -> A) l a :
  (forall a b, f a b = g a b) -> fold_left f l a = fold_left g l a.
Proof.
  intros H. revert a. induction l as [|b l IH]; intros a; simpl; [done|]. by rewrite H, IH.
Qed.

Lemma elem_of_subscribers ms t id :
  id ∈ subscribers ms t <-> exists m, ms !! id = Some m /\ m_topic m = t.
Proof.
  unfold subscribers. rewrite merge_sort_Permutation, list_elem_of_fmap. split.
  - intros ([id' m] & -> & [Ht Hm%elem_of_map_to_list]%list_elem_of_filter). by exists m.
  - intros (m & Hm & Ht). exists (id, m). split; [done|].
    apply list_elem_of_filter. by rewrite elem_of_map_to_list.
Qed.

Lemma NoDup_subscribers ms t : NoDup (subscribers ms t).
Proof.
  unfold subscribers. rewrite merge_sort_Permutation.
  apply (sublist_NoDup _ (map fst (map_to_list ms))).
  - apply NoDup_fst_map_to_list.
  - apply fmap_sublist, sublist_filter.
Qed.

Lemma subscribers_same_topics ms ms' t :
  (forall id, m_topic <$> ms !! id = m_topic <$> ms' !! id) ->
  subscribers ms t = subscribers ms' t.
Proof.
  intros H. apply (StronglySorted_unique bytes_le);
    [apply (StronglySorted_merge_sort bytes_le)..|].
  apply NoDup_Permutation; [apply NoDup_subscribers..|].
  intros id. rewrite !elem_of_subscribers. specialize (H id).
  destruct (ms !! id), (ms' !! id); simplify_eq/=; [|done].
  split; intros (m & [= <-] & <-); eauto.
Qed.

(** *** The assignment *)

(** The turns that concern an id, topic by topic. *)
Lemma topic_turns_of ms t id :
  map snd (filter (fun e => e.1 = id) (topic_turns t (subscribers ms t))) =
    if decide (subscribers ms t = []) then
      map snd (filter (fun e => e.1 = id) (topic_turns t []))
    else fair_share ms id t.
Proof.
  case_decide as Hs; [by rewrite Hs|].
  unfold topic_turns, fair_share, owner.
  assert (length (subscribers ms t) <> 0) as Hl by (by destruct (subscribers ms t)).
  induction (seq 0 kDefaultPartitionCount) as [|p ps IH]; [done|]. cbn [map].
  destruct (lookup_lt_is_Some_2 (subscribers ms t) (p mod length (subscribers ms t)))
    as [x Hx]; [by apply Nat.mod_upper_bound|].
  rewrite Hx; cbn [default]. destruct (decide (x = id)) as [->|Hne].
  - rewrite !filter_cons_True by (simpl; congruence). simpl. by rewrite IH.
  - rewrite !filter_cons_False by (simpl; congruence). by rewrite IH.
Qed.

Lemma topic_turns_subscribers ms t e :
  subscribers ms t <> [] -> e ∈ topic_turns t (subscribers ms t) ->
  e.1 ∈ subscribers ms t.
Proof.
  intros Hs (p & -> & _)%list_elem_of_fmap. simpl.
  destruct (lookup_lt_is_Some_2 (subscribers ms t) (p mod length (subscribers ms t)))
    as [x Hx]; [apply Nat.mod_upper_bound; by destruct (subscribers ms t)|].
  rewrite Hx. by eapply list_elem_of_lookup_2.
Qed.

Lemma filter_none {A} (P : A -> Prop) `{forall x, Decision (P x)} l :
  (forall x, x ∈ l -> ~ P x) -> filter P l = [].
Proof.
  intros Hl. induction l as [|x l IH]; [done|].
  rewrite filter_cons_False by (apply Hl; constructor).
  apply IH. intros y Hy. apply Hl. by constructor.
Qed.

(** The turns of all topics that concern a member are the turns of its topic. *)
Lemma all_turns_of ms topics id m :
  ms !! id = Some m -> NoDup topics -> Forall (fun t => subscribers ms t <> []) topics ->
  m_topic m ∈ topics ->
  map snd (filter (fun e => e.1 = id)
    (concat (map (fun t => topic_turns t (subscribers ms t)) topics))) =
  fair_share ms id (m_topic m).
Proof.
  intros Hm. assert (forall ts, m_topic m ∉ ts -> Forall (fun t => subscribers ms t <> []) ts ->
    filter (fun e => e.1 = id) (concat (map (fun t => topic_turns t (subscribers ms t)) ts)) = [])
    as Hother.
  { intros ts Hts Hsub. apply filter_none. intros e He Heq.
    apply list_elem_of_In, in_concat in He as (l & Hl & He).
    apply list_elem_of_In, list_elem_of_fmap in Hl as (t & -> & Ht).
    apply list_elem_of_In, topic_turns_subscribers in He;
      [|by eapply (proj1 (Forall_forall _ _) Hsub)].
    rewrite Heq, elem_of_subscribers in He. naive_solver. }
  induction topics as [|t topics IH]; intros Hnd Hsub Hin; [by apply elem_of_nil in Hin|].
  apply NoDup_cons in Hnd as [Ht Hnd]. apply Forall_cons in Hsub as [Hst Hsub].
  cbn [map concat]. rewrite filter_app, map_app.
  destruct (decide (t = m_topic m)) as [->|Hne].
  - rewrite (Hother topics), topic_turns_of, decide_False by done. apply app_nil_r.
  - rewrite IH by (done || by apply elem_of_cons in Hin as [?|?]).
    rewrite filter_none; [done|]. intros e He Heq.
    apply topic_turns_subscribers in He; [|done]. rewrite Heq, elem_of_subscribers in He. naive_solver.
Qed.

(** [rebalance_group] computes the round-robin assignment. *)
Lemma rebalance_group_balanced g :
  rebalance_group g = set_members g (balanced (members g)).
Proof.
  unfold rebalance_group. f_equal.
  set (ms := (fun m => set_assignments m []) <$> members g).
  assert (forall t, subscribers ms t = subscribers (members g) t) as Hsub.
  { intros t. apply subscribers_same_topics. intros id. unfold ms.
    rewrite lookup_fmap. by destruct (members g !! id). }
  set (topics := in_key_order (topic_to_consumers ms)).
  assert (Forall (fun t => subscribers ms t <> []) topics) as Htop.
  { apply Forall_forall. intros t Ht. by apply topic_to_consumers_present, elem_of_in_key_order. }
  transitivity (fold_left push_assignment
    (concat (map (fun t => topic_turns t (subscribers ms t)) topics)) ms).
  { rewrite <-fold_left_concat_map. apply fold_left_ext.
    intros a t. by rewrite topic_to_consumers_sorted. }
  rewrite push_assignment_fold; cycle 1.
  { apply Forall_forall. intros e He.
    apply list_elem_of_In, in_concat in He as (l & Hl & He).
    apply list_elem_of_In, list_elem_of_fmap in Hl as (t & -> & Ht).
    apply list_elem_of_In, topic_turns_subscribers, elem_of_subscribers in He
      as (m & Hm & _); [by exists m|by eapply (proj1 (Forall_forall _ _) Htop)]. }
  apply map_eq. intros id. unfold balanced. rewrite !map_lookup_imap.
  destruct (ms !! id) as [m|] eqn:Hm; unfold ms in Hm; rewrite lookup_fmap in Hm;
    destruct (members g !! id) as [m'|] eqn:Hm'; simplify_eq/=; [|done].
  rewrite (all_turns_of ms topics id (set_assignments m' [])).
  - unfold fair_share, owner. by rewrite Hsub.
  - unfold ms. by rewrite lookup_fmap, Hm'.
  - apply NoDup_in_key_order.
  - done.
  - apply elem_of_in_key_order, topic_to_consumers_present. rewrite Hsub.
    intros Heq. assert (id ∈ subscribers (members g) (m_topic m')) as Hin
      by (apply elem_of_subscribers; eauto).
    simpl in Heq. rewrite Heq in Hin. by apply elem_of_nil in Hin.
Qed.

(** *** Consequences of the assignment *)

Lemma owner_some ms t p :
  subscribers ms t <> [] -> exists id, owner ms t p = Some id /\ id ∈ subscribers ms t.
Proof.
  intros Hs. unfold owner.
  destruct (lookup_lt_is_Some_2 (subscribers ms t) (p mod length (subscribers ms t)))
    as [x Hx]; [apply Nat.mod_upper_bound; by destruct (subscribers ms t)|].
  exists x. split; [done|by eapply list_elem_of_lookup_2].
Qed.

Lemma elem_of_fair_share ms id t tp :
  tp ∈ fair_share ms id t <->
  exists p, tp = mkTP t (Z.of_nat p) /\ p < kDefaultPartitionCount /\ owner ms t p = Some id.
Proof.
  unfold fair_share. rewrite list_elem_of_fmap. split.
  - intros (p & -> & [Ho Hp]%list_elem_of_filter). exists p.
    apply elem_of_seq in Hp. split_and!; [done|lia|done].
  - intros (p & -> & Hp & Ho). exists p. split; [done|].
    apply list_elem_of_filter. split; [done|]. apply elem_of_seq. lia.
Qed.

Lemma NoDup_fair_share ms id t : NoDup (fair_share ms id t).
Proof.
  unfold fair_share. apply NoDup_fmap_2_strong.
  - intros p q _ _ [= H]. lia.
  - apply NoDup_filter, NoDup_seq.
Qed.

Lemma owner_index ms t i id p :
  subscribers ms t !! i = Some id ->
  (owner ms t p = Some id <-> p mod length (subscribers ms t) = i).
Proof.
  intros Hi. unfold owner. split; [|by intros ->].
  intros Hp. by eapply NoDup_lookup; [apply NoDup_subscribers|..].
Qed.

(** The [i]-th of [n] subscribers gets one partition for each [p < 3] congruent to [i]. *)
Lemma length_fair_share ms t i id :
  subscribers ms t !! i = Some id ->
  length (fair_share ms id t) =
    length (filter (fun p => p mod length (subscribers ms t) = i)
              (seq 0 kDefaultPartitionCount)).
Proof.
  intros Hi. unfold fair_share. rewrite length_map. f_equal.
  apply list_filter_iff. intros p. by apply owner_index.
Qed.

Lemma mod_count n i :
  i < n ->
  let c := length (filter (fun p => p mod n = i) (seq 0 kDefaultPartitionCount)) in
  kDefaultPartitionCount / n <= c <= S ((kDefaultPartitionCount - 1) / n).
Proof.
  intros Hi. unfold kDefaultPartitionCount. cbv zeta.
  destruct n as [|[|[|n]]]; [lia|..].
  - destruct i as [|i]; [|lia]. vm_compute; lia.
  - destruct i as [|[|i]]; [..|lia]; vm_compute; lia.
  - destruct (decide (n = 0)) as [->|].
    { destruct i as [|[|[|i]]]; [..|lia]; vm_compute; lia. }
    cbn [seq]. rewrite (Nat.div_small 3), (Nat.div_small (3 - 1)) by lia.
    rewrite 3!filter_cons. rewrite !Nat.mod_small by lia.
    repeat case_decide; simpl; lia.
Qed.

Lemma balanced_lookup ms id m :
  balanced ms !! id = Some m ->
  exists m0, ms !! id = Some m0 /\ m = set_assignments m0 (fair_share ms id (m_topic m0)).
Proof.
  unfold balanced. rewrite map_lookup_imap. destruct (ms !! id) as [m0|]; [|done].
  simpl. intros [= <-]. by exists m0.
Qed.

Lemma balanced_assignments ms id m :
  ms = balanced ms -> ms !! id = Some m -> assignments m = fair_share ms id (m_topic m).
Proof.
  intros Hb Hm. pose proof Hm as Hm'. rewrite Hb in Hm'.
  apply balanced_lookup in Hm' as (m0 & Hm0 & ->). rewrite Hm in Hm0.
  by injection Hm0 as <-.
Qed.

Lemma balanced_topics ms id : m_topic <$> balanced ms !! id = m_topic <$> ms !! id.
Proof. unfold balanced. rewrite map_lookup_imap. by destruct (ms !! id). Qed.

(** The assignment depends on the ids and their topics only. *)
Lemma balanced_same ms ms' :
  (forall id, (fun m => (m_consumer_id m, m_topic m)) <$> ms !! id =
              (fun m => (m_consumer_id m, m_topic m)) <$> ms' !! id) ->
  balanced ms = balanced ms'.
Proof.
  intros H. assert (forall t, subscribers ms t = subscribers ms' t) as Hs.
  { intros t. apply subscribers_same_topics. intros id. specialize (H id).
    apply (f_equal (fmap snd)) in H. by rewrite <-!option_fmap_compose in H. }
  apply map_eq. intros id. unfold balanced. rewrite !map_lookup_imap. specialize (H id).
  destruct (ms !! id) as [m|], (ms' !! id) as [m'|]; simplify_eq/=; [|done].
  unfold set_assignments, fair_share, owner. destruct m, m'; simpl in *; subst.
  by rewrite Hs.
Qed.

Lemma balanced_idem ms : balanced (balanced ms) = balanced ms.
Proof.
  apply balanced_same. intros id. unfold balanced. rewrite map_lookup_imap.
  by destruct (ms !! id).
Qed.

Lemma balanced_empty ms : balanced ms = ∅ <-> ms = ∅.
Proof.
  split; [|by intros ->]. intros H. apply map_eq. intros id. rewrite lookup_empty.
  apply (f_equal (fun x => x !! id)) in H. unfold balanced in H.
  rewrite map_lookup_imap, lookup_empty in H. by destruct (ms !! id).
Qed.

End rebalance.

(** ** Operations on the map of groups *)

Inductive group_op :=
| Join (req : Request)
| Leave (req : Request)
| Remove (gid cid : bytes)
| Poll (req : Request)
| Commit (topics : gmap bytes Topic) (req : Request).

Definition run_op `{IterOrder} (groups : Groups) (op : group_op) : Groups :=
  match op with
  | Join req => (join_group req groups).2
  | Leave req => (leave_group req groups).2
  | Remove gid cid => remove_consumer_from_group gid cid groups
  | Poll req => groups
  | Commit topics req => (commit_offset topics req groups).2
  end.

(** A committed offset is a [uint64_t]. *)
Definition op_ok (op : group_op) : Prop :=
  match op with Commit _ req => is_u64 (r_offset req) | _ => True end.

Section operations.
Context {order : IterOrder}.

Lemma group_ok_rebalance gid g ms :
  group_ok gid g -> ms <> ∅ -> map_Forall (fun cid m => m_consumer_id m = cid) ms ->
  group_ok gid (rebalance_group (set_members g ms)).
Proof.
  intros (Hg & _ & _ & _ & Hoff) Hne Hids. rewrite rebalance_group_balanced. unfold group_ok; simpl.
  split_and!; [done| | | |done].
  - by rewrite balanced_empty.
  - intros cid m (m0 & Hm0 & ->)%balanced_lookup. by apply Hids in Hm0.
  - by rewrite balanced_idem.
Qed.

Lemma groups_ok_erase gid cid g groups :
  groups_ok groups -> groups !! gid = Some g -> groups_ok (erase_member gid cid g groups).
Proof.
  intros Hok Hg. pose proof (Hok _ _ Hg) as Hgok. unfold erase_member. case_bool_decide.
  - by apply map_Forall_delete.
  - apply map_Forall_insert_2; [|done]. apply group_ok_rebalance; [done..|].
    apply map_Forall_delete. apply Hgok.
Qed.

Lemma join_group_ok req groups : groups_ok groups -> groups_ok (join_group req groups).2.
Proof.
  intros Hok. unfold join_group.
  destruct (groups !! r_group_id req) as [g|] eqn:Hg; simpl.
  - pose proof (Hok _ _ Hg) as Hgok.
    destruct (members g !! r_consumer_id req); simpl.
    + by rewrite insert_id.
    + apply map_Forall_insert_2; [|done]. apply group_ok_rebalance; [done| |].
      * apply insert_non_empty.
      * apply map_Forall_insert_2; [done|apply Hgok].
  - apply map_Forall_insert_2; [|done]. rewrite rebalance_group_balanced. unfold group_ok; simpl.
    split_and!; [done| | | |apply map_Forall_empty].
    + rewrite balanced_empty. apply insert_non_empty.
    + intros cid m (m0 & Hm0 & ->)%balanced_lookup.
      apply lookup_insert_Some in Hm0 as [[<- <-]|[_ [=]]]. done.
    + by rewrite balanced_idem.
Qed.

Lemma run_op_ok groups op : op_ok op -> groups_ok groups -> groups_ok (run_op groups op).
Proof.
  intros Hop Hok. destruct op as [req|req|gid cid|req|topics req]; simpl; [|..|done|].
  - by apply join_group_ok.
  - unfold leave_group. destruct (groups !! r_group_id req) as [g|] eqn:Hg; [|done].
    destruct (members g !! _); [|done]. by apply groups_ok_erase.
  - unfold remove_consumer_from_group. destruct (groups !! gid) as [g|] eqn:Hg; [|done].
    by apply groups_ok_erase.
  - unfold commit_offset. destruct (groups !! _) as [g|] eqn:Hg; [|done].
    destruct (members g !! _); [|done]. destruct (topics !! _) as [t|]; [|done].
    destruct (bad_partition _ _); [done|]. simpl. pose proof (Hok _ _ Hg) as (? & ? & ? & ? & ?).
    apply map_Forall_insert_2; [|done]. split_and!; simpl; try done.
    by apply map_Forall_insert_2.
Qed.

(** The states that the operations reach are well formed. *)
Lemma ops_groups_ok ops : Forall op_ok ops -> groups_ok (fold_left run_op ops ∅).
Proof.
  intros Hops. assert (forall gs, groups_ok gs -> groups_ok (fold_left run_op ops gs)) as Hgen.
  { induction Hops as [|op ops Hop _ IH]; intros gs Hgs; simpl; [done|].
    by apply IH, run_op_ok. }
  apply Hgen, map_Forall_empty.
Qed.

(** What each operation does to the committed offsets of a group that outlives it. *)
Lemma run_op_committed groups op gid g g' :
  groups !! gid = Some g -> run_op groups op !! gid = Some g' ->
  committed_offsets g' = committed_offsets g \/
  exists topics req, op = Commit topics req /\ r_group_id req = gid /\
    committed_offsets g' =
      <[mkTP (r_topic req) (r_partition req) := r_offset req]> (committed_offsets g).
Proof.
  intros Hg Hg'. assert (forall gid' cid h, groups !! gid' = Some h ->
    erase_member gid' cid h groups !! gid = Some g' ->
    committed_offsets g' = committed_offsets g) as Herase.
  { intros gid' cid h Hh. unfold erase_member. case_bool_decide.
    - rewrite lookup_delete_Some. naive_solver.
    - rewrite lookup_insert_Some. intros [[-> <-]|[? ?]]; [|naive_solver].
      rewrite rebalance_group_balanced. naive_solver. }
  destruct op as [req|req|gid' cid|req|topics req]; simpl in Hg'.
  - left. unfold join_group in Hg'.
    destruct (members _ !! _); simpl in Hg';
      apply lookup_insert_Some in Hg' as [[<- <-]|[_ Hg']]; try congruence.
    + by rewrite Hg.
    + by rewrite rebalance_group_balanced, Hg.
  - left. unfold leave_group in Hg'.
    destruct (groups !! r_group_id req) as [h|] eqn:Hh; [|simpl in Hg'; congruence].
    destruct (members h !! _); [|simpl in Hg'; congruence]. by eapply Herase.
  - left. unfold remove_consumer_from_group in Hg'.
    destruct (groups !! gid') as [h|] eqn:Hh; [|congruence]. by eapply Herase.
  - left. congruence.
  - unfold commit_offset in Hg'.
    destruct (groups !! r_group_id req) as [h|] eqn:Hh; [|simpl in Hg'; left; congruence].
    destruct (members h !! _); [|simpl in Hg'; left; congruence].
    destruct (topics !! _); [|simpl in Hg'; left; congruence].
    destruct (bad_partition _ _); simpl in Hg'; [left; congruence|].
    apply lookup_insert_Some in Hg' as [[<- <-]|[_ Hg']]; [|left; congruence].
    right. exists topics, req. split_and!; [done|done|]. simpl. congruence.
Qed.

(** Erasing the member that was added last restores the group. *)
Lemma balanced_delete_insert ms cid m :
  ms = balanced ms -> ms !! cid = None ->
  balanced (delete cid (balanced (<[cid := m]> ms))) = ms.
Proof.
  intros Hb Hc. rewrite Hb at 2. apply balanced_same. intros id.
  destruct (decide (id = cid)) as [->|Hne].
  - by rewrite lookup_delete_eq, Hc.
  - rewrite lookup_delete_ne by done. unfold balanced. rewrite map_lookup_imap.
    rewrite lookup_insert_ne by done. by destruct (ms !! id).
Qed.

Lemma delete_balanced_single cid m :
  delete cid (balanced {[cid := m]}) = (∅ : gmap bytes GroupMember).
Proof.
  apply map_eq. intros id. rewrite lookup_empty. destruct (decide (id = cid)) as [->|Hne].
  - apply lookup_delete_eq.
  - rewrite lookup_delete_ne by done. unfold balanced. rewrite map_lookup_imap.
    by rewrite lookup_singleton_ne.
Qed.

End operations.

(** ** Properties *)

(** C16. [rebalance_group] computes the round robin over the sorted subscribers of each
    topic, from whatever assignments the members had, and the order in which the two
    [unordered_map]s are walked makes no difference. *)
Theorem rebalance_round_robin (order1 order2 : IterOrder) g :
  @rebalance_group order1 g = set_members g (balanced (members g)) /\
  @rebalance_group order1 g = @rebalance_group order2 g.
Proof. by rewrite !rebalance_group_balanced. Qed.

(** C25. After any sequence of joins, leaves, disconnects, polls and commits, every
    partition of a topic to which somebody in a group subscribes is assigned to exactly one
    member of the group, once; and members are assigned partitions of their own topic
    only. *)
Theorem partition_owned_once `{IterOrder} ops gid g id0 m0 p :
  Forall op_ok ops -> fold_left run_op ops ∅ !! gid = Some g ->
  members g !! id0 = Some m0 -> p < kDefaultPartitionCount ->
  let tp := mkTP (m_topic m0) (Z.of_nat p) in
  (exists! id, exists m, members g !! id = Some m /\ tp ∈ assignments m) /\
  NoDup (assignments m0) /\
  (forall tp', tp' ∈ assignments m0 -> tp_topic tp' = m_topic m0).
Proof.
  intros Hops Hg Hm0 Hp tp. destruct (ops_groups_ok ops Hops _ _ Hg) as (_ & _ & _ & Hb & _).
  assert (Ha : forall id m, members g !! id = Some m ->
    assignments m = fair_share (members g) id (m_topic m))
    by (intros id m; by apply balanced_assignments).
  split_and!.
  - destruct (owner_some (members g) (m_topic m0) p) as (id & Ho & Hid).
    { intros Heq. assert (id0 ∈ subscribers (members g) (m_topic m0)) as Hin
        by (apply elem_of_subscribers; eauto).
      rewrite Heq in Hin. by apply elem_of_nil in Hin. }
    exists id. split.
    + apply elem_of_subscribers in Hid as (m & Hm & Ht). exists m. split; [done|].
      rewrite (Ha id m Hm), Ht, elem_of_fair_share. by exists p.
    + intros id' (m' & Hm' & Hin). rewrite (Ha id' m' Hm') in Hin.
      apply elem_of_fair_share in Hin as (p' & [= Ht Hp'] & _ & Ho').
      apply Nat2Z.inj in Hp' as <-. rewrite <-Ht in Ho'. congruence.
  - rewrite (Ha _ _ Hm0). apply NoDup_fair_share.
  - intros tp'. rewrite (Ha _ _ Hm0), elem_of_fair_share. by intros (q & -> & _).
Qed.

(** C26. After [rebalance_group], from whatever members with whatever assignments and
    whatever order the maps are walked in, two members that subscribe to the same topic
    hold numbers of partitions that differ by at most one. *)
Theorem assignment_balanced `{IterOrder} g id1 id2 m1 m2 :
  members (rebalance_group g) !! id1 = Some m1 ->
  members (rebalance_group g) !! id2 = Some m2 -> m_topic m1 = m_topic m2 ->
  length (assignments m1) <= S (length (assignments m2)).
Proof.
  rewrite rebalance_group_balanced. cbn [members set_members].
  set (ms := balanced (members g)). intros H1 H2 Ht.
  assert (ms = balanced ms) as Hb by (by unfold ms; rewrite balanced_idem).
  rewrite (balanced_assignments _ _ _ Hb H1), (balanced_assignments _ _ _ Hb H2), Ht.
  assert (forall id m, ms !! id = Some m -> m_topic m = m_topic m2 ->
    exists i, subscribers ms (m_topic m2) !! i = Some id) as Hidx.
  { intros id m Hm Hmt. apply list_elem_of_lookup, elem_of_subscribers. eauto. }
  destruct (Hidx _ _ H1 Ht) as [i Hi], (Hidx _ _ H2 eq_refl) as [j Hj].
  rewrite (length_fair_share _ _ i), (length_fair_share _ _ j) by done.
  pose proof (mod_count _ i (lookup_lt_Some _ _ _ Hi)) as Hci.
  pose proof (mod_count _ j (lookup_lt_Some _ _ _ Hj)) as Hcj. cbv zeta in Hci, Hcj.
  set (n := length (subscribers _ _)) in *.
  assert (S ((kDefaultPartitionCount - 1) / n) <= S (kDefaultPartitionCount / n))
    by (apply le_n_S, Nat.Div0.div_le_mono; unfold kDefaultPartitionCount; lia).
  lia.
Qed.

(** C10. Every state that the operations of the groups reach is well formed: no group is
    empty, entries are filed under their ids, and the assignments are the round-robin
    ones for the current members. *)
Theorem groups_invariant `{IterOrder} ops :
  Forall op_ok ops -> groups_ok (fold_left run_op ops ∅).
Proof. apply ops_groups_ok. Qed.

(** A consumer that joins and leaves again leaves no trace: the other members get
    back the assignments they had, and a group that the join created is gone. *)
Theorem join_leave_restores `{IterOrder} req groups :
  groups_ok groups -> (join_group req groups).1 = lit "OK" ->
  leave_group req (join_group req groups).2 = (lit "OK", groups).
Proof.
  intros Hok. unfold join_group. set (member := mkMember _ _ _).
  destruct (groups !! r_group_id req) as [g|] eqn:Hg; simpl.
  - destruct (members g !! r_consumer_id req) eqn:Hm; [done|]. intros _.
    destruct (Hok _ _ Hg) as (_ & Hne & _ & Hb & _).
    pose proof (balanced_delete_insert _ _ member Hb Hm) as Hdel.
    rewrite rebalance_group_balanced. unfold leave_group. simpl. rewrite lookup_insert_eq.
    simpl. unfold balanced at 1. rewrite map_lookup_imap, lookup_insert_eq. simpl.
    unfold erase_member. simpl. rewrite bool_decide_eq_false_2; cycle 1.
    { rewrite <-balanced_empty, Hdel. done. }
    rewrite rebalance_group_balanced. simpl. rewrite Hdel, insert_insert_eq.
    f_equal. apply insert_id. rewrite Hg. by destruct g.
  - rewrite lookup_empty. intros _. rewrite rebalance_group_balanced.
    unfold leave_group. simpl. rewrite lookup_insert_eq. simpl. rewrite insert_empty. unfold balanced at 1.
    rewrite map_lookup_imap, lookup_singleton_eq. simpl.
    unfold erase_member. simpl. rewrite delete_balanced_single, bool_decide_eq_true_2 by done.
    by rewrite delete_insert_id.
Qed.

(** A committed offset is the group's: it stays readable through joins, leaves,
    disconnects and polls of any members for as long as the group exists, until it is
    committed again. *)
Theorem committed_offset_kept `{IterOrder} groups op gid topic p off :
  get_committed_offset gid topic p groups = Some off ->
  is_Some (run_op groups op !! gid) ->
  (forall topics req, op = Commit topics req ->
     r_group_id req = gid -> mkTP (r_topic req) (r_partition req) <> mkTP topic p) ->
  get_committed_offset gid topic p (run_op groups op) = Some off.
Proof.
  unfold get_committed_offset. intros Hget [g' Hg'] Hop. rewrite Hg'.
  destruct (groups !! gid) as [g|] eqn:Hg; [|done].
  destruct (run_op_committed groups op gid g g' Hg Hg')
    as [->|(topics & req & -> & Hgid & ->)]; [done|].
  rewrite lookup_insert_ne; [done|]. by eapply Hop.
Qed.

(** C27. [COMMIT] answers [OK] exactly for a member of the group and an existing
    partition; the offset is then the committed one of that group and partition, and every
    other committed offset, of this group and of any other, the members and the other
    groups stay as they are.  Otherwise nothing changes. *)
Theorem commit_offset_effect topics req groups :
  let res := commit_offset topics req groups in
  (res.1 = lit "OK" <->
     (exists g, groups !! r_group_id req = Some g /\
        is_Some (members g !! r_consumer_id req)) /\
     (exists topic, topics !! r_topic req = Some topic /\
        (0 <= r_partition req < Z.of_nat (length (partitions topic)))%Z)) /\
  (res.1 = lit "OK" ->
     get_committed_offset (r_group_id req) (r_topic req) (r_partition req) res.2
       = Some (r_offset req)) /\
  (res.1 <> lit "OK" -> res = (lit "ERROR", groups)) /\
  (forall gid topic p,
     (gid, mkTP topic p) <> (r_group_id req, mkTP (r_topic req) (r_partition req)) ->
     get_committed_offset gid topic p res.2 = get_committed_offset gid topic p groups) /\
  (forall gid, gid <> r_group_id req -> res.2 !! gid = groups !! gid) /\
  (forall gid, members <$> res.2 !! gid = members <$> groups !! gid).
Proof.
  unfold commit_offset, get_committed_offset. cbv zeta.
  assert (forall A B, ~ (A /\ B) -> (lit "ERROR" = lit "OK" <-> A /\ B)) as Herr
    by (intros A B H; split; [done|by intros ?%H]).
  destruct (groups !! r_group_id req) as [g|] eqn:Hg; simpl;
    [|split_and!; try done; apply Herr; by intros [(g & [=] & _) _]].
  destruct (members g !! r_consumer_id req) as [m|] eqn:Hm; simpl;
    [|split_and!; try done; apply Herr; intros [(g' & [= <-] & [? ?]) _]; congruence].
  destruct (topics !! r_topic req) as [topic|] eqn:Ht; simpl;
    [|split_and!; try done; apply Herr; by intros [_ (t & [=] & _)]].
  destruct (bad_partition topic (r_partition req)) eqn:Hp; simpl.
  { split_and!; try done. apply Herr. intros (_ & t & [= <-] & Ht').
    apply bad_partition_false in Ht'. congruence. }
  apply bad_partition_false in Hp. rewrite lookup_insert_eq. simpl. split_and!; try done.
  - split; [|done]. intros _. split; [exists g; by rewrite Hm|by exists topic].
  - by rewrite lookup_insert_eq.
  - intros gid topic' p Hne. destruct (decide (gid = r_group_id req)) as [->|Hgid].
    + rewrite lookup_insert_eq, Hg. simpl. rewrite lookup_insert_ne by congruence. done.
    + by rewrite lookup_insert_ne.
  - intros gid Hne. by rewrite lookup_insert_ne.
  - intros gid. rewrite lookup_insert. case_decide; [subst; by rewrite Hg|done].
Qed.

(** When the last member leaves, the group is erased with its committed offsets: a
    consumer that joins again starts from offset zero. *)
Theorem last_leave_loses_offsets `{IterOrder} groups req g m topic p :
  groups !! r_group_id req = Some g -> members g = {[ r_consumer_id req := m ]} ->
  let groups1 := (leave_group req groups).2 in
  let groups2 := (join_group req groups1).2 in
  get_committed_offset (r_group_id req) topic p groups1 = None /\
  get_committed_offset (r_group_id req) topic p groups2 = None.
Proof.
  intros Hg Hm. unfold leave_group, get_committed_offset. rewrite Hg, Hm, lookup_singleton_eq.
  simpl. unfold erase_member. rewrite Hm, delete_singleton_eq, bool_decide_eq_true_2 by done.
  unfold join_group. rewrite lookup_delete_eq. simpl. split; [done|].
  rewrite lookup_empty. simpl. rewrite lookup_insert_eq, rebalance_group_balanced. simpl. apply lookup_empty.
Qed.

(** *** Witnesses *)

Definition demo_join (cid topic : bytes) : Request :=
  mkRequest JOIN (lit "g") cid topic 0 0 [].

Definition demo_ops : list group_op :=
  [Join (demo_join (lit "b") (lit "t")); Join (demo_join (lit "a") (lit "t"));
   Commit {[ lit "t" := new_Topic (lit "t") ]}
     (mkRequest COMMIT (lit "g") (lit "a") (lit "t") 1 7 [])].

Definition demo_groups : Groups := fold_left (@run_op canonical_order) demo_ops ∅.

Lemma demo_groups_ok : groups_ok demo_groups.
Proof.
  unfold demo_groups, demo_ops. cbn [fold_left].
  do 3 (apply (@run_op_ok canonical_order); [closed|]). apply map_Forall_empty.
Qed.

Lemma demo_ops_ok : Forall op_ok demo_ops.
Proof. repeat (constructor; [closed|]). constructor. Qed.

Definition demo_group : ConsumerGroup := default (mkGroup [] ∅ ∅) (demo_groups !! lit "g").

Lemma partition_owned_once_witness :
  exists! id, exists m, members demo_group !! id = Some m /\ mkTP (lit "t") 1 ∈ assignments m.
Proof.
  refine (proj1 (@partition_owned_once canonical_order demo_ops (lit "g") demo_group (lit "a")
    (mkMember (lit "a") (lit "t") [mkTP (lit "t") 0; mkTP (lit "t") 2]) 1
    demo_ops_ok _ _ _)); [vm_compute; reflexivity..|vm_compute; lia].
Defined.

Lemma assignment_balanced_witness :
  length [mkTP (lit "t") 0; mkTP (lit "t") 2] <= S (length [mkTP (lit "t") 1]).
Proof.
  refine (@assignment_balanced canonical_order demo_group (lit "a") (lit "b")
    (mkMember (lit "a") (lit "t") [mkTP (lit "t") 0; mkTP (lit "t") 2])
    (mkMember (lit "b") (lit "t") [mkTP (lit "t") 1]) _ _ _); vm_compute; reflexivity.
Defined.

Lemma groups_invariant_witness : groups_ok (fold_left (@run_op canonical_order) demo_ops ∅).
Proof.
  apply (@groups_invariant canonical_order). repeat (constructor; [closed|]). constructor.
Defined.

Lemma join_leave_restores_witness :
  @leave_group canonical_order (demo_join (lit "c") (lit "u"))
    (@join_group canonical_order (demo_join (lit "c") (lit "u")) demo_groups).2 =
  (lit "OK", demo_groups).
Proof.
  apply (@join_leave_restores canonical_order); [exact demo_groups_ok|].
  vm_compute; reflexivity.
Defined.

Lemma committed_offset_kept_witness :
  get_committed_offset (lit "g") (lit "t") 1
    (@run_op canonical_order demo_groups (Leave (demo_join (lit "a") (lit "t")))) = Some 7%Z.
Proof.
  apply (@committed_offset_kept canonical_order).
  - vm_compute; reflexivity.
  - vm_compute. by eexists.
  - by intros.
Defined.

Lemma last_leave_loses_offsets_witness :
  let groups := @run_op canonical_order demo_groups (Leave (demo_join (lit "a") (lit "t"))) in
  get_committed_offset (lit "g") (lit "t") 1 groups = Some 7%Z /\
  get_committed_offset (lit "g") (lit "t") 1
    (@leave_group canonical_order (demo_join (lit "b") (lit "t")) groups).2 = None.
Proof.
  intros groups. split; [vm_compute; reflexivity|].
  refine (proj1 (@last_leave_loses_offsets canonical_order groups (demo_join (lit "b") (lit "t"))
    (default (mkGroup [] ∅ ∅) (groups !! lit "g"))
    (mkMember (lit "b") (lit "t") [mkTP (lit "t") 0; mkTP (lit "t") 1; mkTP (lit "t") 2])
    (lit "t") 1 _ _)); vm_compute; reflexivity.
Defined.
