(* ===== verification/Client.v ===== *)
(** * The client side of a connection ([class BrokerClient] of [src/client.hpp])

    [Peer] is what the broker's replication code relies on: a session that is opened,
    exchanges requests for responses and is closed by a destructor.  [client_peer] is the
    implementation the program has, over the sockets of [Framing]. *)

From S2P Require Import Prelude Posix Framing.

(** ** Definitions *)

(** The members; [fd_] is [None] for -1. *)
Record BrokerClient := mkClient { host_ : bytes; port_ : Z; fd_ : option nat }.

(** The network around a process: the answers of [socket], [inet_pton] and [connect],
    what the peers of the next connections do, and the descriptors that are open. *)
Record Net := mkNet {
  n_script : list sys_result;
  n_accept : list Sock;
  n_open : gmap nat Sock
}.

Record ClientWorld := mkCW { client : BrokerClient; net : Net }.

Definition new_client (host : bytes) (port : Z) : BrokerClient := mkClient host port None.

Definition client_sys : M ClientWorld sys_result := fun s =>
  match n_script (net s) with
  | [] => (Crash, s)
  | r :: rs => (Ret r, mkCW (client s) (mkNet rs (n_accept (net s)) (n_open (net s))))
  end.

Definition set_fd (fd : option nat) (s : ClientWorld) : ClientWorld :=
  mkCW (mkClient (host_ (client s)) (port_ (client s)) fd) (net s).

Definition set_open (f : gmap nat Sock -> gmap nat Sock) (s : ClientWorld) : ClientWorld :=
  mkCW (client s) (mkNet (n_script (net s)) (n_accept (net s)) (f (n_open (net s)))).

(** A socket that is not connected yet. *)
Definition idle_sock : Sock := mkSock [] [] [].

(** [::socket] gives the process a descriptor it does not have. *)
Definition open_socket (s : ClientWorld) : ClientWorld :=
  let fd := fresh (dom (n_open (net s))) in set_fd (Some fd) (set_open <[fd := idle_sock]> s).

(** [close()], which the destructor calls. *)
Definition client_close (s : ClientWorld) : ClientWorld :=
  match fd_ (client s) with
  | None => s
  | Some fd => set_fd None (set_open (delete fd) s)
  end.

(** A connection is established: the next peer is at its other end. *)
Definition attach : M ClientWorld unit := fun s =>
  match fd_ (client s), n_accept (net s) with
  | Some fd, sock :: socks =>
      (Ret tt, mkCW (client s)
         (mkNet (n_script (net s)) socks (<[fd := sock]> (n_open (net s)))))
  | _, _ => (Crash, s)
  end.

(** [inet_pton] and [::connect], each of which closes the socket when it fails. *)
Definition connect_socket : M ClientWorld unit :=
  r ← client_sys;
  match r with
  | SysOk (S _) =>
      r ← client_sys;
      match r with
      | SysOk _ => attach
      | _ => _ ← modify client_close; throw runtime_error
      end
  | _ => _ ← modify client_close; throw runtime_error
  end.

Definition client_connect : M ClientWorld unit :=
  fd ← gets (fun s => fd_ (client s));
  match fd with
  | Some _ => mret tt
  | None =>
      r ← client_sys;
      match r with
      | SysOk _ => _ ← modify open_socket; connect_socket
      | _ => throw runtime_error
      end
  end.

(** Run a call on the socket of a descriptor. *)
Definition on_sock {A} (fd : nat) (m : M Sock A) : M ClientWorld A := fun s =>
  let (r, sock) := m (default idle_sock (n_open (net s) !! fd)) in
  (r, set_open <[fd := sock]> s).

Definition client_request (req_payload : bytes) : M ClientWorld bytes :=
  fd ← gets (fun s => fd_ (client s));
  match fd with
  | None => throw runtime_error
  | Some fd =>
      _ ← on_sock fd (write_frame req_payload);
      resp ← on_sock fd read_frame;
      match resp with
      | None => throw runtime_error
      | Some resp_payload => mret resp_payload
      end
  end.

(** ** The interface *)

(** A session with the broker on a port of 127.0.0.1.  A request that does not fit a
    frame throws. *)
Class Peer (P : Type) := {
  peer_connect : Z -> M P unit;
  peer_request : bytes -> M P bytes;
  peer_close : P -> P;
  peer_request_oversize : forall m s, ~ frame_ok m ->
    exists e s', peer_request m s = (Throw e, s')
}.

(** [{ BrokerClient c("127.0.0.1", port); c.connect(); body }]: the destructor runs on
    every way out. *)
Definition session {P A} `{Peer P} (port : Z) (body : M P A) : M P A := fun s =>
  let (r, s') := (_ ← peer_connect port; body) s in
  match r with Crash => (Crash, s') | _ => (r, peer_close s') end.

Lemma write_frame_oversize p s : ~ frame_ok p -> write_frame p s = (Throw runtime_error, s).
Proof.
  unfold frame_ok, write_frame. intros H. by rewrite (proj2 (Z.ltb_lt _ _)) by lia.
Qed.

Lemma client_request_oversize m s : ~ frame_ok m ->
  exists e s', client_request m s = (Throw e, s').
Proof.
  intros Hm. unfold client_request, mbind, M_bind, gets, throw.
  destruct (fd_ (client s)); [|by eauto]. unfold on_sock at 1.
  rewrite write_frame_oversize by done. eauto.
Qed.

(** The sessions of the program: each is a fresh [BrokerClient]. *)
#[export] Instance client_peer : Peer ClientWorld := {|
  peer_connect := fun port s =>
    client_connect (mkCW (new_client (lit "127.0.0.1") port) (net s));
  peer_request := client_request;
  peer_close := client_close;
  peer_request_oversize := client_request_oversize
|}.

(** *** Specification *)

(** A request answered by each response in turn. *)
Fixpoint requests (ms : list bytes) : M ClientWorld (list bytes) :=
  match ms with
  | [] => mret []
  | m :: ms => r ← client_request m; rs ← requests ms; mret (r :: rs)
  end.

(** Whatever holds of the descriptors: those that were open before the session, and at
    most the session's own. *)
Definition owns (before : gmap nat Sock) (s : ClientWorld) : Prop :=
  match fd_ (client s) with
  | None => n_open (net s) = before
  | Some fd => before !! fd = None /\ exists sock, n_open (net s) = <[fd := sock]> before
  end.

(** [m] keeps to the session's own descriptor. *)
Definition keeps_own {A} (m : M ClientWorld A) : Prop :=
  forall before s, owns before s -> owns before (m s).2.

(** ** Lemmas *)

Lemma owns_close before s :
  owns before s -> n_open (net (client_close s)) = before /\ fd_ (client (client_close s)) = None.
Proof.
  unfold owns, client_close. destruct (fd_ (client s)) as [fd|] eqn:E; [|by rewrite E].
  intros (Hfd & sock & Ho). simpl. rewrite Ho. split; [|done].
  by apply delete_insert_id.
Qed.

Lemma keeps_bind {A B} (m : M ClientWorld A) (k : A -> M ClientWorld B) :
  keeps_own m -> (forall a, keeps_own (k a)) -> keeps_own (m ≫= k).
Proof.
  intros Hm Hk before s Hs. apply Hm in Hs. unfold mbind, M_bind.
  destruct (m s) as [[a|e|] s']; simpl in *; [by apply Hk|done|done].
Qed.

Lemma keeps_gets {A} (f : ClientWorld -> A) : keeps_own (gets f).
Proof. by intros before s. Qed.

Lemma keeps_ret {A} (a : A) : keeps_own (mret a : M ClientWorld A).
Proof. by intros before s. Qed.

Lemma keeps_throw {A} e : keeps_own (throw e : M ClientWorld A).
Proof. by intros before s. Qed.

Lemma keeps_sys : keeps_own client_sys.
Proof. intros before s H. unfold client_sys. by destruct (n_script (net s)). Qed.

Lemma keeps_close : keeps_own (modify client_close).
Proof.
  intros before s H. apply owns_close in H as [H1 H2]. unfold owns; simpl. by rewrite H2.
Qed.

Lemma keeps_attach : keeps_own attach.
Proof.
  intros before s H. unfold attach, owns in *.
  destruct (fd_ (client s)) as [fd|] eqn:E; simpl; [|by rewrite E].
  destruct (n_accept (net s)) as [|sock socks]; simpl; rewrite E; [done|].
  destruct H as (Hfd & sock' & ->). split; [done|]. exists sock. by rewrite insert_insert_eq.
Qed.

(** Calls on the session's socket keep the session. *)
Definition keeps_fd {A} (fd : nat) (m : M ClientWorld A) : Prop :=
  forall before s, fd_ (client s) = Some fd -> owns before s ->
    fd_ (client (m s).2) = Some fd /\ owns before (m s).2.

Lemma keeps_fd_on_sock {A} fd (m : M Sock A) : keeps_fd fd (on_sock fd m).
Proof.
  intros before s Hfd H. unfold on_sock. destruct (m _) as [r sock]. simpl.
  split; [done|]. unfold owns in *; simpl in *. rewrite Hfd in *.
  destruct H as (Hb & sock' & ->). split; [done|]. exists sock. by rewrite insert_insert_eq.
Qed.

Lemma keeps_fd_bind {A B} fd (m : M ClientWorld A) (k : A -> M ClientWorld B) :
  keeps_fd fd m -> (forall a, keeps_fd fd (k a)) -> keeps_fd fd (m ≫= k).
Proof.
  intros Hm Hk before s Hfd Hs. destruct (Hm before s Hfd Hs). unfold mbind, M_bind.
  destruct (m s) as [[a|e|] s']; simpl in *; [by apply Hk|done|done].
Qed.

Lemma keeps_request m : keeps_own (client_request m).
Proof.
  intros before s Hs. unfold client_request. unfold mbind at 1, M_bind at 1, gets.
  destruct (fd_ (client s)) as [fd|] eqn:Hfd; [|done].
  refine (proj2 ((_ : keeps_fd fd _) before s Hfd Hs)).
  apply keeps_fd_bind; [apply keeps_fd_on_sock|]. intros _.
  apply keeps_fd_bind; [apply keeps_fd_on_sock|]. by intros [resp|] before' s'.
Qed.

Lemma keeps_requests ms : keeps_own (requests ms).
Proof.
  induction ms as [|m ms IH]; simpl; [apply keeps_ret|].
  apply keeps_bind; [apply keeps_request|]. intros r.
  apply keeps_bind; [done|]. intros rs. apply keeps_ret.
Qed.

Lemma keeps_connect_socket : keeps_own connect_socket.
Proof.
  assert (Hfail : keeps_own (_ ← modify client_close; throw runtime_error : M _ unit))
    by (apply keeps_bind; [apply keeps_close|intros; apply keeps_throw]).
  apply keeps_bind; [apply keeps_sys|]. intros [[|k]| | |]; try done.
  apply keeps_bind; [apply keeps_sys|]. intros [k'| | |]; [apply keeps_attach|done..].
Qed.

(** [connect] on a fresh client. *)
Lemma connect_owns host port n :
  let s := mkCW (new_client host port) n in owns (n_open n) (client_connect s).2.
Proof.
  intros s. unfold client_connect, mbind, M_bind, gets. simpl. unfold client_sys at 1. simpl.
  destruct (n_script n) as [|r rs]; [done|]. destruct r; try done.
  apply keeps_connect_socket. unfold owns, open_socket; simpl. split; [|by eexists].
  apply not_elem_of_dom, is_fresh.
Qed.

(** RAII: a session that ends, by a return or by an exception, closes what it opened. *)
Lemma session_closes_own {A} port (body : M ClientWorld A) s :
  keeps_own body -> (session port body s).1 <> Crash ->
  n_open (net (session port body s).2) = n_open (net s).
Proof.
  intros Hbody. unfold session, peer_connect, client_peer.
  assert (owns (n_open (net s)) ((_ ← fun s => client_connect
    (mkCW (new_client (lit "127.0.0.1") port) (net s)); body) s).2) as H.
  { unfold mbind, M_bind. pose proof (connect_owns (lit "127.0.0.1") port (net s)) as Hc.
    cbv zeta in Hc. destruct (client_connect _) as [[[]|e|] s']; [by apply Hbody|done|done]. }
  revert H. generalize ((_ ← fun s => client_connect
    (mkCW (new_client (lit "127.0.0.1") port) (net s)); body) s). intros [r s'] H.
  destruct r; intros Hr; [..|done]; by apply owns_close.
Qed.

(** *** A whole exchange *)

Lemma client_request_spec m r fd sock rest s n :
  fd_ (client s) = Some fd -> n_open (net s) !! fd = Some sock ->
  frame_ok m -> frame_ok r -> arriving (rx sock) -> data_of (rx sock) = frame r ++ rest ->
  sends (tx sock) (length (frame m) + n) ->
  exists rx' tx', arriving rx' /\ data_of rx' = rest /\ sends tx' n /\
    client_request m s =
      (Ret r, set_open <[fd := mkSock rx' tx' (sent sock ++ frame m)]> s).
Proof.
  intros Hfd Hsock Hm Hr Harr Hd Htx.
  destruct (write_frame_done m sock _ Hm Htx) as (tx1 & Hw & Htx1).
  destruct (read_frame_spec r _ (mkSock (rx sock) tx1 (sent sock ++ frame m)) Hr Harr Hd)
    as (rx1 & Hread & Harr1 & Hd1).
  exists rx1, tx1. split_and!; [done..|].
  unfold client_request, mbind, M_bind, gets, on_sock. cbn beta iota.
  rewrite Hfd, Hsock. simpl. rewrite Hw. simpl.
  rewrite lookup_insert_eq. simpl. rewrite Hread. unfold set_open. simpl.
  by rewrite insert_insert_eq.
Qed.

Lemma requests_spec ms : forall fd sock rs rest s n,
  fd_ (client s) = Some fd -> n_open (net s) !! fd = Some sock ->
  length rs = length ms -> Forall frame_ok ms -> Forall frame_ok rs ->
  arriving (rx sock) -> data_of (rx sock) = concat (map frame rs) ++ rest ->
  sends (tx sock) (length (concat (map frame ms)) + n) ->
  exists sock', requests ms s = (Ret rs, set_open <[fd := sock']> s) /\
    sent sock' = sent sock ++ concat (map frame ms) /\ data_of (rx sock') = rest.
Proof.
  induction ms as [|m ms IH]; intros fd sock rs rest s n Hfd Hsock Hlen Hms Hrs Harr Hd Htx.
  { destruct rs; [|done]. exists sock. rewrite app_nil_r. simpl in *. split_and!; [|done|done].
    unfold set_open. rewrite insert_id by done. by destruct s as [c []]. }
  destruct rs as [|r rs]; [done|]. simpl in Hlen, Hd, Htx.
  apply Forall_cons in Hms as [Hm Hms]. apply Forall_cons in Hrs as [Hr Hrs].
  rewrite length_app, <-Nat.add_assoc in Htx. rewrite <-app_assoc in Hd.
  destruct (client_request_spec m r fd sock _ s _ Hfd Hsock Hm Hr Harr Hd Htx)
    as (rx' & tx' & Harr' & Hd' & Htx' & Hreq).
  set (sock1 := mkSock rx' tx' (sent sock ++ frame m)) in *.
  destruct (IH fd sock1 rs rest (set_open <[fd := sock1]> s) n) as (sock' & Hreqs & Hsent & Hrest);
    try done; [by simpl; rewrite lookup_insert_eq|lia|].
  exists sock'. split_and!; [|by rewrite Hsent; simpl; rewrite <-app_assoc|done].
  cbn [requests]. unfold mbind, M_bind in *. rewrite Hreq, Hreqs. unfold set_open. simpl.
  by rewrite insert_insert_eq.
Qed.

(** ** Properties *)

(** Resources: whatever the network does, a session that returns or throws leaves
    open exactly the descriptors that were open before it. *)
Theorem session_closes port ms s :
  (session port (requests ms) s).1 <> Crash ->
  n_open (net (session port (requests ms) s).2) = n_open (net s).
Proof. apply session_closes_own, keeps_requests. Qed.

(** C29. Once the connection is up, a session is a conversation in lock step: each request
    gets the next response, whatever the segmentation and the partial writes, and the
    wire carries the frames of the requests in order. *)
Theorem requests_lockstep ms rs fd sock s :
  fd_ (client s) = Some fd -> n_open (net s) !! fd = Some sock ->
  length rs = length ms -> Forall frame_ok ms -> Forall frame_ok rs ->
  arriving (rx sock) -> data_of (rx sock) = concat (map frame rs) ->
  sends (tx sock) (length (concat (map frame ms))) ->
  exists sock', requests ms s = (Ret rs, set_open <[fd := sock']> s) /\
    sent sock' = sent sock ++ concat (map frame ms) /\ data_of (rx sock') = [].
Proof.
  intros Hfd Hsock Hlen Hms Hrs Harr Hd Htx.
  eapply (requests_spec ms fd sock rs [] s 0); try done; by rewrite ?app_nil_r, ?Nat.add_0_r.
Qed.

(** *** Witnesses *)

Definition demo_sock : Sock :=
  mkSock [RecvData (frame (lit "O") ++ take 3 (frame (lit "K"))); RecvIntr;
          RecvData (drop 3 (frame (lit "K")))]
    (repeat (SysOk 1) 12) [].

Definition demo_world : ClientWorld :=
  mkCW (mkClient (lit "127.0.0.1") 1 (Some 0)) (mkNet [] [] {[ 0 := demo_sock ]}).

Lemma session_closes_witness :
  n_open (net (session 9093 (requests [lit "a"])
    (mkCW (new_client [] 0) (mkNet [SysOk 3; SysOk 1; SysOk 0] [demo_sock] ∅))).2) = ∅.
Proof. apply session_closes. vm_compute. discriminate. Defined.

Lemma requests_lockstep_witness :
  exists sock', requests [lit "a"; lit "b"] demo_world =
    (Ret [lit "O"; lit "K"], set_open <[0 := sock']> demo_world) /\
  sent sock' = concat (map frame [lit "a"; lit "b"]) /\ data_of (rx sock') = [].
Proof.
  apply (requests_lockstep [lit "a"; lit "b"] [lit "O"; lit "K"] 0 demo_sock demo_world);
    try (vm_compute; reflexivity).
  - repeat constructor; closed.
  - repeat constructor; closed.
  - repeat (constructor; [first [by left|right; eexists; split; [|done]; done]|]). constructor.
  - split; [|vm_compute; lia]. repeat (constructor; [right; by eexists|]). constructor.
Defined.
