(* ===== verification/ClientMoves.v ===== *)
(** * Who owns a connection ([BrokerClient]'s constructors, assignment and destructor)

    [Client] follows one [BrokerClient].  Here several live side by side, named by their
    addresses, over one table of descriptors, so that a move between two objects, or of an
    object into itself, is what it is in memory. *)

From S2P Require Import Prelude Posix Framing Client.

(** ** Definitions *)

(** The live objects and the network they share. *)
Record Objects := mkObjects { objs : gmap nat BrokerClient; shared_net : Net }.

(** Run a member function on an object. *)
Definition on_object {A} (a : nat) (m : M ClientWorld A) : M Objects A := fun st =>
  match objs st !! a with
  | None => (Crash, st)
  | Some c =>
      let (r, s) := m (mkCW c (shared_net st)) in
      (r, mkObjects (<[a := client s]> (objs st)) (net s))
  end.

Definition construct (a : nat) (host : bytes) (port : Z) (st : Objects) : Objects :=
  mkObjects (<[a := new_client host port]> (objs st)) (shared_net st).

Definition destroy (a : nat) : M Objects unit :=
  _ ← on_object a (modify client_close);
  modify (fun st => mkObjects (delete a (objs st)) (shared_net st)).

(** What a moved-from [BrokerClient] is: no descriptor, and a host that is a valid but
    unspecified string. *)
Definition moved_from (moved : bytes) (c : BrokerClient) : BrokerClient :=
  mkClient moved (port_ c) None.

(** [BrokerClient dst(std::move(src))]. *)
Definition move_construct (moved : bytes) (dst src : nat) : M Objects unit := fun st =>
  match objs st !! src with
  | None => (Crash, st)
  | Some other =>
      (Ret tt, mkObjects
         (<[src := moved_from moved other]> (<[dst := other]> (objs st))) (shared_net st))
  end.

(** [dst = std::move(src)], with the check of [this != &other]. *)
Definition move_assign (moved : bytes) (dst src : nat) : M Objects unit :=
  if bool_decide (dst = src) then mret tt else
  _ ← on_object dst (modify client_close);
  move_construct moved dst src.

Definition is_connected (c : BrokerClient) : bool := bool_decide (is_Some (fd_ c)).

(** What a program does with its clients; [Crash] is a use of an object that is not there. *)
Inductive client_op :=
| Construct (a : nat) (host : bytes) (port : Z)
| Connect (a : nat)
| Ask (a : nat) (payload : bytes)
| Close (a : nat)
| MoveConstruct (moved : bytes) (dst src : nat)
| MoveAssign (moved : bytes) (dst src : nat)
| Destroy (a : nat).

Definition run_client_op (op : client_op) (st : Objects) : Objects :=
  match op with
  | Construct a host port => construct a host port st
  | Connect a => (on_object a client_connect st).2
  | Ask a payload => (on_object a (client_request payload) st).2
  | Close a => (on_object a (modify client_close) st).2
  | MoveConstruct moved dst src => (move_construct moved dst src st).2
  | MoveAssign moved dst src => (move_assign moved dst src st).2
  | Destroy a => (destroy a st).2
  end.

(** *** Specification *)

(** A constructor makes an object where there is none; everything else is used as the
    language demands. *)
Definition legal (op : client_op) (st : Objects) : Prop :=
  match op with
  | Construct a _ _ => objs st !! a = None
  | MoveConstruct _ dst src => objs st !! dst = None /\ is_Some (objs st !! src)
  | MoveAssign _ dst src => is_Some (objs st !! dst) /\ is_Some (objs st !! src)
  | Connect a | Ask a _ | Close a | Destroy a => is_Some (objs st !! a)
  end.

Inductive runs (st : Objects) : list client_op -> Objects -> Prop :=
| runs_nil : runs st [] st
| runs_cons op ops st' : legal op st -> runs (run_client_op op st) ops st' -> runs st (op :: ops) st'.

(** An open descriptor is one of [before] or belongs to exactly one object. *)
Definition owned (before : gset nat) (st : Objects) : Prop :=
  (forall a c fd, objs st !! a = Some c -> fd_ c = Some fd -> fd ∉ before) /\
  (forall a b c d fd, objs st !! a = Some c -> objs st !! b = Some d ->
     fd_ c = Some fd -> fd_ d = Some fd -> a = b) /\
  (forall fd, is_Some (n_open (shared_net st) !! fd) <->
     fd ∈ before \/ exists a c, objs st !! a = Some c /\ fd_ c = Some fd).

(** ** Lemmas *)

(** The descriptors an object leaves to the others. *)
Definition others_open (c : BrokerClient) (n : Net) : gmap nat Sock :=
  match fd_ c with None => n_open n | Some fd => delete fd (n_open n) end.

Lemma owned_owns before st a c :
  owned before st -> objs st !! a = Some c ->
  owns (others_open c (shared_net st)) (mkCW c (shared_net st)).
Proof.
  intros (_ & _ & Hopen) Ha. unfold owns, others_open. simpl.
  destruct (fd_ c) as [fd|] eqn:Hfd; [|done]. split; [apply lookup_delete_eq|].
  destruct (proj2 (Hopen fd)) as [sock Hsock]; [right; by eauto|].
  exists sock. by rewrite insert_delete_id.
Qed.

Lemma others_open_spec before st a c fd :
  owned before st -> objs st !! a = Some c ->
  is_Some (others_open c (shared_net st) !! fd) <->
    fd ∈ before \/ exists b d, b <> a /\ objs st !! b = Some d /\ fd_ d = Some fd.
Proof.
  intros (Hbefore & Huniq & Hopen) Ha. unfold others_open. destruct (fd_ c) as [fd0|] eqn:Hfd0.
  - rewrite lookup_delete_is_Some, Hopen. split.
    + intros [Hne [?|(b & d & Hb & Hd)]]; [by left|]. right. exists b, d.
      split_and!; [|done|done]. intros ->. congruence.
    + intros [Hin|(b & d & Hne & Hb & Hd)]; (split; [|eauto]).
      * intros <-. by apply (Hbefore a c fd0).
      * intros <-. by apply Hne, (Huniq b a d c fd0).
  - rewrite Hopen. split; [|naive_solver].
    intros [?|(b & d & Hb & Hd)]; [by left|]. right. exists b, d. split_and!; [|done|done].
    intros ->. congruence.
Qed.

(** A member function that keeps to its object's descriptor keeps the ownership. *)
Lemma owned_update before st a c s :
  owned before st -> objs st !! a = Some c -> owns (others_open c (shared_net st)) s ->
  owned before (mkObjects (<[a := client s]> (objs st)) (net s)).
Proof.
  intros How Ha Hs. pose proof (others_open_spec before st a c) as Hothers.
  pose proof How as (Hbefore & Huniq & _).
  assert (forall fd, fd_ (client s) = Some fd -> ~ (fd ∈ before \/ exists b d, b <> a /\
    objs st !! b = Some d /\ fd_ d = Some fd)) as Hfresh.
  { intros fd Hfd. unfold owns in Hs. rewrite Hfd in Hs. destruct Hs as [Hnone _].
    rewrite <-Hothers by done. rewrite Hnone. by intros [? ?]. }
  split_and!; simpl.
  - intros b d fd. rewrite lookup_insert_Some. intros [[-> <-]|[Hne Hb]] Hd; [|by eauto].
    intros Hin. apply (Hfresh fd Hd). by left.
  - intros b1 b2 d1 d2 fd. rewrite !lookup_insert_Some.
    intros [[-> <-]|[Hne1 Hb1]] [[-> <-]|[Hne2 Hb2]] H1 H2; [done|..|by eapply Huniq].
    + destruct (Hfresh fd H1). right. exists b2, d2. by split_and!.
    + destruct (Hfresh fd H2). right. exists b1, d1. by split_and!.
  - intros fd. assert (is_Some (n_open (net s) !! fd) <->
      is_Some (others_open c (shared_net st) !! fd) \/ fd_ (client s) = Some fd) as ->.
    { unfold owns in Hs. destruct (fd_ (client s)) as [fd0|].
      - destruct Hs as (_ & sock & ->). rewrite lookup_insert_is_Some. naive_solver.
      - rewrite Hs. naive_solver. }
    rewrite (Hothers fd How Ha). setoid_rewrite lookup_insert_Some. naive_solver.
Qed.

Lemma owned_run {A} before st a (m : M ClientWorld A) :
  keeps_own m -> owned before st -> is_Some (objs st !! a) -> owned before (on_object a m st).2.
Proof.
  intros Hm How [c Ha]. unfold on_object. rewrite Ha.
  pose proof (Hm _ _ (owned_owns before st a c How Ha)) as Hs.
  destruct (m (mkCW c (shared_net st))) as [r s]. by eapply owned_update.
Qed.

Lemma keeps_client_connect : keeps_own client_connect.
Proof.
  intros before s Hs. unfold client_connect. destruct (fd_ (client s)) as [fd|] eqn:Hfd.
  - unfold mbind, M_bind, gets. by rewrite Hfd.
  - assert (before = n_open (net s)) as -> by (unfold owns in Hs; by rewrite Hfd in Hs).
    destruct s as [[host port fd] n]. simpl in Hfd. subst fd. apply (connect_owns host port n).
Qed.

(** After its destructor or [close()] an object owns nothing. *)
Lemma on_object_close st a c :
  objs st !! a = Some c ->
  exists c', objs (on_object a (modify client_close) st).2 = <[a := c']> (objs st) /\
    fd_ c' = None.
Proof.
  intros Ha. unfold on_object. rewrite Ha. simpl. eexists. split; [done|].
  unfold client_close. simpl. by destruct (fd_ c) eqn:E.
Qed.

Lemma owned_drop before st a c :
  owned before st -> objs st !! a = Some c -> fd_ c = None ->
  owned before (mkObjects (delete a (objs st)) (shared_net st)).
Proof.
  intros (H1 & H2 & H3) Ha Hc. split_and!; simpl.
  - intros b d fd. rewrite lookup_delete_Some. intros [_ Hb]. by eapply H1.
  - intros b1 b2 d1 d2 fd. rewrite !lookup_delete_Some. intros [_ Hb1] [_ Hb2]. by eapply H2.
  - intros fd. rewrite H3. setoid_rewrite lookup_delete_Some. split; [|naive_solver].
    intros [?|(b & d & Hb & Hd)]; [by left|]. right. exists b, d. split_and!; [|done|done].
    intros <-. congruence.
Qed.

Lemma owned_move before moved st dst src other :
  owned before st -> objs st !! src = Some other -> dst <> src ->
  (forall d, objs st !! dst = Some d -> fd_ d = None) ->
  owned before (mkObjects (<[src := moved_from moved other]> (<[dst := other]> (objs st)))
    (shared_net st)).
Proof.
  intros (H1 & H2 & H3) Hsrc Hne Hdst.
  assert (forall a c fd, <[src := moved_from moved other]> (<[dst := other]> (objs st)) !! a = Some c ->
    fd_ c = Some fd -> exists a', (if decide (a = dst) then a' = src else a' = a) /\
      objs st !! a' = Some c) as Hback.
  { intros a c fd. rewrite lookup_insert_Some. intros [[<- <-]|[Hsa Ha]] Hfd; [done|].
    apply lookup_insert_Some in Ha as [[<- <-]|[Hda Ha]].
    - exists src. by rewrite decide_True.
    - exists a. by rewrite decide_False. }
  split_and!; simpl.
  - intros a c fd Ha Hfd. destruct (Hback a c fd Ha Hfd) as (a' & _ & Ha'). by eapply H1.
  - intros a b c d fd Ha Hb Hc Hd. destruct (Hback a c fd Ha Hc) as (a' & Hea & Ha').
    destruct (Hback b d fd Hb Hd) as (b' & Heb & Hb').
    pose proof (H2 a' b' c d fd Ha' Hb' Hc Hd) as Heq.
    assert (forall x y, <[src := moved_from moved other]> (<[dst := other]> (objs st)) !! x = Some y ->
      fd_ y = Some fd -> x <> src) as Hnsrc.
    { intros x y Hx Hy ->. rewrite lookup_insert_eq in Hx. by simplify_eq. }
    pose proof (Hnsrc a c Ha Hc). pose proof (Hnsrc b d Hb Hd).
    repeat case_decide; simplify_eq; done.
  - intros fd. rewrite H3. split; (intros [?|(a & c & Ha & Hfd)]; [by left|right]).
    + destruct (decide (a = src)) as [->|Hsa].
      * exists dst, other. rewrite lookup_insert_ne, lookup_insert_eq by done.
        split; [done|]. congruence.
      * exists a, c. rewrite lookup_insert_ne by done. split; [|done].
        rewrite lookup_insert_ne; [done|]. intros <-. specialize (Hdst c Ha). congruence.
    + destruct (Hback a c fd Ha Hfd) as (a' & _ & Ha'). by exists a', c.
Qed.

Lemma owned_op before st op :
  owned before st -> legal op st -> owned before (run_client_op op st).
Proof.
  intros How Hlegal.
  destruct op as [a host port|a|a payload|a|moved dst src|moved dst src|a]; simpl in *.
  - destruct How as (H1 & H2 & H3). split_and!; simpl.
    + intros b d fd [[_ <-]|[_ Hb]]%lookup_insert_Some Hd; [done|by eapply H1].
    + intros b1 b2 d1 d2 fd. rewrite !lookup_insert_Some.
      intros [[_ <-]|[_ Hb1]] [[_ <-]|[_ Hb2]] Hd1 Hd2; [done..|by eapply H2].
    + intros fd. rewrite H3. setoid_rewrite lookup_insert_Some. naive_solver congruence.
  - apply owned_run; [apply keeps_client_connect|done|done].
  - apply owned_run; [apply keeps_request|done|done].
  - apply owned_run; [apply keeps_close|done|done].
  - destruct Hlegal as [Hdst [other Hsrc]]. unfold move_construct. rewrite Hsrc. simpl.
    apply owned_move; [done|done|congruence|congruence].
  - destruct Hlegal as [[d Hdst] [other Hsrc]]. unfold move_assign.
    case_bool_decide as Heq; [done|].
    pose proof (owned_run before st dst _ keeps_close How (mk_is_Some _ _ Hdst)) as How1.
    destruct (on_object_close st dst d Hdst) as (d' & Hobjs & Hd').
    set (st1 := (on_object dst (modify client_close) st).2) in *.
    rewrite (bind_ret _ _ st tt st1) by (unfold st1, on_object; by rewrite Hdst).
    assert (objs st1 !! src = Some other) as Hsrc1 by (rewrite Hobjs; by rewrite lookup_insert_ne).
    unfold move_construct. rewrite Hsrc1. simpl. apply owned_move; [done..|].
    rewrite Hobjs, lookup_insert_eq. by intros ? [= <-].
  - destruct Hlegal as [c Ha]. unfold destroy.
    pose proof (owned_run before st a _ keeps_close How (mk_is_Some _ _ Ha)) as How1.
    destruct (on_object_close st a c Ha) as (c' & Hobjs & Hc').
    set (st1 := (on_object a (modify client_close) st).2) in *.
    rewrite (bind_ret _ _ st tt st1) by (unfold st1, on_object; by rewrite Ha).
    apply (owned_drop before st1 a c'); [done| |done]. rewrite Hobjs. apply lookup_insert_eq.
Qed.

(** ** Properties *)

(** C36. Whatever a program does with its clients, connections and requests that fail
    included, moves between objects and of an object into itself included, every open
    descriptor belongs to exactly one of them: none is leaked, none is closed twice, and
    when all are destroyed the descriptors are those from before. *)
Theorem clients_own_descriptors before st ops st' :
  owned before st -> runs st ops st' ->
  owned before st' /\
  (objs st' = ∅ -> forall fd, is_Some (n_open (shared_net st') !! fd) <-> fd ∈ before).
Proof.
  intros How Hruns. assert (owned before st') as How'.
  { induction Hruns as [|st op ops st' Hlegal _ IH]; [done|]. by apply IH, owned_op. }
  split; [done|]. intros Hempty fd. destruct How' as (_ & _ & Hopen). rewrite Hopen, Hempty.
  setoid_rewrite lookup_empty. naive_solver.
Qed.

(** *** Witness *)

(** A client connects and is moved twice, once into itself, before it is destroyed. *)
Definition demo_ops : list client_op :=
  [Construct 1 (lit "127.0.0.1") 9092; Connect 1; MoveAssign [] 1 1; MoveConstruct [] 2 1;
   Destroy 1; Destroy 2].

Definition demo_objects : Objects :=
  mkObjects ∅ (mkNet [SysOk 3; SysOk 1; SysOk 0] [demo_sock] ∅).

Lemma clients_own_descriptors_witness :
  exists st', runs demo_objects demo_ops st' /\ n_open (shared_net st') = ∅.
Proof.
  assert (runs demo_objects demo_ops (fold_left (fun st op => run_client_op op st) demo_ops
    demo_objects)) as Hruns.
  { repeat (apply runs_cons; [vm_compute; eauto|]); [..|apply runs_nil]. }
  assert (owned ∅ demo_objects) as How.
  { split_and!; simpl; [done|done|]. intros fd. rewrite lookup_empty. split; [by intros [? ?]|].
    intros [?|(a & c & Ha & _)]; [set_solver|done]. }
  eexists. split; [exact Hruns|]. apply map_eq. intros fd. rewrite lookup_empty.
  apply eq_None_not_Some. intros Hin.
  apply (proj2 (clients_own_descriptors _ _ _ _ How Hruns)) in Hin; [|vm_compute; reflexivity].
  by apply elem_of_empty in Hin.
Defined.
