(* ===== verification/Broker.v ===== *)
(** * The broker ([class Broker] of [src/broker.hpp], [src/broker.cpp])

    A handler is a computation on the broker's members, the operating system and the
    sessions with the follower.  What a handler did before it throws stays done: an
    exception of [TopicLog::append] in [PRODUCE] leaves the message in memory. *)

From S2P Require Import Prelude Text LogRecord Paths Posix TopicLog Framing Protocol Metrics.
From S2P Require Import Topics Groups Client.

(** ** Definitions *)

Inductive BrokerRole := LEADER | FOLLOWER.

#[export] Instance BrokerRole_eq_dec : EqDecision BrokerRole.
Proof. solve_decision. Defined.

(** The members; the mutexes are left to the atomicity of the operations. *)
Record Broker := mkBroker {
  topics_ : gmap bytes Topic;
  consumer_groups_ : Groups;
  replication_progress_ : gmap TopicPartition Z;
  metrics_ : Metrics;
  role_ : BrokerRole;
  follower_port_ : Z;
  data_dir_ : bytes
}.

(** [Broker() = default] with the member initializers. *)
Definition new_Broker : Broker := mkBroker ∅ ∅ ∅ new_Metrics LEADER (-1) (lit "data").

Definition set_topics (f : gmap bytes Topic -> gmap bytes Topic) (b : Broker) : Broker :=
  mkBroker (f (topics_ b)) (consumer_groups_ b) (replication_progress_ b) (metrics_ b)
    (role_ b) (follower_port_ b) (data_dir_ b).

Definition set_groups (gs : Groups) (b : Broker) : Broker :=
  mkBroker (topics_ b) gs (replication_progress_ b) (metrics_ b)
    (role_ b) (follower_port_ b) (data_dir_ b).

Definition set_progress (tp : TopicPartition) (offset : Z) (b : Broker) : Broker :=
  mkBroker (topics_ b) (consumer_groups_ b) (<[tp := offset]> (replication_progress_ b))
    (metrics_ b) (role_ b) (follower_port_ b) (data_dir_ b).

Definition set_metrics (f : Metrics -> Metrics) (b : Broker) : Broker :=
  mkBroker (topics_ b) (consumer_groups_ b) (replication_progress_ b) (f (metrics_ b))
    (role_ b) (follower_port_ b) (data_dir_ b).

Definition set_data_dir (dir : bytes) (b : Broker) : Broker :=
  mkBroker (topics_ b) (consumer_groups_ b) (replication_progress_ b) (metrics_ b)
    (role_ b) (follower_port_ b) dir.

Definition configure (role : BrokerRole) (follower_port : Z) (b : Broker) : Broker :=
  mkBroker (topics_ b) (consumer_groups_ b) (replication_progress_ b) (metrics_ b)
    role follower_port (data_dir_ b).

Definition promote_to_leader (b : Broker) : Broker := configure LEADER (-1) b.

Definition get_replication_progress (topic : bytes) (partition : Z) (b : Broker) : option Z :=
  replication_progress_ b !! mkTP topic partition.

Definition get_metrics_snapshot (b : Broker) : MetricsSnapshot := snapshot (metrics_ b).

(** [messages.size()]. *)
Definition size (messages : list bytes) : Z := Z.of_nat (length messages).

Definition get_missing_records (topic : bytes) (partition : Z) (progress : option Z)
    (b : Broker) : list bytes :=
  match topics_ b !! topic with
  | None => []
  | Some t =>
      if bad_partition t partition then [] else
      let messages := messages_of t partition in
      if bool_decide (messages = []) then [] else
      match progress with
      | None => messages
      | Some p =>
          if (size messages - 1 <=? p)%Z then [] else drop (Z.to_nat (u64 (p + 1))) messages
      end
  end.

(** The response of a request and whether it counts as a success. *)
Definition reply : Type := bytes * bool.

Definition error : reply := (lit "ERROR", false).

Definition ok : reply := (lit "OK", true).

Definition handle_replication_progress (req : Request) (b : Broker) : reply :=
  if negb (bool_decide (role_ b = FOLLOWER)) then error else
  match get_replication_progress (r_topic req) (r_partition req) b with
  | Some progress => (to_string progress, true)
  | None => (lit "NONE", true)
  end.

Definition handle_fetch (req : Request) (topics : gmap bytes Topic) : reply :=
  match topics !! r_topic req with
  | None => error
  | Some topic =>
      if bad_partition topic (r_partition req) then error else
      let messages := messages_of topic (r_partition req) in
      if (size messages <=? r_offset req)%Z then ([], true)
      else (join_lines (drop (Z.to_nat (r_offset req)) messages), true)
  end.

Record World (P : Type) := mkWorld { broker : Broker; os : OS; peer : P }.
Arguments mkWorld {P} broker os peer.
Arguments broker {P} w.
Arguments os {P} w.
Arguments peer {P} w.

Section handlers.
Context {P : Type} `{Peer P} {order : IterOrder}.

Definition on_broker (f : Broker -> Broker) (w : World P) : World P :=
  mkWorld (f (broker w)) (os w) (peer w).

Definition on_os {A} : M OS A -> M (World P) A :=
  zoom os (fun o w => mkWorld (broker w) o (peer w)).

Definition on_peer {A} : M P A -> M (World P) A :=
  zoom peer (fun p w => mkWorld (broker w) (os w) p).

(** The loop over the missing records, from [index] on. *)
Fixpoint send_missing (topic : bytes) (partition first index : Z) (records : list bytes)
    : M P bool :=
  match records with
  | [] => mret true
  | record :: records =>
      response ← peer_request (replicate_line topic partition (u64 (first + index)) record);
      if bool_decide (response = lit "OK")
      then send_missing topic partition first (index + 1) records
      else mret false
  end.

Definition catch_up_follower (topic : bytes) (partition : Z) (progress : option Z)
    : M (World P) bool :=
  b ← gets broker;
  if negb (bool_decide (role_ b = LEADER)) then mret false else
  let missing_records := get_missing_records topic partition progress b in
  if bool_decide (missing_records = []) then mret true else
  if (follower_port_ b <=? 0)%Z then mret false else
  let first_missing_offset :=
    match progress with Some p => u64 (p + 1) | None => 0%Z end in
  try_catch
    (on_peer (session (follower_port_ b)
       (send_missing topic partition first_missing_offset 0 missing_records)))
    (mret false).

(** What the follower answered, as a progress. *)
Definition parse_progress (response : bytes) : M P (option Z) :=
  if bool_decide (response = lit "NONE") then mret None else
  match stoull response with
  | inl e => throw e
  | inr (progress, parsed_length) =>
      if negb (parsed_length =? blen response)%Z then throw runtime_error
      else mret (Some progress)
  end.

Definition query_follower_progress (topic : bytes) (partition : Z)
    : M (World P) (option Z) :=
  b ← gets broker;
  on_peer (session (follower_port_ b)
    (response ← peer_request (progress_line topic partition); parse_progress response)).

(** The partitions that hold messages, topic by topic. *)
Definition nonempty_partitions (topics : gmap bytes Topic) : list TopicPartition :=
  concat (map (fun entry =>
      map (fun part => mkTP entry.1 (p_id part))
        (filter (fun part => messages part <> []) (partitions entry.2)))
    (iter topics)).

(** The loop over the partitions, left on the first failure. *)
Fixpoint synchronize_partitions (tps : list TopicPartition) : M (World P) bool :=
  match tps with
  | [] => mret true
  | tp :: tps =>
      caught_up ← try_catch
        (progress ← query_follower_progress (tp_topic tp) (tp_partition tp);
         catch_up_follower (tp_topic tp) (tp_partition tp) progress)
        (mret false);
      if (caught_up : bool) then synchronize_partitions tps else mret false
  end.

Definition synchronize_follower : M (World P) bool :=
  b ← gets broker;
  if negb (bool_decide (role_ b = LEADER)) || (follower_port_ b <=? 0)%Z then mret false
  else synchronize_partitions (nonempty_partitions (topics_ b)).

(** [role_ == BrokerRole::LEADER && follower_port_ > 0]. *)
Definition replicates (b : Broker) : bool :=
  bool_decide (role_ b = LEADER) && (0 <? follower_port_ b)%Z.

(** [TopicLog log(topic, partition, data_dir_); log.append(Record{payload});] *)
Definition persist (req : Request) : M (World P) unit :=
  b ← gets broker;
  on_os (log ← new_TopicLog (r_topic req) (r_partition req) (data_dir_ b);
         append log (mkRecord (r_payload req))).

(** The topic of a request, created when it is absent. *)
Definition get_topic (name : bytes) : M (World P) Topic :=
  _ ← modify (on_broker (set_topics (find_or_create name)));
  gets (fun w => default (new_Topic name) (topics_ (broker w) !! name)).

Definition push (req : Request) (topic : Topic) : M (World P) unit :=
  modify (on_broker (set_topics
    (insert (r_topic req) (push_message (r_partition req) (r_payload req) topic)))).

(** The forwarding of a produced message to the follower: its response, [None] after an
    exception. *)
Definition forward (req : Request) (offset : Z) : M (World P) (option bytes) :=
  b ← gets broker;
  try_catch
    (response ← on_peer (session (follower_port_ b)
       (peer_request (replicate_line (r_topic req) (r_partition req) offset (r_payload req))));
     mret (Some response))
    (mret None).

(** What a PRODUCE does while it holds [topics_mutex_]. *)
Definition produce_locked (req : Request) : M (World P) reply :=
  topic ← get_topic (r_topic req);
  if bad_partition topic (r_partition req) then mret error else
  let offset := size (messages_of topic (r_partition req)) in
  _ ← push req topic;
  _ ← persist req;
  b ← gets broker;
  if replicates b then
    response ← forward req offset;
    mret (if bool_decide (response = Some (lit "OK")) then ok else error)
  else mret ok.

Definition handle_produce (req : Request) : M (World P) reply :=
  b ← gets broker;
  _ ← (if replicates b then synchronize_follower else mret true);
  produce_locked req.

Definition handle_replicate (req : Request) : M (World P) reply :=
  b ← gets broker;
  if negb (bool_decide (role_ b = FOLLOWER)) then mret error else
  topic ← get_topic (r_topic req);
  if bad_partition topic (r_partition req) then mret error else
  persisted ← try_catch (_ ← persist req; mret true) (mret false);
  if (persisted : bool) then
    _ ← modify (on_broker (set_progress (mkTP (r_topic req) (r_partition req)) (r_offset req)));
    _ ← push req topic;
    mret ok
  else mret error.

(** The operations of the groups, under their own mutex. *)
Definition with_groups (f : Broker -> bytes * Groups) (good : bytes -> bool)
    : M (World P) reply :=
  b ← gets broker;
  let (response, groups) := f b in
  _ ← modify (on_broker (set_groups groups));
  mret (response, good response).

Definition is_OK (response : bytes) : bool := bool_decide (response = lit "OK").

Definition not_ERROR (response : bytes) : bool := bool_decide (response <> lit "ERROR").

(** The [switch]. *)
Definition dispatch (req : Request) : M (World P) reply :=
  match r_type req with
  | PING => mret (lit "PONG", true)
  | METRICS => gets (fun w => (to_csv_row (metrics_ (broker w)), true))
  | REPLICATION_PROGRESS => gets (fun w => handle_replication_progress req (broker w))
  | PRODUCE => handle_produce req
  | REPLICATE => handle_replicate req
  | FETCH => gets (fun w => handle_fetch req (topics_ (broker w)))
  | JOIN => with_groups (fun b => join_group req (consumer_groups_ b)) is_OK
  | LEAVE => with_groups (fun b => leave_group req (consumer_groups_ b)) is_OK
  | GROUP_POLL =>
      with_groups (fun b => (group_poll req (consumer_groups_ b), consumer_groups_ b)) not_ERROR
  | COMMIT =>
      with_groups (fun b => commit_offset (topics_ b) req (consumer_groups_ b)) is_OK
  | INVALID => mret error
  end.

Definition request_bytes (req : Request) : Z :=
  u64 (blen (r_topic req) + blen (r_group_id req) + blen (r_consumer_id req) +
       blen (r_payload req) + 32).

(** [elapsed] is what the steady clock measures over the request, in nanoseconds. *)
Definition handle_request (elapsed : Z) (req : Request) : M (World P) bytes :=
  r ← dispatch req;
  _ ← modify (on_broker (set_metrics
        (record_request (r_type req) r.2 (request_bytes req) elapsed)));
  mret r.1.

(** [remove_consumer_from_group], on the broker. *)
Definition remove_consumer (gid cid : bytes) (b : Broker) : Broker :=
  set_groups (remove_consumer_from_group gid cid (consumer_groups_ b)) b.

End handlers.

(** *** Specification *)

(** What a client can observe of a partition, and the file that keeps it. *)
Definition view {P} (w : World P) (tp : TopicPartition) : list bytes :=
  log_view (topics_ (broker w)) tp.

Definition log_file {P} (w : World P) (tp : TopicPartition) : Path :=
  log_at (data_dir_ (broker w)) (tp_topic tp) (tp_partition tp).

Definition target (req : Request) : TopicPartition := mkTP (r_topic req) (r_partition req).

(** A partition number is an [int]. *)
Definition is_tp (tp : TopicPartition) : Prop := is_int (tp_partition tp).

(** A log whose records and size the format can hold. *)
Definition log_fits (ms : list bytes) : Prop :=
  Forall record_ok (map mkRecord ms) /\ is_u64 (blen (log_bytes (map mkRecord ms))).

(** A partition with a file of its own. *)
Definition stored (tp : TopicPartition) : Prop := is_tp tp /\ normal (tp_topic tp).

(** The file of a partition holds its messages, all of them on disk. *)
Definition disk_at {P} (w : World P) (tp : TopicPartition) : Prop :=
  let data := log_bytes (map mkRecord (view w tp)) in
  file_at (files (os w)) (log_file w tp) = mkFile data (length data).

Definition disk_ok {P} (w : World P) : Prop :=
  dir_ok (data_dir_ (broker w)) /\ forall tp, stored tp -> disk_at w tp.

(** The messages a restart finds in a file. *)
Definition recovered (f : file) : list bytes := map payload (scan (content f)).1.

Definition appends (req : Request) : Prop := r_type req = PRODUCE \/ r_type req = REPLICATE.

(** A request that appends does so to a log with a file of its own. *)
Definition names_log (req : Request) : Prop := appends req -> normal (r_topic req).

(** A request whose [append] may have failed. *)
Definition failed_append (req : Request) (o : outcome bytes) : Prop :=
  appends req /\
  match o with Ret r => r_type req = REPLICATE /\ r <> lit "OK" | _ => True end.

(** What a request does to the logs, in memory and on disk: nothing; or one message more
    in its partition, with what [append] did to its file; or, for a REPLICATE whose
    [append] failed, that alone. *)
Inductive log_effect {P} (req : Request) (w : World P) (o : outcome bytes) (w' : World P)
    : Prop :=
| log_unchanged :
    (forall tp, view w' tp = view w tp) -> files (os w') = files (os w) ->
    (appends req -> o <> Ret (lit "OK")) -> log_effect req w o w'
| log_appended oa :
    appends req -> is_tp (target req) ->
    (forall tp, view w' tp = if decide (tp = target req) then view w tp ++ [r_payload req]
                             else view w tp) ->
    append_effect (log_file w (target req)) (serialize_record (mkRecord (r_payload req)))
      oa (files (os w)) (files (os w')) ->
    ((exists r, o = Ret r) -> oa = Ret tt) -> log_effect req w o w'
| log_torn oa :
    is_tp (target req) -> r_type req = REPLICATE -> (forall tp, view w' tp = view w tp) ->
    append_effect (log_file w (target req)) (serialize_record (mkRecord (r_payload req)))
      oa (files (os w)) (files (os w')) ->
    o <> Ret (lit "OK") -> log_effect req w o w'.

(** ** Lemmas *)

Section frames.
Context {P : Type} `{Peer P} {order : IterOrder}.

Implicit Types w : World P.

(** Talking to the follower changes neither the broker nor its files. *)
Definition quiet {A} (m : M (World P) A) : Prop :=
  forall w, broker (m w).2 = broker w /\ os (m w).2 = os w.

Lemma quiet_bind {A B} (m : M (World P) A) (k : A -> M (World P) B) :
  quiet m -> (forall a, quiet (k a)) -> quiet (m ≫= k).
Proof.
  intros Hm Hk w. destruct (Hm w) as [H1 H2]. unfold mbind, M_bind.
  destruct (m w) as [[a|e|] w1]; simpl in *; [|done|done].
  destruct (Hk a w1). split; congruence.
Qed.

Lemma quiet_try {A} (m h : M (World P) A) : quiet m -> quiet h -> quiet (try_catch m h).
Proof.
  intros Hm Hh w. destruct (Hm w) as [H1 H2]. unfold try_catch.
  destruct (m w) as [[a|e|] w1]; simpl in *; [done| |done].
  destruct (Hh w1). split; congruence.
Qed.

Lemma quiet_ret {A} (a : A) : quiet (mret a).
Proof. done. Qed.

Lemma quiet_gets {A} (f : World P -> A) : quiet (gets f).
Proof. done. Qed.

Lemma quiet_on_peer {A} (m : M P A) : quiet (on_peer m).
Proof. intros w. unfold on_peer, zoom. by destruct (m (peer w)). Qed.

Create HintDb quiet.

#[local] Hint Resolve quiet_bind quiet_try quiet_ret quiet_gets quiet_on_peer : quiet.

Lemma quiet_catch_up topic p progress : quiet (catch_up_follower topic p progress).
Proof.
  apply quiet_bind; [auto with quiet|]. intros b.
  destruct (negb _); [auto with quiet|]. cbv zeta. destruct (bool_decide _); [done|].
  destruct (_ <=? _)%Z; auto with quiet.
Qed.

Lemma quiet_synchronize_partitions tps : quiet (synchronize_partitions tps).
Proof.
  induction tps as [|tp tps IH]; [done|]. apply quiet_bind.
  - apply quiet_try; [|done]. apply quiet_bind; [|intros; apply quiet_catch_up].
    apply quiet_bind; auto with quiet.
  - intros []; auto with quiet.
Qed.

Lemma quiet_synchronize : quiet synchronize_follower.
Proof.
  apply quiet_bind; [done|]. intros b.
  destruct (_ || _); [done|apply quiet_synchronize_partitions].
Qed.

Lemma quiet_forward req offset : quiet (forward req offset).
Proof. apply quiet_bind; auto with quiet. Qed.

(** *** Views *)

Lemma view_on_broker f w tp :
  view (on_broker f w) tp = log_view (topics_ (f (broker w))) tp.
Proof. done. Qed.

(** The topic a handler works on is in the map. *)
Lemma get_topic_run name w :
  exists topic, let w1 := on_broker (set_topics (find_or_create name)) w in
  get_topic name w = (Ret topic, w1) /\ topics_ (broker w1) !! name = Some topic.
Proof.
  destruct (find_or_create_lookup name (topics_ (broker w))) as (topic & Ht & _).
  exists topic. split; [|done]. unfold get_topic, mbind, M_bind, modify, gets. simpl.
  by rewrite Ht.
Qed.

Lemma persist_effect req w :
  broker (persist req w).2 = broker w /\ peer (persist req w).2 = peer w /\
  append_effect (log_file w (target req)) (serialize_record (mkRecord (r_payload req)))
    (persist req w).1 (files (os w)) (files (os (persist req w).2)).
Proof.
  unfold persist, on_os, zoom, mbind, M_bind, gets, new_TopicLog, throw, mret, M_ret.
  case_bool_decide; [split_and!; [done..|]; by left|].
  destruct (_ <? _)%Z; [split_and!; [done..|]; by left|].
  pose proof (append_spec (mkTopicLog (r_topic req) (r_partition req) (data_dir_ (broker w))
    (log_path_of (data_dir_ (broker w)) (r_topic req) (r_partition req)))
    (mkRecord (r_payload req)) (os w)) as Heff.
  unfold file_of in Heff. unfold log_file, log_at, target in *; simpl in *.
  destruct (append _ _ _) as [o os']. simpl in *. done.
Qed.

Lemma persist_mkdir_error req w rs :
  script (os w) = SysErr :: rs -> r_topic req <> [] -> (0 <= r_partition req)%Z ->
  persist req w = (Throw runtime_error, mkWorld (broker w) (mkOS rs (files (os w))) (peer w)).
Proof.
  intros Hs Hne Hp. unfold persist, on_os, zoom, mbind, M_bind, gets, new_TopicLog.
  rewrite bool_decide_eq_false_2, (proj2 (Z.ltb_ge _ _)) by done.
  destruct w as [b [scr fs] p]. simpl in *. by subst scr.
Qed.

Lemma good_target req topic :
  (r_partition req <= INT_MAX)%Z -> bad_partition topic (r_partition req) = false ->
  is_tp (target req).
Proof. intros Hp Hb%bad_partition_false. unfold is_tp, is_int; simpl. lia. Qed.

(** *** Effects on the logs *)

Lemma view_get_topic name w tp :
  view (on_broker (set_topics (find_or_create name)) w) tp = view w tp.
Proof. apply log_view_find_or_create. Qed.

Lemma view_push req topic w tp :
  topics_ (broker w) !! r_topic req = Some topic ->
  bad_partition topic (r_partition req) = false ->
  view (on_broker (set_topics
    (insert (r_topic req) (push_message (r_partition req) (r_payload req) topic))) w) tp =
  if decide (tp = target req) then view w tp ++ [r_payload req] else view w tp.
Proof. intros Ht Hp. by apply log_view_push. Qed.

(** Only the views, the directory and the files of the first state matter. *)
Lemma log_effect_from req w w1 o w' :
  (forall tp, view w1 tp = view w tp) -> data_dir_ (broker w1) = data_dir_ (broker w) ->
  files (os w1) = files (os w) -> log_effect req w1 o w' -> log_effect req w o w'.
Proof.
  intros Hv Hd Hf Heff.
  assert (log_file w1 (target req) = log_file w (target req)) as Hl
    by (unfold log_file; by rewrite Hd).
  destruct Heff as [H1 H2 H3|oa H0 H1 H2 H3 H4|oa H1 H2 H3 H4 H5];
    [apply log_unchanged|apply (log_appended _ _ _ _ oa)|apply (log_torn _ _ _ _ oa)];
    rewrite <-?Hf, <-?Hl; try done.
  - intros tp. by rewrite H1.
  - intros tp. rewrite H2. by rewrite Hv.
  - intros tp. by rewrite H3.
Qed.

Lemma log_unchanged_quiet req w o w' :
  broker w' = broker w -> os w' = os w -> (appends req -> o <> Ret (lit "OK")) ->
  log_effect req w o w'.
Proof.
  intros Hb Ho H1. apply log_unchanged; [|by rewrite Ho|done].
  intros tp. unfold view. by rewrite Hb.
Qed.

Lemma not_ret_map {A} (o : outcome reply) (a : A) (f : reply -> A) :
  (forall r, o <> Ret r) -> outcome_map f o <> Ret a.
Proof. intros Ho. destruct o as [r| |]; [by destruct (Ho r)|done..]. Qed.

Lemma push_persist_effect req topic (k : M (World P) reply) w o w' :
  appends req ->
  topics_ (broker w) !! r_topic req = Some topic ->
  bad_partition topic (r_partition req) = false -> (r_partition req <= INT_MAX)%Z ->
  quiet k -> (_ ← push req topic; _ ← persist req; k) w = (o, w') ->
  log_effect req w (outcome_map fst o) w'.
Proof.
  intros Happ Ht Hbad Hint Hk Hrun.
  unfold mbind at 1, M_bind at 1, push, modify in Hrun. set (w2 := on_broker _ w) in *.
  destruct (persist_effect req w2) as (Hb3 & _ & Heff).
  assert (Hv2 : forall tp, view w2 tp = if decide (tp = target req)
    then view w tp ++ [r_payload req] else view w tp) by (intros tp; by apply view_push).
  assert (is_tp (target req)) by (by eapply good_target).
  apply bind_inv in Hrun as [([] & w3 & Hper & Hrun)|(o1 & Hper & Hne & Ho)];
    rewrite Hper in Heff, Hb3; simpl in Hb3, Heff.
  2: { eapply log_appended; [done|done| |exact Heff|].
    - intros tp. rewrite <-Hv2. unfold view. by rewrite Hb3.
    - intros [r Hr]. by apply not_ret_map in Hr. }
  destruct (Hk w3) as [Hb4 Ho4]. rewrite Hrun in Hb4, Ho4. simpl in Hb4, Ho4.
  apply (log_appended _ _ _ _ (Ret tt)); [done|done| |by rewrite Ho4|done].
  intros tp. rewrite <-Hv2. unfold view. by rewrite Hb4, Hb3.
Qed.

Lemma quiet_forwarding req offset :
  quiet (b ← gets broker;
         if replicates b then
           response ← forward req offset;
           mret (if bool_decide (response = Some (lit "OK")) then ok else error)
         else mret ok).
Proof.
  apply quiet_bind; [done|]. intros b. destruct (replicates b); [|done].
  apply quiet_bind; [apply quiet_forward|done].
Qed.

Lemma quiet_synchronizing :
  quiet (b ← gets broker; if replicates b then synchronize_follower else mret true).
Proof.
  apply quiet_bind; [done|]. intros b. destruct (replicates b); [apply quiet_synchronize|done].
Qed.

Lemma produce_locked_effect req w o w' :
  r_type req = PRODUCE ->
  (r_partition req <= INT_MAX)%Z -> produce_locked req w = (o, w') ->
  log_effect req w (outcome_map fst o) w'.
Proof.
  intros Hty Hint Hrun. unfold produce_locked in Hrun.
  destruct (get_topic_run (r_topic req) w) as (topic & Hget & Ht).
  rewrite (bind_ret _ _ _ _ _ Hget) in Hrun. set (w1 := on_broker _ w) in *.
  apply (log_effect_from _ _ w1); [intros tp; apply view_get_topic|done..|].
  destruct (bad_partition topic _) eqn:Hbad.
  { injection Hrun as <- <-. by apply log_unchanged. }
  eapply push_persist_effect; [by left|done..|apply quiet_forwarding|exact Hrun].
Qed.

(** [handle_produce] in its two parts. *)
Lemma produce_split req w :
  handle_produce req w =
  (_ ← (b ← gets broker; if replicates b then synchronize_follower else mret true);
   produce_locked req) w.
Proof. done. Qed.

Lemma produce_effect req w o w' :
  r_type req = PRODUCE ->
  (r_partition req <= INT_MAX)%Z -> handle_produce req w = (o, w') ->
  log_effect req w (outcome_map fst o) w'.
Proof.
  intros Hty Hint Hrun. rewrite produce_split in Hrun.
  destruct (quiet_synchronizing w) as [Hb0 Ho0].
  apply bind_inv in Hrun as [(x & w0 & Hsync & Hrun)|(o1 & Hsync & _ & Ho)];
    rewrite Hsync in Hb0, Ho0; cbn [snd] in Hb0, Ho0.
  - apply produce_locked_effect in Hrun; [|done..].
    apply (log_effect_from _ _ w0); [intros tp; unfold view|..|done]; by rewrite ?Hb0, ?Ho0.
  - apply log_unchanged_quiet; [done..|]. intros _. by apply not_ret_map.
Qed.

Lemma replicate_effect req w o w' :
  r_type req = REPLICATE ->
  (r_partition req <= INT_MAX)%Z -> handle_replicate req w = (o, w') ->
  log_effect req w (outcome_map fst o) w'.
Proof.
  intros Hty Hint Hrun. unfold handle_replicate in Hrun.
  unfold mbind at 1, M_bind at 1, gets in Hrun.
  destruct (negb _); [injection Hrun as <- <-; by apply log_unchanged_quiet|].
  destruct (get_topic_run (r_topic req) w) as (topic & Hget & Ht).
  unfold mbind at 1, M_bind at 1 in Hrun. rewrite Hget in Hrun.
  set (w1 := on_broker _ w) in *.
  apply (log_effect_from _ _ w1); [intros tp; apply view_get_topic|done..|].
  destruct (bad_partition topic _) eqn:Hbad.
  { injection Hrun as <- <-. by apply log_unchanged. }
  assert (is_tp (target req)) by (by eapply good_target).
  destruct (persist_effect req w1) as (Hb2 & _ & Heff).
  unfold mbind at 1, M_bind at 1, try_catch in Hrun.
  unfold mbind at 1, M_bind at 1 in Hrun.
  destruct (persist req w1) as [[[]|e|] w2] eqn:Hper; simpl in Hb2, Heff; simpl in Hrun.
  - injection Hrun as <- <-. apply (log_appended _ _ _ _ (Ret tt)); [by right|done| |done|done].
    intros tp. rewrite <-(view_push req topic w1) by done. unfold view; simpl. by rewrite Hb2.
  - injection Hrun as <- <-. eapply log_torn; [done|done| |exact Heff|done].
    intros tp. unfold view. by rewrite Hb2.
  - injection Hrun as <- <-. eapply log_torn; [done|done| |exact Heff|done].
    intros tp. unfold view. by rewrite Hb2.
Qed.

Lemma dispatch_effect req w o w' :
  (r_partition req <= INT_MAX)%Z -> dispatch req w = (o, w') ->
  log_effect req w (outcome_map fst o) w'.
Proof.
  intros Hint Hrun. unfold dispatch in Hrun.
  assert (Hrest : ~ appends req -> topics_ (broker w') = topics_ (broker w) -> os w' = os w ->
    log_effect req w (outcome_map fst o) w').
  { intros Hna Ht Ho. apply log_unchanged; [|by rewrite Ho|done].
    intros tp. unfold view. by rewrite Ht. }
  unfold appends in Hrest. destruct (r_type req) eqn:Hty;
    try (by apply produce_effect in Hrun); try (by apply replicate_effect in Hrun);
    try (injection Hrun as <- <-; apply Hrest; [intros []|..]; done);
    unfold with_groups, mbind, M_bind, gets, modify in Hrun;
    try destruct (join_group _ _); try destruct (leave_group _ _);
    try destruct (commit_offset _ _ _);
    injection Hrun as <- <-; (apply Hrest; [intros []|..]; done).
Qed.

Lemma handle_request_effect elapsed req w o w' :
  (r_partition req <= INT_MAX)%Z -> handle_request elapsed req w = (o, w') ->
  log_effect req w o w'.
Proof.
  intros Hint Hrun. unfold handle_request in Hrun.
  apply bind_inv in Hrun as [(r & w1 & Hd & Hrun)|(o1 & Hd & Hne & Hno)];
    apply dispatch_effect in Hd; [|done| |done].
  - injection Hrun as <- <-. destruct Hd as [H1 H2 H3|oa H0 H1 H2 H3 H4|oa H1 H2 H3 H4 H5];
      [apply log_unchanged|apply (log_appended _ _ _ _ oa)|apply (log_torn _ _ _ _ oa)];
      done.
  - destruct o1 as [r|e|]; [by destruct (Hne r)|..];
      destruct Hd as [H1 H2 H3|oa H0 H1 H2 H3 H4|oa H1 H2 H3 H4 H5];
      [apply log_unchanged|apply (log_appended _ _ _ _ oa)|apply (log_torn _ _ _ _ oa)
      |apply log_unchanged|apply (log_appended _ _ _ _ oa)|apply (log_torn _ _ _ _ oa)];
      try done; try (by intros _); try (intros [r Hr]; by destruct (Hno r)).
Qed.

(** *** The state stays well formed *)

Definition broker_ok (b : Broker) : Prop :=
  topics_ok (topics_ b) /\ groups_ok (consumer_groups_ b).

(** [m] preserves what [I] says of the broker, however it ends. *)
Definition preserves (I : Broker -> Prop) {A} (m : M (World P) A) : Prop :=
  forall w, I (broker w) -> I (broker (m w).2).

Abbreviation keeps_ok := (preserves broker_ok).

Lemma preserves_bind I {A B} (m : M (World P) A) (k : A -> M (World P) B) :
  preserves I m -> (forall a, preserves I (k a)) -> preserves I (m ≫= k).
Proof.
  intros Hm Hk w Hw. apply Hm in Hw. unfold mbind, M_bind.
  destruct (m w) as [[a|e|] w1]; simpl in *; [by apply Hk|done|done].
Qed.

Lemma preserves_try I {A} (m h : M (World P) A) :
  preserves I m -> preserves I h -> preserves I (try_catch m h).
Proof.
  intros Hm Hh w Hw. apply Hm in Hw. unfold try_catch.
  destruct (m w) as [[a|e|] w1]; simpl in *; [done|by apply Hh|done].
Qed.

Lemma preserves_quiet I {A} (m : M (World P) A) : quiet m -> preserves I m.
Proof. intros Hm w. by destruct (Hm w) as [-> _]. Qed.

Lemma preserves_ret I {A} (a : A) : preserves I (mret a).
Proof. by intros w. Qed.

Lemma preserves_gets I {A} (f : World P -> A) : preserves I (gets f).
Proof. by intros w. Qed.

#[local] Hint Resolve preserves_ret preserves_gets : core.

Lemma preserves_modify (I : Broker -> Prop) f :
  (forall b, I b -> I (f b)) -> preserves I (modify (on_broker f)).
Proof. intros Hf w Hw. by apply Hf. Qed.

Lemma preserves_persist I req : preserves I (persist req).
Proof. intros w Hw. by destruct (persist_effect req w) as [-> _]. Qed.

Lemma keeps_ok_get_topic name : keeps_ok (get_topic name).
Proof.
  intros w [Ht Hg]. destruct (get_topic_run name w) as (topic & -> & _).
  split; [by apply find_or_create_ok|done].
Qed.

(** Pushing into the topic [get_topic] gave. *)
Lemma keeps_ok_with_topic {A} req (k : Topic -> M (World P) A) :
  (forall topic w, broker_ok (broker w) -> topic_ok (r_topic req) topic ->
     broker_ok (broker (k topic w).2)) ->
  keeps_ok (topic ← get_topic (r_topic req); k topic).
Proof.
  intros Hk w Hw. unfold mbind, M_bind.
  pose proof (keeps_ok_get_topic (r_topic req) w Hw) as Hw1.
  destruct (get_topic_run (r_topic req) w) as (topic & Hget & Ht). rewrite Hget in Hw1 |- *.
  apply Hk; [done|]. destruct Hw1 as [Hok _]. by eapply Hok.
Qed.

Lemma push_ok req topic w :
  broker_ok (broker w) -> topic_ok (r_topic req) topic ->
  broker_ok (broker (push req topic w).2).
Proof.
  intros [Ht Hg] Hok. split; [|done]. apply map_Forall_insert_2; [|done].
  by apply topic_ok_push.
Qed.

Lemma keeps_ok_produce_locked req : keeps_ok (produce_locked req).
Proof.
  apply keeps_ok_with_topic. intros topic w Hw Ht.
  destruct (bad_partition _ _); [done|]. cbv zeta. unfold mbind at 1, M_bind at 1.
  refine ((_ : keeps_ok _) _ (push_ok req topic w Hw Ht)).
  apply preserves_bind; [apply preserves_persist|]. intros [].
  apply preserves_quiet, quiet_forwarding.
Qed.

Lemma keeps_ok_produce req : keeps_ok (handle_produce req).
Proof.
  intros w. rewrite produce_split.
  apply preserves_bind; [apply preserves_quiet, quiet_synchronizing|].
  intros _. apply keeps_ok_produce_locked.
Qed.

Lemma keeps_ok_replicate req : keeps_ok (handle_replicate req).
Proof.
  apply preserves_bind; [by apply preserves_quiet|]. intros b.
  destruct (negb _); [auto|]. apply keeps_ok_with_topic. intros topic w Hw Ht.
  destruct (bad_partition _ _); [done|].
  assert (keeps_ok (try_catch (_ ← persist req; mret true) (mret false))) as Hp.
  { apply preserves_try; [|done]. apply preserves_bind; [apply preserves_persist|done]. }
  apply Hp in Hw. unfold mbind at 1, M_bind at 1.
  destruct (try_catch _ _ w) as [[[]|e|] w1]; try done.
  apply (push_ok req topic (on_broker (set_progress
    (mkTP (r_topic req) (r_partition req)) (r_offset req)) w1)); done.
Qed.

Lemma keeps_ok_groups f good :
  (forall b, broker_ok b -> groups_ok (f b).2) -> keeps_ok (with_groups f good).
Proof.
  intros Hf w Hw. unfold with_groups, mbind, M_bind, gets, modify.
  pose proof (Hf _ Hw) as Hg. destruct (f (broker w)) as [r gs]. split; [apply Hw|done].
Qed.

Lemma keeps_ok_dispatch req : is_u64 (r_offset req) -> keeps_ok (dispatch req).
Proof.
  intros Hoff. unfold dispatch. destruct (r_type req); auto.
  - apply keeps_ok_produce.
  - apply keeps_ok_groups. intros b [_ Hg]. by apply (run_op_ok _ (Join req)).
  - apply keeps_ok_groups. intros b [_ Hg]. by apply (run_op_ok _ (Leave req)).
  - apply keeps_ok_groups. by intros b [_ Hg].
  - apply keeps_ok_groups. intros b [_ Hg]. by apply (run_op_ok _ (Commit (topics_ b) req)).
  - apply keeps_ok_replicate.
Qed.

Lemma keeps_ok_handle_request elapsed req :
  is_u64 (r_offset req) -> keeps_ok (handle_request elapsed req).
Proof.
  intros Hoff. apply preserves_bind; [by apply keeps_ok_dispatch|]. intros r.
  apply preserves_bind; [|auto]. by apply preserves_modify.
Qed.

(** A PRODUCE whose directory cannot be made. *)
Lemma produce_mkdir_error elapsed req w rs :
  topics_ok (topics_ (broker w)) -> replicates (broker w) = false ->
  r_type req = PRODUCE -> (0 <= r_partition req < 3)%Z -> r_topic req <> [] ->
  script (os w) = SysErr :: rs ->
  exists b, let w' := mkWorld b (mkOS rs (files (os w))) (peer w) in
    handle_request elapsed req w = (Throw runtime_error, w') /\
    view w' (target req) = view w (target req) ++ [r_payload req] /\
    data_dir_ b = data_dir_ (broker w).
Proof.
  intros Hok Hrep Hty Hp Hne Hs.
  destruct (get_topic_run (r_topic req) w) as (topic & Hget & Ht).
  assert (bad_partition topic (r_partition req) = false) as Hbad.
  { apply bad_partition_false. destruct (find_or_create_ok (r_topic req) _ Hok _ _ Ht)
      as (_ & Hl & _). lia. }
  set (w1 := on_broker (set_topics (find_or_create (r_topic req))) w) in *.
  set (w2 := on_broker (set_topics
    (insert (r_topic req) (push_message (r_partition req) (r_payload req) topic))) w1).
  exists (broker w2). split_and!; [| |done].
  - apply bind_throw. unfold dispatch. rewrite Hty. unfold handle_produce, produce_locked.
    rewrite (bind_ret _ _ w (broker w) w) by done. rewrite Hrep.
    rewrite (bind_ret _ _ w true w) by done. rewrite (bind_ret _ _ _ _ _ Hget), Hbad. cbv zeta.
    rewrite (bind_ret _ _ w1 tt w2) by done.
    apply bind_throw. by rewrite (persist_mkdir_error req w2 rs) by (done || lia).
  - change (view w2 (target req) = view w (target req) ++ [r_payload req]).
    unfold w2. rewrite view_push, decide_True by done. unfold w1. by rewrite view_get_topic.
Qed.

(** *** A broker that does not replicate *)

(** [m] leaves the sessions alone in states whose broker does not replicate. *)
Definition alone {A} (m : M (World P) A) : Prop :=
  forall w, replicates (broker w) = false ->
    peer (m w).2 = peer w /\ replicates (broker (m w).2) = false.

Lemma alone_bind {A B} (m : M (World P) A) (k : A -> M (World P) B) :
  alone m -> (forall a, alone (k a)) -> alone (m ≫= k).
Proof.
  intros Hm Hk w Hw. destruct (Hm w Hw) as [H1 H2]. unfold mbind, M_bind.
  destruct (m w) as [[a|e|] w1]; simpl in *; [|done|done].
  destruct (Hk a w1 H2). split; congruence.
Qed.

Lemma alone_gets {A B} (f : World P -> A) (k : A -> M (World P) B) :
  (forall w, replicates (broker w) = false -> peer (k (f w) w).2 = peer w /\
     replicates (broker (k (f w) w).2) = false) -> alone (gets f ≫= k).
Proof. intros Hk w Hw. by apply Hk. Qed.

Lemma alone_persist req : alone (persist req).
Proof. intros w Hw. by destruct (persist_effect req w) as (-> & -> & _). Qed.

Lemma alone_push_persist req topic (k : M (World P) reply) :
  alone k -> alone (_ ← push req topic; _ ← persist req; k).
Proof.
  intros Hk. apply alone_bind; [by intros w|]. intros _.
  apply alone_bind; [apply alone_persist|done].
Qed.

Lemma alone_get_topic name : alone (get_topic name).
Proof. intros w Hw. by destruct (get_topic_run name w) as (topic & -> & _). Qed.

Lemma alone_produce_locked req : alone (produce_locked req).
Proof.
  apply alone_bind; [apply alone_get_topic|]. intros topic.
  destruct (bad_partition _ _); [by intros w|]. cbv zeta. apply alone_push_persist.
  apply alone_gets. intros w Hw. by rewrite Hw.
Qed.

Lemma alone_produce req : alone (handle_produce req).
Proof.
  apply alone_gets. intros w Hw. rewrite Hw. revert w Hw.
  apply (alone_bind (mret true)); [by intros w|]. intros _. apply alone_produce_locked.
Qed.

Lemma alone_replicate req : alone (handle_replicate req).
Proof.
  apply alone_bind; [done|]. intros b. destruct (negb _); [done|].
  apply alone_bind; [apply alone_get_topic|]. intros topic.
  destruct (bad_partition _ _); [done|]. apply alone_bind.
  { intros w Hw. pose proof (alone_persist req w Hw) as Hp. unfold try_catch, mbind, M_bind.
    destruct (persist req w) as [[[]|e|] w1]; done. }
  intros []; [|done]. by intros w.
Qed.

Lemma alone_groups f good : alone (with_groups f good).
Proof.
  intros w Hw. unfold with_groups, mbind, M_bind, gets, modify. by destruct (f (broker w)).
Qed.

Lemma alone_handle_request elapsed req w :
  replicates (broker w) = false -> peer (handle_request elapsed req w).2 = peer w.
Proof.
  intros Hw. refine (proj1 ((_ : alone (handle_request elapsed req)) w Hw)).
  apply alone_bind; [|intros r; by apply alone_bind].
  unfold dispatch. destruct (r_type req);
    auto using alone_produce, alone_replicate, alone_groups; done.
Qed.

(** *** The configuration stays *)

Definition same_config (b0 b : Broker) : Prop :=
  role_ b = role_ b0 /\ follower_port_ b = follower_port_ b0 /\ data_dir_ b = data_dir_ b0.

Lemma config_groups b0 f good : preserves (same_config b0) (with_groups f good).
Proof.
  intros w Hw. unfold with_groups, mbind, M_bind, gets, modify.
  by destruct (f (broker w)).
Qed.

Lemma config_produce_locked b0 req : preserves (same_config b0) (produce_locked req).
Proof.
  apply preserves_bind.
  { apply preserves_bind; [by apply preserves_modify|auto]. }
  intros topic. destruct (bad_partition _ _); [auto|]. cbv zeta.
  apply preserves_bind; [by apply preserves_modify|]. intros _.
  apply preserves_bind; [apply preserves_persist|]. intros _.
  apply preserves_quiet, quiet_forwarding.
Qed.

Lemma config_produce b0 req : preserves (same_config b0) (handle_produce req).
Proof.
  intros w. rewrite produce_split.
  apply preserves_bind; [apply preserves_quiet, quiet_synchronizing|].
  intros _. apply config_produce_locked.
Qed.

Lemma config_replicate b0 req : preserves (same_config b0) (handle_replicate req).
Proof.
  apply preserves_bind; [auto|]. intros b. destruct (negb _); [auto|].
  apply preserves_bind.
  { apply preserves_bind; [by apply preserves_modify|auto]. }
  intros topic. destruct (bad_partition _ _); [auto|]. apply preserves_bind.
  { apply preserves_try; [|auto]. apply preserves_bind; [apply preserves_persist|auto]. }
  intros []; [|auto]. apply preserves_bind; [by apply preserves_modify|]. intros _.
  apply preserves_bind; [by apply preserves_modify|auto].
Qed.

Lemma config_dispatch b0 req : preserves (same_config b0) (dispatch req).
Proof.
  unfold dispatch. destruct (r_type req); auto using config_produce, config_replicate,
    config_groups.
Qed.

Lemma config_handle_request elapsed req w :
  same_config (broker w) (broker (handle_request elapsed req w).2).
Proof.
  refine ((_ : preserves (same_config (broker w)) _) w _); [|done]. unfold handle_request.
  apply preserves_bind; [apply config_dispatch|].
  intros r; apply preserves_bind; [by apply preserves_modify|auto].
Qed.

(** *** The disk and recovery *)

Lemma log_file_inj w tp1 tp2 :
  dir_ok (data_dir_ (broker w)) -> stored tp1 -> stored tp2 ->
  log_file w tp1 = log_file w tp2 -> tp1 = tp2.
Proof.
  unfold stored, is_tp, is_int, INT_MAX, log_file. intros Hdir [H1 N1] [H2 N2] Heq.
  apply log_at_inj in Heq as [? ?]; [by destruct tp1, tp2; simpl in *; subst|done..| |];
    pow2_consts; lia.
Qed.

Lemma map_payload ms : map payload (map mkRecord ms) = ms.
Proof. rewrite map_map. apply map_id. Qed.

Lemma recovered_log f ms :
  log_fits ms -> content f = log_bytes (map mkRecord ms) -> recovered f = ms.
Proof.
  intros [Hok Hb] Hc. unfold recovered. rewrite Hc, scan_log_bytes by done. apply map_payload.
Qed.

Lemma log_fits_prefix ms x : log_fits (ms ++ [x]) -> log_fits ms.
Proof.
  unfold log_fits. rewrite map_app, log_bytes_app. intros [[? _]%Forall_app Hb].
  split; [done|by apply is_u64_prefix in Hb].
Qed.

(** Appending the new message to the file of the target. *)
Lemma target_crash req w oa fs' f' :
  disk_at w (target req) -> log_fits (view w (target req) ++ [r_payload req]) ->
  append_effect (log_file w (target req)) (serialize_record (mkRecord (r_payload req)))
    oa (files (os w)) fs' ->
  crash_image (file_at fs' (log_file w (target req))) f' ->
  (recovered f' = view w (target req) \/
   recovered f' = view w (target req) ++ [r_payload req]) /\
  (oa = Ret tt -> recovered f' = view w (target req) ++ [r_payload req]).
Proof.
  intros Hdisk [Hok Hb] Heff Hcrash.
  rewrite map_app in Hok, Hb. unfold recovered.
  destruct (effect_crash_scan _ _ _ _ _ _ _ Hdisk Hok Hb Heff Hcrash) as [Hor Hret].
  split; [destruct Hor as [-> | ->]|intros Hoa; rewrite (Hret Hoa)];
    rewrite ?map_app, map_payload; auto.
Qed.

Lemma unchanged_crash w fs' tp f' :
  disk_at w tp -> log_fits (view w tp) ->
  file_at fs' (log_file w tp) = file_at (files (os w)) (log_file w tp) ->
  crash_image (file_at fs' (log_file w tp)) f' -> recovered f' = view w tp.
Proof.
  intros Hdisk Hfit Heq (n & Hn & Hc). rewrite Heq, Hdisk in Hn, Hc.
  simpl in *. apply recovered_log; [done|]. by rewrite Hc, take_ge.
Qed.

Lemma log_file_same_dir w w' tp :
  data_dir_ (broker w') = data_dir_ (broker w) -> log_file w' tp = log_file w tp.
Proof. unfold log_file. by intros ->. Qed.

Lemma stored_target req : is_tp (target req) -> appends req -> names_log req -> stored (target req).
Proof. intros Htp Ha Hn. split; [done|by apply Hn]. Qed.

(** Appending to one log leaves the others alone. *)
Lemma effect_other req w oa fs' tp :
  dir_ok (data_dir_ (broker w)) -> stored tp -> stored (target req) -> tp <> target req ->
  append_effect (log_file w (target req)) (serialize_record (mkRecord (r_payload req)))
    oa (files (os w)) fs' ->
  file_at fs' (log_file w tp) = file_at (files (os w)) (log_file w tp).
Proof.
  intros Hdir Htp Ht Hne Heff. eapply effect_frame; [done|].
  intros Heq. by apply log_file_inj in Heq.
Qed.

(** A partition stays on disk, unless its own append failed. *)
Lemma effect_keeps_disk_at req w o w' tp :
  dir_ok (data_dir_ (broker w)) -> data_dir_ (broker w') = data_dir_ (broker w) ->
  names_log req -> stored tp -> disk_at w tp -> log_effect req w o w' ->
  (tp = target req -> ~ failed_append req o) -> disk_at w' tp.
Proof.
  intros Hdir Hsame Hname Htp Hdisk Hrun Hgood. unfold disk_at.
  rewrite (log_file_same_dir w w') by done.
  destruct Hrun as [Hv Hf _|oa Ha Ht Hv Heff Hret|oa Ht Hty Hv Heff Hno]; rewrite Hv.
  - by rewrite Hf.
  - pose proof (stored_target req Ht Ha Hname) as Hst. case_decide as Heq.
    + subst tp. specialize (Hgood eq_refl).
      assert (oa = Ret tt) as ->.
      { apply Hret. destruct o as [r|e|]; [by eexists|exfalso; by apply Hgood..]. }
      destruct Heff as [[_ ?]|[(k & _ & ?)|Hf]]; [done..|]. rewrite Hf. unfold sync_file.
      rewrite file_at_insert, file_at_append, Hdisk. simpl.
      by rewrite map_app; simpl; rewrite log_bytes_snoc.
    + rewrite (effect_other req w oa _ tp Hdir Htp Hst Heq Heff). exact Hdisk.
  - assert (appends req) as Ha by (by right).
    pose proof (stored_target req Ht Ha Hname) as Hst.
    rewrite (effect_other req w oa _ tp Hdir Htp Hst); [exact Hdisk| |exact Heff].
    intros Heq. apply (Hgood Heq). split; [done|]. destruct o as [r|e|]; [|done..].
    split; [done|]. by intros ->.
Qed.

Lemma effect_keeps_disk_ok req w r w' :
  disk_ok w -> data_dir_ (broker w') = data_dir_ (broker w) -> names_log req ->
  log_effect req w (Ret r) w' -> (r_type req = REPLICATE -> r = lit "OK") -> disk_ok w'.
Proof.
  intros [Hdir Hdisk] Hsame Hname Hrun Hrep. split; [by rewrite Hsame|]. intros tp Htp.
  eapply effect_keeps_disk_at; [done..|by apply Hdisk|exact Hrun|].
  intros _ (_ & Hty & Hne). by apply Hne, Hrep.
Qed.

Lemma keeps_disk_ok elapsed req w r w' :
  disk_ok w -> (r_partition req <= INT_MAX)%Z -> names_log req ->
  handle_request elapsed req w = (Ret r, w') ->
  (r_type req = REPLICATE -> r = lit "OK") -> disk_ok w'.
Proof.
  intros Hdisk Hint Hname Hrun. pose proof (config_handle_request elapsed req w) as (_ & _ & Hdir).
  rewrite Hrun in Hdir. apply handle_request_effect in Hrun; [|done].
  by apply (effect_keeps_disk_ok req w r w').
Qed.

End frames.

(** ** Properties *)

Section properties.
Context {P : Type} `{Peer P} {order : IterOrder}.

Implicit Types w : World P.

(** C38. The storage invariant.  Let every log file hold exactly the messages that its
    partition has in memory, all of them on disk.  This is still so after a request that
    returns, unless it is a REPLICATE whose append failed, which answers ERROR, or names a
    topic whose log file is not its own ([names_log]: no component of the name is empty, "."
    or ".." or holds a null byte). *)
Theorem disk_invariant elapsed req w r w' :
  disk_ok w -> (r_partition req <= INT_MAX)%Z -> names_log req ->
  handle_request elapsed req w = (Ret r, w') ->
  (r_type req = REPLICATE -> r = lit "OK") -> disk_ok w'.
Proof. apply keeps_disk_ok. Qed.

(** C14. After a PRODUCE answered [OK], a FETCH of the partition at its old size returns
    the payload and nothing else, every other partition is as it was, and so are the
    earlier messages of this one. *)
Theorem produce_then_fetch elapsed req w w' :
  (r_partition req <= INT_MAX)%Z -> r_type req = PRODUCE ->
  handle_request elapsed req w = (Ret (lit "OK"), w') ->
  let fetch off := mkRequest FETCH [] [] (r_topic req) (r_partition req) off [] in
  let old := view w (target req) in
  handle_fetch (fetch (size old)) (topics_ (broker w')) = (r_payload req, true) /\
  (forall off, (0 <= off <= size old)%Z ->
     handle_fetch (fetch off) (topics_ (broker w')) =
       (join_lines (drop (Z.to_nat off) old ++ [r_payload req]), true)) /\
  (forall tp, tp <> target req -> view w' tp = view w tp).
Proof.
  intros Hint Hty Hrun fetch old.
  apply handle_request_effect in Hrun; [|done].
  destruct Hrun as [_ _ Hno|oa _ Ht Hv _ _|oa _ Hr _ _ _]; [by destruct Hno; [left|]| |congruence].
  assert (Hfetch : forall off, (0 <= off <= size old)%Z ->
     handle_fetch (fetch off) (topics_ (broker w')) =
       (join_lines (drop (Z.to_nat off) old ++ [r_payload req]), true)).
  { intros off Hoff. unfold size in Hoff. pose proof (Hv (target req)) as Hvt.
    rewrite decide_True in Hvt by done. fold old in Hvt.
    unfold handle_fetch; simpl. unfold view, log_view in Hvt; simpl in Hvt.
    destruct (topics_ (broker w') !! r_topic req) as [topic|]; [|by destruct old].
    unfold is_tp, is_int in Ht; simpl in Ht.
    rewrite (proj2 (Z.ltb_ge _ _)) in Hvt by lia.
    assert (bad_partition topic (r_partition req) = false) as ->.
    { apply bad_partition_false. unfold messages_of in Hvt.
      destruct (partitions topic !! _) eqn:E; [|by destruct old].
      apply lookup_lt_Some in E. lia. }
    rewrite Hvt. unfold size. rewrite length_app. simpl.
    rewrite (proj2 (Z.leb_gt _ _)) by lia. by rewrite drop_app_le by lia. }
  split_and!; [|done|].
  - rewrite Hfetch by (unfold size; lia). unfold size. by rewrite Nat2Z.id, drop_all.
  - intros tp Hne. by rewrite Hv, decide_False.
Qed.

(** C28. However a request ends, the topics keep their names, their numbering and at least
    three partitions, and the groups stay well formed. *)
Theorem request_keeps_broker_ok elapsed req w :
  broker_ok (broker w) -> is_u64 (r_offset req) ->
  broker_ok (broker (handle_request elapsed req w).2).
Proof. intros Hok Hoff. by apply keeps_ok_handle_request. Qed.

(** A PRODUCE whose [append] fails before it opens the log throws, but its message
    stays in memory, where FETCH finds it, and not on disk: the storage invariant is
    broken. *)
Theorem failed_append_stays_in_memory elapsed req w rs :
  disk_ok w -> topics_ok (topics_ (broker w)) -> replicates (broker w) = false ->
  r_type req = PRODUCE -> (0 <= r_partition req < 3)%Z -> normal (r_topic req) ->
  script (os w) = SysErr :: rs ->
  let res := handle_request elapsed req w in
  res.1 = Throw runtime_error /\
  view res.2 (target req) = view w (target req) ++ [r_payload req] /\
  files (os res.2) = files (os w) /\ ~ disk_ok res.2.
Proof.
  intros [Hdirok Hdisk] Hok Hrep Hty Hp Hne Hs res.
  destruct (produce_mkdir_error elapsed req w rs) as (b & Hres & Hv & Hdir);
    [done..|by apply normal_nonempty|done|].
  unfold res. rewrite Hres. simpl fst. simpl snd.
  split_and!; [done|done|done|]. intros [_ Hd].
  assert (stored (target req)) as Htp
    by (split; [unfold is_tp, is_int, INT_MAX; simpl; lia|done]).
  pose proof (Hd _ Htp) as H3. unfold disk_at in H3. rewrite Hv in H3.
  rewrite (log_file_same_dir w (mkWorld b _ _)) in H3 by done. simpl in H3.
  rewrite (Hdisk _ Htp), map_app in H3. simpl in H3. rewrite log_bytes_snoc in H3.
  injection H3 as H3 _. apply (f_equal length) in H3. rewrite length_app, length_serialize in H3.
  lia.
Qed.

(** A broker without a follower (a follower, or a promoted one) never contacts another
    broker, whatever it is asked; promotion changes no topic, group or progress. *)
Theorem promoted_is_alone elapsed req w :
  let b := promote_to_leader (broker w) in
  let w1 := mkWorld b (os w) (peer w) in
  peer (handle_request elapsed req w1).2 = peer w /\
  topics_ b = topics_ (broker w) /\ consumer_groups_ b = consumer_groups_ (broker w) /\
  replication_progress_ b = replication_progress_ (broker w) /\ data_dir_ b = data_dir_ (broker w).
Proof.
  intros b w1. split_and!; [by apply (alone_handle_request elapsed req w1)|done..].
Qed.

End properties.

(** *** Witnesses *)

Definition demo_net : ClientWorld := mkCW (new_client [] 0) (mkNet [] [] ∅).

Definition demo_broker : World ClientWorld :=
  mkWorld new_Broker (mkOS [SysOk 0; SysOk 3; SysOk 10; SysOk 0; SysOk 0] ∅) demo_net.

Definition demo_produce : Request := mkRequest PRODUCE [] [] (lit "t") 1 0 (lit "hi").

Definition demo_handle := @handle_request ClientWorld client_peer canonical_order 5000.

Lemma demo_disk_ok : disk_ok demo_broker.
Proof.
  split; [by split|]. intros tp _. unfold disk_at, view, log_view. simpl. rewrite lookup_empty.
  simpl. unfold file_at. by rewrite lookup_empty.
Qed.

Lemma demo_names : names_log demo_produce.
Proof. intros _. apply plain_normal. by split_and!. Qed.

Lemma disk_invariant_witness :
  exists w', demo_handle demo_produce demo_broker = (Ret (lit "OK"), w') /\ disk_ok w'.
Proof.
  eexists. split; [vm_compute; reflexivity|].
  refine (@disk_invariant ClientWorld client_peer canonical_order 5000 demo_produce
    demo_broker (lit "OK") _ demo_disk_ok _ demo_names _ _); [closed|vm_compute; reflexivity|done].
Defined.

Lemma produce_then_fetch_witness :
  exists w', demo_handle demo_produce demo_broker = (Ret (lit "OK"), w') /\
    handle_fetch (mkRequest FETCH [] [] (lit "t") 1 0 []) (topics_ (broker w')) = (lit "hi", true).
Proof.
  eexists. split; [vm_compute; reflexivity|].
  refine (proj1 (@produce_then_fetch ClientWorld client_peer canonical_order 5000 demo_produce
    demo_broker _ _ eq_refl _)); [closed|vm_compute; reflexivity].
Defined.

Lemma request_keeps_broker_ok_witness :
  broker_ok (broker (demo_handle demo_produce demo_broker).2).
Proof.
  apply (@request_keeps_broker_ok ClientWorld client_peer canonical_order); [|closed].
  split; apply map_Forall_empty.
Defined.
