(* ===== verification/Recovery.v ===== *)
(** * Startup recovery ([Broker::recover_from_disk] of [src/broker.cpp])

    The directory tree is read off the paths of the files: an entry of a directory is the
    name that follows the directory's path in the path of a file.  A [directory_iterator]
    yields the entries, which "." and ".." are not, in any order. *)

From S2P Require Import Prelude Text LogRecord Paths Posix TopicLog Protocol Metrics Topics Groups Client Broker.

(** ** Definitions *)

Fixpoint strip_prefix {A} `{EqDecision A} (pre l : list A) : option (list A) :=
  match pre, l with
  | [], _ => Some l
  | c :: pre, d :: l => if bool_decide (c = d) then strip_prefix pre l else None
  | _ :: _, [] => None
  end.

Definition not_dot (c : char) : bool := negb (byte_val c =? 46)%Z.

(** The path of a file below a directory: its first name and the others. *)
Definition below_one (dir p : Path) : option (bytes * list bytes) :=
  if bool_decide (up p = up dir) then
    match strip_prefix (names dir) (names p) with
    | Some (name :: rest) => Some (name, rest)
    | _ => None
    end
  else None.

Definition below (dir : Path) (fs : gmap Path file) : list (bytes * list bytes) :=
  omap (below_one dir) (map fst (map_to_list fs)).

(** The entries of a directory that are directories, and those that are regular files. *)
Definition sub_dirs (dir : bytes) (fs : gmap Path file) : gmap bytes unit :=
  list_to_map (omap (fun e => match e.2 with [] => None | _ => Some (e.1, tt) end)
    (below (resolve dir) fs)).

Definition sub_files (dir : bytes) (fs : gmap Path file) : gmap bytes unit :=
  list_to_map (omap (fun e => match e.2 with [] => Some (e.1, tt) | _ => None end)
    (below (resolve dir) fs)).

(** [path.stem()] and [path.extension()] of a file name: the last dot separates them,
    unless it is the first character. *)
Definition split_extension (name : bytes) : bytes * bytes :=
  let (ext, rest) := span not_dot (rev name) in
  match rest with
  | [] | [_] => (name, [])
  | dot :: stem => (rev stem, dot :: rev ext)
  end.

(** [topic.partitions.resize(p + 1, Partition(-1))] when [p] is past the end, and
    [topic.partitions[p].id = p]. *)
Definition ensure_partition (p : Z) (topic : Topic) : Topic :=
  let n := Z.of_nat (length (partitions topic)) in
  let parts :=
    if (n <=? p)%Z
    then partitions topic ++ repeat (new_Partition (-1)) (Z.to_nat (p + 1 - n))
    else partitions topic in
  mkTopic (t_name topic)
    (alter (fun part => mkPartition p (messages part)) (Z.to_nat p) parts).

(** The loop that pushes the payloads of the records. *)
Definition push_records (p : Z) (records : list LogRecord) (topic : Topic) : Topic :=
  fold_left (fun t r => push_message p (payload r) t) records topic.

(** The partition number in a file name that has the form of a log's: [stoi] reads a
    prefix of what follows "partition-". *)
Definition log_index (filename : bytes) : option (exn + Z) :=
  let (stem, extension) := split_extension filename in
  if negb (bool_decide (extension = lit ".log")) then None else
  match strip_prefix (lit "partition-") stem with
  | None => None
  | Some partition_id_str =>
      Some (match stoi partition_id_str with inl e => inl e | inr (p, _) => inr p end)
  end.

Section recovery.
Context {P : Type} {order : IterOrder}.

(** Indexing a vector below zero, or the overflow of [p + 1], is undefined: the model
    stops there. *)
Definition undefined_behaviour {A} : M (World P) A := fun w => (Crash, w).

(** One turn of the inner loop: the topic with the records of a file, [None] when the
    file is skipped. *)
Definition recover_file (topic_name filename : bytes) (topic : Topic)
    : M (World P) (option Topic) :=
  match log_index filename with
  | None => mret None
  | Some (inl e) => throw e
  | Some (inr p) =>
      if (p <? 0)%Z || (p =? INT_MAX)%Z then undefined_behaviour else
      let topic := ensure_partition p topic in
      b ← gets broker;
      records ← on_os (log ← new_TopicLog topic_name p (data_dir_ b); read_all log);
      _ ← (if bool_decide (role_ b = FOLLOWER) && negb (bool_decide (records = []))
           then modify (on_broker (set_progress (mkTP topic_name p)
                  (Z.of_nat (length records) - 1)))
           else mret tt);
      mret (Some (push_records p records topic))
  end.

(** The inner loop, with the topic and [found_any_partition]. *)
Fixpoint recover_files (topic_name : bytes) (filenames : list bytes) (topic : Topic)
    (found : bool) : M (World P) (Topic * bool) :=
  match filenames with
  | [] => mret (topic, found)
  | filename :: filenames =>
      t ← recover_file topic_name filename topic;
      match t with
      | Some topic => recover_files topic_name filenames topic true
      | None => recover_files topic_name filenames topic found
      end
  end.

Definition recover_topic (topic_name : bytes) : M (World P) unit :=
  if bool_decide (topic_name = []) then mret tt else
  w ← gets id;
  let entries := sub_files (data_dir_ (broker w) ++ lit "/" ++ topic_name) (files (os w)) in
  r ← recover_files topic_name (map fst (iter entries)) (new_Topic topic_name) false;
  if (r.2 : bool) then modify (on_broker (set_topics (insert topic_name r.1))) else mret tt.

(** The outer loop. *)
Fixpoint recover_topics (topic_names : list bytes) : M (World P) unit :=
  match topic_names with
  | [] => mret tt
  | topic_name :: topic_names => _ ← recover_topic topic_name; recover_topics topic_names
  end.

(** An empty name exists nowhere. *)
Definition recover_from_disk (data_dir : bytes) : M (World P) unit :=
  _ ← modify (on_broker (set_data_dir data_dir));
  if bool_decide (c_str data_dir = []) then mret tt else
  w ← gets id;
  recover_topics (map fst (iter (sub_dirs data_dir (files (os w))))).

End recovery.

(** *** Specification *)

Definition log_number (p : Z) : Prop := (0 <= p < INT_MAX)%Z.

(** The data directory has a name, and everything below it is the log of a partition, named
    as [TopicLog] names it, of a topic whose name is one path component. *)
Definition logs_only (dir : bytes) (fs : gmap Path file) : Prop :=
  dir_ok dir /\
  forall ns f, fs !! under (resolve dir) ns = Some f ->
    exists t p, ns = [t; log_name p] /\ plain t /\ log_number p /\ is_u64 (blen (content f)).

(** Kernel answers without errors. *)
Definition all_ok (rs : list sys_result) : Prop := Forall (fun r => exists n, r = SysOk n) rs.

(** A log after recovery: the valid records at its start. *)
Definition trim (f : file) : file :=
  let n := (scan (content f)).2 in
  mkFile (take (Z.to_nat n) (content f))
    (if (n <? blen (content f))%Z then min (Z.to_nat n) (durable f) else durable f).

(** The number of logs below the data directory. *)
Definition log_count (dir : bytes) (fs : gmap Path file) : nat :=
  sum_list_with (fun t => base.size (sub_files (dir ++ lit "/" ++ t) fs))
    (map fst (map_to_list (sub_dirs dir fs))).

(** ** Directories *)

Lemma strip_prefix_spec {A} `{EqDecision A} (pre l r : list A) :
  strip_prefix pre l = Some r <-> l = pre ++ r.
Proof.
  revert l. induction pre as [|c pre IH]; intros l; simpl; [naive_solver|].
  destruct l as [|d l]; [done|]. case_bool_decide as Hc.
  - rewrite IH. naive_solver.
  - split; [done|]. intros [= -> _]. done.
Qed.

Lemma below_one_spec dir p name rest :
  below_one dir p = Some (name, rest) <-> p = under dir (name :: rest).
Proof.
  unfold below_one, under. split.
  - case_bool_decide as Hup; [|done].
    destruct (strip_prefix _ _) as [[|name' rest']|] eqn:E; try done. intros [= -> ->].
    apply strip_prefix_spec in E. destruct p as [u ns]; simpl in *. by subst.
  - intros ->. simpl. rewrite bool_decide_eq_true_2 by done.
    by rewrite (proj2 (strip_prefix_spec _ _ (name :: rest))).
Qed.

Lemma elem_of_below dir fs name rest :
  (name, rest) ∈ below dir fs <-> is_Some (fs !! under dir (name :: rest)).
Proof.
  unfold below. rewrite list_elem_of_omap. split.
  - intros (p & Hp & ->%below_one_spec).
    apply list_elem_of_fmap in Hp as ([p' f] & Heq & Hf%elem_of_map_to_list).
    simpl in Heq. subst p'. by exists f.
  - intros [f Hf]. exists (under dir (name :: rest)). split; [|by apply below_one_spec].
    apply list_elem_of_fmap. exists (under dir (name :: rest), f).
    by rewrite elem_of_map_to_list.
Qed.

Lemma list_to_map_is_Some (l : list (bytes * unit)) name :
  is_Some ((list_to_map l : gmap bytes unit) !! name) <-> (name, tt) ∈ l.
Proof.
  rewrite <-not_eq_None_Some, <-not_elem_of_list_to_map. split.
  - intros H. apply dec_stable in H. apply list_elem_of_fmap in H as ([n []] & -> & H). done.
  - intros H Hn. apply Hn. apply list_elem_of_fmap. by exists (name, tt).
Qed.

Lemma sub_files_spec dir fs name :
  is_Some (sub_files dir fs !! name) <-> is_Some (fs !! under (resolve dir) [name]).
Proof.
  unfold sub_files. rewrite list_to_map_is_Some, list_elem_of_omap. split.
  - intros ([n tail] & H & Hg). simpl in Hg. destruct tail; simplify_eq. by apply elem_of_below.
  - intros H. exists (name, []). by rewrite elem_of_below.
Qed.

Lemma sub_dirs_spec dir fs name :
  is_Some (sub_dirs dir fs !! name) <->
  exists x rest, is_Some (fs !! under (resolve dir) (name :: x :: rest)).
Proof.
  unfold sub_dirs. rewrite list_to_map_is_Some, list_elem_of_omap. split.
  - intros ([n tail] & H & Hg). simpl in Hg. destruct tail as [|x tail]; simplify_eq.
    exists x, tail. by apply elem_of_below.
  - intros (x & rest & H). exists (name, x :: rest). by rewrite elem_of_below.
Qed.

(** The directory of a topic. *)
Lemma topic_dir dir t ns :
  dir_ok dir -> plain t ->
  under (resolve (dir ++ lit "/" ++ t)) ns = under (resolve dir) (t :: ns).
Proof.
  intros Hdir Ht. rewrite resolve_under, plain_components by (done || by apply plain_normal).
  unfold under; simpl. by rewrite <-app_assoc.
Qed.

Lemma log_in_topic dir t p :
  dir_ok dir -> plain t -> (0 <= p < 10 ^ 20)%Z ->
  log_at dir t p = under (resolve dir) [t; log_name p].
Proof.
  intros Hdir Ht Hp. rewrite resolve_log_path by (done || by apply plain_normal).
  by rewrite plain_components.
Qed.

(** *** Names of logs *)

Lemma log_number_small p : log_number p -> (0 <= p < 10 ^ 20)%Z.
Proof. unfold log_number, INT_MAX. pow2_consts. lia. Qed.

Lemma split_extension_log l :
  l <> [] -> split_extension (l ++ lit ".log") = (l, lit ".log").
Proof.
  intros Hl. unfold split_extension. rewrite rev_app_distr.
  change (rev (lit ".log") ++ rev l) with (lit "gol" ++ byte_of 46 :: rev l).
  rewrite span_app by done.
  destruct (rev l) as [|c r] eqn:E.
  - apply (f_equal (@rev _)) in E. by rewrite rev_involutive in E.
  - rewrite <-E, rev_involutive. done.
Qed.

Lemma log_name_index p : log_number p -> log_index (log_name p) = Some (inr p).
Proof.
  intros Hp. unfold log_index, log_name. rewrite app_assoc, split_extension_log by done.
  rewrite bool_decide_eq_true_2 by done. cbn [negb].
  rewrite (proj2 (strip_prefix_spec _ _ (to_string p))) by done.
  unfold stoi. rewrite sto_signed_to_string; [done|lia|].
  unfold log_number, INT_MAX in Hp. change (2 ^ (32 - 1))%Z with (2 ^ 31)%Z. lia.
Qed.

(** The number is read off whatever follows the digits. *)
Lemma stray_index p junk :
  log_number p ->
  log_index (lit "partition-" ++ to_string p ++ lit "." ++ junk ++ lit ".log") = Some (inr p).
Proof.
  intros Hp. unfold log_index. rewrite !app_assoc, split_extension_log by done.
  rewrite bool_decide_eq_true_2 by done. cbn [negb]. rewrite <-!app_assoc.
  rewrite (proj2 (strip_prefix_spec _ _ (to_string p ++ lit "." ++ junk))) by done.
  destruct (to_string_nonneg p (log_number_small p Hp)) as (Hne & Hd & Hv).
  unfold stoi, sto_signed. rewrite scan_int_digits, Hv by done. cbn [signed_val].
  change (2 ^ (32 - 1))%Z with (2 ^ 31)%Z. unfold log_number, INT_MAX in Hp.
  by rewrite (proj2 (Z.leb_le _ p)), (proj2 (Z.ltb_lt p _)) by lia.
Qed.

Lemma log_name_inj p q : log_number p -> log_number q -> log_name p = log_name q -> p = q.
Proof.
  intros Hp Hq H. apply log_name_index in Hp. rewrite H, log_name_index in Hp by done.
  by injection Hp.
Qed.

Lemma log_number_inj dir t1 t2 p1 p2 :
  dir_ok dir -> plain t1 -> plain t2 -> log_number p1 -> log_number p2 ->
  log_at dir t1 p1 = log_at dir t2 p2 -> t1 = t2 /\ p1 = p2.
Proof.
  intros Hdir Ht1 Ht2 H1 H2. apply log_at_inj; [done|by apply plain_normal..| |];
    by apply log_number_small.
Qed.

Lemma log_number_int p : log_number p -> is_int p.
Proof. unfold log_number, is_int. lia. Qed.

Lemma is_int_small p : is_int p -> (0 <= p < 10 ^ 20)%Z.
Proof. unfold is_int, INT_MAX. pow2_consts. lia. Qed.

(** A log that is there has a log's number and a topic's name. *)
Lemma logs_only_log dir fs t p f :
  logs_only dir fs -> is_int p -> normal t -> fs !! log_at dir t p = Some f ->
  log_number p /\ plain t /\ is_u64 (blen (content f)).
Proof.
  intros [Hdir Hlogs] Hp Ht Hf. apply is_int_small in Hp.
  rewrite resolve_log_path in Hf by done.
  destruct (Hlogs _ _ Hf) as (t' & p' & Heq & Ht' & Hp' & Hb).
  change [t'; log_name p'] with ([t'] ++ [log_name p']) in Heq.
  apply app_inj_tail in Heq as [Hc Hn]. rewrite <-(plain_components t') in Hc by done.
  apply components_inj in Hc as ->. apply log_name_digits in Hn as ->; [done..|].
  by apply log_number_small.
Qed.

(** The files of a topic's directory are its logs. *)
Lemma topic_files dir fs t name :
  logs_only dir fs -> plain t -> is_Some (sub_files (dir ++ lit "/" ++ t) fs !! name) ->
  exists p, name = log_name p /\ log_number p /\ is_Some (fs !! log_at dir t p).
Proof.
  intros [Hdir Hlogs] Ht [f Hf]%sub_files_spec. rewrite topic_dir in Hf by done.
  destruct (Hlogs _ _ Hf) as (t' & p & [= <- ->] & _ & Hp & _).
  exists p. split_and!; [done..|]. rewrite log_in_topic by (done || by apply log_number_small).
  by exists f.
Qed.

Lemma choose_names {A B} (f : A -> B) (Q : A -> Prop) (l : list B) :
  (forall b, b ∈ l -> exists a, b = f a /\ Q a) ->
  exists l', l = map f l' /\ Forall Q l'.
Proof.
  induction l as [|b l IH]; intros H; [by exists []|].
  destruct (H b) as (a & -> & Ha); [by constructor|].
  destruct IH as (l' & -> & Hl'); [intros b' Hb'; apply H; by constructor|].
  exists (a :: l'). auto.
Qed.

Lemma elem_of_iter {V} (m : gmap bytes V) `{IterOrder} k :
  k ∈ map fst (iter m) <-> is_Some (m !! k).
Proof.
  rewrite (iter_perm _ m), list_elem_of_fmap. split.
  - intros ([k' v] & -> & H'%elem_of_map_to_list). by exists v.
  - intros [v H']. exists (k, v). by rewrite elem_of_map_to_list.
Qed.

Lemma NoDup_iter {V} (m : gmap bytes V) `{IterOrder} : NoDup (map fst (iter m)).
Proof. rewrite (iter_perm _ m). apply NoDup_fst_map_to_list. Qed.

Lemma length_iter {V} (m : gmap bytes V) `{IterOrder} :
  length (map fst (iter m)) = base.size m.
Proof. rewrite length_map, (iter_perm _ m). apply length_map_to_list. Qed.

(** The names in a topic's directory, as partition numbers. *)
Lemma topic_numbers dir fs t `{IterOrder} :
  logs_only dir fs -> plain t ->
  exists ps, map fst (iter (sub_files (dir ++ lit "/" ++ t) fs)) = map log_name ps /\
    NoDup ps /\ Forall log_number ps /\
    forall p, log_number p -> (p ∈ ps <-> is_Some (fs !! log_at dir t p)).
Proof.
  intros Hlogs Ht. pose proof Hlogs as [Hdir _].
  destruct (choose_names log_name log_number
    (map fst (iter (sub_files (dir ++ lit "/" ++ t) fs)))) as (ps & Hps & Hnum).
  { intros name Hn%elem_of_iter. destruct (topic_files dir fs t name) as (p & ? & ? & _); eauto. }
  exists ps. split_and!; [done| |done|].
  - apply (NoDup_fmap_1 log_name). change (NoDup (map log_name ps)). rewrite <-Hps. apply NoDup_iter.
  - intros p Hp. transitivity (log_name p ∈ map log_name ps).
    + rewrite list_elem_of_fmap. split; [by exists p|]. intros (q & Heq & Hq).
      apply log_name_inj in Heq as ->; [done..|]. by eapply (proj1 (Forall_forall _ _) Hnum).
    + rewrite <-Hps, elem_of_iter, sub_files_spec, topic_dir by done.
      by rewrite log_in_topic by (done || by apply log_number_small).
Qed.

(** ** Reading the logs *)

Lemma logs_only_truncate dir path n fs :
  is_Some (fs !! path) -> logs_only dir fs -> logs_only dir (truncate_file path n fs).
Proof.
  intros [f Hf] [Hdir Hlogs]. split; [done|]. intros rest g Hg. unfold truncate_file in Hg. rewrite lookup_insert in Hg.
  case_decide as Heq; [|by eapply Hlogs]. injection Hg as <-. subst path.
  destruct (Hlogs rest f Hf) as (t & p & ? & ? & ? & Hb). exists t, p.
  split_and!; try done. cbn [content]. unfold file_at. rewrite Hf.
  change (default _ (Some f)) with f. unfold is_u64, blen in *. rewrite length_take. lia.
Qed.

Lemma trim_content f :
  is_u64 (blen (content f)) -> content (trim f) = log_bytes (scan (content f)).1.
Proof.
  intros Hb. pose proof (scan_valid _ Hb) as (_ & Hn & [tail Ht] & _). unfold trim; cbn [content].
  rewrite Hn. unfold blen. rewrite Nat2Z.id. rewrite Ht at 2. by rewrite take_app_length.
Qed.

Lemma trim_ok f :
  is_u64 (blen (content f)) ->
  is_u64 (blen (content (trim f))) /\ recovered (trim f) = recovered f.
Proof.
  intros Hb. pose proof (scan_valid _ Hb) as (Hok & _ & [tail Ht] & _).
  unfold recovered. rewrite trim_content by done.
  assert (is_u64 (blen (log_bytes (scan (content f)).1))) as Hb'
    by (rewrite Ht in Hb; by apply is_u64_prefix in Hb).
  split; [done|]. by rewrite scan_log_bytes.
Qed.

Lemma trim_synced f :
  durable f = length (content f) -> durable (trim f) = length (content (trim f)).
Proof.
  intros Hd. unfold trim; cbn [durable content]. rewrite length_take, Hd. unfold blen.
  destruct (_ <? _)%Z eqn:E; lia.
Qed.

Lemma read_all_ok log rs fs f :
  all_ok rs -> 3 <= length rs -> fs !! file_of log = Some f -> is_u64 (blen (content f)) ->
  exists rs' fs', read_all log (mkOS rs fs) = (Ret (scan (content f)).1, mkOS rs' fs') /\
    all_ok rs' /\ length rs <= length rs' + 3 /\ dom fs' = dom fs /\
    (forall dir, logs_only dir fs -> logs_only dir fs') /\
    (forall q, q <> file_of log -> fs' !! q = fs !! q) /\
    fs' !! file_of log = Some (trim f).
Proof.
  intros Hok Hlen Hf Hb.
  destruct rs as [|r1 [|r2 [|r3 rs]]]; simpl in Hlen; try lia.
  apply Forall_cons in Hok as [[a ->] Hok]. apply Forall_cons in Hok as [[b ->] Hok].
  pose proof Hok as Hok2. apply Forall_cons in Hok as [[c ->] Hok].
  unfold read_all, file_exists, sys, gets.
  unfold mbind, M_bind, mret, M_ret, throw, modify, on_files. simpl.
  rewrite bool_decide_eq_true_2 by (by exists f). simpl.
  assert (file_at fs (file_of log) = f) as -> by (unfold file_at; by rewrite Hf).
  pose proof (scan_valid _ Hb) as (_ & Hn & [tail Htail] & _). unfold trim.
  destruct (scan (content f)) as [records n] eqn:Escan. cbn [fst snd] in *.
  destruct (n <? _)%Z eqn:E.
  - do 2 eexists. split; [done|]. split_and!; [done|simpl; lia| | | |].
    + unfold truncate_file. apply dom_insert_lookup_L. by exists f.
    + intros dir Hlogs. by apply logs_only_truncate.
    + intros q Hq. unfold truncate_file. by rewrite lookup_insert_ne.
    + unfold truncate_file. rewrite lookup_insert_eq. unfold file_at. simpl. by rewrite Hf.
  - do 2 eexists. split; [done|]. split_and!; [done|simpl; lia|done|done|done|].
    rewrite Hf. f_equal. unfold blen in *. rewrite take_ge by lia. by destruct f.
Qed.

(** *** Building a topic *)

Lemma messages_of_ensure p topic q :
  (0 <= p)%Z -> (0 <= q)%Z ->
  messages_of (ensure_partition p topic) q = messages_of topic q.
Proof.
  intros Hp Hq. unfold messages_of, ensure_partition; simpl. rewrite list_lookup_alter.
  set (parts := if (_ <=? _)%Z then _ else _).
  assert (match parts !! Z.to_nat q with Some part => messages part | None => [] end =
          match partitions topic !! Z.to_nat q with Some part => messages part | None => [] end)
    as <-.
  { unfold parts. destruct (_ <=? _)%Z; [|done].
    destruct (decide (Z.to_nat q < length (partitions topic))%nat) as [Hl|Hl].
    - by rewrite lookup_app_l.
    - rewrite lookup_app_r by lia. rewrite (proj2 (lookup_ge_None (partitions topic) (Z.to_nat q))) by lia.
      destruct (repeat _ _ !! _) as [part|] eqn:E; [|done].
      apply list_elem_of_lookup_2, list_elem_of_In, repeat_spec in E. by subst part. }
  case_decide as H; [|done]. subst. rewrite <-H. by destruct (parts !! Z.to_nat p).
Qed.

Lemma length_ensure p topic :
  (0 <= p)%Z -> (p < Z.of_nat (length (partitions (ensure_partition p topic))))%Z.
Proof.
  intros Hp. unfold ensure_partition; simpl. rewrite length_alter.
  destruct (_ <=? _)%Z eqn:E; [|lia]. rewrite length_app, repeat_length. lia.
Qed.

Lemma messages_of_push_records p records : forall topic q,
  (0 <= p < Z.of_nat (length (partitions topic)))%Z -> (0 <= q)%Z ->
  messages_of (push_records p records topic) q =
    if decide (q = p) then messages_of topic p ++ map payload records else messages_of topic q.
Proof.
  unfold push_records. induction records as [|r records IH]; intros topic q Hp Hq; simpl.
  { rewrite app_nil_r. by case_decide; subst. }
  rewrite IH by (by rewrite ?length_push). rewrite !messages_of_push by lia.
  repeat case_decide; simplify_eq; [|done]. by rewrite <-app_assoc.
Qed.

Section recovery_facts.
Context {P : Type} {order : IterOrder}.

Implicit Types w : World P.

(** What is on disk for a partition, and the progress a follower takes from it. *)
Definition on_disk (dir : bytes) (fs : gmap Path file) (tp : TopicPartition) : list bytes :=
  recovered (file_at fs (log_at dir (tp_topic tp) (tp_partition tp))).

Definition recovered_progress (role : BrokerRole) (ms : list bytes) (old : option Z) : option Z :=
  if bool_decide (role = FOLLOWER) && negb (bool_decide (ms = []))
  then Some (size ms - 1)%Z else old.

(** A part of the recovery that uses at most [n] answers and changes no path outside
    [touched], nor the set of paths. *)
Definition frame w w' (n : nat) (touched : Path -> Prop) : Prop :=
  all_ok (script (os w')) /\ length (script (os w)) <= length (script (os w')) + n /\
  dom (files (os w')) = dom (files (os w)) /\
  (forall dir, logs_only dir (files (os w)) -> logs_only dir (files (os w'))) /\
  (forall q, ~ touched q -> files (os w') !! q = files (os w) !! q) /\
  same_config (broker w) (broker w').

Lemma frame_refl w touched : all_ok (script (os w)) -> frame w w 0 touched.
Proof. intros Hok. split_and!; try done. lia. Qed.

Lemma frame_trans w1 w2 w3 n m (t1 t2 t3 : Path -> Prop) :
  frame w1 w2 n t1 -> frame w2 w3 m t2 -> (forall q, t1 q \/ t2 q -> t3 q) ->
  frame w1 w3 (n + m) t3.
Proof.
  intros (_ & Hl1 & Hd1 & Ho1 & Hf1 & Hc1) (Hs2 & Hl2 & Hd2 & Ho2 & Hf2 & Hc2) Ht.
  split_and!; [done|lia|congruence|auto| |].
  2: { destruct Hc1 as (? & ? & ?), Hc2 as (? & ? & ?). split_and!; congruence. }
  intros q Hq. rewrite Hf2, Hf1 by (intros ?; apply Hq, Ht; auto). done.
Qed.

Lemma recover_file_ok t name p topic w f :
  log_index name = Some (inr p) -> log_number p -> t <> [] -> all_ok (script (os w)) -> 3 <= length (script (os w)) ->
  files (os w) !! log_at (data_dir_ (broker w)) t p = Some f ->
  is_u64 (blen (content f)) ->
  exists topic' w', recover_file t name topic w = (Ret (Some topic'), w') /\
    (forall q, (0 <= q)%Z -> messages_of topic' q =
       if decide (q = p) then messages_of topic p ++ recovered f else messages_of topic q) /\
    frame w w' 3 (eq (log_at (data_dir_ (broker w)) t p)) /\
    files (os w') !! log_at (data_dir_ (broker w)) t p = Some (trim f) /\
    topics_ (broker w') = topics_ (broker w) /\
    forall tp, replication_progress_ (broker w') !! tp =
      if decide (tp = mkTP t p)
      then recovered_progress (role_ (broker w)) (recovered f)
             (replication_progress_ (broker w) !! tp)
      else replication_progress_ (broker w) !! tp.
Proof.
  intros Hname Hp Ht Hok Hlen Hf Hb. set (dir := data_dir_ (broker w)) in *.
  set (log := mkTopicLog t p dir (log_path_of dir t p)).
  destruct (read_all_ok log (script (os w)) (files (os w)) f Hok Hlen Hf Hb)
    as (rs' & fs' & Hread & Hok' & Hlen' & Hdom & Hlogs & Hsame & Hf').
  set (w1 := mkWorld (broker w) (mkOS rs' fs') (peer w)).
  assert (frame w w1 3 (eq (log_at dir t p))) as Hframe.
  { split_and!; [done|done|done|done| |done]. intros q Hq. apply Hsame. by intros ->. }
  set (records := (scan (content f)).1) in *.
  exists (push_records p records (ensure_partition p topic)).
  assert (0 <= p)%Z as Hp0 by apply Hp.
  assert (on_os (log ← new_TopicLog t p dir; read_all log) w = (Ret records, w1)) as Hos.
  { unfold on_os, zoom, new_TopicLog. rewrite bool_decide_eq_false_2 by done.
    rewrite (proj2 (Z.ltb_ge p 0)) by lia. unfold mbind, M_bind, mret, M_ret. fold log.
    destruct (os w) as [rs fs] eqn:Eos. simpl in Hread. by rewrite Hread. }
  set (b := bool_decide (role_ (broker w) = FOLLOWER) && negb (bool_decide (records = []))).
  set (w2 := if b then on_broker (set_progress (mkTP t p)
                 (Z.of_nat (length records) - 1)) w1 else w1).
  exists w2. split_and!.
  - unfold recover_file. rewrite Hname.
    rewrite (proj2 (Z.ltb_ge p 0)), (proj2 (Z.eqb_neq p INT_MAX))
      by (unfold log_number in Hp; lia). cbn [orb].
    rewrite (bind_ret _ _ w (broker w) w) by done. fold dir.
    rewrite (bind_ret _ _ _ _ _ Hos). fold b. unfold w2. by destruct b.
  - intros q Hq. rewrite messages_of_push_records by (done || (split; [done|by apply length_ensure])).
    rewrite !messages_of_ensure by done. done.
  - unfold w2. by destruct b.
  - unfold w2. by destruct b.
  - unfold w2. by destruct b.
  - intros tp. unfold recovered_progress, recovered, size. rewrite length_map. fold records.
    assert (bool_decide (map payload records = []) = bool_decide (records = [])) as ->
      by (by destruct records).
    fold b. unfold w2. destruct b; simpl; [|by case_decide].
    rewrite lookup_insert. repeat case_decide; congruence.
Qed.

(** The inner loop over the logs [ps] of a topic. *)
Lemma recover_files_ok t ps : forall topic found w,
  dir_ok (data_dir_ (broker w)) -> plain t -> NoDup ps -> Forall log_number ps ->
  all_ok (script (os w)) -> 3 * length ps <= length (script (os w)) ->
  (forall p, p ∈ ps -> exists f, files (os w) !! log_at (data_dir_ (broker w)) t p = Some f /\
     is_u64 (blen (content f))) ->
  let disk p := on_disk (data_dir_ (broker w)) (files (os w)) (mkTP t p) in
  exists topic' w', recover_files t (map log_name ps) topic found w =
      (Ret (topic', found || negb (bool_decide (ps = []))), w') /\
    (forall q, (0 <= q)%Z -> messages_of topic' q =
       messages_of topic q ++ (if decide (q ∈ ps) then disk q else [])) /\
    frame w w' (3 * length ps)
      (fun q => exists p, p ∈ ps /\ q = log_at (data_dir_ (broker w)) t p) /\
    (forall p, p ∈ ps ->
       files (os w') !! log_at (data_dir_ (broker w)) t p =
       trim <$> files (os w) !! log_at (data_dir_ (broker w)) t p) /\
    topics_ (broker w') = topics_ (broker w) /\
    forall tp, replication_progress_ (broker w') !! tp =
      if decide (tp_topic tp = t /\ tp_partition tp ∈ ps)
      then recovered_progress (role_ (broker w)) (disk (tp_partition tp))
             (replication_progress_ (broker w) !! tp)
      else replication_progress_ (broker w) !! tp.
Proof.
  induction ps as [|p ps IH]; intros topic found w Hdir Ht Hnd Hnum Hok Hlen Hfs disk.
  { exists topic, w. split_and!; [by rewrite orb_false_r| |by apply frame_refl| |done|].
    - intros q _. rewrite decide_False by apply not_elem_of_nil. by rewrite app_nil_r.
    - by intros p ?%not_elem_of_nil.
    - intros tp. rewrite decide_False; [done|]. by intros [_ ?%not_elem_of_nil]. }
  apply NoDup_cons in Hnd as [Hpps Hnd]. apply Forall_cons in Hnum as [Hp Hnum].
  destruct (Hfs p) as (f & Hf & Hb); [by constructor|]. simpl in Hlen.
  destruct (recover_file_ok t (log_name p) p topic w f (log_name_index p Hp))
    as (topic1 & w1 & Hrun1 & Hm1 & Hfr1 & Hf1 & Ht1 & Hpr1); [done|by apply Ht|done|lia|done|done|].
  pose proof Hfr1 as (Hok1 & Hlen1 & _ & _ & Hsame1 & (Hrole1 & _ & Hdir1)).
  assert (Hother : forall q, q ∈ ps -> files (os w1) !! log_at (data_dir_ (broker w)) t q =
    files (os w) !! log_at (data_dir_ (broker w)) t q).
  { intros q Hq. apply Hsame1. intros [_ <-]%log_number_inj; [done..|].
    by eapply (proj1 (Forall_forall _ _) Hnum). }
  destruct (IH topic1 true w1) as (topic2 & w2 & Hrun2 & Hm2 & Hfr2 & Hf2 & Ht2 & Hpr2);
    [by rewrite Hdir1|done..|lia| |].
  { intros q Hq. rewrite Hdir1, Hother by done. apply Hfs. by constructor. }
  rewrite Hdir1 in Hm2, Hfr2, Hf2, Hpr2. rewrite Hrole1 in Hpr2. cbv zeta in Hm2, Hpr2.
  assert (Hdisk : forall q, q ∈ ps -> on_disk (data_dir_ (broker w)) (files (os w1)) (mkTP t q) = disk q).
  { intros q Hq. unfold disk, on_disk, file_at; simpl. by rewrite Hother. }
  assert (disk p = recovered f) as Hdp by (unfold disk, on_disk, file_at; simpl; by rewrite Hf).
  exists topic2, w2. split_and!.
  - cbn [map recover_files]. rewrite (bind_ret _ _ _ _ _ Hrun1). by rewrite Hrun2, orb_true_r.
  - intros q Hq. rewrite Hm2, Hm1 by done. destruct (decide (q = p)) as [->|Hne].
    + rewrite (decide_False (P := p ∈ ps)), (decide_True (P := p ∈ p :: ps)) by (done || by constructor).
      by rewrite app_nil_r, Hdp.
    + case_decide as Hin.
      * rewrite decide_True by (by constructor). by rewrite Hdisk.
      * rewrite decide_False; [done|]. by intros [?|?]%elem_of_cons.
  - replace (3 * length (p :: ps)) with (3 + 3 * length ps) by (simpl; lia).
    eapply frame_trans; [exact Hfr1|exact Hfr2|].
    intros q [<-|(p' & Hp' & ->)]; [exists p|exists p']; (split; [by constructor|done]).
  - intros q [->|Hq]%elem_of_cons; [|by rewrite Hf2, Hother].
    pose proof Hfr2 as (_ & _ & _ & _ & Hsame2 & _). rewrite Hsame2; [by rewrite Hf1, Hf|].
    intros (p' & Hp' & Heq). apply log_number_inj in Heq as [_ <-]; [done..|].
    by eapply (proj1 (Forall_forall _ _) Hnum).
  - congruence.
  - intros [t' q]. rewrite Hpr2, Hpr1. simpl.
    destruct (decide (t' = t)) as [->|Hne]; cycle 1.
    { rewrite !decide_False by naive_solver. done. }
    destruct (decide (q = p)) as [->|Hne].
    + rewrite (decide_False (P := _ /\ p ∈ ps)), decide_True, decide_True by
        (done || (intros []; done) || (split; [done|by constructor])).
      by rewrite Hdp.
    + rewrite (decide_False (P := mkTP t q = _)) by congruence. case_decide as Hin.
      * rewrite decide_True by (split; [done|constructor; apply Hin]). by rewrite Hdisk by apply Hin.
      * rewrite decide_False; [done|]. intros [_ [?|?]%elem_of_cons]; naive_solver.
Qed.

(** *** Topics *)

Lemma unit_map_ext (m1 m2 : gmap bytes unit) :
  (forall k, is_Some (m1 !! k) <-> is_Some (m2 !! k)) -> m1 = m2.
Proof.
  intros Hk. apply map_eq. intros k. specialize (Hk k).
  destruct (m1 !! k) as [[]|], (m2 !! k) as [[]|]; [done| | |done].
  - destruct (proj1 Hk) as [? [=]]; eauto.
  - destruct (proj2 Hk) as [? [=]]; eauto.
Qed.

Lemma sub_files_dom dir fs fs' : dom fs' = dom fs -> sub_files dir fs' = sub_files dir fs.
Proof.
  intros Hd. apply unit_map_ext. intros k. rewrite !sub_files_spec.
  by rewrite <-!elem_of_dom, Hd.
Qed.

Lemma on_disk_absent dir fs tp :
  fs !! log_at dir (tp_topic tp) (tp_partition tp) = None -> on_disk dir fs tp = [].
Proof.
  intros Hf. unfold on_disk, file_at. rewrite Hf. apply (recovered_log _ []); [|done].
  split; [constructor|done].
Qed.

Lemma recovered_progress_nil role old : recovered_progress role [] old = old.
Proof. unfold recovered_progress. by rewrite andb_false_r. Qed.

(** The log of a partition, if there is one. *)
Definition log_in (dir : bytes) (fs : gmap Path file) (tp : TopicPartition) : option file :=
  fs !! log_at dir (tp_topic tp) (tp_partition tp).

(** A directory below the data directory is a topic's, and holds a log. *)
Lemma sub_dir_plain dir fs t :
  logs_only dir fs -> is_Some (sub_dirs dir fs !! t) ->
  plain t /\ exists p, log_number p /\ is_Some (fs !! log_at dir t p).
Proof.
  intros [Hdir Hlogs] (x & rest & [f Hf])%sub_dirs_spec.
  destruct (Hlogs _ _ Hf) as (t' & p & [= -> -> ->] & Ht & Hp & _). split; [done|].
  exists p. split; [done|]. rewrite log_in_topic by (done || by apply log_number_small).
  by exists f.
Qed.

(** A topic whose directory holds a log. *)
Lemma recover_topic_ok t w :
  let dir := data_dir_ (broker w) in
  let n := base.size (sub_files (dir ++ lit "/" ++ t) (files (os w))) in
  logs_only dir (files (os w)) -> is_Some (sub_dirs dir (files (os w)) !! t) ->
  all_ok (script (os w)) -> 3 * n <= length (script (os w)) ->
  exists w', recover_topic t w = (Ret tt, w') /\
    frame w w' (3 * n) (fun q => exists p, log_number p /\ q = log_at dir t p) /\
    (forall tp, is_tp tp ->
       view w' tp = if decide (tp_topic tp = t) then on_disk dir (files (os w)) tp
                    else view w tp) /\
    (forall tp, stored tp -> log_in dir (files (os w')) tp =
       if decide (tp_topic tp = t) then trim <$> log_in dir (files (os w)) tp
       else log_in dir (files (os w)) tp) /\
    (forall tp, is_tp tp -> replication_progress_ (broker w') !! tp =
       if decide (tp_topic tp = t)
       then recovered_progress (role_ (broker w)) (on_disk dir (files (os w)) tp)
              (replication_progress_ (broker w) !! tp)
       else replication_progress_ (broker w) !! tp).
Proof.
  intros dir n Hlogs Hsub Hok Hlen. pose proof Hlogs as [Hdir _].
  destruct (sub_dir_plain dir _ t Hlogs Hsub) as (Ht & p0 & Hp0 & Hf0).
  destruct (topic_numbers dir (files (os w)) t Hlogs Ht) as (ps & Hps & Hnd & Hnum & Hin).
  assert (Hnps : n = length ps).
  { unfold n. rewrite <-(length_iter (sub_files (dir ++ lit "/" ++ t) (files (os w)))).
    rewrite Hps. apply length_map. }
  assert (ps <> []) as Hne.
  { intros ->. by apply (not_elem_of_nil p0), Hin. }
  assert (forall q, q ∈ ps -> log_number q) as Hnumber
    by (intros q; by apply (proj1 (Forall_forall _ _) Hnum)).
  destruct (recover_files_ok t ps (new_Topic t) false w) as (topic & w1 & Hrun & Hm & Hfr & Hfs & Htop & Hpr);
    [done..|lia| |].
  { intros p Hp. destruct (proj1 (Hin p (Hnumber p Hp)) Hp) as [f Hf]. exists f. split; [done|].
    by destruct (logs_only_log dir _ t p f Hlogs (log_number_int p (Hnumber p Hp))
      (plain_normal t Ht) Hf) as (_ & _ & Hb). }
  cbv zeta in Hm, Hpr. fold dir in Hm, Hpr, Hfr, Hfs.
  assert (Hno : forall q, is_int q -> q ∉ ps -> files (os w) !! log_at dir t q = None).
  { intros q Hq Hnin. apply eq_None_not_Some. intros [f Hf]. apply Hnin.
    apply Hin; [|by exists f].
    by destruct (logs_only_log dir _ t q f Hlogs Hq (plain_normal t Ht) Hf). }
  assert (Hdisk : forall q, is_int q -> q ∉ ps -> on_disk dir (files (os w)) (mkTP t q) = [])
    by (intros q Hq Hnin; apply on_disk_absent; by apply Hno).
  exists (on_broker (set_topics (insert t topic)) w1). split_and!.
  - unfold recover_topic. rewrite bool_decide_eq_false_2 by apply Ht.
    rewrite (bind_ret _ _ w w w) by done. fold dir. rewrite Hps.
    rewrite (bind_ret _ _ _ _ _ Hrun). rewrite bool_decide_eq_false_2 by done. done.
  - rewrite Hnps. destruct Hfr as (H1 & H2 & H3 & H4 & H5 & H6). split_and!; try done.
    intros q Hq. apply H5. intros (p & Hp & ->). apply Hq. exists p. auto.
  - intros [t' q] Hq. unfold is_tp in Hq; simpl in Hq. unfold view, log_view. simpl. rewrite Htop.
    rewrite lookup_insert. rewrite (proj2 (Z.ltb_ge q 0)) by (unfold is_int in Hq; lia).
    destruct (decide (t = t')) as [<-|Hne'].
    + rewrite decide_True by done. rewrite Hm, messages_of_new by (unfold is_int in Hq; lia). simpl.
      case_decide; [done|]. symmetry. by apply Hdisk.
    + by rewrite decide_False by congruence.
  - intros [t' q] [Hq Ht']. unfold is_tp in Hq; simpl in Hq, Ht'. unfold log_in; simpl.
    destruct Hfr as (_ & _ & _ & _ & Hsame & _).
    assert (Hnone : q ∉ ps \/ t' <> t ->
      files (os w1) !! log_at dir t' q = files (os w) !! log_at dir t' q).
    { intros Hor. apply Hsame. intros (p & Hp & Heq).
      apply log_at_inj in Heq as [-> ->]; [by destruct Hor|done|done|by apply plain_normal
        |by apply is_int_small|by apply log_number_small, Hnumber]. }
    destruct (decide (t' = t)) as [->|Hne']; [|by apply Hnone; right].
    destruct (decide (q ∈ ps)) as [Hin'|Hnin]; [by apply Hfs|].
    rewrite Hnone, Hno; [done..|by left].
  - intros [t' q] Hq. unfold is_tp in Hq. simpl in *. rewrite Hpr. simpl.
    destruct (decide (t' = t)) as [->|Hne']; [|by rewrite decide_False by naive_solver].
    destruct (decide (q ∈ ps)) as [Hin'|Hnin].
    + by rewrite decide_True.
    + rewrite decide_False by naive_solver. by rewrite Hdisk, recovered_progress_nil.
Qed.

Lemma sub_dirs_dom dir fs fs' : dom fs' = dom fs -> sub_dirs dir fs' = sub_dirs dir fs.
Proof.
  intros Hd. apply unit_map_ext. intros k. rewrite !sub_dirs_spec.
  by setoid_rewrite <-elem_of_dom; rewrite Hd.
Qed.

(** What is on disk depends on the log alone. *)
Lemma on_disk_same dir fs fs' tp :
  log_in dir fs' tp = log_in dir fs tp -> on_disk dir fs' tp = on_disk dir fs tp.
Proof. unfold log_in, on_disk, file_at. by intros ->. Qed.

(** The answers the recovery of some topics may use. *)
Definition answers (dir : bytes) (fs : gmap Path file) (ts : list bytes) : nat :=
  sum_list_with (fun t => 3 * base.size (sub_files (dir ++ lit "/" ++ t) fs)) ts.

Lemma answers_dom dir fs fs' ts : dom fs' = dom fs -> answers dir fs' ts = answers dir fs ts.
Proof.
  intros Hd. unfold answers. induction ts as [|t ts IH]; [done|].
  cbn [sum_list_with]. by rewrite IH, (sub_files_dom _ fs fs').
Qed.

Lemma answers_sum dir fs ts :
  answers dir fs ts =
  3 * sum_list_with (fun t => base.size (sub_files (dir ++ lit "/" ++ t) fs)) ts.
Proof.
  unfold answers. induction ts as [|t ts IH]; [done|]. cbn [sum_list_with]. rewrite IH. lia.
Qed.

Lemma decide_cons {A} (x t : bytes) (ts : list bytes) (Hne : x <> t) (a b : A) :
  (if decide (x ∈ t :: ts) then a else b) = if decide (x ∈ ts) then a else b.
Proof.
  apply decide_ext. rewrite elem_of_cons. naive_solver.
Qed.

Lemma recover_topics_ok ts : forall w,
  let dir := data_dir_ (broker w) in
  logs_only dir (files (os w)) -> NoDup ts ->
  Forall (fun t => is_Some (sub_dirs dir (files (os w)) !! t)) ts ->
  all_ok (script (os w)) -> answers dir (files (os w)) ts <= length (script (os w)) ->
  exists w', recover_topics ts w = (Ret tt, w') /\ same_config (broker w) (broker w') /\
    logs_only dir (files (os w')) /\
    (forall tp, is_tp tp ->
       view w' tp = if decide (tp_topic tp ∈ ts) then on_disk dir (files (os w)) tp
                    else view w tp) /\
    (forall tp, stored tp -> log_in dir (files (os w')) tp =
       if decide (tp_topic tp ∈ ts) then trim <$> log_in dir (files (os w)) tp
       else log_in dir (files (os w)) tp) /\
    (forall tp, is_tp tp -> replication_progress_ (broker w') !! tp =
       if decide (tp_topic tp ∈ ts)
       then recovered_progress (role_ (broker w)) (on_disk dir (files (os w)) tp)
              (replication_progress_ (broker w) !! tp)
       else replication_progress_ (broker w) !! tp).
Proof.
  induction ts as [|t ts IH]; intros w dir Hlogs Hnd Hts Hok Hlen.
  { exists w. split_and!; [done|done|done|..];
      intros tp _; (rewrite decide_False; [done|apply not_elem_of_nil]). }
  apply NoDup_cons in Hnd as [Ht Hnd]. apply Forall_cons in Hts as [Hsub Hts].
  unfold answers in Hlen; cbn [sum_list_with] in Hlen. fold (answers dir (files (os w)) ts) in Hlen.
  destruct (recover_topic_ok t w) as (w1 & Hrun1 & Hfr1 & Hv1 & Hf1 & Hp1); [done..|fold dir; lia|].
  fold dir in Hfr1, Hv1, Hf1, Hp1.
  destruct Hfr1 as (Hok1 & Hlen1 & Hdom1 & Hlogs1 & _ & Hcfg1).
  pose proof Hcfg1 as (Hrole1 & Hport1 & Hdir1). fold dir in Hdir1.
  destruct (IH w1) as (w2 & Hrun2 & Hcfg2 & Hlogs2 & Hv2 & Hf2 & Hp2).
  { rewrite Hdir1. by apply Hlogs1. } { done. }
  { rewrite Hdir1, (sub_dirs_dom _ (files (os w))) by done. done. } { done. }
  { rewrite Hdir1, (answers_dom _ (files (os w))) by done. lia. }
  rewrite Hdir1 in Hlogs2, Hv2, Hf2, Hp2. rewrite Hrole1 in Hp2.
  assert (Hsame : forall tp, is_tp tp -> tp_topic tp ∈ ts -> tp_topic tp <> t ->
    on_disk dir (files (os w1)) tp = on_disk dir (files (os w)) tp).
  { intros tp Hn Hin Hdiff. apply on_disk_same. rewrite Hf1; [by rewrite decide_False|].
    split; [done|]. apply plain_normal, (sub_dir_plain dir (files (os w))); [done|].
    by apply (proj1 (Forall_forall _ _) Hts). }
  exists w2. split_and!.
  - cbn [recover_topics]. by rewrite (bind_ret _ _ _ _ _ Hrun1).
  - destruct Hcfg2 as (? & ? & ?). split_and!; [congruence..|]. by transitivity (data_dir_ (broker w1)).
  - done.
  - intros tp Hn. rewrite Hv2, Hv1 by done. destruct (decide (tp_topic tp = t)) as [->|Hdiff].
    + by rewrite (decide_False (P := t ∈ ts)), decide_True by (done || by constructor).
    + rewrite (decide_cons _ _ ts Hdiff). case_decide; [by apply Hsame|done].
  - intros tp Hn. rewrite Hf2, Hf1 by done. destruct (decide (tp_topic tp = t)) as [->|Hdiff].
    + by rewrite (decide_False (P := t ∈ ts)), decide_True by (done || by constructor).
    + by rewrite (decide_cons _ _ ts Hdiff).
  - intros tp Hn. rewrite Hp2, Hp1 by done. destruct (decide (tp_topic tp = t)) as [->|Hdiff].
    + by rewrite (decide_False (P := t ∈ ts)), decide_True by (done || by constructor).
    + rewrite (decide_cons _ _ ts Hdiff). case_decide; [by rewrite Hsame|done].
Qed.

Lemma sum_list_with_perm {A} (f : A -> nat) l k :
  l ≡ₚ k -> sum_list_with f l = sum_list_with f k.
Proof. induction 1; simpl; lia. Qed.

(** What recovery makes of the partitions, from the files [fs]. *)
Definition restored (dir : bytes) (fs : gmap Path file) w w' : Prop :=
  (forall tp, stored tp ->
     view w' tp = on_disk dir fs tp /\
     replication_progress_ (broker w') !! tp =
       recovered_progress (role_ (broker w)) (on_disk dir fs tp)
         (replication_progress_ (broker w) !! tp)) /\
  (forall tp, is_tp tp -> ~ plain (tp_topic tp) ->
     view w' tp = [] /\
     replication_progress_ (broker w') !! tp = replication_progress_ (broker w) !! tp).

(** The whole startup. *)
Lemma recover_ok dir w :
  logs_only dir (files (os w)) -> topics_ (broker w) = ∅ ->
  all_ok (script (os w)) -> 3 * log_count dir (files (os w)) <= length (script (os w)) ->
  exists w', recover_from_disk dir w = (Ret tt, w') /\
    same_config (set_data_dir dir (broker w)) (broker w') /\
    logs_only dir (files (os w')) /\
    (forall tp, stored tp ->
       log_in dir (files (os w')) tp = trim <$> log_in dir (files (os w)) tp) /\
    restored dir (files (os w)) w w'.
Proof.
  intros Hlogs Hempty Hok Hlen. pose proof Hlogs as [[Hne Hnul] _].
  set (w0 := on_broker (set_data_dir dir) w).
  set (ts := map fst (iter (sub_dirs dir (files (os w))))).
  destruct (recover_topics_ok ts w0) as (w' & Hrun & Hcfg & Hlogs' & Hv & Hf & Hp);
    [done|apply NoDup_iter| |done| |].
  { apply Forall_forall. by intros t Ht%elem_of_iter. }
  { change (answers dir (files (os w)) ts <= length (script (os w))).
    by rewrite answers_sum, (sum_list_with_perm _ ts _ (fmap_Permutation fst _ _ (iter_perm _ _))). }
  assert (Hview0 : forall tp, view w0 tp = [])
    by (intros tp; unfold view, log_view; simpl; by rewrite Hempty).
  assert (Habs : forall tp, stored tp -> tp_topic tp ∉ ts ->
    log_in dir (files (os w)) tp = None).
  { intros [t p] [Hp' Hn] Hout. unfold is_tp in Hp'; simpl in Hp', Hn, Hout.
    apply eq_None_not_Some. intros [f Hfile]. apply Hout. unfold log_in in Hfile; simpl in Hfile.
    destruct (logs_only_log dir _ t p f Hlogs Hp' Hn Hfile) as (Hnum & Ht & _).
    apply elem_of_iter, sub_dirs_spec. rewrite log_in_topic in Hfile
      by (done || by apply log_number_small). exists (log_name p), []. by exists f. }
  exists w'. split_and!; [|exact Hcfg|done|..].
  - unfold recover_from_disk. rewrite (bind_ret _ _ w tt w0) by done.
    rewrite c_str_id, bool_decide_eq_false_2 by done.
    by rewrite (bind_ret _ _ w0 w0 w0) by done.
  - intros tp Hst. rewrite Hf by done. case_decide as Hin; [done|].
    transitivity (log_in dir (files (os w)) tp); [done|]. by rewrite (Habs tp Hst Hin).
  - split.
    + intros tp Hst. rewrite Hv, Hp by apply Hst. simpl. case_decide as Hin; [done|].
      rewrite Hview0, on_disk_absent by exact (Habs tp Hst Hin).
      by rewrite recovered_progress_nil.
    + intros tp Htp Hplain. assert (tp_topic tp ∉ ts) as Hout.
      { intros Hin%elem_of_iter. apply Hplain. by apply (sub_dir_plain dir (files (os w))). }
      rewrite Hv, Hp, !decide_False by done. by rewrite Hview0.
Qed.

End recovery_facts.

(** ** Properties *)

Section properties.
Context {P : Type} {order : IterOrder}.

Implicit Types w : World P.

(** C9. Startup.  When only partition logs lie below the data directory and the kernel
    reports no error, recovery terminates after at most three kernel answers a file, and
    every partition of the broker holds exactly the valid records at the start of its log;
    a follower's progress is the offset of the last one.  A topic whose name no directory
    entry can have comes back empty.  The order in which directories are walked makes no
    difference. *)
Theorem recover_from_disk_restores dir w :
  logs_only dir (files (os w)) -> topics_ (broker w) = ∅ -> all_ok (script (os w)) ->
  3 * log_count dir (files (os w)) <= length (script (os w)) ->
  exists w', recover_from_disk dir w = (Ret tt, w') /\
    (forall tp, stored tp ->
       view w' tp = on_disk dir (files (os w)) tp /\
       replication_progress_ (broker w') !! tp =
         recovered_progress (role_ (broker w)) (on_disk dir (files (os w)) tp)
           (replication_progress_ (broker w) !! tp)) /\
    (forall tp, is_tp tp -> ~ plain (tp_topic tp) ->
       view w' tp = [] /\
       replication_progress_ (broker w') !! tp = replication_progress_ (broker w) !! tp).
Proof.
  intros Hlogs Hempty Hok Hlen.
  destruct (recover_ok dir w Hlogs Hempty Hok Hlen) as (w' & Hrun & _ & _ & _ & Hv).
  by exists w'.
Qed.

(** A stray file named partition-<p>.<anything>.log makes recovery read the log of the
    partition once more: its messages are twice in memory. *)
Theorem stray_log_duplicates w t p junk f :
  log_number p -> t <> [] -> all_ok (script (os w)) -> 6 <= length (script (os w)) ->
  files (os w) !! log_at (data_dir_ (broker w)) t p = Some f ->
  is_u64 (blen (content f)) ->
  let stray := lit "partition-" ++ to_string p ++ lit "." ++ junk ++ lit ".log" in
  exists topic w', recover_files t [log_name p; stray] (new_Topic t) false w =
      (Ret (topic, true), w') /\
    messages_of topic p = recovered f ++ recovered f.
Proof.
  intros Hp Ht Hok Hlen Hf Hb stray.
  destruct (recover_file_ok t (log_name p) p (new_Topic t) w f (log_name_index p Hp))
    as (topic1 & w1 & Hrun1 & Hm1 & Hfr1 & Hf1 & _); [done..|lia|done|done|].
  destruct (trim_ok f Hb) as [Hb1 Hr1].
  destruct Hfr1 as (Hok1 & Hlen1 & _ & _ & _ & (_ & _ & Hdir1)). rewrite <-Hdir1 in Hf1.
  destruct (recover_file_ok t stray p topic1 w1 (trim f) (stray_index p junk Hp))
    as (topic2 & w2 & Hrun2 & Hm2 & _); [done..|lia|done|done|].
  exists topic2, w2. split.
  - cbn [recover_files]. by rewrite (bind_ret _ _ _ _ _ Hrun1), (bind_ret _ _ _ _ _ Hrun2).
  - assert (0 <= p)%Z by apply Hp. rewrite Hm2, decide_True, Hm1, decide_True by done.
    by rewrite messages_of_new, Hr1.
Qed.

End properties.

(** A topic whose name holds a slash is stored below a nested directory. *)
Definition slash_produce : Request := mkRequest PRODUCE [] [] (lit "a/b") 0 0 (lit "hi").

Definition demo_recover := @recover_from_disk ClientWorld canonical_order (lit "data").

(** A broker that starts on the files another one left. *)
Definition restart_on (w : World ClientWorld) : World ClientWorld :=
  mkWorld new_Broker (mkOS (repeat (SysOk 0) 9) (files (os w))) demo_net.

(** A topic name may hold a slash: PRODUCE answers [OK], the message is in memory and
    on disk, and after a restart it is gone, because recovery looks one directory deep. *)
Theorem slash_topic_not_recovered :
  let '(r, w) := demo_handle slash_produce demo_broker in
  let '(r', w') := demo_recover (restart_on w) in
  r = Ret (lit "OK") /\ r' = Ret tt /\
  view w (mkTP (lit "a/b") 0) = [lit "hi"] /\
  on_disk (lit "data") (files (os w)) (mkTP (lit "a/b") 0) = [lit "hi"] /\
  view w' (mkTP (lit "a/b") 0) = [].
Proof. vm_compute. repeat split. Qed.

(** A topic may be called ".": its log is then a file of the data directory itself, and
    recovery, which reads the logs of the directory's directories, does not find it. *)
Theorem dot_topic_not_recovered :
  let '(r, w) := demo_handle (mkRequest PRODUCE [] [] (lit ".") 0 0 (lit "hi")) demo_broker in
  let '(r', w') := demo_recover (restart_on w) in
  r = Ret (lit "OK") /\ r' = Ret tt /\
  names <$> (fst <$> map_to_list (files (os w))) = [[lit "data"; log_name 0]] /\
  view w (mkTP (lit ".") 0) = [lit "hi"] /\ view w' (mkTP (lit ".") 0) = [].
Proof. vm_compute. repeat split. Qed.

(** A broker that goes on, with a disk that works. *)
Definition going_on (w : World ClientWorld) : World ClientWorld :=
  mkWorld (broker w) (mkOS (script (os demo_broker)) (files (os w))) demo_net.

(** Two topics, "t" and "./t", have one log file.  Each is apart from the other in
    memory; after a restart the first has the messages of both, and the second none. *)
Theorem alias_topics_share_log :
  let '(r1, w1) := demo_handle (mkRequest PRODUCE [] [] (lit "t") 0 0 (lit "x")) demo_broker in
  let '(r2, w2) := demo_handle (mkRequest PRODUCE [] [] (lit "./t") 0 0 (lit "y")) (going_on w1) in
  let '(r3, w3) := demo_recover (restart_on w2) in
  r1 = Ret (lit "OK") /\ r2 = Ret (lit "OK") /\ r3 = Ret tt /\
  view w2 (mkTP (lit "t") 0) = [lit "x"] /\ view w2 (mkTP (lit "./t") 0) = [lit "y"] /\
  view w3 (mkTP (lit "t") 0) = [lit "x"; lit "y"] /\ view w3 (mkTP (lit "./t") 0) = [].
Proof. vm_compute. repeat split. Qed.

(** *** Witnesses *)

Definition demo_files : gmap Path file :=
  let data := log_bytes [mkRecord (lit "x"); mkRecord (lit "y")] in
  {[ log_at (lit "data") (lit "t") 1 := mkFile data (length data) ]}.

Lemma demo_dir_ok : dir_ok (lit "data").
Proof. by split. Qed.

Lemma demo_logs_only : logs_only (lit "data") demo_files.
Proof.
  split; [exact demo_dir_ok|]. intros ns f Hf. unfold demo_files in Hf.
  apply lookup_singleton_Some in Hf as [Heq <-].
  rewrite log_in_topic in Heq; [|exact demo_dir_ok|by split_and!|closed].
  apply under_inj in Heq as <-.
  exists (lit "t"), 1%Z. split_and!; [done|by split_and!|split; closed|closed].
Qed.

Lemma demo_all_ok n : all_ok (repeat (SysOk 0) n).
Proof. induction n; constructor; eauto. Qed.

Definition demo_start : World ClientWorld :=
  mkWorld (configure FOLLOWER (-1) new_Broker) (mkOS (repeat (SysOk 0) 9) demo_files) demo_net.

Lemma recover_from_disk_restores_witness :
  exists w', demo_recover demo_start = (Ret tt, w') /\
    replication_progress_ (broker w') !! mkTP (lit "t") 1 = Some 1%Z.
Proof.
  destruct (@recover_from_disk_restores ClientWorld canonical_order (lit "data")
    demo_start demo_logs_only eq_refl (demo_all_ok 9)) as (w' & Hrun & Hv); [vm_compute; lia|].
  exists w'. split; [exact Hrun|].
  destruct (proj1 Hv (mkTP (lit "t") 1)) as [_ ->];
    [split; [split; closed|apply plain_normal; by split_and!]|]. vm_compute; reflexivity.
Defined.

Lemma stray_log_duplicates_witness :
  exists topic w', @recover_files ClientWorld (lit "t")
      [log_name 1; lit "partition-1.bak.log"] (new_Topic (lit "t")) false demo_start =
      (Ret (topic, true), w') /\
    messages_of topic 1 = [lit "x"; lit "y"; lit "x"; lit "y"].
Proof.
  apply (@stray_log_duplicates ClientWorld demo_start (lit "t") 1
    (lit "bak") (mkFile (log_bytes [mkRecord (lit "x"); mkRecord (lit "y")]) 18)).
  - split; closed.
  - done.
  - exact (demo_all_ok 9).
  - vm_compute; lia.
  - vm_compute; reflexivity.
  - closed.
Defined.
