(* ===== verification/Durability.v ===== *)
(** * What the broker promises about messages, across restarts

    The contract is an abstract machine whose state is one list of messages per partition:
    an event appends its message or not, and must append it when it was acknowledged.  The
    broker refines it: an event is a request handled to its end, or a request during which
    the process may die at any point, followed by a crash of the file system and the start
    of a new process on what is left.  A request may also fail with an exception and the
    process go on serving: then the partition whose [append] failed is out of step with its
    file, and the theorems speak of the others.  Histories of such events keep every
    acknowledged message, in order, and invent none. *)

From S2P Require Import Prelude LogRecord Paths Posix TopicLog Protocol Metrics Topics Groups Client Broker Recovery.

(** ** Definitions *)

(** *** The contract *)

Record event := mkEvent { ev_request : Request; ev_outcome : outcome bytes }.

Definition acknowledged (e : event) : bool :=
  match ev_outcome e with
  | Ret r => bool_decide (r = lit "OK") && bool_decide (appends (ev_request e))
  | _ => false
  end.

Abbreviation logs := (TopicPartition -> list bytes).

Inductive log_step (e : event) (l l' : logs) : Prop :=
| log_kept :
    (forall tp, is_tp tp -> l' tp = l tp) -> acknowledged e = false -> log_step e l l'
| log_grown :
    appends (ev_request e) ->
    (forall tp, is_tp tp -> l' tp =
       if decide (tp = target (ev_request e)) then l tp ++ [r_payload (ev_request e)]
       else l tp) ->
    log_step e l l'.

(** The same contract, seen from one partition. *)
Inductive log_step_at (tp : TopicPartition) (e : event) (ms : list bytes) : list bytes -> Prop :=
| at_kept :
    ~ (acknowledged e = true /\ target (ev_request e) = tp) -> log_step_at tp e ms ms
| at_grown :
    appends (ev_request e) -> target (ev_request e) = tp ->
    log_step_at tp e ms (ms ++ [r_payload (ev_request e)]).

(** *** The broker's runs *)

(** What a crash may leave of the files: of each a crash image, all of it on disk. *)
Definition crash_files (fs fs' : gmap Path file) : Prop :=
  forall path,
    match fs !! path, fs' !! path with
    | Some f, Some f' => crash_image f f' /\ durable f' = length (content f')
    | None, None => True
    | _, _ => False
    end.

(** A message that can be stored: its topic is a name that a directory can have, and no
    log outgrows the 64 bits of its size. *)
Definition storable {P} (w : World P) (req : Request) : Prop :=
  (r_partition req < INT_MAX)%Z /\
  (appends req -> plain (r_topic req)) /\
  forall tp, is_tp tp -> log_fits (view w tp ++ [r_payload req]).

(** The same for the file, which may differ from the log in memory. *)
Definition file_room {P} (w : World P) (req : Request) : Prop :=
  appends req ->
  is_u64 (blen (content (file_at (files (os w)) (log_file w (target req))) ++
                serialize_record (mkRecord (r_payload req)))).

(** A request the process has handled, with a response or an exception, and goes on; or one
    that was followed by the process's end, a crash of the files and a restart. *)
Inductive incident :=
| Handled (e : event)
| Cut (e : event).

Definition event_of (i : incident) : event :=
  match i with Handled e | Cut e => e end.

(** The process went on after an [append] to the partition that may have failed. *)
Definition harms (tp : TopicPartition) (i : incident) : Prop :=
  match i with
  | Handled e => target (ev_request e) = tp /\ failed_append (ev_request e) (ev_outcome e)
  | Cut _ => False
  end.

Section runs.
Context {P : Type} `{Peer P} {order : IterOrder}.

Inductive broker_step (w : World P) : incident -> World P -> Prop :=
| step_handled elapsed req o w' :
    storable w req -> file_room w req -> handle_request elapsed req w = (o, w') ->
    o <> Crash -> broker_step w (Handled (mkEvent req o)) w'
| step_restarted elapsed req o w1 fs rs role port p r w' :
    storable w req -> file_room w req -> handle_request elapsed req w = (o, w1) ->
    crash_files (files (os w1)) fs -> all_ok rs ->
    3 * log_count (data_dir_ (broker w)) fs <= length rs ->
    recover_from_disk (data_dir_ (broker w))
      (mkWorld (configure role port new_Broker) (mkOS rs fs) p) = (r, w') ->
    broker_step w (Cut (mkEvent req o)) w'.


(** The data directory holds nothing but logs. *)
Definition tidy (w : World P) : Prop := logs_only (data_dir_ (broker w)) (files (os w)).

(** And memory and disk agree. *)
Definition intact (w : World P) : Prop := disk_ok w /\ tidy w.

End runs.

(** The messages of a partition that were acknowledged, and those that were asked for. *)
Definition acked_messages (tp : TopicPartition) (es : list event) : list bytes :=
  map (fun e => r_payload (ev_request e))
    (filter (fun e => acknowledged e = true /\ target (ev_request e) = tp) es).

Definition asked_messages (tp : TopicPartition) (es : list event) : list bytes :=
  map (fun e => r_payload (ev_request e))
    (filter (fun e => appends (ev_request e) /\ target (ev_request e) = tp) es).

(** ** Lemmas *)

(** *** Crashes *)

Lemma crash_files_at fs fs' path :
  crash_files fs fs' -> crash_image (file_at fs path) (file_at fs' path).
Proof.
  intros Hc. specialize (Hc path). unfold file_at.
  destruct (fs !! path), (fs' !! path); try done; [by apply Hc|]. by exists 0.
Qed.

Lemma logs_only_crash dir fs fs' :
  crash_files fs fs' -> logs_only dir fs -> logs_only dir fs'.
Proof.
  intros Hc [Hdir Hlogs]. split; [done|]. intros ns f' Hf'.
  specialize (Hc (under (resolve dir) ns)). rewrite Hf' in Hc.
  destruct (fs !! under (resolve dir) ns) as [f|] eqn:Hf; [|done].
  destruct (Hlogs _ _ Hf) as (t & p & ? & ? & ? & Hb). exists t, p.
  split_and!; try done. destruct Hc as [(n & _ & ->) _].
  unfold is_u64, blen in *. rewrite length_take. lia.
Qed.

Lemma logs_only_append dir t p ser oa fs fs' :
  append_effect (log_at dir t p) ser oa fs fs' -> plain t -> log_number p ->
  is_u64 (blen (content (file_at fs (log_at dir t p)) ++ ser)) ->
  logs_only dir fs -> logs_only dir fs'.
Proof.
  intros Heff Ht Hp Hb [Hdir Hlogs]. split; [done|]. intros ns f Hf.
  rewrite log_in_topic in * by (done || by apply log_number_small).
  destruct (decide (ns = [t; log_name p])) as [->|Hne].
  - destruct Heff as [[-> _]|[(k & -> & _)| ->]].
    + by apply (Hlogs [t; log_name p]).
    + exists t, p. split_and!; try done. unfold append_file in Hf.
      rewrite lookup_insert_eq in Hf. injection Hf as <-. cbn [content].
      unfold is_u64 in *. rewrite blen_app in *. unfold blen in *. rewrite length_take. lia.
    + exists t, p. split_and!; try done. unfold sync_file in Hf.
      rewrite lookup_insert_eq, file_at_append in Hf. by injection Hf as <-.
  - assert (under (resolve dir) [t; log_name p] <> under (resolve dir) ns)
      by (intros Heq%under_inj; by subst ns).
    apply (Hlogs ns). destruct Heff as [[-> _]|[(k & -> & _)| ->]]; [done|..];
      revert Hf; unfold sync_file, append_file; by rewrite ?lookup_insert_ne by done.
Qed.

(** *** One event *)

Section events.
Context {P : Type} `{Peer P} {order : IterOrder}.

Implicit Types w : World P.

Lemma storable_names w req : storable w req -> names_log req.
Proof. intros (_ & Ht & _) Ha. by apply plain_normal, Ht. Qed.

(** A log that is on disk has the room its messages leave. *)
Lemma disk_room w req : disk_ok w -> storable w req -> is_tp (target req) -> file_room w req.
Proof.
  intros [_ Hdisk] Hst Htp Ha. pose proof (storable_names w req Hst Ha) as Hn.
  destruct Hst as (_ & _ & Hfit). destruct (Hfit _ Htp) as [_ Hb].
  rewrite (Hdisk (target req)) by done. cbn [content]. rewrite map_app in Hb. simpl in Hb.
  by rewrite log_bytes_snoc in Hb.
Qed.

Lemma tidy_effect req w o w' :
  tidy w -> storable w req -> (is_tp (target req) -> file_room w req) ->
  log_effect req w o w' -> logs_only (data_dir_ (broker w)) (files (os w')).
Proof.
  intros Hlogs (Hp & Ht & _) Hroom Hrun.
  destruct Hrun as [_ -> _|oa Ha Htp _ Heff _|oa Htp Hty _ Heff _]; [done|..];
    (assert (appends req) as Ha' by (done || by right));
    (eapply logs_only_append; [exact Heff|by apply Ht|split; [apply Htp|done]
      |by apply Hroom|done]).
Qed.

Lemma tidy_request elapsed req w o w' :
  tidy w -> storable w req -> file_room w req -> handle_request elapsed req w = (o, w') ->
  logs_only (data_dir_ (broker w)) (files (os w')).
Proof.
  intros Htidy Hst Hroom Hrun. apply handle_request_effect in Hrun; [|destruct Hst; lia].
  by eapply tidy_effect.
Qed.

(** A request that ends well leaves the broker intact. *)
Lemma effect_intact req w r w' :
  intact w -> storable w req -> data_dir_ (broker w') = data_dir_ (broker w) ->
  log_effect req w (Ret r) w' -> (r_type req = REPLICATE -> r = lit "OK") -> intact w'.
Proof.
  intros [Hdisk Htidy] Hst Hdir Heff Hrep.
  split; [apply (effect_keeps_disk_ok req w r); [done|done|by eapply storable_names|done|done]|].
  unfold tidy. rewrite Hdir. eapply tidy_effect; [done|done| |done].
  intros Htp. by apply disk_room.
Qed.

(** An acknowledged request appended its message. *)
Lemma not_acknowledged req o :
  (appends req -> o <> Ret (lit "OK")) -> acknowledged (mkEvent req o) = false.
Proof.
  intros Hno. unfold acknowledged; simpl. destruct o as [r|e|]; [|done..].
  apply andb_false_iff. destruct (decide (appends req)) as [Ha|Ha]; [left|right];
    apply bool_decide_eq_false_2; [intros ->; by apply Hno|done].
Qed.

(** Wherever the process dies during a request, the file that a crash leaves of a
    partition holds what the contract allows. *)
Lemma crash_refines elapsed req w o w1 fs tp :
  dir_ok (data_dir_ (broker w)) -> stored tp -> disk_at w tp -> storable w req ->
  handle_request elapsed req w = (o, w1) -> crash_files (files (os w1)) fs ->
  log_step_at tp (mkEvent req o) (view w tp) (on_disk (data_dir_ (broker w)) fs tp).
Proof.
  intros Hdir Htp Hdisk Hst Hrun Hcrash. pose proof (storable_names w req Hst) as Hname.
  destruct Hst as (Hp & _ & Hfit). specialize (Hfit tp (proj1 Htp)).
  pose proof (crash_files_at _ _ (log_file w tp) Hcrash) as Himg.
  assert (Hsame : file_at (files (os w1)) (log_file w tp) =
      file_at (files (os w)) (log_file w tp) ->
    on_disk (data_dir_ (broker w)) fs tp = view w tp).
  { intros Heq. by apply (unchanged_crash w (files (os w1)));
      [|by eapply log_fits_prefix|..]. }
  apply handle_request_effect in Hrun; [|lia].
  destruct Hrun as [_ Hf Hno|oa Ha Ht _ Heff Hret|oa Ht Hty _ Heff Hno].
  - rewrite Hsame by (by rewrite Hf). apply at_kept. intros [Hack _].
    by rewrite not_acknowledged in Hack.
  - pose proof (stored_target req Ht Ha Hname) as Hst. destruct (decide (tp = target req)) as [->|Hne].
    + destruct (target_crash req w oa _ _ Hdisk Hfit Heff Himg) as [[Hold|Hnew] Hr].
      * unfold on_disk. fold (log_file w (target req)). rewrite Hold. apply at_kept.
        intros [Hack _]. rewrite not_acknowledged in Hack; [done|]. intros _ ->.
        rewrite Hr in Hold by eauto. apply (f_equal length) in Hold.
        rewrite length_app in Hold. simpl in Hold. lia.
      * unfold on_disk. fold (log_file w (target req)). rewrite Hnew. by apply at_grown.
    + rewrite Hsame by (by eapply effect_other). apply at_kept. by intros [_ ?].
  - assert (appends req) as Ha by (by right).
    pose proof (stored_target req Ht Ha Hname) as Hst.
    assert (acknowledged (mkEvent req o) = false) as Hack by (by apply not_acknowledged).
    destruct (decide (tp = target req)) as [->|Hne].
    + destruct (target_crash req w oa _ _ Hdisk Hfit Heff Himg) as [[Hold|Hnew] _];
        unfold on_disk; fold (log_file w (target req)).
      * rewrite Hold. apply at_kept. rewrite Hack. by intros [].
      * rewrite Hnew. by apply at_grown.
    + rewrite Hsame by (by eapply effect_other). apply at_kept. rewrite Hack. by intros [].
Qed.

(** What a request does to memory is what the contract allows, however it ends. *)
Lemma effect_refines req w o w' :
  log_effect req w o w' -> log_step (mkEvent req o) (view w) (view w').
Proof.
  intros [Hv _ Hno|oa Ha _ Hv _ _|oa _ Hty Hv _ Hno].
  - apply log_kept; [by intros tp _|]. by apply not_acknowledged.
  - apply log_grown; [done|]. by intros tp _.
  - apply log_kept; [by intros tp _|]. by apply not_acknowledged.
Qed.

Lemma map_mkRecord rs : map mkRecord (map payload rs) = rs.
Proof. induction rs as [|[]]; simpl; congruence. Qed.

(** A process that has started on the files a crash left is intact. *)
Lemma recovered_intact dir fs rs b p :
  logs_only dir fs -> (forall path f, fs !! path = Some f -> durable f = length (content f)) ->
  topics_ b = ∅ -> all_ok rs -> 3 * log_count dir fs <= length rs ->
  exists w', recover_from_disk dir (mkWorld b (mkOS rs fs) p) = (Ret tt, w') /\ intact w' /\
    forall tp, stored tp -> view w' tp = on_disk dir fs tp.
Proof.
  intros Hlogs Hsync Hb Hok Hlen.
  destruct (recover_ok dir (mkWorld b (mkOS rs fs) p) Hlogs Hb Hok Hlen)
    as (w' & Hrun & (_ & _ & Hdir) & Hlogs' & Hf & [Hv _]). simpl in Hf, Hv, Hdir.
  exists w'. split; [done|]. split; [split|intros tp Htp; by apply Hv].
  - split; [rewrite Hdir; apply Hlogs|]. intros tp Htp. unfold disk_at.
    destruct (Hv tp Htp) as [-> _]. specialize (Hf tp Htp).
    unfold log_file, file_at. rewrite Hdir. fold (log_in dir (files (os w')) tp). rewrite Hf.
    unfold on_disk, recovered, file_at. rewrite map_mkRecord. unfold log_in.
    destruct (fs !! _) as [f|] eqn:Hfile; [|done]. simpl.
    destruct (logs_only_log _ _ _ _ _ Hlogs (proj1 Htp) (proj2 Htp) Hfile) as (_ & _ & Hbf).
    pose proof (trim_synced f (Hsync _ _ Hfile)) as Hd. rewrite <-trim_content by done.
    rewrite <-Hd. by destruct (trim f).
  - unfold tidy. by rewrite Hdir.
Qed.

(** Wherever a request is cut short, a new process starts on what the crash left, and each
    partition that was on disk has made a step of the contract. *)
Lemma restart_refines elapsed req w o w1 fs rs role port p :
  tidy w -> storable w req -> file_room w req -> handle_request elapsed req w = (o, w1) ->
  crash_files (files (os w1)) fs -> all_ok rs ->
  3 * log_count (data_dir_ (broker w)) fs <= length rs ->
  exists w', recover_from_disk (data_dir_ (broker w))
      (mkWorld (configure role port new_Broker) (mkOS rs fs) p) = (Ret tt, w') /\ intact w' /\
    forall tp, stored tp -> disk_at w tp ->
      log_step_at tp (mkEvent req o) (view w tp) (view w' tp).
Proof.
  intros Htidy Hst Hroom Hrun Hcrash Hrs Hlen.
  destruct (recovered_intact (data_dir_ (broker w)) fs rs (configure role port new_Broker) p)
    as (w2 & Hrec & Hok & Hv); try done.
  { eapply logs_only_crash; [done|]. by eapply tidy_request. }
  { intros path f Hf. specialize (Hcrash path). rewrite Hf in Hcrash.
    destruct (files (os w1) !! path); [by apply Hcrash|done]. }
  exists w2. split_and!; [done..|]. intros tp Htp Hdisk. rewrite Hv by done.
  eapply crash_refines; [apply Htidy|done..].
Qed.

Lemma log_step_at_tp e l l' tp : log_step e l l' -> is_tp tp -> log_step_at tp e (l tp) (l' tp).
Proof.
  intros [Hl Hack|Ha Hl] Htp; rewrite Hl by done.
  - apply at_kept. rewrite Hack. by intros [].
  - case_decide as Heq; [by apply at_grown|]. apply at_kept. by intros [_ <-].
Qed.

(** The simulation. *)
Lemma step_refines w i w' tp :
  stored tp -> tidy w -> disk_at w tp -> broker_step w i w' -> ~ harms tp i ->
  log_step_at tp (event_of i) (view w tp) (view w' tp) /\ tidy w' /\ disk_at w' tp /\
  (forall e, i = Cut e -> intact w').
Proof.
  intros Htp Htidy Hdisk Hstep Hharm.
  destruct Hstep as [elapsed req o w' Hst Hroom Hrun Ho|
    elapsed req o w1 fs rs role port p r w' Hst Hroom Hrun Hcrash Hrs Hlen Hrec].
  - pose proof (config_handle_request elapsed req w) as (_ & _ & Hdir).
    rewrite Hrun in Hdir. simpl in Hdir.
    pose proof (tidy_request _ _ _ _ _ Htidy Hst Hroom Hrun) as Htidy'.
    apply handle_request_effect in Hrun; [|destruct Hst; lia]. split_and!; [..|done].
    + eapply log_step_at_tp; [by apply effect_refines|apply Htp].
    + unfold tidy. by rewrite Hdir.
    + eapply effect_keeps_disk_at; [apply Htidy|done|by eapply storable_names|done..|].
      intros Heq Hfail. by apply Hharm.
  - destruct (restart_refines elapsed req w o w1 fs rs role port p) as (w2 & Hrec2 & Hok2 & Hlog);
      [done..|].
    rewrite Hrec in Hrec2. injection Hrec2 as -> ->. split_and!; [by apply Hlog|apply Hok2| |done].
    by apply Hok2.
Qed.

End events.

(** *** Histories of the contract *)

Lemma acknowledged_appends e : acknowledged e = true -> appends (ev_request e).
Proof.
  unfold acknowledged. destruct (ev_outcome e); [|done..].
  intros [_ Ha]%andb_true_iff. by apply bool_decide_eq_true in Ha.
Qed.

(** What one step adds to a partition. *)
Lemma step_adds tp e ms ms' :
  log_step_at tp e ms ms' ->
  exists added, ms' = ms ++ added /\
    acked_messages tp [e] `sublist_of` added /\ added `sublist_of` asked_messages tp [e].
Proof.
  unfold acked_messages, asked_messages. intros [Hno|Ha Ht].
  - exists []. rewrite app_nil_r, filter_cons_False by done. split_and!; [done..|].
    apply sublist_nil_l.
  - exists [r_payload (ev_request e)]. split_and!; [done|..].
    + rewrite filter_cons. case_decide; [done|apply sublist_nil_l].
    + by rewrite filter_cons_True.
Qed.

Lemma log_step_adds e l l' tp :
  log_step e l l' -> is_tp tp ->
  exists added, l' tp = l tp ++ added /\
    acked_messages tp [e] `sublist_of` added /\ added `sublist_of` asked_messages tp [e].
Proof. intros Hstep Htp. by apply step_adds, log_step_at_tp. Qed.



(** ** Properties *)

Section properties.
Context {P : Type} `{Peer P} {order : IterOrder}.

Implicit Types w : World P.

(** C2. Refinement.  Let the data directory hold nothing but logs, and let a partition be
    on disk as it is in memory.  Take an incident whose request, if it appends, names a
    topic that a directory can hold and leaves the logs room: a request that is handled,
    whatever the response or the exception, except for a failed [append] to this very
    partition; or a request cut short by a crash and followed by a restart without read
    errors.  It is a step of the contract on the partition's list of messages, and memory,
    disk and contract agree again; after a restart they do for every partition. *)
Theorem broker_refines_contract w i w' tp :
  stored tp -> tidy w -> disk_at w tp -> broker_step w i w' -> ~ harms tp i ->
  log_step_at tp (event_of i) (view w tp) (view w' tp) /\ tidy w' /\ disk_at w' tp /\
  (forall e, i = Cut e -> intact w').
Proof. apply step_refines. Qed.


(** C5. Crash safety.  Handle any request that the logs have room for, in a state whose data
    directory holds nothing but logs, against any kernel and any follower: return, throw or
    die at any point.  Then lose any bytes that no [fsync] covered.  A new process starts on
    what is left, and is intact; each partition that was on disk as it was in memory comes
    back as it was or, if the request appends to it, with the new message; and when that
    request was answered [OK], with the new message. *)
Theorem crash_restart_recovers elapsed req w o w1 fs rs role port p :
  tidy w -> storable w req -> file_room w req -> handle_request elapsed req w = (o, w1) ->
  crash_files (files (os w1)) fs -> all_ok rs ->
  3 * log_count (data_dir_ (broker w)) fs <= length rs ->
  exists w', recover_from_disk (data_dir_ (broker w))
      (mkWorld (configure role port new_Broker) (mkOS rs fs) p) = (Ret tt, w') /\ intact w' /\
    forall tp, stored tp -> disk_at w tp ->
      (view w' tp = view w tp \/
       (appends req /\ tp = target req /\ view w' tp = view w tp ++ [r_payload req])) /\
      (appends req -> o = Ret (lit "OK") -> tp = target req ->
       view w' tp = view w tp ++ [r_payload req]).
Proof.
  intros Htidy Hst Hroom Hrun Hcrash Hrs Hlen.
  destruct (restart_refines elapsed req w o w1 fs rs role port p) as (w' & Hrec & Hok & Hlog);
    [done..|].
  exists w'. split_and!; [done..|]. intros tp Htp Hdisk.
  destruct (Hlog tp Htp Hdisk) as [Hno|Ha Ht]; simpl in *.
  - split; [by left|]. intros Ha -> ->. exfalso. apply Hno. split; [|done].
    unfold acknowledged; simpl. by rewrite !bool_decide_eq_true_2.
  - split; [by right|done].
Qed.

End properties.

(** *** Witnesses *)



Definition demo_first : World ClientWorld := (demo_handle demo_produce demo_broker).2.


Lemma demo_tidy : @tidy ClientWorld demo_broker.
Proof. split; [exact demo_dir_ok|]. intros ns f Hf. done. Qed.

Lemma demo_stored : stored (mkTP (lit "t") 1).
Proof. split; [split; closed|]. apply plain_normal. by split_and!. Qed.

Lemma demo_storable m : is_u32 (blen m) -> @storable ClientWorld demo_broker
  (mkRequest PRODUCE [] [] (lit "t") 1 0 m).
Proof.
  intros Hm. split_and!; [closed|intros _; by split_and!|]. intros tp _.
  unfold view, log_view; simpl. rewrite lookup_empty. split; [by apply Forall_singleton|].
  unfold log_bytes; simpl. rewrite app_nil_r. unfold is_u64, is_u32, blen in *. simpl payload.
  rewrite length_serialize. simpl payload. pow2_consts. lia.
Qed.

Lemma demo_step1 : @broker_step ClientWorld client_peer canonical_order demo_broker
  (Handled (mkEvent demo_produce (Ret (lit "OK")))) demo_first.
Proof.
  apply (step_handled _ 5000);
    [by apply demo_storable; closed|intros _; closed|vm_compute; reflexivity|done].
Qed.

Lemma demo_no_harm tp : ~ harms tp (Handled (mkEvent demo_produce (Ret (lit "OK")))).
Proof. by intros (_ & _ & ? & _). Qed.



Definition demo_disk1 : gmap Path file :=
  {[ log_at (lit "data") (lit "t") 1 := mkFile (log_bytes [mkRecord (lit "hi")]) 10 ]}.

Lemma demo_first_files : files (os demo_first) = demo_disk1.
Proof. apply (bool_decide_eq_true_1 (_ = _)). vm_compute. reflexivity. Qed.


(** A crash that loses nothing. *)
Lemma demo_crash : crash_files demo_disk1 demo_disk1.
Proof.
  intros path. destruct (demo_disk1 !! path) as [f|] eqn:E; [|done].
  unfold demo_disk1 in E. apply lookup_singleton_Some in E as [_ <-].
  split; [|vm_compute; reflexivity]. exists 10. split; [done|vm_compute; reflexivity].
Qed.



Lemma broker_refines_contract_witness :
  log_step_at (mkTP (lit "t") 1) (mkEvent demo_produce (Ret (lit "OK")))
    (view demo_broker (mkTP (lit "t") 1)) (view demo_first (mkTP (lit "t") 1)).
Proof.
  exact (proj1 (@broker_refines_contract ClientWorld client_peer canonical_order demo_broker
    (Handled (mkEvent demo_produce (Ret (lit "OK")))) demo_first (mkTP (lit "t") 1)
    demo_stored demo_tidy (proj2 demo_disk_ok _ demo_stored) demo_step1 (demo_no_harm _))).
Defined.


Lemma crash_restart_recovers_witness :
  exists w' : World ClientWorld, intact w' /\
    (view w' (mkTP (lit "t") 1) = [] \/ view w' (mkTP (lit "t") 1) = [lit "hi"]).
Proof.
  destruct (@crash_restart_recovers ClientWorld client_peer canonical_order 5000 demo_produce
    demo_broker (Ret (lit "OK")) demo_first demo_disk1 (repeat (SysOk 0) 9) LEADER
    (-1) demo_net demo_tidy) as (w' & _ & Hok & Hv).
  - by apply demo_storable; closed.
  - intros _; closed.
  - vm_compute; reflexivity.
  - rewrite demo_first_files. exact demo_crash.
  - apply demo_all_ok.
  - vm_compute; lia.
  - exists w'. split; [exact Hok|].
    destruct (Hv (mkTP (lit "t") 1) demo_stored (proj2 demo_disk_ok _ demo_stored))
      as [[H|(_ & _ & H)] _]; [left|right]; exact H.
Defined.
