(* ===== verification/Servers.v ===== *)
(** * The two servers ([src/tcp_server.cpp], [src/epoll_server.cpp])

    [TcpServer] runs one blocking loop per connection; [EpollServer] is a state machine
    that buffers what arrives and what has to be sent.  Both hand the frames to the same
    parser and broker, keep track of the group memberships a connection owns, and remove
    them when it ends. *)

From S2P Require Import Prelude Text Posix Framing Protocol Metrics Topics Groups Client Broker.

(** ** Definitions *)

Abbreviation memberships := (list (bytes * bytes)).

(** The loop that erases the first membership equal to the request's. *)
Fixpoint erase_membership (m : bytes * bytes) (l : memberships) : memberships :=
  match l with
  | [] => []
  | x :: l => if bool_decide (x = m) then l else x :: erase_membership m l
  end.

Definition track_membership (req : Request) (response : bytes) (l : memberships)
    : memberships :=
  let m := (r_group_id req, r_consumer_id req) in
  if bool_decide (response = lit "OK" /\ r_type req = JOIN) then l ++ [m]
  else if bool_decide (response = lit "OK" /\ r_type req = LEAVE) then erase_membership m l
  else l.

(** The answers of [accept] on the listening socket. *)
Inductive accept_event :=
| AcceptFd (fd : nat) (sock : Sock)
| AcceptIntr
| AcceptAgain
| AcceptErr.

(** The per-client state of the event loop. *)
Record ClientState := mkClientState {
  read_buffer : bytes;
  write_buffer : bytes;
  write_offset : nat;
  joined_groups : memberships
}.

Definition new_ClientState : ClientState := mkClientState [] [] 0 [].

Definition kFrameHeaderSize : nat := 4.

(** The members of [EpollServer] with the kernel's side: the sockets, the epoll set (whether
    [EPOLLOUT] is asked for), the answers of [fcntl] and [epoll_ctl], and of [accept], the
    descriptors the process has open, and whether one was closed that was not. *)
Record Server (P : Type) := mkServer {
  srv_world : World P;
  clients_ : gmap nat ClientState;
  socks : gmap nat Sock;
  interest : gmap nat bool;
  ctl : list sys_result;
  accepts : list accept_event;
  opened : gset nat;
  misclosed : bool
}.
Arguments mkServer {P} srv_world clients_ socks interest ctl accepts opened misclosed.
Arguments srv_world {P} s.
Arguments clients_ {P} s.
Arguments socks {P} s.
Arguments interest {P} s.
Arguments ctl {P} s.
Arguments accepts {P} s.
Arguments opened {P} s.
Arguments misclosed {P} s.

(** The state of a connection of [TcpServer]: its socket and [joined_groups]. *)
Record Conn (P : Type) := mkConn {
  conn_world : World P;
  conn_sock : Sock;
  conn_joined : memberships
}.
Arguments mkConn {P} conn_world conn_sock conn_joined.
Arguments conn_world {P} c.
Arguments conn_sock {P} c.
Arguments conn_joined {P} c.

(** An epoll event of a client. *)
Record epoll_event := mkEpollEvent {
  ev_fd : nat; ev_error : bool; ev_in : bool; ev_out : bool
}.

Section servers.
Context {P : Type} `{Peer P} {order : IterOrder}.

(** What the clock measures over a request. *)
Context (clock : World P -> Request -> Z).

(** The loop over [joined_groups] when a connection ends. *)
Definition release (l : memberships) (w : World P) : World P :=
  fold_left (fun w m => on_broker (remove_consumer m.1 m.2) w) l w.

(** [parse_request] and [broker_.handle_request], with the request. *)
Definition serve (payload : bytes) : M (World P) (Request * bytes) :=
  let req := parse_request payload in
  w ← gets id;
  response ← handle_request (clock w req) req;
  mret (req, response).

(** *** [TcpServer::handle_client] *)

Definition conn_on_sock {A} : M Sock A -> M (Conn P) A :=
  zoom conn_sock (fun k c => mkConn (conn_world c) k (conn_joined c)).

Definition conn_on_world {A} : M (World P) A -> M (Conn P) A :=
  zoom conn_world (fun w c => mkConn w (conn_sock c) (conn_joined c)).

(** The [while (true)] loop: each turn reads at least the four bytes of a header. *)
Fixpoint client_loop (fuel : nat) : M (Conn P) unit :=
  match fuel with
  | O => fun c => (Crash, c)
  | S fuel =>
      request ← conn_on_sock read_frame;
      match request with
      | None => mret tt
      | Some payload =>
          r ← conn_on_world (serve payload);
          _ ← modify (fun c => mkConn (conn_world c) (conn_sock c)
                 (track_membership r.1 r.2 (conn_joined c)));
          _ ← conn_on_sock (write_frame r.2);
          client_loop fuel
      end
  end.

Definition handle_client (fuel : nat) : M (Conn P) unit :=
  _ ← try_catch (client_loop fuel) (mret tt);
  modify (fun c => mkConn (release (conn_joined c) (conn_world c)) (conn_sock c) (conn_joined c)).

(** *** [EpollServer] *)

Definition set_world (w : World P) (s : Server P) : Server P :=
  mkServer w (clients_ s) (socks s) (interest s) (ctl s) (accepts s)
    (opened s) (misclosed s).

Definition set_clients (f : gmap nat ClientState -> gmap nat ClientState) (s : Server P)
    : Server P :=
  mkServer (srv_world s) (f (clients_ s)) (socks s) (interest s) (ctl s) (accepts s)
    (opened s) (misclosed s).

Definition set_socks (f : gmap nat Sock -> gmap nat Sock) (s : Server P) : Server P :=
  mkServer (srv_world s) (clients_ s) (f (socks s)) (interest s) (ctl s) (accepts s)
    (opened s) (misclosed s).

Definition set_interest (f : gmap nat bool -> gmap nat bool) (s : Server P) : Server P :=
  mkServer (srv_world s) (clients_ s) (socks s) (f (interest s)) (ctl s) (accepts s)
    (opened s) (misclosed s).

Definition on_world {A} : M (World P) A -> M (Server P) A := zoom srv_world set_world.

(** [fcntl] and [epoll_ctl]. *)
Definition ctl_call : M (Server P) bool := fun s =>
  match ctl s with
  | [] => (Crash, s)
  | r :: rs =>
      (Ret match r with SysOk _ => true | _ => false end,
       mkServer (srv_world s) (clients_ s) (socks s) (interest s) rs (accepts s) (opened s)
         (misclosed s))
  end.

(** [epoll_ctl(epoll_fd_, EPOLL_CTL_MOD, fd, ...)]: whether it succeeded. *)
Definition epoll_mod (fd : nat) (out : bool) : M (Server P) bool :=
  done ← ctl_call;
  if (done : bool) then _ ← modify (set_interest (insert fd out)); mret true else mret false.

Definition update_client (fd : nat) (f : ClientState -> ClientState) : M (Server P) unit :=
  modify (set_clients (alter f fd)).

(** [accept] with a client: a descriptor that is not in use. *)
Definition open_socket (fd : nat) (sock : Sock) (s : Server P) : Server P :=
  mkServer (srv_world s) (clients_ s) (insert fd sock (socks s)) (interest s) (ctl s) (accepts s)
    ({[fd]} ∪ opened s) (misclosed s).

(** [::close]: the descriptor, its socket and its registration with epoll are gone. *)
Definition close_descriptor (fd : nat) (s : Server P) : Server P :=
  mkServer (srv_world s) (clients_ s) (delete fd (socks s)) (delete fd (interest s)) (ctl s)
    (accepts s) (opened s ∖ {[fd]}) (misclosed s || negb (bool_decide (fd ∈ opened s))).

Definition close_client (fd : nat) : M (Server P) unit :=
  client ← gets (fun s => clients_ s !! fd);
  _ ← modify (fun s =>
        match (client : option ClientState) with
        | Some c => set_world (release (joined_groups c) (srv_world s)) s
        | None => s
        end);
  deleted ← ctl_call;
  _ ← modify (close_descriptor fd);
  modify (set_clients (delete fd)).

Definition queue_response (fd : nat) (response : bytes) : M (Server P) bool :=
  client ← gets (fun s => clients_ s !! fd);
  match client with
  | None => mret false
  | Some _ =>
      let response_length := be32_enc (u32 (blen response)) in
      _ ← update_client fd (fun c => mkClientState (read_buffer c)
             (write_buffer c ++ response_length ++ response) (write_offset c) (joined_groups c));
      epoll_mod fd true
  end.

(** The [try] block: [false] is [return false]. *)
Definition serve_frame (fd : nat) (payload : bytes) : M (Server P) bool :=
  try_catch
    (r ← on_world (serve payload);
     _ ← update_client fd (fun c => mkClientState (read_buffer c) (write_buffer c)
            (write_offset c) (track_membership r.1 r.2 (joined_groups c)));
     if (kMaxPayloadSize <? blen r.2)%Z then mret false else queue_response fd r.2)
    (mret false).

(** The [while] loop; each turn removes at least a header from the buffer. *)
Fixpoint extract_loop (fuel : nat) (fd : nat) : M (Server P) bool :=
  match fuel with
  | O => fun s => (Crash, s)
  | S fuel =>
      buffer ← gets (fun s => from_option read_buffer [] (clients_ s !! fd));
      if length buffer <? kFrameHeaderSize then mret true else
      let payload_length := be32_dec (take kFrameHeaderSize buffer) in
      if (kMaxPayloadSize <? payload_length)%Z then mret false else
      let frame_size := kFrameHeaderSize + Z.to_nat payload_length in
      if length buffer <? frame_size then mret true else
      let payload := take (Z.to_nat payload_length) (drop kFrameHeaderSize buffer) in
      served ← serve_frame fd payload;
      if (served : bool) then
        _ ← update_client fd (fun c => mkClientState (drop frame_size (read_buffer c))
               (write_buffer c) (write_offset c) (joined_groups c));
        extract_loop fuel fd
      else mret false
  end.

Definition extract_complete_frames (fd : nat) : M (Server P) bool := fun s =>
  extract_loop (S (length (from_option read_buffer [] (clients_ s !! fd)))) fd s.

(** One [recv] of at most 4096 bytes: the rest of a longer segment stays in the socket. *)
Definition recv_4096 (fd : nat) : M (Server P) recv_event := fun s =>
  let k := default idle_sock (socks s !! fd) in
  let put evs := set_socks (insert fd (mkSock evs (tx k) (sent k))) s in
  match rx k with
  | [] => (Crash, s)
  | RecvData seg :: evs =>
      if 4096 <? length seg
      then (Ret (RecvData (take 4096 seg)), put (RecvData (drop 4096 seg) :: evs))
      else (Ret (RecvData seg), put evs)
  | RecvEof :: evs => (Ret RecvEof, put (RecvEof :: evs))
  | e :: evs => (Ret e, put evs)
  end.

(** The [while (true)] loop of [read_from_client]. *)
Fixpoint read_loop (fuel : nat) (fd : nat) : M (Server P) unit :=
  match fuel with
  | O => fun s => (Crash, s)
  | S fuel =>
      e ← recv_4096 fd;
      match e with
      | RecvData (c :: seg) =>
          _ ← update_client fd (fun cl => mkClientState (read_buffer cl ++ c :: seg)
                 (write_buffer cl) (write_offset cl) (joined_groups cl));
          good ← extract_complete_frames fd;
          if (good : bool) then read_loop fuel fd else close_client fd
      | RecvData [] | RecvEof => close_client fd
      | RecvIntr => read_loop fuel fd
      | RecvAgain => mret tt
      | RecvErr => close_client fd
      end
  end.

(** The number of turns a receive script allows. *)
Definition recv_fuel (evs : list recv_event) : nat := S (length evs + length (data_of evs)).

Definition read_from_client (fd : nat) : M (Server P) unit := fun s =>
  match clients_ s !! fd with
  | None => (Ret tt, s)
  | Some _ => read_loop (recv_fuel (rx (default idle_sock (socks s !! fd)))) fd s
  end.

(** One [send] of the pending bytes. *)
Definition send_pending (fd : nat) (pending : bytes) : M (Server P) sys_result := fun s =>
  let k := default idle_sock (socks s !! fd) in
  match tx k with
  | [] => (Crash, s)
  | SysOk n :: rs =>
      let n := min n (length pending) in
      (Ret (SysOk n), set_socks (insert fd (mkSock (rx k) rs (sent k ++ take n pending))) s)
  | r :: rs => (Ret r, set_socks (insert fd (mkSock (rx k) rs (sent k))) s)
  end.

(** The [while] loop of [write_to_client] and what follows it; each turn uses an answer
    of [send]. *)
Fixpoint write_client_loop (fuel : nat) (fd : nat) : M (Server P) unit :=
  match fuel with
  | O => fun s => (Crash, s)
  | S fuel =>
      c ← gets (fun s => default new_ClientState (clients_ s !! fd));
      if write_offset c <? length (write_buffer c) then
        r ← send_pending fd (drop (write_offset c) (write_buffer c));
        match r with
        | SysOk (S n) =>
            _ ← update_client fd (fun c => mkClientState (read_buffer c) (write_buffer c)
                   (write_offset c + S n) (joined_groups c));
            write_client_loop fuel fd
        | SysOk O => close_client fd
        | SysIntr => write_client_loop fuel fd
        | SysAgain => mret tt
        | SysErr => close_client fd
        end
      else
        _ ← update_client fd (fun c => mkClientState (read_buffer c) [] 0 (joined_groups c));
        done ← epoll_mod fd false;
        if (done : bool) then mret tt else close_client fd
  end.

Definition write_to_client (fd : nat) : M (Server P) unit := fun s =>
  match clients_ s !! fd with
  | None => (Ret tt, s)
  | Some _ => write_client_loop (S (length (tx (default idle_sock (socks s !! fd))))) fd s
  end.

(** [clients_.emplace], which keeps an entry that is there. *)
Definition emplace_client (fd : nat) (m : gmap nat ClientState) : gmap nat ClientState :=
  match m !! fd with Some _ => m | None => <[fd := new_ClientState]> m end.

(** What the kernel does not do. *)
Definition impossible {A} : M (Server P) A := fun s => (Crash, s).

(** The [accept] loop; a client that cannot be configured or registered is closed.  The
    kernel gives no descriptor that is in use. *)
Fixpoint accept_loop (evs : list accept_event) : M (Server P) unit :=
  match evs with
  | [] => fun s => (Crash, s)
  | AcceptIntr :: evs => accept_loop evs
  | AcceptAgain :: _ | AcceptErr :: _ => mret tt
  | AcceptFd fd sock :: evs =>
      used ← gets (fun s => bool_decide (fd ∈ opened s));
      if (used : bool) then impossible else
      _ ← modify (open_socket fd sock);
      flags ← ctl_call;
      configured ← (if (flags : bool) then ctl_call else mret false);
      if negb (configured : bool)
      then _ ← modify (close_descriptor fd); accept_loop evs else
      added ← ctl_call;
      if negb (added : bool)
      then _ ← modify (close_descriptor fd); accept_loop evs else
      _ ← modify (set_interest (insert fd false));
      _ ← modify (set_clients (emplace_client fd));
      accept_loop evs
  end.

(** The answers up to the one that ends the loop are used up. *)
Fixpoint after_accepts (evs : list accept_event) : list accept_event :=
  match evs with
  | AcceptIntr :: evs | AcceptFd _ _ :: evs => after_accepts evs
  | _ :: evs => evs
  | [] => []
  end.

Definition accept_clients : M (Server P) unit :=
  evs ← gets accepts;
  _ ← modify (fun s => mkServer (srv_world s) (clients_ s) (socks s) (interest s) (ctl s)
         (after_accepts evs) (opened s) (misclosed s));
  accept_loop evs.

(** The body of the loop over the ready events, for a client. *)
Definition handle_event (e : epoll_event) : M (Server P) unit :=
  known ← gets (fun s => bool_decide (is_Some (clients_ s !! ev_fd e)));
  if negb known then mret tt else
  if ev_error e then close_client (ev_fd e) else
  _ ← (if ev_in e then read_from_client (ev_fd e) else mret tt);
  still ← gets (fun s => bool_decide (is_Some (clients_ s !! ev_fd e)));
  if ev_out e && (still : bool) then write_to_client (ev_fd e) else mret tt.

(** The events of the loop, in the order [epoll_wait] reports them. *)
Fixpoint run_events (es : list epoll_event) : M (Server P) unit :=
  match es with
  | [] => mret tt
  | e :: es => _ ← handle_event e; run_events es
  end.

End servers.

(** *** Specification *)

(** What serving requests on one connection computes: the broker, the memberships the
    connection owns and the bytes of the responses. *)
Record Served (P : Type) := mkServed {
  o_world : World P;
  o_joined : memberships;
  o_bytes : bytes
}.
Arguments mkServed {P} o_world o_joined o_bytes.
Arguments o_world {P} s.
Arguments o_joined {P} s.
Arguments o_bytes {P} s.

(** A prefix of a stream of frames that does not hold a whole one. *)
Definition incomplete (b : bytes) : Prop :=
  length b < kFrameHeaderSize \/
  ((be32_dec (take kFrameHeaderSize b) <= kMaxPayloadSize)%Z /\
   length b < kFrameHeaderSize + Z.to_nat (be32_dec (take kFrameHeaderSize b))).

Section spec.
Context {P : Type} `{Peer P} {order : IterOrder} (clock : World P -> Request -> Z).

(** One request: [false] when the connection is to be closed. *)
Definition serve_one (payload : bytes) : M (Served P) bool := fun o =>
  match serve clock payload (o_world o) with
  | (Ret (req, response), w) =>
      let joined := track_membership req response (o_joined o) in
      if (kMaxPayloadSize <? blen response)%Z
      then (Ret false, mkServed w joined (o_bytes o))
      else (Ret true, mkServed w joined (o_bytes o ++ frame response))
  | (Throw e, w) => (Ret false, mkServed w (o_joined o) (o_bytes o))
  | (Crash, w) => (Crash, mkServed w (o_joined o) (o_bytes o))
  end.

(** The requests of a connection, until one closes it. *)
Fixpoint serve_all (payloads : list bytes) : M (Served P) bool :=
  match payloads with
  | [] => mret true
  | payload :: payloads =>
      good ← serve_one payload;
      if (good : bool) then serve_all payloads else mret false
  end.

End spec.

(** ** Streams of frames *)

Lemma frame_header p rest :
  frame_ok p -> be32_dec (take kFrameHeaderSize (frame p ++ rest)) = blen p.
Proof.
  intros Hp. unfold frame_ok, kMaxPayloadSize in Hp. pose proof (blen_nonneg p).
  unfold frame. rewrite <-app_assoc, take_app_le, take_ge by (rewrite length_be32_enc; done).
  apply be32_dec_enc. lia.
Qed.

Lemma length_frame p : length (frame p) = kFrameHeaderSize + length p.
Proof. unfold frame. by rewrite length_app. Qed.

Lemma frame_prefix_incomplete p x y :
  frame_ok p -> x ++ y = frame p -> y <> [] -> incomplete x.
Proof.
  intros Hp Heq Hy. pose proof (f_equal length Heq) as Hlen.
  rewrite length_app, length_frame in Hlen.
  assert (length y <> 0) by (by destruct y).
  unfold incomplete. destruct (decide (length x < kFrameHeaderSize)) as [|Hx]; [by left|right].
  pose proof (frame_header p [] Hp) as Hh. rewrite app_nil_r, <-Heq, take_app_le in Hh by lia.
  rewrite Hh. unfold frame_ok, blen in *. lia.
Qed.

(** Any prefix of a stream is some whole frames and an incomplete one. *)
Lemma stream_split ps : forall x y,
  Forall frame_ok ps -> x ++ y = concat (map frame ps) ->
  exists ps1 ps2 rest, ps = ps1 ++ ps2 /\ x = concat (map frame ps1) ++ rest /\
    rest ++ y = concat (map frame ps2) /\ incomplete rest.
Proof.
  induction ps as [|p ps IH]; intros x y Hps Heq.
  { apply app_eq_nil in Heq as [-> ->]. exists [], [], []. split_and!; try done.
    left. simpl. unfold kFrameHeaderSize. lia. }
  apply Forall_cons in Hps as [Hp Hps]. cbn [map concat] in Heq.
  destruct (decide (length (frame p) <= length x)) as [Hle|Hlt].
  - assert (x = frame p ++ drop (length (frame p)) x) as Hx.
    { apply (f_equal (take (length (frame p)))) in Heq.
      rewrite take_app_length, take_app_le in Heq by done.
      rewrite <-Heq at 1. by rewrite take_drop. }
    destruct (IH (drop (length (frame p)) x) y Hps) as (ps1 & ps2 & rest & -> & Hx1 & Hy & Hi).
    { rewrite Hx, <-app_assoc in Heq. by apply app_inv_head in Heq. }
    exists (p :: ps1), ps2, rest. split_and!; [done| |done|done].
    cbn [map concat]. by rewrite <-app_assoc, <-Hx1.
  - assert (length x <= length (frame p)) as Hle by (clear -Hlt; lia).
    exists [], (p :: ps), x. split_and!; [done|done|done|].
    apply (frame_prefix_incomplete p x (drop (length x) (frame p))); [done| |].
    + apply (f_equal (take (length x))) in Heq.
      rewrite take_app_length, take_app_le in Heq by done. rewrite Heq at 1. apply take_drop.
    + intros Hn%(f_equal length). rewrite length_drop in Hn. change (length []) with 0 in Hn. lia.
Qed.

Lemma incomplete_stream ps rest :
  Forall frame_ok ps -> incomplete rest -> rest = concat (map frame ps) -> ps = [].
Proof.
  intros Hps Hi Heq. destruct ps as [|p ps]; [done|]. exfalso. cbn [map concat] in Heq.
  apply Forall_cons in Hps as [Hp _]. subst rest.
  pose proof (frame_header p (concat (map frame ps)) Hp) as Hh.
  unfold incomplete in Hi. rewrite Hh, length_app, length_frame in Hi. unfold blen in Hi. lia.
Qed.

(** ** The event loop serves the frames *)

Section epoll.
Context {P : Type} `{Peer P} {order : IterOrder} (clock : World P -> Request -> Z).

Implicit Types s : Server P.

(** At least [n] successful answers of [epoll_ctl] to come. *)
Definition ctl_ok (n : nat) (s : Server P) : Prop :=
  Forall (fun r => exists k, r = SysOk k) (ctl s) /\ n <= length (ctl s).

(** The server with the state of one client replaced, up to the kernel's bookkeeping. *)
Definition client_is (s s' : Server P) (fd : nat) (w : World P) (c : ClientState)
    (k : Sock) : Prop :=
  srv_world s' = w /\ clients_ s' = <[fd := c]> (clients_ s) /\
  socks s' = <[fd := k]> (socks s) /\ accepts s' = accepts s.

Lemma client_is_trans s1 s2 s3 fd w2 c2 k2 w3 c3 k3 :
  client_is s1 s2 fd w2 c2 k2 -> client_is s2 s3 fd w3 c3 k3 -> client_is s1 s3 fd w3 c3 k3.
Proof.
  intros (_ & Hc2 & Hk2 & Ha2) (Hw3 & Hc3 & Hk3 & Ha3).
  split_and!; [done|by rewrite Hc3, Hc2, insert_insert_eq|by rewrite Hk3, Hk2, insert_insert_eq|].
  congruence.
Qed.

Lemma alter_client (m : gmap nat ClientState) fd c f :
  m !! fd = Some c -> alter f fd m = <[fd := f c]> m.
Proof.
  intros Hc. apply map_eq. intros i. rewrite lookup_alter, lookup_insert.
  case_decide; subst; [by rewrite Hc|done].
Qed.

Lemma update_client_ok fd f s c :
  clients_ s !! fd = Some c ->
  update_client fd f s = (Ret tt, set_clients (<[fd := f c]>) s).
Proof.
  intros Hc. unfold update_client, modify, set_clients. by rewrite (alter_client _ _ _ _ Hc).
Qed.

Lemma frame_payload p rest :
  take (length p) (drop kFrameHeaderSize (frame p ++ rest)) = p.
Proof.
  unfold frame. rewrite <-app_assoc. change kFrameHeaderSize with (length (be32_enc (blen p))).
  by rewrite drop_app_length, take_app_length.
Qed.

Lemma length_frames ps : length ps <= length (concat (map frame ps)).
Proof.
  induction ps as [|p ps IH]; [done|]. cbn [map concat length].
  rewrite length_app, length_frame. unfold kFrameHeaderSize. lia.
Qed.

Lemma epoll_mod_ok fd out s n :
  ctl_ok (S n) s -> exists s', epoll_mod fd out s = (Ret true, s') /\ ctl_ok n s' /\
    srv_world s' = srv_world s /\ clients_ s' = clients_ s /\ socks s' = socks s /\
    accepts s' = accepts s.
Proof.
  intros [Hok Hn]. unfold epoll_mod, ctl_call, mbind, M_bind.
  destruct (ctl s) as [|r rs] eqn:E; simpl in Hn; [lia|].
  apply Forall_cons in Hok as [[k ->] Hok]. eexists. split; [done|].
  split_and!; try done. split; simpl; [done|lia].
Qed.

Lemma serve_all_app ps1 ps2 o o2 :
  serve_all clock (ps1 ++ ps2) o = (Ret true, o2) ->
  exists o1, serve_all clock ps1 o = (Ret true, o1) /\ serve_all clock ps2 o1 = (Ret true, o2).
Proof.
  revert o. induction ps1 as [|p ps1 IH]; intros o Ho; [by exists o|].
  cbn [app serve_all] in Ho. unfold mbind, M_bind in Ho.
  destruct (serve_one clock p o) as [[[]|e|] o'] eqn:E; try done.
  apply IH in Ho as (o1 & H1 & H2). exists o1. split; [|done].
  cbn [serve_all]. by rewrite (bind_ret _ _ _ _ _ E).
Qed.

Lemma serve_one_true p o o1 :
  serve_one clock p o = (Ret true, o1) ->
  exists req response, serve clock p (o_world o) = (Ret (req, response), o_world o1) /\
    (blen response <= kMaxPayloadSize)%Z /\
    o_joined o1 = track_membership req response (o_joined o) /\
    o_bytes o1 = o_bytes o ++ frame response.
Proof.
  unfold serve_one. destruct (serve clock p (o_world o)) as [[[req response]|e|] w]; try done.
  destruct (_ <? _)%Z eqn:E; [done|]. intros [= <-]. exists req, response.
  split_and!; [done|lia|done|done].
Qed.

Lemma serve_frame_ok fd p s c o1 n :
  clients_ s !! fd = Some c ->
  serve_one clock p (mkServed (srv_world s) (joined_groups c) (write_buffer c)) = (Ret true, o1) ->
  ctl_ok (S n) s ->
  exists s', serve_frame clock fd p s = (Ret true, s') /\ ctl_ok n s' /\
    srv_world s' = o_world o1 /\ socks s' = socks s /\ accepts s' = accepts s /\
    clients_ s' = <[fd := mkClientState (read_buffer c) (o_bytes o1) (write_offset c)
                            (o_joined o1)]> (clients_ s).
Proof.
  intros Hc Ho Hctl. apply serve_one_true in Ho as (req & response & Hs & Hsize & Hj & Hb).
  simpl in Hs, Hj, Hb. rewrite Hj, Hb.
  set (s1 := set_clients (alter (fun c => mkClientState (read_buffer c) (write_buffer c)
    (write_offset c) (track_membership req response (joined_groups c))) fd)
    (set_world (o_world o1) s)).
  set (s2 := set_clients (alter (fun c => mkClientState (read_buffer c)
    (write_buffer c ++ be32_enc (u32 (blen response)) ++ response)
    (write_offset c) (joined_groups c)) fd) s1).
  assert (clients_ s1 !! fd = Some (mkClientState (read_buffer c) (write_buffer c)
    (write_offset c) (track_membership req response (joined_groups c)))) as Hc1
    by (simpl; by rewrite lookup_alter_eq, Hc).
  destruct (epoll_mod_ok fd true s2 n) as (s' & Hmod & Hctl' & Hw & Hcl & Hk & Ha); [done|].
  exists s'. split_and!; [|done|done|done|done|].
  - unfold serve_frame, try_catch, on_world, zoom. unfold mbind at 1, M_bind at 1.
    rewrite Hs. cbn [fst snd]. rewrite (bind_ret _ _ _ tt s1) by done.
    rewrite (proj2 (Z.ltb_ge _ _)) by done. unfold queue_response.
    rewrite (bind_ret _ _ s1 (clients_ s1 !! fd) s1) by done. rewrite Hc1. cbv zeta.
    rewrite (bind_ret _ _ s1 tt s2) by done. by rewrite Hmod.
  - rewrite Hcl. unfold s2. simpl in Hc1 |- *. rewrite (alter_client _ _ _ _ Hc1). simpl.
    rewrite (alter_client _ _ _ _ Hc), insert_insert_eq. repeat f_equal.
    unfold kMaxPayloadSize in Hsize. rewrite u32_small; [done|].
    pose proof (blen_nonneg response). unfold is_u32. lia.
Qed.

Lemma extract_loop_ok ps : forall fuel fd s c rest o n,
  length ps < fuel -> clients_ s !! fd = Some c ->
  read_buffer c = concat (map frame ps) ++ rest -> Forall frame_ok ps -> incomplete rest ->
  ctl_ok (length ps + n) s ->
  serve_all clock ps (mkServed (srv_world s) (joined_groups c) (write_buffer c)) = (Ret true, o) ->
  exists s', extract_loop clock fuel fd s = (Ret true, s') /\ ctl_ok n s' /\
    srv_world s' = o_world o /\ socks s' = socks s /\ accepts s' = accepts s /\
    clients_ s' = <[fd := mkClientState rest (o_bytes o) (write_offset c) (o_joined o)]>
                    (clients_ s).
Proof.
  induction ps as [|p ps IH]; intros fuel fd s c rest o n Hf Hc Hbuf Hps Hi Hctl Ho;
    (destruct fuel as [|fuel]; [simpl in Hf; lia|]); cbn [extract_loop].
  { injection Ho as <-. exists s. simpl in Hbuf |- *. split_and!; try done.
    - rewrite (bind_ret _ _ s rest s) by (unfold gets; rewrite Hc; simpl; by rewrite Hbuf).
      destruct (length rest <? kFrameHeaderSize) eqn:E1; [done|]. apply Nat.ltb_ge in E1.
      destruct Hi as [Hi|[Hi1 Hi2]]; [lia|].
      rewrite (proj2 (Z.ltb_ge _ _)), (proj2 (Nat.ltb_lt _ _)) by done. done.
    - symmetry. apply insert_id. rewrite Hc, <-Hbuf. by destruct c. }
  apply Forall_cons in Hps as [Hp Hps]. cbn [map concat] in Hbuf. rewrite <-app_assoc in Hbuf.
  apply (serve_all_app [p]) in Ho as (o1 & Ho1 & Ho2).
  cbn [serve_all] in Ho1. unfold mbind, M_bind in Ho1.
  destruct (serve_one clock p _) as [[[]|e|] o1'] eqn:Hone; try done. injection Ho1 as ->.
  destruct (serve_frame_ok fd p s c o1 (length ps + n) Hc Hone Hctl)
    as (s1 & Hserve & Hctl1 & Hw1 & Hk1 & Ha1 & Hc1).
  set (c2 := mkClientState (concat (map frame ps) ++ rest) (o_bytes o1) (write_offset c)
               (o_joined o1)).
  set (s2 := set_clients (<[fd := c2]>) s1).
  destruct (IH fuel fd s2 c2 rest o n) as (s3 & Hloop & Hctl3 & Hw3 & Hk3 & Ha3 & Hc3);
    [simpl in Hf; lia|apply lookup_insert_eq|done|done|done|done| |].
  { simpl. rewrite Hw1. by destruct o1. }
  exists s3. split_and!; [|done|done|by rewrite Hk3|by rewrite Ha3|].
  - rewrite (bind_ret _ _ s (read_buffer c) s) by (unfold gets; by rewrite Hc).
    rewrite Hbuf, frame_header by done.
    assert (length (frame p ++ concat (map frame ps) ++ rest) >= kFrameHeaderSize + length p)
      as Hlen by (rewrite length_app, length_frame; lia).
    unfold frame_ok in Hp. pose proof Hp as Hp'. unfold blen in Hp'.
    rewrite (proj2 (Nat.ltb_ge _ _)), (proj2 (Z.ltb_ge _ _)) by (done || lia).
    assert (Z.to_nat (blen p) = length p) as -> by (unfold blen; lia).
    rewrite (proj2 (Nat.ltb_ge _ _)) by lia.
    rewrite frame_payload, (bind_ret _ _ _ _ _ Hserve).
    rewrite (bind_ret _ _ s1 tt s2); [done|].
    erewrite update_client_ok by (rewrite Hc1; apply lookup_insert_eq).
    cbn [read_buffer write_buffer write_offset joined_groups].
    by rewrite Hbuf, <-(length_frame p), drop_app_length.
  - rewrite Hc3. simpl. by rewrite Hc1, !insert_insert_eq.
Qed.

Lemma recv_4096_event fd s k e evs :
  socks s !! fd = Some k -> rx k = e :: evs ->
  match e with RecvIntr | RecvAgain => True | _ => False end ->
  recv_4096 fd s = (Ret e, set_socks (<[fd := mkSock evs (tx k) (sent k)]>) s).
Proof.
  intros Hk Hrx He. unfold recv_4096. rewrite Hk. simpl. rewrite Hrx. by destruct e.
Qed.

Lemma recv_4096_data fd s k seg evs tail :
  socks s !! fd = Some k -> rx k = RecvData seg :: evs ++ tail -> seg <> [] -> arriving evs ->
  exists c piece evs1, let k1 := mkSock (evs1 ++ tail) (tx k) (sent k) in
    recv_4096 fd s = (Ret (RecvData (c :: piece)), set_socks (<[fd := k1]>) s) /\
    seg ++ data_of evs = (c :: piece) ++ data_of evs1 /\ arriving evs1 /\
    length evs1 + length (data_of evs1) < S (length evs + length (seg ++ data_of evs)).
Proof.
  intros Hk Hrx Hseg Harr. unfold recv_4096. rewrite Hk. cbn [default from_option id].
  rewrite Hrx. destruct (4096 <? length seg) eqn:E.
  - apply Nat.ltb_lt in E. destruct seg as [|c seg]; [done|].
    exists c, (take 4095 seg), (RecvData (drop 4096 (c :: seg)) :: evs). split_and!.
    + done.
    + unfold data_of; simpl. rewrite app_assoc. f_equal. f_equal. symmetry. apply take_drop.
    + apply Forall_cons; split; [|done]. right. eexists; split; [|done].
      intros Hn%(f_equal length). rewrite length_drop in Hn. cbn [length] in *. lia.
    + unfold data_of; cbn [map concat length]. rewrite !length_app, length_drop. lia.
  - destruct seg as [|c seg]; [done|]. exists c, seg, evs. split_and!; try done.
    rewrite !length_app. cbn [length]. lia.
Qed.

Lemma read_loop_ok fuel : forall fd s c k evs tail ps o n,
  length evs + length (data_of evs) < fuel ->
  clients_ s !! fd = Some c -> socks s !! fd = Some k -> rx k = evs ++ RecvAgain :: tail ->
  arriving evs -> incomplete (read_buffer c) ->
  Forall frame_ok ps -> read_buffer c ++ data_of evs = concat (map frame ps) ->
  ctl_ok (length ps + n) s ->
  serve_all clock ps (mkServed (srv_world s) (joined_groups c) (write_buffer c)) = (Ret true, o) ->
  exists s', read_loop clock fuel fd s = (Ret tt, s') /\ ctl_ok n s' /\
    client_is s s' fd (o_world o)
      (mkClientState [] (o_bytes o) (write_offset c) (o_joined o)) (mkSock tail (tx k) (sent k)).
Proof.
  induction fuel as [|fuel IH]; intros fd s c k evs tail ps o n Hfuel Hc Hk Hrx Harr Hi Hps Hd
    Hctl Ho; [lia|]. cbn [read_loop].
  destruct evs as [|e evs].
  { unfold data_of in Hd; simpl in Hd. rewrite app_nil_r in Hd.
    assert (ps = []) as -> by (by eapply incomplete_stream). injection Ho as <-.
    eexists. split; [rewrite (bind_ret _ _ _ _ _ (recv_4096_event fd s k RecvAgain tail Hk Hrx Logic.I)); done|].
    split; [done|]. split_and!; try done. simpl. symmetry. apply insert_id.
    rewrite Hc. simpl in Hd. rewrite <-Hd. by destruct c. }
  apply Forall_cons in Harr as [He Harr]. destruct He as [-> | (seg & Hseg & ->)].
  { set (k1 := mkSock (evs ++ RecvAgain :: tail) (tx k) (sent k)).
    set (s1 := set_socks (<[fd := k1]>) s).
    destruct (IH fd s1 c k1 evs tail ps o n) as (s' & Hrun & Hctl' & Hw & Hc' & Hk' & Ha');
      [unfold data_of in *; simpl in Hfuel; lia|done|apply lookup_insert_eq|done..|].
    exists s'. split; [|split; [done|split_and!; try done]].
    - by rewrite (bind_ret _ _ _ _ _ (recv_4096_event fd s k RecvIntr (evs ++ RecvAgain :: tail) Hk Hrx Logic.I)).
    - rewrite Hk'. simpl. by rewrite insert_insert_eq. }
  assert (data_of (RecvData seg :: evs) = seg ++ data_of evs) as Hdata by done.
  rewrite Hdata in Hd, Hfuel. cbn [length] in Hfuel.
  destruct (recv_4096_data fd s k seg evs (RecvAgain :: tail) Hk Hrx Hseg Harr)
    as (x & piece & evs1 & Hrecv & Hsplit & Harr1 & Hmeas).
  rewrite Hsplit, app_assoc in Hd.
  destruct (stream_split ps _ _ Hps Hd) as (ps1 & ps2 & rest & -> & Hx & Hrest & Hi1).
  apply Forall_app in Hps as [Hps1 Hps2]. apply serve_all_app in Ho as (o1 & Ho1 & Ho2).
  set (k1 := mkSock (evs1 ++ RecvAgain :: tail) (tx k) (sent k)) in *.
  set (s1 := set_socks (<[fd := k1]>) s) in *.
  set (c1 := mkClientState (read_buffer c ++ x :: piece) (write_buffer c) (write_offset c)
               (joined_groups c)).
  set (s2 := set_clients (<[fd := c1]>) s1).
  destruct (extract_loop_ok ps1 (S (length (read_buffer c1))) fd s2 c1 rest o1 (length ps2 + n))
    as (s3 & Hext & Hctl3 & Hw3 & Hk3 & Ha3 & Hc3); [|apply lookup_insert_eq|done|done|done| |done|].
  { simpl. rewrite Hx, length_app. pose proof (length_frames ps1). lia. }
  { destruct Hctl as [Hok Hn]. split; [done|]. rewrite length_app in Hn. simpl. lia. }
  set (c3 := mkClientState rest (o_bytes o1) (write_offset c) (o_joined o1)) in *.
  destruct (IH fd s3 c3 k1 evs1 tail ps2 o n) as (s4 & Hrun & Hctl4 & Hw4 & Hc4 & Hk4 & Ha4);
    try done.
  { lia. } { rewrite Hc3. apply lookup_insert_eq. }
  { rewrite Hk3. apply lookup_insert_eq. } { rewrite Hw3. by destruct o1. }
  exists s4. split; [|split; [done|split_and!; [done|..]]].
  - rewrite (bind_ret _ _ _ _ _ Hrecv).
    rewrite (bind_ret _ _ s1 tt s2) by (by rewrite (update_client_ok fd _ s1 c)).
    rewrite (bind_ret _ _ s2 true s3); [done|]. unfold extract_complete_frames.
    assert (clients_ s2 !! fd = Some c1) as -> by apply lookup_insert_eq. done.
  - rewrite Hc4, Hc3. simpl. by rewrite !insert_insert_eq.
  - rewrite Hk4, Hk3. simpl. by rewrite !insert_insert_eq.
  - by rewrite Ha4, Ha3.
Qed.

Lemma write_client_loop_ok fuel : forall fd s c k n,
  clients_ s !! fd = Some c -> socks s !! fd = Some k -> write_offset c <= length (write_buffer c) ->
  sends (tx k) (length (write_buffer c) - write_offset c) -> length (tx k) < fuel ->
  ctl_ok (S n) s ->
  exists s' tx', write_client_loop fuel fd s = (Ret tt, s') /\ ctl_ok n s' /\
    client_is s s' fd (srv_world s) (mkClientState (read_buffer c) [] 0 (joined_groups c))
      (mkSock (rx k) tx' (sent k ++ drop (write_offset c) (write_buffer c))).
Proof.
  induction fuel as [|fuel IH]; intros fd s c k n Hc Hk Hoff Hsends Hfuel Hctl; [lia|].
  cbn [write_client_loop].
  rewrite (bind_ret _ _ s c s) by (unfold gets; by rewrite Hc).
  destruct (write_offset c <? length (write_buffer c)) eqn:E; cycle 1.
  { apply Nat.ltb_ge in E. rewrite drop_ge, app_nil_r by done.
    set (c1 := mkClientState (read_buffer c) [] 0 (joined_groups c)).
    set (s1 := set_clients (<[fd := c1]>) s).
    destruct (epoll_mod_ok fd false s1 n Hctl) as (s2 & Hmod & Hctl2 & Hw2 & Hc2 & Hk2 & Ha2).
    exists s2, (tx k). split; [|split; [done|split_and!; [done|done| |done]]].
    - rewrite (bind_ret _ _ s tt s1) by (by rewrite (update_client_ok fd _ s c)).
      by rewrite (bind_ret _ _ _ _ _ Hmod).
    - rewrite Hk2. simpl. symmetry. apply insert_id. rewrite Hk. by destruct k. }
  apply Nat.ltb_lt in E. destruct Hsends as [Hpos Hn].
  destruct (tx k) as [|r rs] eqn:Etx; [simpl in Hn; lia|].
  apply Forall_cons in Hpos as [Hr Hpos]. simpl in Hfuel.
  destruct Hr as [-> | [m ->]].
  - rewrite filter_cons_False in Hn by auto.
    set (k1 := mkSock (rx k) rs (sent k)). set (s1 := set_socks (<[fd := k1]>) s).
    destruct (IH fd s1 c k1 n) as (s' & tx' & Hrun & Hctl' & Hw & Hc' & Hk' & Ha');
      [done|apply lookup_insert_eq|done|done|simpl; lia|done|].
    exists s', tx'. split; [|split; [done|split_and!; try done]].
    + rewrite (bind_ret _ _ s SysIntr s1); [done|]. unfold send_pending. rewrite Hk. simpl.
      by rewrite Etx.
    + rewrite Hk'. simpl. by rewrite insert_insert_eq.
  - rewrite filter_cons_True in Hn by done. simpl in Hn.
    set (pending := drop (write_offset c) (write_buffer c)).
    assert (length pending = length (write_buffer c) - write_offset c) as Hlp by apply length_drop.
    destruct (min (S m) (length pending)) as [|j] eqn:Ej; [lia|].
    set (k1 := mkSock (rx k) rs (sent k ++ take (S j) pending)).
    set (c1 := mkClientState (read_buffer c) (write_buffer c) (write_offset c + S j)
                 (joined_groups c)).
    set (s1 := set_socks (<[fd := k1]>) s). set (s2 := set_clients (<[fd := c1]>) s1).
    destruct (IH fd s2 c1 k1 n) as (s' & tx' & Hrun & Hctl' & Hw & Hc' & Hk' & Ha');
      [apply lookup_insert_eq|apply lookup_insert_eq|simpl; lia|split; [done|simpl; lia]
      |simpl; lia|done|].
    exists s', tx'. split; [|split; [done|split_and!; try done]].
    + rewrite (bind_ret _ _ s (SysOk (S j)) s1).
      * by rewrite (bind_ret _ _ s1 tt s2) by (by rewrite (update_client_ok fd _ s1 c)).
      * unfold send_pending. rewrite Hk. cbn [default from_option id]. rewrite Etx.
        fold pending. by rewrite Ej.
    + rewrite Hc'. simpl. by rewrite insert_insert_eq.
    + rewrite Hk'. simpl. rewrite insert_insert_eq. unfold pending.
      rewrite <-app_assoc, <-drop_drop. by rewrite take_drop.
Qed.

(** *** [TcpServer] serves the same frames *)

Lemma serve_all_bytes ps : forall o b o',
  serve_all clock ps o = (b, o') -> exists more, o_bytes o' = o_bytes o ++ more.
Proof.
  induction ps as [|p ps IH]; intros o b o' Ho.
  { injection Ho as <- <-. exists []. by rewrite app_nil_r. }
  cbn [serve_all] in Ho. unfold mbind, M_bind, serve_one in Ho.
  destruct (serve clock p (o_world o)) as [[[req response]|e|] w];
    [destruct (_ <? _)%Z| |];
    try (injection Ho as <- <-; exists []; simpl; by rewrite app_nil_r).
  apply IH in Ho as [more ->]. eexists. simpl. by rewrite <-app_assoc.
Qed.

Lemma client_loop_ok ps : forall fuel conn evs o,
  length ps < fuel -> rx (conn_sock conn) = evs ++ [RecvEof] -> arriving evs ->
  Forall frame_ok ps -> data_of evs = concat (map frame ps) ->
  serve_all clock ps (mkServed (conn_world conn) (conn_joined conn) (sent (conn_sock conn)))
    = (Ret true, o) ->
  sends (tx (conn_sock conn)) (length (o_bytes o) - length (sent (conn_sock conn))) ->
  exists tx', client_loop clock fuel conn =
    (Ret tt, mkConn (o_world o) (mkSock [RecvEof] tx' (o_bytes o)) (o_joined o)).
Proof.
  induction ps as [|p ps IH]; intros fuel conn evs o Hf Hrx Harr Hps Hd Ho Htx;
    (destruct fuel as [|fuel]; [simpl in Hf; lia|]); cbn [client_loop].
  { injection Ho as <-. exists (tx (conn_sock conn)).
    rewrite (bind_ret _ _ conn None (mkConn (conn_world conn)
      (mkSock [RecvEof] (tx (conn_sock conn)) (sent (conn_sock conn))) (conn_joined conn)));
      [done|]. unfold conn_on_sock, zoom. by rewrite (read_frame_eof evs). }
  apply Forall_cons in Hps as [Hp Hps]. cbn [map concat] in Hd.
  apply (serve_all_app [p]) in Ho as (o1 & Ho1 & Ho2).
  cbn [serve_all] in Ho1. unfold mbind, M_bind in Ho1.
  destruct (serve_one clock p _) as [[[]|e|] o1'] eqn:Hone; try done. injection Ho1 as ->.
  apply serve_one_true in Hone as (req & response & Hs & Hsize & Hj & Hb). simpl in Hs, Hj, Hb.
  set (k := conn_sock conn) in *.
  destruct (read_frame_spec p (concat (map frame ps)) (mkSock evs (tx k) (sent k)) Hp Harr Hd)
    as (evs1 & Hread & Harr1 & Hd1).
  apply (read_frame_app _ [RecvEof]) in Hread. unfold more_rx in Hread; simpl in Hread.
  rewrite <-Hrx in Hread.
  destruct (serve_all_bytes _ _ _ _ Ho2) as [more Hmore].
  rewrite Hmore, Hb, !length_app in Htx.
  match type of Htx with sends _ ?n =>
    replace n with (length (frame response) + length more) in Htx by lia end.
  set (k1 := mkSock (evs1 ++ [RecvEof]) (tx k) (sent k)) in *.
  destruct (write_frame_done response k1 (length more)) as (tx2 & Hwrite & Htx2);
    [done|exact Htx|].
  set (k2 := mkSock (evs1 ++ [RecvEof]) tx2 (sent k ++ frame response)) in *.
  destruct (IH fuel (mkConn (o_world o1) k2 (o_joined o1)) evs1 o) as (tx3 & Hrun);
    [simpl in Hf; lia|done|done|done|done| | |].
  { simpl. rewrite <-Hb. by destruct o1. }
  { cbn [conn_sock tx sent k2]. rewrite Hmore, Hb, !length_app.
    match goal with |- sends _ ?n => replace n with (length more) by lia end. done. }
  exists tx3. rewrite (bind_ret _ _ conn (Some p) (mkConn (conn_world conn) k1 (conn_joined conn)));
    cycle 1.
  { unfold conn_on_sock, zoom. fold k. replace k with (mkSock (rx k) (tx k) (sent k)) by (by destruct k).
    by rewrite Hread. }
  rewrite (bind_ret _ _ _ (req, response) (mkConn (o_world o1) k1 (conn_joined conn))); cycle 1.
  { unfold conn_on_world, zoom. simpl. by rewrite Hs. }
  rewrite (bind_ret _ _ _ tt (mkConn (o_world o1) k1 (o_joined o1))); cycle 1.
  { unfold modify. simpl. by rewrite Hj. }
  rewrite (bind_ret _ _ _ tt (mkConn (o_world o1) k2 (o_joined o1))); [done|].
  unfold conn_on_sock, zoom. simpl. by rewrite Hwrite.
Qed.

(** The whole conversation of a client that closes after it. *)
Lemma tcp_serves ps w o evs tx1 :
  Forall frame_ok ps -> serve_all clock ps (mkServed w [] []) = (Ret true, o) ->
  arriving evs -> data_of evs = concat (map frame ps) -> sends tx1 (length (o_bytes o)) ->
  exists conn, client_loop clock (S (length ps))
      (mkConn w (mkSock (evs ++ [RecvEof]) tx1 []) []) = (Ret tt, conn) /\
    conn_world conn = o_world o /\ conn_joined conn = o_joined o /\
    sent (conn_sock conn) = o_bytes o.
Proof.
  intros Hps Ho Harr Hd Htx.
  destruct (client_loop_ok ps (S (length ps)) (mkConn w (mkSock (evs ++ [RecvEof]) tx1 []) [])
    evs o) as [tx' Hrun]; try done; [lia|by rewrite Nat.sub_0_r|].
  eexists. split; [exact Hrun|done].
Qed.

(** One event of the loop when everything has arrived and everything can be sent. *)
Lemma epoll_event_serves ps fd o s evs tx2 :
  Forall frame_ok ps -> serve_all clock ps (mkServed (srv_world s) [] []) = (Ret true, o) ->
  arriving evs -> data_of evs = concat (map frame ps) -> sends tx2 (length (o_bytes o)) ->
  clients_ s !! fd = Some new_ClientState ->
  socks s !! fd = Some (mkSock (evs ++ [RecvAgain]) tx2 []) -> ctl_ok (S (length ps)) s ->
  exists s' tx', run_events clock [mkEpollEvent fd false true true] s = (Ret tt, s') /\
    srv_world s' = o_world o /\
    clients_ s' !! fd = Some (mkClientState [] [] 0 (o_joined o)) /\
    socks s' !! fd = Some (mkSock [] tx' (o_bytes o)).
Proof.
  intros Hps Ho Harr Hd Htx Hc Hk Hctl. set (k := mkSock _ _ _) in Hk.
  destruct (read_loop_ok (recv_fuel (rx k)) fd s new_ClientState k evs [] ps o 1)
    as (s1 & Hread & Hctl1 & Hw1 & Hc1 & Hk1 & Ha1); try done.
  { unfold recv_fuel, k, data_of. simpl. rewrite map_app, concat_app, !length_app. lia. }
  { left. simpl. unfold kFrameHeaderSize. lia. }
  { destruct Hctl as [? Hn]. split; [done|lia]. }
  set (c1 := mkClientState [] (o_bytes o) 0 (o_joined o)) in *.
  set (k1 := mkSock [] (tx k) (sent k)) in *.
  assert (clients_ s1 !! fd = Some c1) as Hc1' by (rewrite Hc1; apply lookup_insert_eq).
  assert (socks s1 !! fd = Some k1) as Hk1' by (rewrite Hk1; apply lookup_insert_eq).
  destruct (write_client_loop_ok (S (length (tx k1))) fd s1 c1 k1 0)
    as (s2 & tx' & Hwrite & _ & Hw2 & Hc2 & Hk2 & _); try done; [simpl; lia| |lia|].
  { simpl. by rewrite Nat.sub_0_r. }
  exists s2, tx'. split_and!.
  - cbn [run_events]. rewrite (bind_ret _ _ s tt s2); [done|]. unfold handle_event. simpl ev_fd.
    rewrite (bind_ret _ _ s true s) by (unfold gets; rewrite Hc; done). simpl.
    rewrite (bind_ret _ _ s tt s1) by (unfold read_from_client; by rewrite Hc, Hk).
    rewrite (bind_ret _ _ s1 true s1) by (unfold gets; rewrite Hc1'; done). simpl.
    unfold write_to_client. by rewrite Hc1', Hk1'.
  - by rewrite Hw2.
  - rewrite Hc2. apply lookup_insert_eq.
  - rewrite Hk2. apply lookup_insert_eq.
Qed.

End epoll.

(** *** Memberships *)

Section memberships.
Context {P : Type} {order : IterOrder}.

Implicit Types w : World P.

(** Whether a consumer is a member of a group. *)
Definition is_member (groups : Groups) (gid cid : bytes) : Prop :=
  exists g, groups !! gid = Some g /\ is_Some (members g !! cid).

(** The same, to evaluate. *)
Definition get_member (groups : Groups) (gid cid : bytes) : bool :=
  match groups !! gid with
  | Some g => bool_decide (is_Some (members g !! cid))
  | None => false
  end.

Lemma erase_member_members gid cid g groups gid' cid' :
  groups !! gid = Some g ->
  (is_member (erase_member gid cid g groups) gid' cid' <->
   is_member groups gid' cid' /\ (gid', cid') <> (gid, cid)).
Proof.
  intros Hg. unfold is_member, erase_member. case_bool_decide as He.
  - setoid_rewrite lookup_delete_Some. split.
    + intros (g' & [Hne Hg'] & Hm). split; [eauto|]. congruence.
    + intros [(g' & Hg' & Hm) Hne]. exists g'. split_and!; [|done|done].
      intros <-. rewrite Hg in Hg'. injection Hg' as <-.
      apply (f_equal (fun m => m !! cid')) in He. rewrite lookup_empty in He.
      destruct (decide (cid = cid')) as [->|Hc]; [done|].
      rewrite lookup_delete_ne in He by done. rewrite He in Hm. by destruct Hm.
  - rewrite rebalance_group_balanced. simpl.
    destruct (decide (gid = gid')) as [<-|Hne]; cycle 1.
    { setoid_rewrite lookup_insert_ne; [|done]. split; [|tauto].
      intros Hm. split; [done|congruence]. }
    rewrite lookup_insert_eq. split.
    + intros (g' & [= <-] & Hm). simpl in Hm. unfold balanced in Hm.
      rewrite map_lookup_imap in Hm. destruct (decide (cid = cid')) as [->|Hc].
      * rewrite lookup_delete_eq in Hm. by destruct Hm.
      * rewrite lookup_delete_ne in Hm by done. split; [|congruence]. exists g.
        split; [done|]. by destruct (members g !! cid').
    + intros [(g' & Hg' & Hm) Hne]. rewrite Hg in Hg'. injection Hg' as <-.
      eexists. split; [done|]. simpl. unfold balanced. rewrite map_lookup_imap.
      rewrite lookup_delete_ne by congruence. destruct Hm as [m ->]. simpl. eauto.
Qed.

Lemma remove_consumer_members gid cid groups gid' cid' :
  is_member (remove_consumer_from_group gid cid groups) gid' cid' <->
  is_member groups gid' cid' /\ (gid', cid') <> (gid, cid).
Proof.
  unfold remove_consumer_from_group. destruct (groups !! gid) as [g|] eqn:Hg.
  - by apply erase_member_members.
  - split; [|tauto]. intros Hm. split; [done|]. destruct Hm as (g & Hg' & _). congruence.
Qed.

Lemma release_members l : forall w gid cid,
  is_member (consumer_groups_ (broker (release l w))) gid cid <->
  is_member (consumer_groups_ (broker w)) gid cid /\ (gid, cid) ∉ l.
Proof.
  induction l as [|[g c] l IH]; intros w gid cid; simpl.
  { split; [|tauto]. intros Hm. split; [done|apply not_elem_of_nil]. }
  rewrite IH. simpl. rewrite remove_consumer_members, not_elem_of_cons. tauto.
Qed.

End memberships.

(** ** Properties *)

Section properties.
Context {P : Type} `{Peer P} {order : IterOrder} (clock : World P -> Request -> Z).

(** C33. When a connection of [TcpServer] ends, by a close, an error or an exception,
    exactly the memberships it owns are gone from the groups. *)
Theorem disconnect_releases fuel conn conn1 conn2 r gid cid :
  client_loop clock fuel conn = (r, conn1) -> r <> Crash ->
  handle_client clock fuel conn = (Ret tt, conn2) ->
  (is_member (consumer_groups_ (broker (conn_world conn2))) gid cid <->
   is_member (consumer_groups_ (broker (conn_world conn1))) gid cid /\
   (gid, cid) ∉ conn_joined conn1).
Proof.
  intros Hloop Hr Hrun. unfold handle_client, mbind, M_bind, try_catch in Hrun.
  rewrite Hloop in Hrun. rewrite <-release_members.
  destruct r as [[]|e|]; [..|done]; injection Hrun as <-; done.
Qed.

End properties.

(** *** Concrete runs *)

Definition demo_clock {P} (w : World P) (req : Request) : Z := 5000.

Definition demo_server (evs : list recv_event) : Server ClientWorld :=
  mkServer demo_broker {[ 7 := new_ClientState ]} {[ 7 := mkSock evs (repeat (SysOk 99) 8) [] ]}
    {[ 7 := false ]} (repeat (SysOk 0) 9) [] {[ 7 ]} false.

Definition demo_conn (evs : list recv_event) : Conn ClientWorld :=
  mkConn demo_broker (mkSock evs (repeat (SysOk 99) 8) []) [].

Definition run_tcp (evs : list recv_event) : bytes :=
  sent (conn_sock (@handle_client ClientWorld client_peer canonical_order demo_clock 9
    (demo_conn evs)).2).

(** The bytes on the wire after an event for reading and writing, and whether the client
    is still there; closing drops the socket from the map, so an empty wire is [None]. *)
Definition run_epoll (evs : list recv_event) : option bytes :=
  sent <$> socks (@run_events ClientWorld client_peer canonical_order demo_clock
    [mkEpollEvent 7 false true true] (demo_server evs)).2 !! 7.

(** The event loop closes a client without sending the responses it has queued.  A
    client that sends a request and shuts down its sending side, or that sends an
    oversized frame after a request, gets its response from [TcpServer] and nothing from
    [EpollServer]. *)
Theorem epoll_drops_queued_responses :
  let half_close := [RecvData (frame (lit "PING")); RecvEof] in
  let oversize := [RecvData (frame (lit "PING") ++ be32_enc 65537); RecvEof] in
  run_tcp half_close = frame (lit "PONG") /\ run_epoll half_close = None /\
  run_tcp oversize = frame (lit "PONG") /\ run_epoll oversize = None /\
  run_epoll [RecvData (frame (lit "PING")); RecvAgain] = Some (frame (lit "PONG")).
Proof. vm_compute. repeat split. Qed.

(** A membership outlives its connection's claim to it: when another connection makes
    the consumer leave and a third one joins under the same id, the end of the first
    connection evicts the third. *)
Theorem stale_membership_evicts :
  let serve1 := fun payload w =>
    (@serve ClientWorld client_peer canonical_order demo_clock payload w).2 in
  let w := serve1 (lit "JOIN g c t") (serve1 (lit "LEAVE g c")
             (serve1 (lit "JOIN g c t") demo_broker)) in
  let first := track_membership (parse_request (lit "JOIN g c t")) (lit "OK") [] in
  get_member (consumer_groups_ (broker w)) (lit "g") (lit "c") = true /\
  get_member (consumer_groups_ (broker (@release ClientWorld canonical_order first w)))
    (lit "g") (lit "c") = false.
Proof. vm_compute. split; reflexivity. Qed.

(** *** Witnesses *)

Definition demo_segments : list recv_event :=
  [RecvData (take 5 (frame (lit "PING"))); RecvIntr; RecvData (drop 5 (frame (lit "PING")))].

Lemma demo_arriving : arriving demo_segments.
Proof.
  repeat (constructor; [first [by left|right; eexists; split; [|done]; done]|]). constructor.
Qed.

Lemma demo_sends m n : n <= m -> sends (repeat (SysOk 99) m) n.
Proof.
  intros Hn. split.
  - clear. induction m; constructor; [right; by exists 98|done].
  - assert (length (filter (fun r => r <> SysIntr) (repeat (SysOk 99) m)) = m) as ->; [|done].
    clear. induction m as [|m IH]; [done|]. cbn [repeat].
    rewrite filter_cons_True by done. simpl. by rewrite IH.
Qed.

Definition demo_session : list recv_event :=
  [RecvData (frame (lit "JOIN g c t")); RecvEof].

Lemma disconnect_releases_witness :
  exists conn2, @handle_client ClientWorld client_peer canonical_order demo_clock 9
      (demo_conn demo_session) = (Ret tt, conn2) /\
    ~ is_member (consumer_groups_ (broker (conn_world conn2))) (lit "g") (lit "c").
Proof.
  eexists. split; [vm_compute; reflexivity|]. intros Hm.
  eapply (@disconnect_releases ClientWorld client_peer canonical_order demo_clock 9
    (demo_conn demo_session) _ _ (Ret tt) (lit "g") (lit "c")) in Hm;
    [|vm_compute; reflexivity|done|vm_compute; reflexivity].
  destruct Hm as [_ Hn]. apply Hn. vm_compute. left.
Defined.
