(* ===== verification/Sessions.v ===== *)
(** * A connection served through arbitrary events

    [Servers] shows what the event loop does with one event when everything has arrived.
    Here the requests of a connection arrive and the responses leave in any pieces over any
    number of events, with [EAGAIN] between any two of them, and the event loop is compared
    with the blocking loop of [TcpServer]. *)

From S2P Require Import Prelude Text Posix Framing Protocol Metrics Topics Groups Client Broker Servers.

(** ** Definitions *)

(** *** Specification *)

(** What a socket that stays open answers to [recv]: non-empty segments, and [EINTR] and
    [EAGAIN] anywhere. *)
Definition trickling (evs : list recv_event) : Prop :=
  Forall (fun e => e = RecvIntr \/ e = RecvAgain \/ exists seg, seg <> [] /\ e = RecvData seg) evs.

(** And to [send]: part of the bytes, [EINTR] or [EAGAIN]. *)
Definition draining (rs : list sys_result) : Prop :=
  Forall (fun r => r = SysIntr \/ r = SysAgain \/ exists n, r = SysOk (S n)) rs.

(** [epoll_ctl] succeeds. *)
Definition granted (rs : list sys_result) : Prop := Forall (fun r => exists n, r = SysOk n) rs.

(** An event of the client [fd] without an error. *)
Definition plain_event (fd : nat) (e : epoll_event) : Prop := ev_fd e = fd /\ ev_error e = false.

Section spec.
Context {P : Type} `{Peer P} {order : IterOrder} (clock : World P -> Request -> Z).

(** The event loop waits for an answer of the kernel that concerns [fd]. *)
Definition waits_for (fd : nat) (s : Server P) : Prop :=
  exists k, socks s !! fd = Some k /\ (rx k = [] \/ tx k = [] \/ ctl s = []).

(** The requests [ps] of the connection [fd], which it was opened for at [w]: the first ones
    have been served, in order, and their responses are sent or buffered; the others have
    been received in part, which [R] describes, or will be. *)
Definition in_session (R : bytes -> Prop) (ps : list bytes) (w : World P) (fd : nat)
    (s : Server P) : Prop :=
  exists c k ps1 ps2 o1,
    (clients_ s !! fd = Some c /\ socks s !! fd = Some k) /\
    (ps = ps1 ++ ps2 /\ serve_all clock ps1 (mkServed w [] []) = (Ret true, o1)) /\
    (srv_world s = o_world o1 /\ joined_groups c = o_joined o1 /\
     write_offset c <= length (write_buffer c) /\
     sent k ++ drop (write_offset c) (write_buffer c) = o_bytes o1) /\
    (R (read_buffer c) /\ read_buffer c ++ data_of (rx k) = concat (map frame ps2)) /\
    trickling (rx k) /\ draining (tx k) /\ granted (ctl s).

End spec.

(** ** Lemmas *)

Section sessions.
Context {P : Type} `{Peer P} {order : IterOrder} (clock : World P -> Request -> Z).
Context (ps : list bytes) (w : World P) (o : Served P) (fd : nat).

Hypothesis Hps : Forall frame_ok ps.
Hypothesis Hserved : serve_all clock ps (mkServed w [] []) = (Ret true, o).

Implicit Types s : Server P.

(** A result that satisfies [Post], or the kernel's answer is awaited. *)
Definition goes {A} (Post : A -> Server P -> Prop) (r : outcome A * Server P) : Prop :=
  match r with
  | (Ret a, s) => Post a s
  | (Throw _, _) => False
  | (Crash, s) => waits_for fd s
  end.

Lemma goes_bind {A B} Mid Post (m : M (Server P) A) (k : A -> M (Server P) B) s :
  goes Mid (m s) -> (forall a s', Mid a s' -> goes Post (k a s')) -> goes Post ((m ≫= k) s).
Proof using.
  unfold mbind, M_bind. intros Hm Hk. destruct (m s) as [[a|e|] s']; [by apply Hk|done|done].
Qed.

Lemma goes_weaken {A} (Post Post' : A -> Server P -> Prop) r :
  goes Post r -> (forall a s, Post a s -> Post' a s) -> goes Post' r.
Proof using. destruct r as [[a|e|] s]; simpl; auto. Qed.

(** *** Serving the next frame *)

Lemma epoll_mod_waits out s : ctl s = [] -> epoll_mod fd out s = (Crash, s).
Proof using. intros Hctl. unfold epoll_mod, mbind, M_bind, ctl_call. by rewrite Hctl. Qed.

Lemma next_served ps1 p ps2 o1 :
  ps = ps1 ++ p :: ps2 -> serve_all clock ps1 (mkServed w [] []) = (Ret true, o1) ->
  exists o2, serve_one clock p o1 = (Ret true, o2) /\
    serve_all clock (ps1 ++ [p]) (mkServed w [] []) = (Ret true, o2).
Proof using Hserved.
  intros Heq Ho1. pose proof Hserved as Hall. rewrite Heq in Hall.
  replace (ps1 ++ p :: ps2) with ((ps1 ++ [p]) ++ ps2) in Hall by by rewrite <-app_assoc.
  destruct (serve_all_app _ _ _ _ _ Hall) as (o2 & Ho2 & _). exists o2. split; [|done].
  apply serve_all_app in Ho2 as (o1' & Ho1' & Hp). rewrite Ho1 in Ho1'. injection Ho1' as <-.
  cbn [serve_all] in Hp. unfold mbind, M_bind in Hp.
  by destruct (serve_one clock p o1) as [[[]|e|] o'].
Qed.

Lemma serve_frame_goes p s c k o1 o2 :
  clients_ s !! fd = Some c -> socks s !! fd = Some k -> granted (ctl s) ->
  srv_world s = o_world o1 -> joined_groups c = o_joined o1 ->
  serve_one clock p o1 = (Ret true, o2) ->
  goes (fun good s' => good = true /\ srv_world s' = o_world o2 /\ socks s' = socks s /\
      granted (ctl s') /\ exists response, o_bytes o2 = o_bytes o1 ++ response /\
      clients_ s' !! fd = Some (mkClientState (read_buffer c) (write_buffer c ++ response)
        (write_offset c) (o_joined o2)))
    (serve_frame clock fd p s).
Proof using.
  intros Hc Hk Hctl Hw Hj Hone.
  apply serve_one_true in Hone as (req & response & Hs & Hsize & Hj2 & Hb).
  set (o' := mkServed (o_world o2) (o_joined o2) (write_buffer c ++ frame response)).
  destruct (ctl s) as [|r rs] eqn:Ectl.
  - set (s1 := set_clients (alter (fun c => mkClientState (read_buffer c) (write_buffer c)
      (write_offset c) (track_membership req response (joined_groups c))) fd)
      (set_world (o_world o2) s)).
    assert (is_Some (clients_ s1 !! fd)) as [c1 Hc1]
      by (simpl; rewrite lookup_alter_eq, Hc; by eexists).
    assert (ctl s1 = []) as Ectl1 by exact Ectl.
    unfold serve_frame, try_catch, on_world, zoom. unfold mbind at 1, M_bind at 1.
    rewrite Hw, Hs. cbn [fst snd]. rewrite (bind_ret _ _ _ tt s1) by done.
    rewrite (proj2 (Z.ltb_ge _ _)) by done. unfold queue_response.
    rewrite (bind_ret _ _ s1 (clients_ s1 !! fd) s1) by done. rewrite Hc1. cbv zeta.
    match goal with |- context [update_client fd ?f] =>
      set (s2 := set_clients (alter f fd) s1) end. rewrite (bind_ret _ _ s1 tt s2) by done.
    rewrite epoll_mod_waits by exact Ectl1. exists k. split; [exact Hk|]. right. right. exact Ectl.
  - destruct (serve_frame_ok clock fd p s c o' 0) as (s' & Hrun & Hctl' & Hw' & Hk' & _ & Hc').
    + exact Hc.
    + unfold serve_one. cbn [o_world o_joined o_bytes]. rewrite Hw, Hs, Hj.
      rewrite (proj2 (Z.ltb_ge _ _)) by done. by rewrite <-Hj2.
    + split; [rewrite Ectl; exact Hctl|rewrite Ectl; simpl; lia].
    + rewrite Hrun. simpl. split_and!; [done|exact Hw'|exact Hk'|apply Hctl'|].
      exists (frame response). split; [exact Hb|]. rewrite Hc'. apply lookup_insert_eq.
Qed.

(** *** Extracting the frames that are complete *)

Lemma extract_goes fuel : forall s c,
  in_session clock (fun _ => True) ps w fd s -> clients_ s !! fd = Some c ->
  length (read_buffer c) < fuel ->
  goes (fun good s' => good = true /\ socks s' = socks s /\
      in_session clock incomplete ps w fd s')
    (extract_loop clock fuel fd s).
Proof using Hps Hserved.
  induction fuel as [|fuel IH]; intros s c Hsess Hc Hfuel; [lia|]. cbn [extract_loop].
  destruct Hsess as (c' & k & ps1 & ps2 & o1 & [Hc' Hk] & [Heq Ho1] & (Hw & Hj & Hoff & Hsent) &
    [_ Hbuf] & Hrx & Htx & Hctl).
  rewrite Hc in Hc'. injection Hc' as <-. rewrite (bind_ret _ _ s (read_buffer c) s)
    by (unfold gets; by rewrite Hc).
  assert (incomplete (read_buffer c) -> goes (fun good s' => good = true /\ socks s' = socks s /\
      in_session clock incomplete ps w fd s') (Ret true, s)) as Hstop.
  { intros Hi. split_and!; [done|done|]. by exists c, k, ps1, ps2, o1. }
  destruct (length (read_buffer c) <? kFrameHeaderSize) eqn:E1.
  { apply Nat.ltb_lt in E1. apply Hstop. by left. }
  apply Nat.ltb_ge in E1. destruct ps2 as [|p ps2].
  { apply app_eq_nil in Hbuf as [Hnil _]. rewrite Hnil in E1. by apply Nat.nle_succ_0 in E1. }
  assert (frame_ok p) as Hp.
  { rewrite Heq in Hps. by apply Forall_app in Hps as [_ [Hp _]%Forall_cons]. }
  cbn [map concat] in Hbuf. cbv zeta.
  assert (be32_dec (take kFrameHeaderSize (read_buffer c)) = blen p) as Hhead.
  { rewrite <-(take_app_le _ (data_of (rx k))), Hbuf by done. by apply frame_header. }
  rewrite Hhead, (proj2 (Z.ltb_ge _ _)) by done.
  assert (Z.to_nat (blen p) = length p) as -> by (unfold blen; lia).
  destruct (length (read_buffer c) <? kFrameHeaderSize + length p) eqn:E2.
  { apply Nat.ltb_lt in E2. apply Hstop. right. rewrite Hhead. unfold frame_ok, blen in *. lia. }
  apply Nat.ltb_ge in E2.
  set (rest := drop (kFrameHeaderSize + length p) (read_buffer c)).
  assert (read_buffer c = frame p ++ rest) as Hrb.
  { rewrite <-(take_drop (kFrameHeaderSize + length p) (read_buffer c)) at 1. f_equal.
    rewrite <-(take_app_le _ (data_of (rx k))), Hbuf, <-length_frame by done.
    apply take_app_length. }
  assert (rest ++ data_of (rx k) = concat (map frame ps2)) as Hrest.
  { rewrite Hrb, <-app_assoc in Hbuf. by apply app_inv_head in Hbuf. }
  assert (take (length p) (drop kFrameHeaderSize (read_buffer c)) = p) as ->.
  { rewrite Hrb. apply frame_payload. }
  destruct (next_served ps1 p ps2 o1 Heq Ho1) as (o2 & Hone & Ho2).
  eapply goes_bind; [by eapply serve_frame_goes|].
  intros good s' (-> & Hw' & Hk' & Hctl' & response & Hb & Hc').
  set (c2 := mkClientState rest (write_buffer c ++ response) (write_offset c) (o_joined o2)).
  set (s2 := set_clients (<[fd := c2]>) s').
  rewrite (bind_ret _ _ s' tt s2) by (by rewrite (update_client_ok _ _ _ _ Hc')).
  assert (clients_ s2 !! fd = Some c2) as Hc2 by apply lookup_insert_eq.
  assert (in_session clock (fun _ => True) ps w fd s2) as Hsess2.
  { exists c2, k, (ps1 ++ [p]), ps2, o2. cbn [joined_groups write_offset write_buffer
      read_buffer c2].
    split_and!; try done; [by rewrite <-Hk' in Hk|by rewrite <-app_assoc| |].
    + rewrite length_app. lia.
    + by rewrite drop_app_le, app_assoc, Hsent by done. }
  rewrite <-Hk'. apply (IH s2 c2 Hsess2 Hc2). cbn [read_buffer c2]. unfold rest.
  rewrite length_drop. unfold kFrameHeaderSize in *. lia.
Qed.

(** *** Receiving *)

Lemma recv_goes s k :
  socks s !! fd = Some k -> trickling (rx k) ->
  goes (fun e s' => exists evs,
      s' = set_socks (<[fd := mkSock evs (tx k) (sent k)]>) s /\ trickling evs /\
      length evs + length (data_of evs) < length (rx k) + length (data_of (rx k)) /\
      match e with
      | RecvData piece => piece <> [] /\ data_of (rx k) = piece ++ data_of evs
      | RecvIntr | RecvAgain => data_of evs = data_of (rx k)
      | _ => False
      end)
    (recv_4096 fd s).
Proof using.
  intros Hk Hrx. unfold recv_4096. rewrite Hk. cbn [default from_option id].
  destruct (rx k) as [|e evs] eqn:E; [exists k; auto|].
  apply Forall_cons in Hrx as [[-> | [-> | (seg & Hseg & ->)]] Hrx].
  1-2: exists evs; split_and!; try done; unfold data_of; simpl; lia.
  assert (data_of (RecvData seg :: evs) = seg ++ data_of evs) as Hdata by done.
  assert (length seg <> 0) as Hlen by (by destruct seg).
  destruct (4096 <? length seg) eqn:El.
  - apply Nat.ltb_lt in El. exists (RecvData (drop 4096 seg) :: evs).
    assert (data_of (RecvData (drop 4096 seg) :: evs) = drop 4096 seg ++ data_of evs) as Hd by done.
    rewrite Hdata, Hd. split_and!.
    + done.
    + apply Forall_cons; split; [|done]. right; right. eexists; split; [|done].
      intros Hn%(f_equal length). rewrite length_drop in Hn. cbn [length] in Hn. lia.
    + cbn [length]. rewrite !length_app, length_drop. lia.
    + intros Hn%(f_equal length). rewrite length_take in Hn. cbn [length] in Hn. lia.
    + by rewrite app_assoc, take_drop.
  - exists evs. rewrite Hdata. split_and!; [done|done| |done|done].
    cbn [length]. rewrite length_app. lia.
Qed.

Lemma read_goes fuel : forall s k,
  in_session clock incomplete ps w fd s -> socks s !! fd = Some k ->
  length (rx k) + length (data_of (rx k)) < fuel ->
  goes (fun _ s' => in_session clock incomplete ps w fd s') (read_loop clock fuel fd s).
Proof using Hps Hserved.
  induction fuel as [|fuel IH]; intros s k Hsess Hk Hfuel; [lia|]. cbn [read_loop].
  destruct Hsess as (c & k' & ps1 & ps2 & o1 & [Hc Hk'] & Hdone & (Hw & Hj & Hoff & Hsent) &
    [Hi Hbuf] & Hrx & Htx & Hctl).
  rewrite Hk in Hk'. injection Hk' as <-.
  eapply goes_bind; [by apply recv_goes|].
  intros e s' (evs & -> & Hevs & Hmeas & He). set (k1 := mkSock evs (tx k) (sent k)).
  set (s1 := set_socks _ s).
  assert (data_of evs = data_of (rx k) -> in_session clock incomplete ps w fd s1) as Hsame.
  { intros Hd. exists c, k1, ps1, ps2, o1. cbn [rx tx sent k1].
    rewrite Hd. split_and!; try done; try apply Hdone. apply lookup_insert_eq. }
  destruct e as [piece| | | |]; [|done| | |done].
  - destruct He as [Hne Hd]. destruct piece as [|x piece]; [done|].
    set (c2 := mkClientState (read_buffer c ++ x :: piece) (write_buffer c) (write_offset c)
      (joined_groups c)).
    set (s2 := set_clients (<[fd := c2]>) s1).
    rewrite (bind_ret _ _ s1 tt s2) by (by rewrite (update_client_ok fd _ s1 c)).
    assert (clients_ s2 !! fd = Some c2) as Hc2 by apply lookup_insert_eq.
    assert (in_session clock (fun _ => True) ps w fd s2) as Hsess2.
    { exists c2, k1, ps1, ps2, o1. cbn [rx tx sent k1 read_buffer write_buffer write_offset
        joined_groups c2].
      split_and!; try done; try apply Hdone; [apply lookup_insert_eq|].
      by rewrite <-app_assoc, <-Hd. }
    eapply goes_bind.
    { unfold extract_complete_frames. rewrite Hc2. cbn [from_option].
      eapply (extract_goes _ s2 c2 Hsess2 Hc2). lia. }
    intros good s3 (-> & Hk3 & Hsess3). eapply (IH s3 k1 Hsess3).
    + rewrite Hk3. apply lookup_insert_eq.
    + cbn [rx k1]. lia.
  - apply (IH s1 k1 (Hsame He)); [apply lookup_insert_eq|cbn [rx k1]; lia].
  - exact (Hsame He).
Qed.

(** *** Sending *)

Lemma write_goes fuel : forall s k,
  in_session clock incomplete ps w fd s -> socks s !! fd = Some k -> length (tx k) < fuel ->
  goes (fun _ s' => in_session clock incomplete ps w fd s') (write_client_loop fuel fd s).
Proof using.
  induction fuel as [|fuel IH]; intros s k Hsess Hk Hfuel; [lia|]. cbn [write_client_loop].
  pose proof Hsess as (c & k' & ps1 & ps2 & o1 & [Hc Hk'] & Hdone & (Hw & Hj & Hoff & Hsent) &
    Hread & Hrx & Htx & Hctl).
  rewrite Hk in Hk'. injection Hk' as <-.
  rewrite (bind_ret _ _ s c s) by (unfold gets; by rewrite Hc).
  destruct (write_offset c <? length (write_buffer c)) eqn:E.
  - apply Nat.ltb_lt in E. set (pending := drop (write_offset c) (write_buffer c)) in *.
    assert (length pending = length (write_buffer c) - write_offset c) as Hlp by apply length_drop.
    unfold mbind at 1, M_bind at 1, send_pending. rewrite Hk. cbn [default from_option id].
    destruct (tx k) as [|r rs] eqn:Etx; [exists k; auto|].
    apply Forall_cons in Htx as [Hr Htx]. cbn [length] in Hfuel.
    assert (in_session clock incomplete ps w fd (set_socks (<[fd := mkSock (rx k) rs (sent k)]>) s))
      as Hsame.
    { exists c, (mkSock (rx k) rs (sent k)), ps1, ps2, o1. cbn [rx tx sent].
      split_and!; try done; try apply Hdone; try apply Hread. apply lookup_insert_eq. }
    destruct Hr as [-> | [-> | [m ->]]]; [|exact Hsame|].
    + eapply (IH _ _ Hsame); [apply lookup_insert_eq|simpl; lia].
    + destruct (min (S m) (length pending)) as [|j] eqn:Ej; [lia|].
      set (k1 := mkSock (rx k) rs (sent k ++ take (S j) pending)).
      set (c1 := mkClientState (read_buffer c) (write_buffer c) (write_offset c + S j)
        (joined_groups c)).
      set (s1 := set_socks (<[fd := k1]>) s).
      rewrite (bind_ret _ _ s1 tt (set_clients (<[fd := c1]>) s1))
        by (by rewrite (update_client_ok fd _ s1 c)).
      eapply (IH _ k1); [|apply lookup_insert_eq|simpl; lia].
      exists c1, k1, ps1, ps2, o1. cbn [rx tx sent k1 read_buffer write_buffer write_offset
        joined_groups c1].
      split_and!; try done; try apply Hdone; try apply Hread;
        [apply lookup_insert_eq|apply lookup_insert_eq|lia|].
      rewrite <-app_assoc, <-drop_drop. fold pending. by rewrite take_drop.
  - apply Nat.ltb_ge in E. rewrite drop_ge, app_nil_r in Hsent by done.
    set (c1 := mkClientState (read_buffer c) [] 0 (joined_groups c)).
    set (s1 := set_clients (<[fd := c1]>) s).
    rewrite (bind_ret _ _ s tt s1) by (by rewrite (update_client_ok fd _ s c)).
    destruct (ctl s) as [|r rs] eqn:Ectl.
    { unfold mbind, M_bind. rewrite epoll_mod_waits by exact Ectl. exists k; auto. }
    apply Forall_cons in Hctl as [[n ->] Hctl].
    destruct (epoll_mod_ok fd false s1 0) as (s2 & Hmod & [Hctl2 _] & Hw2 & Hc2 & Hk2 & _).
    { split; [|simpl; rewrite Ectl; simpl; lia]. simpl. rewrite Ectl. apply Forall_cons. eauto. }
    unfold mbind, M_bind. rewrite Hmod. simpl.
    exists c1, k, ps1, ps2, o1. cbn [read_buffer write_buffer write_offset joined_groups c1].
    split_and!; try done; try apply Hdone; try apply Hread.
    + rewrite Hc2. apply lookup_insert_eq.
    + by rewrite Hk2.
    + by rewrite Hw2.
    + by rewrite drop_nil, app_nil_r.
Qed.

(** *** Events *)

Lemma event_goes e s :
  plain_event fd e -> in_session clock incomplete ps w fd s ->
  goes (fun _ s' => in_session clock incomplete ps w fd s') (handle_event clock e s).
Proof using Hps Hserved.
  intros [Hfd Herr] Hsess. unfold handle_event. rewrite Hfd, Herr.
  assert (forall s', in_session clock incomplete ps w fd s' ->
    exists c k, clients_ s' !! fd = Some c /\ socks s' !! fd = Some k) as Hknown.
  { intros s' (c & k & _ & _ & _ & [Hc Hk] & _). by exists c, k. }
  destruct (Hknown s Hsess) as (c & k & Hc & Hk).
  rewrite (bind_ret _ _ s true s) by (unfold gets; by rewrite Hc). cbn [negb].
  apply goes_bind with (Mid := fun _ s' => in_session clock incomplete ps w fd s').
  { destruct (ev_in e); [|exact Hsess]. unfold read_from_client. rewrite Hc, Hk.
    eapply (read_goes _ s k Hsess Hk). unfold recv_fuel. simpl. lia. }
  intros _ s1 Hsess1. destruct (Hknown s1 Hsess1) as (c1 & k1 & Hc1 & Hk1).
  rewrite (bind_ret _ _ s1 true s1) by (unfold gets; by rewrite Hc1).
  destruct (ev_out e); [|exact Hsess1]. cbn [andb]. unfold write_to_client. rewrite Hc1, Hk1.
  eapply (write_goes _ s1 k1 Hsess1 Hk1). simpl. lia.
Qed.

Lemma events_goes es : forall s,
  Forall (plain_event fd) es -> in_session clock incomplete ps w fd s ->
  goes (fun _ s' => in_session clock incomplete ps w fd s') (run_events clock es s).
Proof using Hps Hserved.
  induction es as [|e es IH]; intros s Hes Hsess; [exact Hsess|].
  apply Forall_cons in Hes as [He Hes]. cbn [run_events].
  apply goes_bind with (Mid := fun _ s' => in_session clock incomplete ps w fd s');
    [by apply event_goes|]. intros _ s1 Hs1. by apply IH.
Qed.

(** Once everything has been received, everything has been served. *)
Lemma session_complete s c k :
  in_session clock incomplete ps w fd s -> clients_ s !! fd = Some c -> socks s !! fd = Some k ->
  data_of (rx k) = [] ->
  srv_world s = o_world o /\ joined_groups c = o_joined o /\ read_buffer c = [] /\
  sent k ++ drop (write_offset c) (write_buffer c) = o_bytes o.
Proof using Hps Hserved.
  intros (c' & k' & ps1 & ps2 & o1 & [Hc' Hk'] & [Heq Ho1] & (Hw & Hj & Hoff & Hsent) &
    [Hi Hbuf] & _) Hc Hk Hd.
  rewrite Hc in Hc'. rewrite Hk in Hk'. injection Hc' as <-. injection Hk' as <-.
  rewrite Hd, app_nil_r in Hbuf.
  assert (ps2 = []) as ->.
  { apply (incomplete_stream ps2 (read_buffer c)); [|done|done]. rewrite Heq in Hps.
    by apply Forall_app in Hps as [_ Hps]. }
  rewrite app_nil_r in Heq. subst ps1. rewrite Hserved in Ho1. injection Ho1 as <-. done.
Qed.

End sessions.

(** ** Properties *)

Section properties.
Context {P : Type} `{Peer P} {order : IterOrder} (clock : World P -> Request -> Z).

(** C7. The two servers serve a connection alike.  Let the frames of the requests [ps], which
    the broker serves one after the other without an exception or an oversized response,
    arrive on a fresh connection of each server.

    [TcpServer], where they are cut into any segments with any interruptions and partial
    sends until the client closes, leaves the broker and the memberships as serving them in
    order does, and has written exactly the frames of the responses.

    [EpollServer], over any sequence of events of the connection without an error flag, for
    reading or writing in any order, where the segments arrive and the responses leave in
    any pieces, with EINTR and EAGAIN anywhere, and [epoll_ctl] succeeds: it never throws,
    and stops only to wait for an answer of the kernel.  After the events some requests
    have been served, in order, with exactly the broker, the memberships and the response
    bytes this gives; what is not sent yet is in the write buffer, and what was received of
    further requests is less than a frame and in the read buffer.  Once everything has been
    received, broker, memberships and responses are those of [TcpServer].  When
    everything arrives before one EAGAIN, [send] takes bytes each time and the answers
    suffice, one event for reading and writing does all of it. *)
Theorem servers_agree ps fd w o s k evs1 tx1 es :
  Forall frame_ok ps -> serve_all clock ps (mkServed w [] []) = (Ret true, o) ->
  arriving evs1 -> data_of evs1 = concat (map frame ps) -> sends tx1 (length (o_bytes o)) ->
  srv_world s = w -> clients_ s !! fd = Some new_ClientState -> socks s !! fd = Some k ->
  trickling (rx k) -> data_of (rx k) = concat (map frame ps) -> draining (tx k) ->
  sent k = [] -> granted (ctl s) -> Forall (plain_event fd) es ->
  (exists conn, client_loop clock (S (length ps))
      (mkConn w (mkSock (evs1 ++ [RecvEof]) tx1 []) []) = (Ret tt, conn) /\
    conn_world conn = o_world o /\ conn_joined conn = o_joined o /\
    sent (conn_sock conn) = o_bytes o) /\
  match run_events clock es s with
  | (Ret _, s') =>
      in_session clock incomplete ps w fd s' /\
      forall c' k', clients_ s' !! fd = Some c' -> socks s' !! fd = Some k' ->
        data_of (rx k') = [] ->
        srv_world s' = o_world o /\ joined_groups c' = o_joined o /\ read_buffer c' = [] /\
        sent k' ++ drop (write_offset c') (write_buffer c') = o_bytes o
  | (Throw _, _) => False
  | (Crash, s') => waits_for fd s'
  end /\
  (forall evs2, rx k = evs2 ++ [RecvAgain] -> arriving evs2 ->
     sends (tx k) (length (o_bytes o)) -> length ps < length (ctl s) ->
     exists s' tx', run_events clock [mkEpollEvent fd false true true] s = (Ret tt, s') /\
       srv_world s' = o_world o /\
       clients_ s' !! fd = Some (mkClientState [] [] 0 (o_joined o)) /\
       socks s' !! fd = Some (mkSock [] tx' (o_bytes o))).
Proof.
  intros Hps Ho Harr1 Hd1 Htx1 <- Hc Hk Hrx Hd Htx Hsent Hctl Hes. split_and!.
  - by eapply tcp_serves.
  - assert (in_session clock incomplete ps (srv_world s) fd s) as Hinit.
    { exists new_ClientState, k, [], ps, (mkServed (srv_world s) [] []).
      split_and!; try done; simpl; [by rewrite Hsent|]. left. simpl.
      unfold kFrameHeaderSize. lia. }
    pose proof (events_goes clock ps (srv_world s) o fd Hps Ho es s Hes Hinit) as Hrun.
    unfold goes in Hrun. destruct (run_events clock es s) as [[[]|e|] s']; [|done|done].
    split; [exact Hrun|]. intros c' k' Hc' Hk'. by eapply session_complete.
  - intros evs2 Hevs Harr Hsends Hlen. eapply epoll_event_serves; try done.
    + rewrite <-Hd, Hevs. unfold data_of. rewrite map_app, concat_app. simpl.
      by rewrite app_nil_r.
    + rewrite Hk. destruct k. simpl in *. by subst.
Qed.

End properties.

(** *** Witnesses *)

(** A request in two pieces, each with its own event, whose response takes two more
    [send]s with an EAGAIN in between. *)
Definition demo_sock : Sock :=
  mkSock [RecvData (take 5 (frame (lit "PING"))); RecvAgain; RecvIntr;
          RecvData (drop 5 (frame (lit "PING"))); RecvAgain]
    [SysOk 3; SysAgain; SysIntr; SysOk 99] [].

Definition demo_slow_server : Server ClientWorld :=
  mkServer demo_broker {[ 7 := new_ClientState ]} {[ 7 := demo_sock ]} {[ 7 := false ]}
    (repeat (SysOk 0) 9) [] {[ 7 ]} false.

Definition demo_events : list epoll_event :=
  [mkEpollEvent 7 false true false; mkEpollEvent 7 false true true; mkEpollEvent 7 false false true].

Definition demo_slow_run :=
  @run_events ClientWorld client_peer canonical_order demo_clock demo_events demo_slow_server.

Lemma servers_agree_witness :
  let '(r, s') := demo_slow_run in
  r = Ret tt /\
  exists c k, clients_ s' !! 7 = Some c /\ socks s' !! 7 = Some k /\
    sent k ++ drop (write_offset c) (write_buffer c) = frame (lit "PONG").
Proof.
  pose (o := (@serve_all ClientWorld client_peer canonical_order demo_clock [lit "PING"]
                (mkServed demo_broker [] [])).2).
  destruct (@servers_agree ClientWorld client_peer canonical_order demo_clock [lit "PING"] 7
    demo_broker o demo_slow_server demo_sock demo_segments (repeat (SysOk 99) 8) demo_events)
    as (_ & Hrun & _).
  - constructor; [closed|constructor].
  - vm_compute; reflexivity.
  - exact demo_arriving.
  - vm_compute; reflexivity.
  - apply demo_sends. vm_compute; lia.
  - reflexivity.
  - vm_compute; reflexivity.
  - vm_compute; reflexivity.
  - repeat (constructor; [first [by left|by right; left
      |right; right; eexists; split; [|reflexivity]; done]|]). constructor.
  - vm_compute; reflexivity.
  - repeat (constructor; [first [by left|by right; left|right; right; by eexists]|]). constructor.
  - reflexivity.
  - repeat (constructor; [by eexists|]). constructor.
  - repeat (constructor; [split; reflexivity|]). constructor.
  - fold demo_slow_run in Hrun.
    assert (demo_slow_run.1 = Ret tt) as Hr by (vm_compute; reflexivity).
    assert (forall k', socks demo_slow_run.2 !! 7 = Some k' -> rx k' = []) as Hrx.
    { intros k'. assert (rx <$> socks demo_slow_run.2 !! 7 = Some []) as Hv
        by (vm_compute; reflexivity). intros Hk'. rewrite Hk' in Hv. by injection Hv. }
    destruct demo_slow_run as [r s']. simpl in Hr, Hrx. subst r. destruct Hrun as [Hsess Hdone].
    split; [reflexivity|]. pose proof Hsess as (c & k & _ & _ & _ & [Hc Hk] & _).
    exists c, k. split; [exact Hc|]. split; [exact Hk|].
    destruct (Hdone c k Hc Hk) as (_ & _ & _ & Hbytes); [by rewrite (Hrx k Hk)|].
    rewrite Hbytes. vm_compute. reflexivity.
Defined.
