(* ===== verification/EventLoop.v ===== *)
(** * The life of [EpollServer] ([start], [run_event_loop] and the destructor)

    [Servers] models what the event loop does for one client.  Here are the listening
    socket, the epoll instance, the loop around [epoll_wait], the clean-up of [start] and
    the destructor, and the invariant that holds whenever the loop waits. *)

From S2P Require Import Prelude Text Posix Framing Protocol Metrics Topics Groups Client Broker Servers.

(** ** Definitions *)

(** The answers of [epoll_wait]. *)
Inductive wait_result :=
| WaitReady (events : list epoll_event)
| WaitIntr
| WaitErr.

(** The members of [EpollServer] that [Server] does not have, and the answers of the
    kernel. *)
Record Process (P : Type) := mkProcess {
  core : Server P;
  server_fd_ : option nat;
  epoll_fd_ : option nat;
  calls : list sys_result;
  waits : list wait_result
}.
Arguments mkProcess {P} core server_fd_ epoll_fd_ calls waits.
Arguments core {P} p.
Arguments server_fd_ {P} p.
Arguments epoll_fd_ {P} p.
Arguments calls {P} p.
Arguments waits {P} p.

Section loop.
Context {P : Type} `{Peer P} {order : IterOrder} (clock : World P -> Request -> Z).

Definition on_core {A} : M (Server P) A -> M (Process P) A :=
  zoom core (fun c p => mkProcess c (server_fd_ p) (epoll_fd_ p) (calls p) (waits p)).

Definition set_core (f : Server P -> Server P) (p : Process P) : Process P :=
  mkProcess (f (core p)) (server_fd_ p) (epoll_fd_ p) (calls p) (waits p).

Definition set_server_fd (fd : option nat) (p : Process P) : Process P :=
  mkProcess (core p) fd (epoll_fd_ p) (calls p) (waits p).

Definition set_epoll_fd (fd : option nat) (p : Process P) : Process P :=
  mkProcess (core p) (server_fd_ p) fd (calls p) (waits p).

(** A system call: whether it succeeded. *)
Definition call : M (Process P) bool := fun p =>
  match calls p with
  | [] => (Crash, p)
  | r :: rs =>
      (Ret match r with SysOk _ => true | _ => false end,
       mkProcess (core p) (server_fd_ p) (epoll_fd_ p) rs (waits p))
  end.

(** One of [setup_server]'s and [setup_epoll]'s calls, whose failure is an exception. *)
Definition checked_call : M (Process P) unit :=
  good ← call; if (good : bool) then mret tt else throw runtime_error.

(** A descriptor that is not in use. *)
Definition open_descriptor (fd : nat) (s : Server P) : Server P :=
  mkServer (srv_world s) (clients_ s) (socks s) (interest s) (ctl s) (accepts s)
    ({[fd]} ∪ opened s) (misclosed s).

Definition take_fd : M (Process P) nat := fun p =>
  let fd := fresh (opened (core p)) in (Ret fd, set_core (open_descriptor fd) p).

(** [socket] and [epoll_create1]. *)
Definition open_fd : M (Process P) (option nat) :=
  good ← call;
  if (good : bool) then fd ← take_fd; mret (Some fd) else mret None.

(** [if (fd >= 0) ::close(fd)]. *)
Definition close_fd (fd : option nat) (p : Process P) : Process P :=
  match fd with
  | None => p
  | Some fd => set_core (close_descriptor fd) p
  end.

(** [::close(entry.second.fd)] for every client. *)
Definition close_clients (p : Process P) : Process P :=
  fold_left (fun p fd => close_fd (Some fd) p) (map fst (map_to_list (clients_ (core p)))) p.

(** [socket] and [setsockopt], whose result is ignored, [fcntl] twice, [bind], [listen]. *)
Definition setup_server : M (Process P) unit :=
  fd ← open_fd;
  _ ← modify (set_server_fd fd);
  match fd with
  | None => throw runtime_error
  | Some _ =>
      _ ← call;
      _ ← checked_call; _ ← checked_call; _ ← checked_call; checked_call
  end.

(** [epoll_create1] and the registration of the listening socket. *)
Definition setup_epoll : M (Process P) unit :=
  fd ← open_fd;
  _ ← modify (set_epoll_fd fd);
  match fd with
  | None => throw runtime_error
  | Some _ => checked_call
  end.

(** The body of the loop over the ready events. *)
Definition handle_ready (e : epoll_event) : M (Process P) unit :=
  server_fd ← gets server_fd_;
  if bool_decide (server_fd = Some (ev_fd e))
  then if ev_in e then on_core accept_clients else mret tt
  else on_core (handle_event clock e).

Fixpoint handle_all (es : list epoll_event) : M (Process P) unit :=
  match es with
  | [] => mret tt
  | e :: es => _ ← handle_ready e; handle_all es
  end.

(** The [while (true)] loop, by the answers of [epoll_wait]; without one it waits. *)
Fixpoint event_loop (ws : list wait_result) : M (Process P) unit :=
  match ws with
  | [] => fun p => (Crash, p)
  | WaitIntr :: ws => event_loop ws
  | WaitErr :: _ => throw runtime_error
  | WaitReady es :: ws => _ ← handle_all es; event_loop ws
  end.

Definition run_event_loop : M (Process P) unit := ws ← gets waits; event_loop ws.

(** The [catch] block of [start]. *)
Definition clean_up (p : Process P) : Process P :=
  let p := set_epoll_fd None (close_fd (epoll_fd_ p) p) in
  let p := set_server_fd None (close_fd (server_fd_ p) p) in
  set_core (set_clients (fun _ => ∅)) (close_clients p).

Definition epoll_start : M (Process P) unit := fun p =>
  match (_ ← setup_server; _ ← setup_epoll; run_event_loop) p with
  | (Throw e, p) => (Throw e, clean_up p)
  | r => r
  end.

(** [~EpollServer]. *)
Definition epoll_destroy (p : Process P) : Process P :=
  let p := close_clients p in
  let p := close_fd (epoll_fd_ p) p in
  close_fd (server_fd_ p) p.

(** [{ EpollServer server(broker, port); server.start(); }]. *)
Definition epoll_lifetime : M (Process P) unit := fun p =>
  match epoll_start (set_server_fd None (set_epoll_fd None
          (set_core (set_clients (fun _ => ∅)) p))) with
  | (Crash, p) => (Crash, p)
  | (r, p) => (r, epoll_destroy p)
  end.

End loop.

(** *** Specification *)

(** A client's buffer and whether [EPOLLOUT] is asked for: exactly when something is left
    to send. *)
Definition client_ok (c : ClientState) (armed : bool) : Prop :=
  if armed then write_offset c < length (write_buffer c)
  else write_buffer c = [] /\ write_offset c = 0.

(** What the server knows of a descriptor: nothing, or a client with an open socket that
    is registered with epoll. *)
Definition slot_ok (c : option ClientState) (k : option Sock) (armed : option bool) : Prop :=
  match c, k, armed with
  | None, None, None => True
  | Some c, Some _, Some armed => client_ok c armed
  | _, _, _ => False
  end.

(** The descriptors of the clients are open, and none was closed twice. *)
Definition fds_ok {P} (s : Server P) : Prop :=
  (forall fd, is_Some (clients_ s !! fd) -> fd ∈ opened s) /\ misclosed s = false.

Definition loop_ok {P} (s : Server P) : Prop :=
  fds_ok s /\ forall fd, slot_ok (clients_ s !! fd) (socks s !! fd) (interest s !! fd).

(** The open descriptors that are not a client's. *)
Definition others {P} (s : Server P) : gset nat := opened s ∖ dom (clients_ s).

(** ** Lemmas *)

(** *** Triples *)

(** From [Pre], a result satisfies [Post] and an exception [Exc]. *)
Definition triple {S A} (Pre : S -> Prop) (m : M S A) (Post : A -> S -> Prop) (Exc : S -> Prop)
    : Prop :=
  forall s, Pre s ->
    match m s with
    | (Ret a, s') => Post a s'
    | (Throw _, s') => Exc s'
    | (Crash, _) => True
    end.

Section triples.
Context {S : Type}.

Implicit Types Pre Exc : S -> Prop.

Lemma triple_bind {A B} Pre Mid (m : M S A) (k : A -> M S B) Post Exc :
  triple Pre m Mid Exc -> (forall a, triple (Mid a) (k a) Post Exc) ->
  triple Pre (m ≫= k) Post Exc.
Proof.
  intros Hm Hk s Hs. specialize (Hm s Hs). unfold mbind, M_bind.
  destruct (m s) as [[a|e|] s']; [by apply Hk|done|done].
Qed.

Lemma triple_ret {A} (Post : A -> S -> Prop) Exc a : triple (Post a) (mret a) Post Exc.
Proof. by intros s. Qed.

Lemma triple_pre {A} Pre Pre' (m : M S A) Post Exc :
  triple Pre' m Post Exc -> (forall s, Pre s -> Pre' s) -> triple Pre m Post Exc.
Proof. intros Hm HP s Hs. by apply Hm, HP. Qed.

Lemma triple_gets {A B} Pre (f : S -> A) (k : A -> M S B) Post Exc :
  (forall a, triple (fun s => Pre s /\ f s = a) (k a) Post Exc) ->
  triple Pre (gets f ≫= k) Post Exc.
Proof. intros Hk s Hs. by apply (Hk (f s)). Qed.

Lemma triple_modify Pre f (Post : unit -> S -> Prop) Exc :
  (forall s, Pre s -> Post tt (f s)) -> triple Pre (modify f) Post Exc.
Proof. intros Hf s Hs. by apply Hf. Qed.

Lemma triple_try {A} Pre Mid (m h : M S A) (Post : A -> S -> Prop) Exc :
  triple Pre m Post Mid -> triple Mid h Post Exc -> triple Pre (try_catch m h) Post Exc.
Proof.
  intros Hm Hh s Hs. specialize (Hm s Hs). unfold try_catch.
  destruct (m s) as [[a|e|] s']; [done|by apply Hh|done].
Qed.

Lemma triple_crash {A} Pre (Post : A -> S -> Prop) Exc : triple Pre (fun s => (Crash, s)) Post Exc.
Proof. by intros s. Qed.

End triples.

(** *** One client *)

Section clients.
Context {P : Type} `{Peer P} {order : IterOrder} (clock : World P -> Request -> Z).

(** The open descriptors that are not clients'; handling events leaves them as they are. *)
Context (rest : gset nat).

Implicit Types s : Server P.
Implicit Types R : ClientState -> bool -> Prop.

Definition guarded s : Prop := fds_ok s /\ others s = rest.

Definition loop_at s : Prop := loop_ok s /\ others s = rest.

Lemma guarded_same s s' :
  guarded s -> opened s' = opened s -> misclosed s' = misclosed s ->
  (forall fd, is_Some (clients_ s' !! fd) <-> is_Some (clients_ s !! fd)) -> guarded s'.
Proof.
  intros [[Hin Hmis] Ho] Hop Hm Hc. split; [split|].
  - intros fd Hfd. rewrite Hop. by apply Hin, Hc.
  - by rewrite Hm.
  - rewrite <-Ho. unfold others. rewrite Hop. f_equal. apply set_eq. intros fd.
    by rewrite !elem_of_dom.
Qed.

(** The server knows the client [fd] in a state described by [R], and all others are as
    the invariant says. *)
Definition at_client R (fd : nat) s : Prop :=
  guarded s /\
  (forall fd', fd' <> fd -> slot_ok (clients_ s !! fd') (socks s !! fd') (interest s !! fd')) /\
  exists c k armed, clients_ s !! fd = Some c /\ socks s !! fd = Some k /\
    interest s !! fd = Some armed /\ R c armed.

Definition any_client (c : ClientState) (armed : bool) : Prop := True.

(** In the middle of the loop that writes. *)
Definition writing (c : ClientState) (armed : bool) : Prop :=
  write_offset c <= length (write_buffer c) /\ (armed = false -> write_buffer c = []).

Lemma at_client_ok fd s : at_client client_ok fd s -> loop_at s.
Proof.
  intros ([Hfds Ho] & Hothers & c & k & armed & Hc & Hk & Ha & Hok). split; [|done].
  split; [done|]. intros fd'.
  destruct (decide (fd' = fd)) as [->|]; [by rewrite Hc, Hk, Ha|by apply Hothers].
Qed.

Lemma loop_at_client fd s c : loop_at s -> clients_ s !! fd = Some c -> at_client client_ok fd s.
Proof.
  intros [[Hfds Hok] Ho] Hc. split; [done|]. split; [by intros fd' _|]. specialize (Hok fd).
  rewrite Hc in Hok.
  destruct (socks s !! fd) as [k|], (interest s !! fd) as [armed|]; try done.
  by exists c, k, armed.
Qed.

Lemma at_client_weaken R R' fd s :
  (forall c armed, R c armed -> R' c armed) -> at_client R fd s -> at_client R' fd s.
Proof.
  intros HR (Hg & Ho & c & k & armed & ? & ? & ? & ?). split; [done|]. split; [done|].
  naive_solver.
Qed.

Lemma triple_update R R' fd f Exc :
  (forall c armed, R c armed -> R' (f c) armed) ->
  triple (at_client R fd) (update_client fd f) (fun _ => at_client R' fd) Exc.
Proof.
  intros HR. apply triple_modify. intros s (Hg & Ho & c & k & armed & Hc & Hk & Ha & Hr).
  split; [|split].
  - eapply guarded_same; [exact Hg|done|done|]. intros fd'. simpl. rewrite lookup_alter.
    case_decide; [subst; by rewrite fmap_is_Some|done].
  - intros fd' Hne. simpl. rewrite lookup_alter_ne by done. by apply Ho.
  - exists (f c), k, armed. simpl. rewrite lookup_alter_eq, Hc. auto.
Qed.

Lemma triple_world {A} R fd (m : M (World P) A) :
  triple (at_client R fd) (on_world m) (fun _ => at_client R fd) (at_client R fd).
Proof.
  intros s Hs. unfold on_world, zoom. destruct (m (srv_world s)) as [[a|e|] w]; done.
Qed.

Lemma triple_ctl R fd Exc :
  triple (at_client R fd) ctl_call (fun _ => at_client R fd) Exc.
Proof. intros s Hs. unfold ctl_call. by destruct (ctl s). Qed.

(** What is known of a client after an operation that may ask for its end. *)
Definition unless_closed R (fd : nat) (good : bool) : Server P -> Prop :=
  at_client (if good then R else any_client) fd.

Lemma triple_good R R' fd (good : bool) Exc :
  (good = true -> forall c armed, R c armed -> R' c armed) ->
  triple (at_client R fd) (mret good) (unless_closed R' fd) Exc.
Proof.
  intros HR s Hs. unfold unless_closed. simpl. eapply at_client_weaken; [|exact Hs].
  intros c armed Hc. destruct good; [by apply HR|done].
Qed.

Lemma triple_epoll_mod R R' fd out Exc :
  (forall c armed, R c armed -> R' c out) ->
  triple (at_client R fd) (epoll_mod fd out) (unless_closed R' fd) Exc.
Proof.
  intros HR. apply triple_bind with (Mid := fun _ => at_client R fd); [apply triple_ctl|].
  intros [|].
  - apply triple_bind with (Mid := fun _ => at_client R' fd);
      [apply triple_modify|by intros _ s Hs].
    intros s (Hg & Ho & c & k & armed & Hc & Hk & Ha & Hr). split; [done|]. split.
    + intros fd' Hne. simpl. rewrite lookup_insert_ne by done. by apply Ho.
    + exists c, k, out. simpl. rewrite lookup_insert_eq. eauto.
  - by apply triple_good.
Qed.

Lemma triple_queue fd response Exc :
  triple (at_client client_ok fd) (queue_response fd response)
    (unless_closed client_ok fd) Exc.
Proof.
  apply triple_gets. intros [c|].
  - apply triple_bind with
      (Mid := fun _ => at_client (fun c _ => write_offset c < length (write_buffer c)) fd).
    + apply triple_pre with (at_client client_ok fd); [|by intros s []].
      apply triple_update. intros c' armed Hc'. cbn [write_offset write_buffer].
      rewrite !length_app, length_be32_enc.
      destruct armed; [simpl in Hc'|destruct Hc' as [-> ->]]; lia.
    + intros ?. by apply triple_epoll_mod.
  - apply triple_pre with (at_client client_ok fd); [by apply triple_good|by intros s []].
Qed.

Lemma triple_serve fd payload Exc :
  triple (at_client client_ok fd) (serve_frame clock fd payload)
    (unless_closed client_ok fd) Exc.
Proof.
  apply triple_try with (at_client client_ok fd); [|by apply triple_good].
  eapply triple_bind; [apply triple_world|]. intros [req response].
  eapply triple_bind; [by apply triple_update with (R' := client_ok)|]. intros ?.
  destruct (_ <? _)%Z; [by apply triple_good|apply triple_queue].
Qed.

Lemma triple_extract fuel fd Exc :
  triple (at_client client_ok fd) (extract_loop clock fuel fd)
    (unless_closed client_ok fd) Exc.
Proof.
  induction fuel as [|fuel IH]; [apply triple_crash|]. apply triple_gets. intros buffer.
  apply triple_pre with (at_client client_ok fd); [|by intros s []].
  cbv zeta. do 3 (case_match; [by apply triple_good|]).
  eapply triple_bind; [apply triple_serve|]. intros [|]; [|by apply triple_good].
  eapply triple_bind; [by apply triple_update with (R' := client_ok)|]. by intros ?.
Qed.

Lemma at_client_sock R fd k s : at_client R fd s -> at_client R fd (set_socks (insert fd k) s).
Proof.
  intros (Hg & Ho & c & k' & armed & Hc & Hk & Ha & Hr). split; [done|]. split.
  - intros fd' Hne. simpl. rewrite lookup_insert_ne by done. by apply Ho.
  - exists c, k, armed. simpl. by rewrite lookup_insert_eq.
Qed.

Lemma triple_recv R fd Exc : triple (at_client R fd) (recv_4096 fd) (fun _ => at_client R fd) Exc.
Proof.
  intros s Hs. unfold recv_4096. destruct (rx _) as [|[seg| | | |] evs]; try done;
    [destruct (4096 <? length seg)|..]; by apply at_client_sock.
Qed.

Lemma triple_send R fd pending Exc :
  triple (at_client R fd) (send_pending fd pending)
    (fun r s => at_client R fd s /\ forall n, r = SysOk n -> n <= length pending) Exc.
Proof.
  intros s Hs. unfold send_pending. destruct (tx _) as [|[n| | |] rs]; try done;
    (split; [by apply at_client_sock|]); intros n' [= <-]. lia.
Qed.

(** Closing leaves nothing of the client. *)
Lemma triple_close R fd Exc :
  triple (at_client R fd) (close_client fd) (fun _ => loop_at) Exc.
Proof.
  apply triple_gets. intros client.
  apply triple_bind with (Mid := fun _ => at_client R fd).
  { apply triple_modify. intros s [Hs _]. by destruct client. }
  intros ?. eapply triple_bind; [apply triple_ctl|]. intros ?.
  intros s ([[Hin Hmis] Hrest] & Ho & c & k & armed & Hc & _). unfold mbind, M_bind, modify.
  assert (fd ∈ opened s) as Hopen by (apply Hin; by exists c). split; [split|].
  - split.
    + intros fd' [c' Hc']. simpl in *. apply lookup_delete_Some in Hc' as [Hne Hc'].
      apply elem_of_difference. split; [apply Hin; by exists c'|]. intros Heq%elem_of_singleton.
      by apply Hne.
    + simpl. rewrite bool_decide_eq_true_2 by done. by rewrite orb_false_r.
  - intros fd'. simpl. destruct (decide (fd' = fd)) as [->|].
    + by rewrite !lookup_delete_eq.
    + rewrite !lookup_delete_ne by done. by apply Ho.
  - rewrite <-Hrest. unfold others. simpl. rewrite dom_delete_L. apply set_eq. intros fd'.
    rewrite !elem_of_difference, elem_of_singleton, elem_of_dom. split.
    + intros [[Hf Hne] Hno]. split; [done|]. by intros Hd; apply Hno.
    + intros [Hf Hno]. split; [split; [done|]|].
      * intros ->. apply Hno. by exists c.
      * by intros [Hd _].
Qed.

Lemma triple_done fd Exc :
  triple (at_client client_ok fd) (mret tt : M (Server P) unit) (fun _ => loop_at) Exc.
Proof. intros s Hs. by apply (at_client_ok fd). Qed.

Lemma triple_read_loop fuel fd Exc :
  triple (at_client client_ok fd) (read_loop clock fuel fd) (fun _ => loop_at) Exc.
Proof.
  induction fuel as [|fuel IH]; [apply triple_crash|].
  eapply triple_bind; [apply triple_recv|].
  intros [[|x seg]| | | |]; [apply triple_close| |apply triple_close|exact IH
    |apply triple_done|apply triple_close].
  eapply triple_bind; [by apply triple_update with (R' := client_ok)|]. intros ?.
  eapply triple_bind.
  - intros s Hs. by apply (triple_extract _ fd Exc).
  - intros [|]; [exact IH|apply triple_close].
Qed.

(** The client the loop looks at. *)
Lemma at_client_get R fd s c :
  at_client R fd s -> default new_ClientState (clients_ s !! fd) = c ->
  at_client (fun c' armed => c' = c /\ R c' armed) fd s.
Proof.
  intros (Hg & Ho & c' & k & armed & Hc & Hk & Ha & Hr) Heq. rewrite Hc in Heq. simpl in Heq.
  split; [done|]. split; [done|]. by exists c', k, armed.
Qed.

Lemma triple_write_loop fuel fd Exc :
  triple (at_client writing fd) (write_client_loop fuel fd) (fun _ => loop_at) Exc.
Proof.
  induction fuel as [|fuel IH]; [apply triple_crash|]. apply triple_gets. intros c.
  apply triple_pre with (at_client (fun c' armed => c' = c /\ writing c' armed) fd).
  2: { intros s [Hs Hc]. by apply at_client_get. }
  destruct (write_offset c <? length (write_buffer c)) eqn:Hlt.
  - apply Nat.ltb_lt in Hlt. eapply triple_bind; [apply triple_send|]. intros r.
    destruct r as [[|n]| | |].
    + eapply triple_pre; [apply triple_close|by intros s [Hs _]].
    + apply triple_bind with (Mid := fun _ => at_client writing fd); [|by intros ?].
      intros s [Hs Hn]. specialize (Hn _ eq_refl). rewrite length_drop in Hn. revert s Hs.
      apply triple_update. intros c' armed [-> [Hle Hun]]. split; [simpl; lia|done].
    + eapply triple_pre; [exact IH|]. intros s [Hs _]. eapply at_client_weaken; [|exact Hs].
      by intros c' armed [_ ?].
    + intros s [Hs _]. apply (at_client_ok fd). eapply at_client_weaken; [|exact Hs].
      intros c' [|] [-> [Hle Hun]]; [done|]. rewrite Hun in Hlt by done. simpl in Hlt. lia.
    + eapply triple_pre; [apply triple_close|by intros s [Hs _]].
  - apply triple_bind with (Mid := fun _ =>
      at_client (fun c _ => write_buffer c = [] /\ write_offset c = 0) fd).
    { by apply triple_update. }
    intros ?. eapply triple_bind; [by apply (triple_epoll_mod _ client_ok)|].
    intros [|]; [apply triple_done|apply triple_close].
Qed.

(** A client that was accepted and is not known yet. *)
Definition arriving_at (fd : nat) s : Prop :=
  fds_ok s /\ others s = {[fd]} ∪ rest /\ fd ∉ rest /\ fd ∈ opened s /\
  clients_ s !! fd = None /\ is_Some (socks s !! fd) /\ interest s !! fd = None /\
  forall fd', fd' <> fd -> slot_ok (clients_ s !! fd') (socks s !! fd') (interest s !! fd').

Lemma open_arriving fd sock s :
  loop_at s -> fd ∉ opened s -> arriving_at fd (open_socket fd sock s).
Proof.
  intros [[[Hin Hmis] Hok] Hrest] Hnew.
  assert (clients_ s !! fd = None) as Hc.
  { apply eq_None_not_Some. intros Hs. by apply Hnew, Hin. }
  pose proof (Hok fd) as Hslot. rewrite Hc in Hslot.
  split_and!; simpl.
  - split; [|done]. intros fd' Hfd'. simpl. apply elem_of_union; right. by apply Hin.
  - rewrite <-Hrest. unfold others. simpl. apply set_eq. intros fd'.
    rewrite elem_of_difference, !elem_of_union, elem_of_difference, elem_of_singleton, elem_of_dom.
    split; [naive_solver|]. intros [->|[? ?]]; [|naive_solver]. split; [by left|].
    rewrite Hc. by intros [? ?].
  - rewrite <-Hrest. unfold others. rewrite elem_of_difference. naive_solver.
  - apply elem_of_union; left. by apply elem_of_singleton.
  - done.
  - rewrite lookup_insert_eq. by eexists.
  - by destruct (socks s !! fd), (interest s !! fd).
  - intros fd' Hne. rewrite lookup_insert_ne by done. apply Hok.
Qed.

Lemma arriving_close fd s : arriving_at fd s -> loop_at (close_descriptor fd s).
Proof.
  intros ([Hin Hmis] & Ho & Hn & Hop & Hc & Hk & Hi & Hok). split; [split; [split|]|]; simpl.
  - intros fd' Hfd'. apply elem_of_difference. split; [by apply Hin|].
    intros ->%elem_of_singleton. rewrite Hc in Hfd'. by destruct Hfd'.
  - rewrite bool_decide_eq_true_2 by done. by rewrite orb_false_r.
  - intros fd'. destruct (decide (fd' = fd)) as [->|].
    + by rewrite !lookup_delete_eq, Hc.
    + rewrite !lookup_delete_ne by done. by apply Hok.
  - unfold others in *. simpl. apply set_eq. intros fd'.
    assert (fd' ∈ opened s ∖ dom (clients_ s) <-> fd' ∈ {[fd]} ∪ rest) as Heq by (by rewrite Ho).
    rewrite elem_of_difference, elem_of_union, elem_of_singleton in Heq.
    rewrite !elem_of_difference, elem_of_singleton. split; [naive_solver|].
    intros Hr. split; [split|]; [naive_solver|by intros ->|naive_solver].
Qed.

Lemma arriving_known fd s :
  arriving_at fd s ->
  loop_at (set_clients (emplace_client fd) (set_interest (insert fd false) s)).
Proof.
  intros ([Hin Hmis] & Ho & Hn & Hop & Hc & [k Hk] & Hi & Hok).
  unfold emplace_client. split; [split; [split|]|]; simpl; rewrite ?Hc.
  - intros fd' Hfd'. destruct (decide (fd' = fd)) as [->|Hne]; [done|].
    rewrite lookup_insert_ne in Hfd' by done. by apply Hin.
  - done.
  - intros fd'. destruct (decide (fd' = fd)) as [->|].
    + by rewrite !lookup_insert_eq, Hk.
    + rewrite !lookup_insert_ne by done. by apply Hok.
  - unfold others in *. simpl. rewrite Hc, dom_insert_L. apply set_eq. intros fd'.
    assert (fd' ∈ opened s ∖ dom (clients_ s) <-> fd' ∈ {[fd]} ∪ rest) as Heq by (by rewrite Ho).
    rewrite elem_of_difference, elem_of_union, elem_of_singleton in Heq.
    rewrite elem_of_difference, elem_of_union, elem_of_singleton. split; [naive_solver|].
    intros Hr. split; [naive_solver|]. intros [->|?]; [done|naive_solver].
Qed.

Lemma triple_accept evs Exc :
  triple loop_at (accept_loop evs : M (Server P) unit) (fun _ => loop_at) Exc.
Proof.
  assert (forall fd, triple (arriving_at fd) (@ctl_call P) (fun _ => arriving_at fd) Exc) as Hctl
    by (intros fd s Hs; unfold ctl_call; by destruct (ctl s)).
  assert (forall fd (m : M (Server P) unit), triple loop_at m (fun _ => loop_at) Exc ->
    triple (arriving_at fd) (_ ← modify (close_descriptor fd); m) (fun _ => loop_at) Exc) as Hclose.
  { intros fd m Hm. apply triple_bind with (Mid := fun _ => loop_at); [|by intros ?].
    apply triple_modify. intros s. apply arriving_close. }
  induction evs as [|[fd sock| | |] evs IH]; [apply triple_crash| |exact IH|by intros s|by intros s].
  apply triple_gets. intros [|]; [apply triple_crash|].
  apply triple_bind with (Mid := fun _ => arriving_at fd).
  { apply triple_modify. intros s [Hs Hu]. apply open_arriving; [done|].
    by apply bool_decide_eq_false in Hu. }
  intros ?. eapply triple_bind; [apply Hctl|]. intros flags.
  apply triple_bind with (Mid := fun _ => arriving_at fd);
    [destruct flags; [apply Hctl|by intros s]|].
  intros [|]; [|by apply Hclose].
  eapply triple_bind; [apply Hctl|]. intros [|]; [|by apply Hclose].
  intros s Hs. exact (IH _ (arriving_known fd s Hs)).
Qed.

Lemma triple_write fd Exc :
  triple loop_at (write_to_client fd : M (Server P) unit) (fun _ => loop_at) Exc.
Proof.
  intros s Hs. unfold write_to_client. destruct (clients_ s !! fd) as [c|] eqn:Hc; [|done].
  apply (triple_write_loop _ fd Exc). eapply at_client_weaken; [|by eapply loop_at_client].
  intros c' [|]; unfold writing; simpl; [split; [lia|done]|].
  intros [-> ->]. split; [simpl; lia|done].
Qed.

Lemma triple_read fd Exc : triple loop_at (read_from_client clock fd) (fun _ => loop_at) Exc.
Proof.
  intros s Hs. unfold read_from_client. destruct (clients_ s !! fd) as [c|] eqn:Hc; [|done].
  apply (triple_read_loop _ fd Exc). by eapply loop_at_client.
Qed.

Lemma triple_event e Exc : triple loop_at (handle_event clock e) (fun _ => loop_at) Exc.
Proof.
  apply triple_gets. intros known.
  destruct known; cbn [negb]; [|apply triple_pre with loop_at; [by intros s|by intros s []]].
  destruct (ev_error e).
  { intros s [Hs Hk]. apply bool_decide_eq_true in Hk as [c Hc].
    apply (triple_close client_ok (ev_fd e) Exc). by eapply loop_at_client. }
  apply triple_pre with loop_at; [|by intros s []].
  apply triple_bind with (Mid := fun _ => loop_at).
  { destruct (ev_in e); [apply triple_read|by intros s]. }
  intros ?. apply triple_gets. intros still. apply triple_pre with loop_at; [|by intros s []].
  destruct (ev_out e && still); [apply triple_write|by intros s].
Qed.

End clients.

(** *** The loop *)

Section process.
Context {P : Type} `{Peer P} {order : IterOrder} (clock : World P -> Request -> Z).

Implicit Types p : Process P.

(** The descriptors of the listening socket and of the epoll instance. *)
Definition fd_set (fd : option nat) : gset nat := from_option singleton ∅ fd.

(** The process has the descriptors [before], those of the server and those of its clients,
    each once. *)
Definition holds (before : gset nat) p : Prop :=
  loop_at (before ∪ fd_set (server_fd_ p) ∪ fd_set (epoll_fd_ p)) (core p) /\
  before ## fd_set (server_fd_ p) /\ before ∪ fd_set (server_fd_ p) ## fd_set (epoll_fd_ p).

Lemma triple_on_core {A} before (m : M (Server P) A) Exc :
  (forall rest, triple (loop_at rest) m (fun _ => loop_at rest) (fun _ => False)) ->
  triple (holds before) (on_core m) (fun _ => holds before) Exc.
Proof.
  intros Hm p (Hok & Hrest). specialize (Hm _ _ Hok). unfold on_core, zoom.
  destruct (m (core p)) as [[a|e|] c]; done.
Qed.

Lemma triple_accept_clients rest Exc :
  triple (loop_at rest) (accept_clients : M (Server P) unit) (fun _ => loop_at rest) Exc.
Proof.
  apply triple_gets. intros evs.
  apply triple_bind with (Mid := fun _ => loop_at rest); [|intros ?; apply triple_accept].
  apply triple_modify. by intros s [].
Qed.

Lemma triple_ready before e Exc :
  triple (holds before) (handle_ready clock e) (fun _ => holds before) Exc.
Proof.
  apply triple_gets. intros server_fd.
  apply triple_pre with (holds before); [|by intros p []].
  case_bool_decide; [destruct (ev_in e); [|by intros p]|]; apply triple_on_core; intros rest;
    [apply triple_accept_clients|apply triple_event].
Qed.

Lemma triple_all before es Exc :
  triple (holds before) (handle_all clock es) (fun _ => holds before) Exc.
Proof.
  induction es as [|e es IH]; [by intros p|]. eapply triple_bind; [apply triple_ready|].
  by intros ?.
Qed.

(** The loop ends by an exception only. *)
Lemma triple_event_loop before ws :
  triple (holds before) (event_loop clock ws) (fun _ _ => False) (holds before).
Proof.
  induction ws as [|[es| |] ws IH]; [apply triple_crash| |exact IH|by intros p].
  eapply triple_bind; [apply triple_all|]. by intros ?.
Qed.

(** *** Descriptors *)

Lemma triple_call before Exc : triple (holds before) call (fun _ => holds before) Exc.
Proof. intros p Hp. unfold call. by destruct (calls p). Qed.

Lemma triple_checked before :
  triple (holds before) checked_call (fun _ => holds before) (holds before).
Proof. eapply triple_bind; [apply triple_call|]. intros [|]; by intros p. Qed.

(** Taking a descriptor, which is new. *)
Lemma open_fresh rest (s : Server P) :
  loop_at rest s ->
  let fd := fresh (opened s) in fd ∉ rest /\ loop_at (rest ∪ {[fd]}) (open_descriptor fd s).
Proof.
  intros [[[Hin Hmis] Hok] Hrest] fd. pose proof (is_fresh (opened s)) as Hfresh. fold fd in Hfresh.
  assert (fd ∉ dom (clients_ s)) as Hc by (rewrite elem_of_dom; intros Hd; by apply Hfresh, Hin).
  split; [rewrite <-Hrest; unfold others; set_solver|]. split; [split; [split|]|].
  - intros fd' Hfd'. simpl. apply elem_of_union; right. by apply Hin.
  - done.
  - done.
  - rewrite <-Hrest. unfold others. simpl. set_solver.
Qed.

Lemma open_fd_spec p :
  match open_fd p with
  | (Ret None, p') => core p' = core p /\ server_fd_ p' = server_fd_ p /\ epoll_fd_ p' = epoll_fd_ p
  | (Ret (Some fd), p') => fd = fresh (opened (core p)) /\
      core p' = open_descriptor fd (core p) /\ server_fd_ p' = server_fd_ p /\
      epoll_fd_ p' = epoll_fd_ p
  | (Throw _, _) => False
  | (Crash, _) => True
  end.
Proof.
  unfold open_fd, call, mbind, M_bind. destruct (calls p) as [|[n| | |] rs]; done.
Qed.

Lemma triple_setup_server before :
  triple (fun p => holds before p /\ server_fd_ p = None /\ epoll_fd_ p = None) setup_server
    (fun _ p => holds before p /\ epoll_fd_ p = None) (holds before).
Proof.
  apply triple_bind with (Mid := fun fd p => server_fd_ p = None /\ epoll_fd_ p = None /\
    holds before (set_server_fd fd p)).
  { intros p ((Hok & _) & Hs & He). rewrite Hs, He in Hok. simpl in Hok.
    rewrite !union_empty_r_L in Hok.
    pose proof (open_fd_spec p) as Hopen. destruct (open_fd p) as [[[fd|]|e|] p']; [..|done|done].
    - destruct Hopen as (-> & Hc & Hs' & He').
      destruct (open_fresh _ _ Hok) as [Hnew Hat]. split_and!; [congruence..|].
      unfold holds. simpl. rewrite He', He, Hc. simpl. rewrite union_empty_r_L.
      split_and!; [exact Hat|set_solver|set_solver].
    - destruct Hopen as (Hc & Hs' & He'). split_and!; [congruence..|].
      unfold holds. simpl. rewrite He', He, Hc. simpl. rewrite !union_empty_r_L.
      split_and!; [exact Hok|set_solver|set_solver]. }
  intros fd. apply triple_bind with (Mid := fun _ p => (holds before p /\ epoll_fd_ p = None) /\
    server_fd_ p = fd).
  { apply triple_modify. intros p (Hs & He & Hh). done. }
  intros ?. destruct fd as [fd|]; [|by intros p [[Hh _] _]].
  assert (triple (fun p => holds before p /\ epoll_fd_ p = None) call
    (fun _ p => holds before p /\ epoll_fd_ p = None) (holds before)) as Hcall.
  { intros p [Hh He]. unfold call. by destruct (calls p). }
  assert (triple (fun p => holds before p /\ epoll_fd_ p = None) checked_call
    (fun _ p => holds before p /\ epoll_fd_ p = None) (holds before)) as Hchk.
  { eapply triple_bind; [exact Hcall|]. intros [|]; [by intros p|by intros p []]. }
  apply triple_pre with (fun p => holds before p /\ epoll_fd_ p = None); [|by intros p []].
  eapply triple_bind; [exact Hcall|]. intros ?.
  do 3 (eapply triple_bind; [exact Hchk|]; intros ?). exact Hchk.
Qed.

Lemma triple_setup_epoll before :
  triple (fun p => holds before p /\ epoll_fd_ p = None) setup_epoll
    (fun _ => holds before) (holds before).
Proof.
  apply triple_bind with (Mid := fun fd p => epoll_fd_ p = None /\
    holds before (set_epoll_fd fd p)).
  { intros p ((Hok & Hd & _) & He). rewrite He in Hok. simpl in Hok. rewrite union_empty_r_L in Hok.
    pose proof (open_fd_spec p) as Hopen. destruct (open_fd p) as [[[fd|]|e|] p']; [..|done|done].
    - destruct Hopen as (-> & Hc & Hs' & He').
      destruct (open_fresh _ _ Hok) as [Hnew Hat]. split; [congruence|].
      unfold holds. simpl. rewrite Hs', Hc.
      split_and!; [exact Hat|exact Hd|set_solver].
    - destruct Hopen as (Hc & Hs' & He'). split; [congruence|].
      unfold holds. simpl. rewrite Hs', Hc, union_empty_r_L.
      split_and!; [exact Hok|exact Hd|set_solver]. }
  intros fd. apply triple_bind with (Mid := fun _ => holds before).
  { apply triple_modify. intros p (He & Hh). done. }
  intros ?. destruct fd as [fd|]; [apply triple_checked|by intros p].
Qed.

(** *** Closing everything *)

(** Closing a descriptor that is not a client's. *)
Lemma close_fd_other fd p rest :
  loop_at (rest ∪ fd_set fd) (core p) -> rest ## fd_set fd ->
  loop_at rest (core (close_fd fd p)) /\ server_fd_ (close_fd fd p) = server_fd_ p /\
  epoll_fd_ (close_fd fd p) = epoll_fd_ p.
Proof.
  intros Hok Hd. destruct fd as [fd|]; simpl in *; [|by rewrite union_empty_r_L in Hok].
  destruct Hok as [[[Hin Hmis] Hok] Hrest]. split; [|done].
  assert (fd ∈ others (core p)) as Hfd by (rewrite Hrest; set_solver).
  unfold others in Hfd. apply elem_of_difference in Hfd as [Hopen Hno]. rewrite elem_of_dom in Hno.
  split; [split; [split|]|].
  - intros fd' Hfd'. simpl in *. apply elem_of_difference. split; [by apply Hin|].
    by intros ->%elem_of_singleton.
  - simpl. rewrite bool_decide_eq_true_2 by done. by rewrite orb_false_r.
  - intros fd'. simpl. destruct (decide (fd' = fd)) as [->|].
    + rewrite !lookup_delete_eq. apply eq_None_not_Some in Hno. by rewrite Hno.
    + rewrite !lookup_delete_ne by done. apply Hok.
  - unfold others in *. simpl. set_solver.
Qed.

(** Closing some clients. *)
Lemma close_some l : forall p,
  NoDup l -> (forall fd, fd ∈ l -> fd ∈ opened (core p)) ->
  let p' := fold_left (fun p fd => close_fd (Some fd) p) l p in
  misclosed (core p') = misclosed (core p) /\ clients_ (core p') = clients_ (core p) /\
  opened (core p') = opened (core p) ∖ list_to_set l /\
  server_fd_ p' = server_fd_ p /\ epoll_fd_ p' = epoll_fd_ p /\
  forall fd, socks (core p') !! fd = if decide (fd ∈ l) then None else socks (core p) !! fd.
Proof.
  induction l as [|fd l IH]; intros p Hl Hin; [split_and!; try done; set_solver|]; cbv zeta.
  apply NoDup_cons in Hl as [Hnin Hl]. cbn [fold_left].
  destruct (IH (close_fd (Some fd) p) Hl) as (H1 & H2 & H3 & H4 & H5 & H6).
  { intros fd' Hfd'. simpl. apply elem_of_difference. split; [by apply Hin, elem_of_cons; right|].
    by intros ->%elem_of_singleton. }
  rewrite H1, H2, H3, H4, H5. split_and!; [|done|simpl; set_solver|done|done|].
  - simpl. rewrite bool_decide_eq_true_2 by (by apply Hin, elem_of_cons; left). apply orb_false_r.
  - intros fd'. rewrite H6. simpl. destruct (decide (fd' = fd)) as [->|Hne].
    + rewrite decide_False, decide_True by (done || by apply elem_of_cons; left).
      apply lookup_delete_eq.
    + rewrite lookup_delete_ne by done. destruct (decide (fd' ∈ l)).
      * by rewrite decide_True by (by apply elem_of_cons; right).
      * by rewrite decide_False by (by intros [?|?]%elem_of_cons).
Qed.

Lemma close_clients_all p rest :
  loop_at rest (core p) ->
  let p' := close_clients p in
  misclosed (core p') = false /\ opened (core p') = rest /\ socks (core p') = ∅ /\
  server_fd_ p' = server_fd_ p /\ epoll_fd_ p' = epoll_fd_ p.
Proof.
  intros [[[Hin Hmis] Hok] Hrest] p'.
  assert (Hkeys : forall fd, fd ∈ map fst (map_to_list (clients_ (core p))) <->
    is_Some (clients_ (core p) !! fd)).
  { intros fd. rewrite list_elem_of_fmap. split.
    - intros ([fd' c] & -> & Hc%elem_of_map_to_list). by exists c.
    - intros [c Hc]. exists (fd, c). by rewrite elem_of_map_to_list. }
  destruct (close_some (map fst (map_to_list (clients_ (core p)))) p)
    as (H1 & H2 & H3 & H4 & H5 & H6).
  { apply NoDup_fst_map_to_list. }
  { intros fd Hfd. by apply Hin, Hkeys. }
  unfold p', close_clients. split_and!; [congruence| | |done|done].
  - rewrite H3, <-Hrest. unfold others. f_equal. apply set_eq. intros fd.
    by rewrite elem_of_list_to_set, Hkeys, elem_of_dom.
  - apply map_eq. intros fd. rewrite H6, lookup_empty. case_decide as Hd; [done|].
    rewrite Hkeys in Hd. specialize (Hok fd). apply eq_None_not_Some in Hd. rewrite Hd in Hok.
    by destruct (socks (core p) !! fd).
Qed.

(** Nothing of the server is left. *)
Definition released (before : gset nat) p : Prop :=
  opened (core p) = before /\ misclosed (core p) = false /\ socks (core p) = ∅ /\
  clients_ (core p) = ∅ /\ server_fd_ p = None /\ epoll_fd_ p = None.

Lemma clean_up_released before p : holds before p -> released before (clean_up p).
Proof.
  intros (Hok & Hd1 & Hd2). unfold clean_up. cbv zeta.
  destruct (close_fd_other (epoll_fd_ p) p _ Hok Hd2) as (Hok1 & S1 & _).
  set (p1 := set_epoll_fd None (close_fd (epoll_fd_ p) p)).
  change (loop_at (before ∪ fd_set (server_fd_ p)) (core p1)) in Hok1.
  change (server_fd_ p1 = server_fd_ p) in S1. rewrite <-S1 in Hok1, Hd1.
  destruct (close_fd_other (server_fd_ p1) p1 _ Hok1 Hd1) as (Hok2 & _ & E2).
  set (p2 := set_server_fd None (close_fd (server_fd_ p1) p1)).
  destruct (close_clients_all p2 before Hok2) as (M3 & O3 & Z3 & S3 & E3).
  change (released before (set_core (set_clients (fun _ => ∅)) (close_clients p2))).
  split_and!; [exact O3|exact M3|exact Z3|done|exact S3|exact (eq_trans E3 E2)].
Qed.

Lemma epoll_start_releases p :
  loop_ok (core p) -> clients_ (core p) = ∅ -> server_fd_ p = None -> epoll_fd_ p = None ->
  match epoll_start clock p with
  | (Ret _, _) => False
  | (Throw _, p') => released (opened (core p)) p'
  | (Crash, _) => True
  end.
Proof.
  intros Hok Hc Hs He. set (before := opened (core p)).
  assert (triple (fun p' => holds before p' /\ server_fd_ p' = None /\ epoll_fd_ p' = None)
    (_ ← setup_server; _ ← setup_epoll; run_event_loop clock) (fun _ _ => False) (holds before))
    as Hrun.
  { eapply triple_bind; [apply triple_setup_server|]. intros ?.
    eapply triple_bind; [apply triple_setup_epoll|]. intros ?. apply triple_gets. intros ws.
    apply triple_pre with (holds before); [apply triple_event_loop|by intros s []]. }
  assert (holds before p) as Hh.
  { unfold holds. rewrite Hs, He. simpl. split_and!; [split; [done|]|set_solver..].
    unfold others. rewrite Hc. set_solver. }
  specialize (Hrun p (conj Hh (conj Hs He))). unfold epoll_start.
  destruct ((setup_server ≫= _) p) as [[[]|e|] p']; [done|by apply clean_up_released|done].
Qed.

Lemma destroy_released before p : released before p -> released before (epoll_destroy p).
Proof.
  intros (F & Mi & Z & C & S & E). unfold epoll_destroy, close_clients. rewrite C.
  rewrite map_to_list_empty. simpl. rewrite E. simpl. by rewrite S.
Qed.

Lemma epoll_lifetime_ends p :
  socks (core p) = ∅ -> interest (core p) = ∅ -> misclosed (core p) = false ->
  match epoll_lifetime clock p with
  | (Ret _, _) => False
  | (Throw _, p') => released (opened (core p)) p'
  | (Crash, _) => True
  end.
Proof.
  intros Hsocks Hint Hmis. unfold epoll_lifetime.
  set (p0 := set_server_fd _ _).
  assert (loop_ok (core p0)) as Hok.
  { split; [split; [by intros fd [c Hc]|done]|]. intros fd. unfold p0. simpl.
    by rewrite Hsocks, Hint, !lookup_empty. }
  pose proof (epoll_start_releases p0 Hok eq_refl eq_refl eq_refl) as Hrel.
  destruct (epoll_start clock p0) as [[[]|e|] p1]; [done| |done]. by apply destroy_released.
Qed.

End process.

(** ** Properties *)

Section properties.
Context {P : Type} `{Peer P} {order : IterOrder} (clock : World P -> Request -> Z).

(** C8. Whatever events are ready, in whatever order, and whatever the sockets, [fcntl],
    [epoll_ctl] and [accept] answer, handling them throws nothing, so no client ends the
    loop for the others; and when it waits again every client it knows has one open socket
    that is registered with epoll, asks for [EPOLLOUT] exactly when some bytes of a
    response are unsent, and its offset is inside its buffer; no descriptor was closed that
    was not open, and apart from the clients' the open descriptors are the same. *)
Theorem event_loop_invariant es (p : Process P) :
  loop_ok (core p) ->
  match handle_all clock es p with
  | (Ret _, p') => loop_ok (core p') /\ others (core p') = others (core p)
  | (Throw _, _) => False
  | (Crash, _) => True
  end.
Proof.
  intros Hok. set (rest := others (core p)).
  assert (loop_at rest (core p)) as Hat by done. clearbody rest. revert p Hat Hok.
  assert (forall A (m : M (Server P) A), triple (loop_at rest) m (fun _ => loop_at rest) (fun _ => False) ->
    triple (fun p : Process P => loop_at rest (core p)) (on_core m)
      (fun _ p => loop_at rest (core p)) (fun _ => False)) as Hcore.
  { intros A m Hm p Hok. specialize (Hm _ Hok). unfold on_core, zoom.
    by destruct (m (core p)) as [[a|e|] c]. }
  assert (triple (fun p : Process P => loop_at rest (core p)) (handle_all clock es)
    (fun _ p => loop_at rest (core p)) (fun _ => False)) as Hall.
  { induction es as [|e es IH]; [by intros p|].
    apply triple_bind with (Mid := fun _ p => loop_at rest (core p)); [|by intros ?].
    apply triple_gets. intros server_fd.
    apply triple_pre with (fun p => loop_at rest (core p)); [|by intros p []].
    case_bool_decide; [destruct (ev_in e); [|by intros p]|]; apply Hcore; [|apply triple_event].
    apply triple_accept_clients. }
  intros p Hat _. exact (Hall p Hat).
Qed.

(** C19. [start] does not return: it waits for ever or ends by an exception.  After an
    exception, wherever it came from, and after the destructor, the descriptors that are
    open are those that were open before: the listening socket, the epoll instance and
    every client that was accepted, those that could not be configured or registered and
    those that ended earlier included, have been closed, and nothing was closed that was
    not open. *)
Theorem epoll_lifetime_releases (p : Process P) :
  socks (core p) = ∅ -> interest (core p) = ∅ -> misclosed (core p) = false ->
  match epoll_lifetime clock p with
  | (Ret _, _) => False
  | (Throw _, p') => released (opened (core p)) p'
  | (Crash, _) => True
  end.
Proof.
  apply epoll_lifetime_ends.
Qed.

End properties.

(** *** Witnesses *)

(** A process that has one client, and one that is about to start. *)
Definition demo_process (evs : list recv_event) : Process ClientWorld :=
  mkProcess (demo_server evs) (Some 3) (Some 4) [] [].

Definition demo_fresh (answers : list sys_result) : Process ClientWorld :=
  mkProcess (mkServer demo_broker ∅ ∅ ∅ [SysOk 0; SysErr]
      [AcceptFd 9 (mkSock [] [] []); AcceptAgain] {[0; 1; 2]} false)
    None None answers [WaitReady [mkEpollEvent 3 false true false]; WaitIntr; WaitErr].

Definition demo_event : list epoll_event := [mkEpollEvent 7 false true false].

Definition demo_waiting : Process ClientWorld :=
  demo_process [RecvData (frame (lit "PING")); RecvAgain].

Lemma event_loop_invariant_witness :
  let '(r, p') :=
    @handle_all ClientWorld client_peer canonical_order demo_clock demo_event demo_waiting in
  r = Ret tt /\ loop_ok (core p') /\ interest (core p') !! 7 = Some true.
Proof.
  assert (loop_ok (core demo_waiting)) as Hok.
  { split.
    { split; [|reflexivity]. intros fd [c Hc]. simpl in Hc.
      apply lookup_singleton_Some in Hc as [<- _]. by apply elem_of_singleton. }
    intros fd. unfold demo_waiting, demo_process, demo_server. simpl.
    destruct (decide (fd = 7)) as [->|]; [vm_compute; done|].
    by rewrite !lookup_singleton_ne by done. }
  pose proof (@event_loop_invariant ClientWorld client_peer canonical_order demo_clock
    demo_event demo_waiting Hok) as Hinv.
  assert ((@handle_all ClientWorld client_peer canonical_order demo_clock demo_event
    demo_waiting).1 = Ret tt) as Hr by (vm_compute; reflexivity).
  assert (interest (core (@handle_all ClientWorld client_peer canonical_order demo_clock
    demo_event demo_waiting).2) !! 7 = Some true) as Hi by (vm_compute; reflexivity).
  destruct (@handle_all ClientWorld client_peer canonical_order demo_clock demo_event
    demo_waiting) as [[[]|e|] p']; [|discriminate..].
  split; [reflexivity|]. split; [exact (proj1 Hinv)|exact Hi].
Defined.

Lemma epoll_lifetime_releases_witness :
  let '(r, p') := @epoll_lifetime ClientWorld client_peer canonical_order demo_clock
    (demo_fresh (repeat (SysOk 0) 8)) in
  r = Throw runtime_error /\ released {[0; 1; 2]} p'.
Proof.
  pose proof (@epoll_lifetime_releases ClientWorld client_peer canonical_order demo_clock
    (demo_fresh (repeat (SysOk 0) 8)) eq_refl eq_refl eq_refl) as Hrel.
  assert ((@epoll_lifetime ClientWorld client_peer canonical_order demo_clock
    (demo_fresh (repeat (SysOk 0) 8))).1 = Throw runtime_error) as Hr by (vm_compute; reflexivity).
  destruct (@epoll_lifetime ClientWorld client_peer canonical_order demo_clock
    (demo_fresh (repeat (SysOk 0) 8))) as [[r|e|] p']; try discriminate.
  split; [exact Hr|exact Hrel].
Defined.
