(* ===== verification/Startup.v ===== *)
(** * Starting the broker ([src/main.cpp], [src/server_mode.cpp], [TcpServer::start])

    The command line, the configuration of the broker and its recovery, and the two
    servers that [main] runs until they fail. *)

From S2P Require Import Prelude Text Paths Posix TopicLog Framing Protocol Metrics Topics Groups Client Broker Recovery Servers EventLoop.

(** ** Definitions *)

(** *** [server_mode.cpp] *)

Inductive ServerMode := TCP | EPOLL.

Definition epoll_flag : bytes := lit "--epoll".

(** The loop over the arguments after the program's name. *)
Fixpoint mode_loop (argv : list bytes) (saw_epoll : bool) (remaining_args : list bytes)
    : bool * list bytes :=
  match argv with
  | [] => (saw_epoll, remaining_args)
  | argument :: argv =>
      if bool_decide (argument = epoll_flag) then mode_loop argv true remaining_args
      else mode_loop argv saw_epoll (remaining_args ++ [argument])
  end.

Definition parse_server_mode (argv : list bytes) : ServerMode * list bytes :=
  let (saw_epoll, remaining_args) := mode_loop argv false [] in
  (if (saw_epoll : bool) then EPOLL else TCP, remaining_args).

Definition server_mode_name (mode : ServerMode) : bytes :=
  match mode with EPOLL => lit "epoll" | TCP => lit "tcp" end.

(** *** The command line *)

Definition parse_port (value : bytes) : option Z :=
  match stoi value with
  | inl _ => None
  | inr (port, position) =>
      if (position =? blen value)%Z && (1 <=? port)%Z && (port <=? 65535)%Z
      then Some port else None
  end.

(** What the arguments say. *)
Record Config := mkConfig {
  c_mode : ServerMode;
  c_port : Z;
  c_data_dir : bytes;
  c_role : BrokerRole;
  c_follower_port : Z
}.

(** The role and the follower's port, or the message of the error. *)
Definition parse_role (remaining_args : list bytes) (role_arg : bytes)
    : bytes + BrokerRole * Z :=
  if bool_decide (role_arg = lit "leader") then
    if negb (length remaining_args =? 4)
    then inl (lit "ERROR: follower-port is required for leader.") else
    match parse_port (default [] (remaining_args !! 3)) with
    | None => inl (lit "ERROR: Invalid follower-port.")
    | Some follower_port => inr (LEADER, follower_port)
    end
  else if bool_decide (role_arg = lit "follower") then
    if negb (length remaining_args =? 3)
    then inl (lit "ERROR: follower-port is only valid for leader.")
    else inr (FOLLOWER, (-1)%Z)
  else inl (lit "ERROR: Role must be 'leader' or 'follower'.").

(** The part of [main] before the [try] block: the message it prints, or what it runs. *)
Definition parse_command_line (argv : list bytes) : bytes + Config :=
  let (server_mode, remaining_args) := parse_server_mode argv in
  if negb (length remaining_args =? 3) && negb (length remaining_args =? 4)
  then inl (lit "Usage: ./kafka-broker [--epoll] <port> <data-directory> <leader|follower> [follower-port]")
  else
  match parse_port (default [] (remaining_args !! 0)) with
  | None => inl (lit "ERROR: Invalid port.")
  | Some port =>
      let data_dir := default [] (remaining_args !! 1) in
      if bool_decide (data_dir = []) then inl (lit "ERROR: Data directory cannot be empty.") else
      match parse_role remaining_args (default [] (remaining_args !! 2)) with
      | inl message => inl message
      | inr (role, follower_port) => inr (mkConfig server_mode port data_dir role follower_port)
      end
  end.

(** *** The program *)

(** The process, the threads [TcpServer] has started and detached, each with its
    connection, and what is printed on [std::cerr] before the broker runs. *)
Record Program (P : Type) := mkProgram {
  process : Process P;
  client_threads : list (nat * Sock);
  usage : bytes
}.
Arguments mkProgram {P} process client_threads usage.
Arguments process {P} p.
Arguments client_threads {P} p.
Arguments usage {P} p.

Section program.
Context {P : Type} `{Peer P} {order : IterOrder} (clock : World P -> Request -> Z).

Definition on_process {A} : M (Process P) A -> M (Program P) A :=
  zoom process (fun s p => mkProgram s (client_threads p) (usage p)).

(** A call of [TcpServer::start] whose failure closes the socket. *)
Definition call_or_close : M (Process P) unit :=
  good ← call;
  if (good : bool) then mret tt else
  _ ← modify (fun p => set_server_fd None (close_fd (server_fd_ p) p));
  throw runtime_error.

(** [socket], [setsockopt], [bind], [listen]. *)
Definition tcp_setup : M (Process P) unit :=
  fd ← open_fd;
  _ ← modify (set_server_fd fd);
  match fd with
  | None => throw runtime_error
  | Some _ => _ ← call; _ ← call_or_close; call_or_close
  end.

(** The [while (true)] loop: a thread for each client, and every error is logged only. *)
Fixpoint tcp_accept_loop (evs : list accept_event) : M (Program P) unit :=
  match evs with
  | [] => fun p => (Crash, p)
  | AcceptFd client_fd sock :: evs =>
      _ ← modify (fun p => mkProgram (process p) (client_threads p ++ [(client_fd, sock)]) (usage p));
      tcp_accept_loop evs
  | _ :: evs => tcp_accept_loop evs
  end.

Definition tcp_start : M (Program P) unit :=
  _ ← on_process tcp_setup;
  evs ← gets (fun p => accepts (core (process p)));
  tcp_accept_loop evs.

(** [~TcpServer]. *)
Definition tcp_destroy (p : Process P) : Process P := close_fd (server_fd_ p) p.

(** [{ TcpServer server(broker, port); server.start(); }]. *)
Definition tcp_lifetime : M (Program P) unit := fun p =>
  match tcp_start (mkProgram (set_server_fd None (process p)) (client_threads p) (usage p)) with
  | (Crash, p) => (Crash, p)
  | (r, p) => (r, mkProgram (tcp_destroy (process p)) (client_threads p) (usage p))
  end.

(** A fresh [Broker], configured and recovered. *)
Definition start_broker (c : Config) : M (World P) unit :=
  _ ← modify (on_broker (fun _ => configure (c_role c) (c_follower_port c) new_Broker));
  recover_from_disk (c_data_dir c).

(** The body of the [try] block. *)
Definition run_broker (c : Config) : M (Program P) Z :=
  _ ← on_process (on_core (on_world (start_broker c)));
  _ ← match c_mode c with
      | EPOLL => on_process (epoll_lifetime clock)
      | TCP => tcp_lifetime
      end;
  mret 0%Z.

(** [main], on the arguments after the program's name: its exit code. *)
Definition main (argv : list bytes) : M (Program P) Z :=
  match parse_command_line argv with
  | inl message =>
      _ ← modify (fun p => mkProgram (process p) (client_threads p) (usage p ++ message ++ [newline]));
      mret 1%Z
  | inr c => try_catch (run_broker c) (mret 1%Z)
  end.

End program.

(** *** Specification *)

(** A configuration the program runs with. *)
Definition config_ok (c : Config) : Prop :=
  (1 <= c_port c <= 65535)%Z /\ c_data_dir c <> [] /\ c_data_dir c <> epoll_flag /\
  match c_role c with
  | LEADER => (1 <= c_follower_port c <= 65535)%Z
  | FOLLOWER => c_follower_port c = (-1)%Z
  end.

(** The arguments for it, but for the flag. *)
Definition config_args (c : Config) : list bytes :=
  [to_string (c_port c); c_data_dir c] ++
  match c_role c with
  | LEADER => [lit "leader"; to_string (c_follower_port c)]
  | FOLLOWER => [lit "follower"]
  end.

(** A process that starts: no client, no server. *)
Definition starting {P} (p : Program P) : Prop :=
  socks (core (process p)) = ∅ /\ interest (core (process p)) = ∅ /\
  misclosed (core (process p)) = false /\ server_fd_ (process p) = None.

(** ** Lemmas *)

Lemma mode_loop_filter argv : forall saw acc,
  mode_loop argv saw acc =
    (saw || bool_decide (epoll_flag ∈ argv), acc ++ filter (fun a => a <> epoll_flag) argv).
Proof.
  induction argv as [|a argv IH]; intros saw acc.
  { simpl. by rewrite orb_false_r, app_nil_r. }
  cbn [mode_loop]. rewrite filter_cons. destruct (decide (a = epoll_flag)) as [->|Ha].
  - rewrite bool_decide_eq_true_2, IH, decide_False by (done || by intros ?).
    rewrite (bool_decide_eq_true_2 (epoll_flag ∈ epoll_flag :: argv))
      by (by apply elem_of_cons; left). by rewrite orb_true_r.
  - rewrite bool_decide_eq_false_2, IH, decide_True, <-app_assoc by done. f_equal. f_equal.
    apply bool_decide_ext. rewrite elem_of_cons. naive_solver.
Qed.

Lemma parse_server_mode_filter argv :
  parse_server_mode argv =
    (if bool_decide (epoll_flag ∈ argv) then EPOLL else TCP,
     filter (fun a => a <> epoll_flag) argv).
Proof. unfold parse_server_mode. by rewrite mode_loop_filter. Qed.

Lemma parse_port_range s p : parse_port s = Some p -> (1 <= p <= 65535)%Z.
Proof.
  unfold parse_port. destruct (stoi s) as [|[v pos]]; [done|].
  destruct (_ && _) eqn:E; [|done]. intros [= <-]. lia.
Qed.

Lemma parse_port_to_string p : (1 <= p <= 65535)%Z -> parse_port (to_string p) = Some p.
Proof.
  intros Hp. unfold parse_port, stoi.
  rewrite sto_signed_to_string by (change (2 ^ (32 - 1))%Z with 2147483648%Z; lia).
  rewrite Z.eqb_refl. simpl. by rewrite (proj2 (Z.leb_le 1 p)), (proj2 (Z.leb_le p _)) by lia.
Qed.

Lemma parse_role_sound args s role port :
  parse_role args s = inr (role, port) ->
  match role with LEADER => (1 <= port <= 65535)%Z | FOLLOWER => port = (-1)%Z end.
Proof.
  unfold parse_role. intros Hr. repeat (case_match; simplify_eq/=; try done).
  by eapply parse_port_range.
Qed.

(** *** The servers *)

Section servers.
Context {P : Type} `{Peer P} {order : IterOrder} (clock : World P -> Request -> Z).

Implicit Types p : Process P.

(** The server's socket is the only descriptor more than those of [before]. *)
Definition listening (before : gset nat) p : Prop :=
  socks (core p) = ∅ /\ misclosed (core p) = false /\
  opened (core p) = before ∪ fd_set (server_fd_ p) /\ before ## fd_set (server_fd_ p).

Definition closed_again (before : gset nat) p : Prop :=
  socks (core p) = ∅ /\ misclosed (core p) = false /\ opened (core p) = before /\
  server_fd_ p = None.

Lemma listening_close before p :
  listening before p -> closed_again before (set_server_fd None (close_fd (server_fd_ p) p)).
Proof.
  intros (Hc & Hm & Ho & Hd). destruct (server_fd_ p) as [fd|]; simpl in *.
  - split_and!; simpl; [by rewrite Hc, delete_empty| |set_solver|done].
    rewrite bool_decide_eq_true_2, Hm by set_solver. done.
  - split_and!; [done|done|set_solver|done].
Qed.

Lemma triple_listening_call before Exc :
  triple (listening before) call (fun _ => listening before) Exc.
Proof. intros p Hp. unfold call. by destruct (calls p). Qed.

Lemma triple_call_or_close before :
  triple (listening before) call_or_close (fun _ => listening before) (closed_again before).
Proof.
  eapply triple_bind; [apply triple_listening_call|]. intros [|]; [by intros p|].
  intros p Hp. by apply listening_close.
Qed.

Lemma triple_tcp_setup before :
  triple (fun p => listening before p /\ server_fd_ p = None) tcp_setup
    (fun _ => listening before) (closed_again before).
Proof.
  apply triple_bind with (Mid := fun fd p => listening before (set_server_fd fd p)).
  { intros p [(Hc & Hm & Ho & _) Hs]. rewrite Hs in Ho. simpl in Ho.
    rewrite union_empty_r_L in Ho. pose proof (open_fd_spec p) as Hopen.
    destruct (open_fd p) as [[[fd|]|e|] p']; [..|done|done].
    - destruct Hopen as (-> & Hcore & _). pose proof (is_fresh (opened (core p))) as Hfresh.
      unfold listening. simpl. rewrite Hcore. simpl. set_solver.
    - destruct Hopen as (Hcore & _). unfold listening. simpl. rewrite Hcore. set_solver. }
  intros fd. apply triple_bind with (Mid := fun _ p => listening before p /\ server_fd_ p = fd).
  { by apply triple_modify. }
  intros ?. destruct fd as [fd|].
  - apply triple_pre with (listening before); [|by intros p []].
    eapply triple_bind; [apply triple_listening_call|]. intros ?.
    eapply triple_bind; [apply triple_call_or_close|]. intros ?. apply triple_call_or_close.
  - intros p [(Hc & Hm & Ho & _) Hs]. simpl. rewrite Hs in Ho. simpl in Ho.
    split_and!; [done|done|set_solver|done].
Qed.

(** The accept loop never ends. *)
Lemma tcp_accept_waits evs : forall q, (tcp_accept_loop (P := P) evs q).1 = Crash.
Proof.
  induction evs as [|[fd sock| | |] evs IH]; intros q; [done|..]; simpl; [|apply IH..].
  unfold mbind, M_bind, modify. apply IH.
Qed.

Lemma tcp_lifetime_ends (q : Program P) :
  socks (core (process q)) = ∅ -> misclosed (core (process q)) = false ->
  match tcp_lifetime q with
  | (Ret _, _) => False
  | (Throw _, q') => closed_again (opened (core (process q))) (process q')
  | (Crash, _) => True
  end.
Proof.
  intros Hz Hm. unfold tcp_lifetime, tcp_start. set (p0 := set_server_fd None (process q)).
  set (before := opened (core (process q))).
  assert (listening before p0) as Hp0
    by (split_and!; [exact Hz|exact Hm|simpl; set_solver|simpl; set_solver]).
  pose proof (triple_tcp_setup before p0 (conj Hp0 eq_refl)) as Hsetup.
  unfold mbind at 1, M_bind at 1, on_process, zoom. cbn [process].
  destruct (tcp_setup p0) as [[[]|e|] p1]; [| |done].
  - unfold mbind, M_bind, gets. cbn [process].
    destruct (tcp_accept_loop _ _) as [o q'] eqn:Hloop.
    pose proof (tcp_accept_waits (accepts (core p1)) (mkProgram p1 (client_threads q) (usage q))) as Hw.
    cbn [client_threads usage] in Hloop. rewrite Hloop in Hw. simpl in Hw. by subst o.
  - cbn [process]. unfold tcp_destroy. destruct Hsetup as (Hc & Hmis & Ho & Hs). rewrite Hs.
    simpl. by split_and!.
Qed.

End servers.

(** ** Properties *)

(** C22. Round trip: the arguments for a configuration, with the flag anywhere among them
    when it asks for the event loop, are read back as that configuration. *)
Theorem command_line_roundtrip c argv :
  config_ok c -> filter (fun a => a <> epoll_flag) argv = config_args c ->
  (c_mode c = EPOLL <-> epoll_flag ∈ argv) -> parse_command_line argv = inr c.
Proof.
  intros (Hport & Hdir & _ & Hrole) Hargs Hmode. unfold parse_command_line.
  rewrite parse_server_mode_filter, Hargs.
  assert ((if bool_decide (epoll_flag ∈ argv) then EPOLL else TCP) = c_mode c) as ->.
  { case_bool_decide as Hin; [by apply Hmode in Hin as ->|].
    destruct (c_mode c); [done|by destruct Hin; apply Hmode]. }
  destruct c as [mode port dir role fport]. unfold config_args in *. simpl in *.
  destruct role; simpl; rewrite parse_port_to_string, bool_decide_eq_false_2 by done.
  - unfold parse_role. simpl. by rewrite parse_port_to_string.
  - by rewrite Hrole.
Qed.

(** What [main] accepts: ports from 1 to 65535, a data directory, a follower's port
    for a leader and none for a follower, whatever the arguments are. *)
Theorem command_line_sound argv c :
  parse_command_line argv = inr c ->
  config_ok c /\ (c_mode c = EPOLL <-> epoll_flag ∈ argv) /\ c_data_dir c ∈ argv.
Proof.
  unfold parse_command_line. rewrite parse_server_mode_filter.
  set (args := filter _ argv).
  assert (forall a, a ∈ args -> a ∈ argv /\ a <> epoll_flag) as Hargs.
  { intros a [? ?]%list_elem_of_filter. done. }
  destruct (negb _ && negb _) eqn:Hlen; [done|].
  destruct (parse_port _) as [port|] eqn:Hport; [|done].
  case_bool_decide as Hdir; [done|]. destruct (parse_role _ _) as [|[role fport]] eqn:Hrole; [done|].
  intros [= <-]. apply parse_port_range in Hport. apply parse_role_sound in Hrole.
  destruct args as [|a [|dir args]]; [done|done|]. simpl in *.
  destruct (Hargs dir) as [Hin Hne]; [apply elem_of_cons; right; by apply elem_of_cons; left|].
  split_and!; try done. by case_bool_decide.
Qed.

Section properties.
Context {P : Type} `{Peer P} {order : IterOrder} (clock : World P -> Request -> Z).

(** C37. From a process without clients, the program ends with code 1 or not at all, whatever
    the arguments, the files and the kernel; when it ends, the descriptors that are open
    are those that were open before, and none was closed twice.  (The connections that
    [TcpServer] hands to its threads are the threads'.) *)
Theorem main_exits argv (p : Program P) :
  starting p ->
  match main clock argv p with
  | (Ret code, p') => code = 1%Z /\
      opened (core (process p')) = opened (core (process p)) /\
      misclosed (core (process p')) = false /\ socks (core (process p')) = ∅
  | (Throw _, _) => False
  | (Crash, _) => True
  end.
Proof.
  intros (Hsocks & Hint & Hmis & Hs). unfold main.
  destruct (parse_command_line argv) as [message|c]; [done|].
  unfold try_catch, run_broker, on_process, on_core, on_world, zoom, mbind at 1, M_bind at 1.
  destruct (start_broker c _) as [[[]|e|] w]; [|done..].
  unfold mbind, M_bind. set (p1 := mkProgram _ _ _).
  destruct (c_mode c).
  - pose proof (tcp_lifetime_ends p1 Hsocks Hmis) as Hend.
    destruct (tcp_lifetime p1) as [[[]|e|] p2]; [done| |done].
    destruct Hend as (Hz & Hm & Ho & _). simpl. by split_and!.
  - pose proof (epoll_lifetime_ends clock (process p1) Hsocks Hint Hmis) as Hend.
    destruct (epoll_lifetime clock (process p1)) as [[[]|e|] p2]; [done| |done].
    destruct Hend as (Hf & Hm & Hz & _). done.
Qed.

(** C21. When the arguments are good, nothing but partition logs lies below the data
    directory and the kernel reports no error during recovery, the broker that [main] hands
    to its server is configured as the arguments say and holds of each partition exactly
    the valid records at the start of its log. *)
Theorem main_serves_recovered argv c (p : Program P) :
  let w := srv_world (core (process p)) in
  parse_command_line argv = inr c -> logs_only (c_data_dir c) (files (os w)) ->
  all_ok (script (os w)) -> 3 * log_count (c_data_dir c) (files (os w)) <= length (script (os w)) ->
  exists w', role_ (broker w') = c_role c /\ follower_port_ (broker w') = c_follower_port c /\
    (forall tp, stored tp -> view w' tp = on_disk (c_data_dir c) (files (os w)) tp) /\
    main clock argv p = try_catch
      (_ ← match c_mode c with
           | EPOLL => on_process (epoll_lifetime clock)
           | TCP => tcp_lifetime
           end; mret 0%Z) (mret 1%Z)
      (mkProgram (set_core (set_world w') (process p)) (client_threads p) (usage p)).
Proof.
  intros w Hargs Hlogs Hok Hlen.
  set (w0 := on_broker (fun _ => configure (c_role c) (c_follower_port c) new_Broker) w).
  destruct (recover_ok (c_data_dir c) w0 Hlogs eq_refl Hok Hlen)
    as (w' & Hrun & Hcfg & _ & _ & [Hv _]).
  destruct Hcfg as (Hrole & Hfport & _).
  exists w'. split_and!; [exact Hrole|exact Hfport|by intros tp Htp; apply Hv|].
  unfold main. rewrite Hargs. unfold try_catch, run_broker.
  rewrite (bind_ret _ _ p tt
    (mkProgram (set_core (set_world w') (process p)) (client_threads p) (usage p))); [done|].
  unfold on_process, on_core, on_world, zoom, start_broker. fold w.
  by rewrite (bind_ret _ _ w tt w0), Hrun.
Qed.

End properties.

(** *** Witnesses *)

Definition demo_config : Config := mkConfig EPOLL 9092 (lit "data") LEADER 9093.

Definition demo_argv : list bytes :=
  [lit "9092"; epoll_flag; lit "data"; lit "leader"; lit "9093"].

Definition demo_program (answers : list sys_result) : Program ClientWorld :=
  mkProgram (mkProcess (mkServer (mkWorld new_Broker (mkOS (repeat (SysOk 0) 9) demo_files) demo_net)
    ∅ ∅ ∅ [] [] {[0; 1; 2]} false) None None answers [WaitErr]) [] [].

Definition demo_main := @main ClientWorld client_peer canonical_order demo_clock.

Lemma command_line_roundtrip_witness : parse_command_line demo_argv = inr demo_config.
Proof.
  apply (command_line_roundtrip demo_config demo_argv).
  - split_and!; closed.
  - vm_compute; reflexivity.
  - split; [|done]. intros _. apply elem_of_cons; right. by apply elem_of_cons; left.
Defined.

Lemma command_line_sound_witness : config_ok demo_config.
Proof. apply (command_line_sound demo_argv demo_config). vm_compute; reflexivity. Defined.

Lemma main_exits_witness :
  exists p', demo_main demo_argv (demo_program (repeat (SysOk 0) 8)) = (Ret 1%Z, p') /\
    opened (core (process p')) = {[0; 1; 2]} /\ misclosed (core (process p')) = false.
Proof.
  assert (starting (demo_program (repeat (SysOk 0) 8))) as Hstart by (split_and!; reflexivity).
  pose proof (@main_exits ClientWorld client_peer canonical_order demo_clock demo_argv _ Hstart)
    as Hmain.
  assert ((demo_main demo_argv (demo_program (repeat (SysOk 0) 8))).1 = Ret 1%Z) as Hr
    by (vm_compute; reflexivity).
  change (@main ClientWorld client_peer canonical_order demo_clock) with demo_main in Hmain.
  destruct (demo_main demo_argv _) as [r p']. simpl in Hr. subst r.
  exists p'. split; [reflexivity|]. split; apply Hmain.
Defined.

Lemma main_serves_recovered_witness :
  exists w' : World ClientWorld,
    view w' (mkTP (lit "t") 1) = [lit "x"; lit "y"] /\ role_ (broker w') = LEADER.
Proof.
  destruct (@main_serves_recovered ClientWorld client_peer canonical_order demo_clock demo_argv
    demo_config (demo_program []) ltac:(vm_compute; reflexivity) demo_logs_only (demo_all_ok 9))
    as (w' & Hrole & _ & Hv & _); [vm_compute; lia|].
  exists w'. split; [|exact Hrole]. rewrite Hv; [vm_compute; reflexivity|].
  split; [split; closed|apply plain_normal; by split_and!].
Defined.
