(* ===== verification/Replication.v ===== *)
(** * Replication between two brokers

    [Broker] proves the leader's side against any [Peer].  Here the peer is another broker
    of the program, which parses and handles what it receives as its server does ([serve]
    of [Servers]), behind a link that can refuse a connection, drop a request or lose a
    response.  The theorems say when the follower holds the leader's messages. *)

From S2P Require Import Prelude Text LogRecord Posix TopicLog Framing Protocol Metrics Topics Groups Client Broker Servers.

(** ** Definitions *)

(** What the link does with a connection attempt or a request: [LinkDown] fails it,
    [LinkLost] delivers a request and fails before its response arrives. *)
Inductive link := LinkOk | LinkDown | LinkLost.

(** The follower's process with the fate of the next calls; it answers nothing once it has
    died. *)
Record Follower (Q : Type) := mkFollower {
  f_world : World Q;
  f_alive : bool;
  links : list link
}.
Arguments mkFollower {Q} f_world f_alive links.
Arguments f_world {Q} f.
Arguments f_alive {Q} f.
Arguments links {Q} f.

Section follower.
Context {Q : Type} `{Peer Q} {order : IterOrder} (clock : World Q -> Request -> Z).

Definition follower_connect (port : Z) : M (Follower Q) unit := fun s =>
  match links s with
  | [] => (Crash, s)
  | LinkOk :: ls =>
      (if f_alive s then Ret tt else Throw runtime_error, mkFollower (f_world s) (f_alive s) ls)
  | _ :: ls => (Throw runtime_error, mkFollower (f_world s) (f_alive s) ls)
  end.

(** One request: the server closes the connection when the handler throws, and the process
    is gone when it crashes; the leader sees an error in both cases. *)
Definition follower_request (m : bytes) : M (Follower Q) bytes := fun s =>
  if (kMaxPayloadSize <? blen m)%Z then (Throw runtime_error, s) else
  match links s with
  | [] => (Crash, s)
  | LinkDown :: ls => (Throw runtime_error, mkFollower (f_world s) (f_alive s) ls)
  | l :: ls =>
      if negb (f_alive s) then (Throw runtime_error, mkFollower (f_world s) false ls) else
      match serve clock m (f_world s) with
      | (Ret (_, response), w) =>
          (match l with
           | LinkOk => if (kMaxPayloadSize <? blen response)%Z then Throw runtime_error
                       else Ret response
           | _ => Throw runtime_error
           end, mkFollower w true ls)
      | (Throw _, w) => (Throw runtime_error, mkFollower w true ls)
      | (Crash, w) => (Throw runtime_error, mkFollower w false ls)
      end
  end.

Lemma follower_request_oversize m s : ~ frame_ok m ->
  exists e s', follower_request m s = (Throw e, s').
Proof.
  intros Hm. unfold follower_request, frame_ok in *.
  rewrite (proj2 (Z.ltb_lt _ _)) by lia. eauto.
Qed.

Definition follower_peer : Peer (Follower Q) := {|
  peer_connect := follower_connect;
  peer_request := follower_request;
  peer_close := fun s => s;
  peer_request_oversize := follower_request_oversize
|}.

End follower.

(** *** Specification *)

(** The progress that goes with a replica: the offset of its last message. *)
Definition last_offset (ms : list bytes) : option Z :=
  if bool_decide (ms = []) then None else Some (size ms - 1)%Z.

(** A message that survives the trip in a REPLICATE line. *)
Definition sendable (m : bytes) : Prop := is_payload m /\ starts_visible m.

Section spec.
Context {Q : Type}.

Implicit Types w : World (Follower Q).

(** The follower of a leader. *)
Abbreviation replica w := (f_world (peer w)).

(** The follower's replica of a partition is a prefix of the log [ms], and its progress
    tells which. *)
Definition follows_log (ms : list bytes) (f : World Q) (tp : TopicPartition) : Prop :=
  view f tp `prefix_of` ms /\ replication_progress_ (broker f) !! tp = last_offset (view f tp).

Definition follows w : Prop :=
  role_ (broker (replica w)) = FOLLOWER /\
  forall tp, is_tp tp -> follows_log (view w tp) (replica w) tp.

(** Every message of the leader can be sent. *)
Definition all_sendable w : Prop :=
  forall tp, view w tp <> [] ->
    is_tp tp /\ is_word (tp_topic tp) /\ Forall sendable (view w tp) /\
    is_offset (size (view w tp)).

(** The follower holds the same messages as the leader. *)
Definition synchronized w : Prop := forall tp, is_tp tp -> view (replica w) tp = view w tp.

End spec.

(** ** What the follower does with a request *)

Section replica.
Context {Q : Type} `{Peer Q} {order : IterOrder} (clock : World Q -> Request -> Z).

Implicit Types f : World Q.

Definition same_replica f f' : Prop :=
  role_ (broker f') = role_ (broker f) /\ (forall tp, view f' tp = view f tp) /\
  replication_progress_ (broker f') = replication_progress_ (broker f).

Definition stored (tp : TopicPartition) (off : Z) (m : bytes) f f' : Prop :=
  role_ (broker f') = role_ (broker f) /\
  (forall tp', view f' tp' = if decide (tp' = tp) then view f tp' ++ [m] else view f tp') /\
  replication_progress_ (broker f') = <[tp := off]> (replication_progress_ (broker f)).

Lemma same_replica_refl f : same_replica f f.
Proof. done. Qed.

Lemma same_replica_trans f1 f2 f3 :
  same_replica f1 f2 -> same_replica f2 f3 -> same_replica f1 f3.
Proof.
  intros (Hr1 & Hv1 & Hp1) (Hr2 & Hv2 & Hp2).
  split_and!; [congruence| |congruence]. intros tp. by rewrite Hv2.
Qed.

(** REPLICATE either stores the message, in memory and as progress, or does neither. *)
Lemma replicate_outcome req f o f' :
  role_ (broker f) = FOLLOWER -> handle_replicate req f = (o, f') ->
  (stored (target req) (r_offset req) (r_payload req) f f' /\ o = Ret ok) \/
  (same_replica f f' /\ forall b, o <> Ret (lit "OK", b)).
Proof.
  intros Hrole Hrun. unfold handle_replicate in Hrun.
  rewrite (bind_ret _ _ f (broker f) f) in Hrun by done.
  rewrite bool_decide_eq_true_2 in Hrun by done. cbn [negb] in Hrun.
  destruct (get_topic_run (r_topic req) f) as (topic & Hget & Ht).
  rewrite (bind_ret _ _ _ _ _ Hget) in Hrun. set (f1 := on_broker _ f) in *.
  assert (same_replica f f1) as Hsame.
  { split_and!; [done| |done]. intros tp. apply view_get_topic. }
  destruct (bad_partition topic _) eqn:Hbad.
  { injection Hrun as <- <-. right. done. }
  destruct (persist_effect req f1) as (Hb2 & _ & _).
  unfold mbind at 1, M_bind at 1, try_catch in Hrun. unfold mbind at 1, M_bind at 1 in Hrun.
  assert (forall f2, broker f2 = broker f1 -> same_replica f f2) as Hkeep.
  { intros f2 Hb. eapply same_replica_trans; [exact Hsame|].
    unfold same_replica, view. rewrite Hb. done. }
  destruct (persist req f1) as [[[]|e|] f2] eqn:Hper; simpl in Hb2, Hrun.
  - injection Hrun as <- <-. left. split; [|done]. split_and!.
    + simpl. by rewrite Hb2.
    + intros tp. rewrite <-(view_get_topic (r_topic req) f tp). fold f1.
      rewrite <-(view_push req topic f1) by done. unfold view; simpl. by rewrite Hb2.
    + simpl. by rewrite Hb2.
  - injection Hrun as <- <-. right. split; [by apply Hkeep|done].
  - injection Hrun as <- <-. right. split; [by apply Hkeep|done].
Qed.

(** Serving a REPLICATE line. *)
Lemma serve_replicate t p off m f o f' :
  is_word t -> is_int p -> is_offset off -> sendable m -> role_ (broker f) = FOLLOWER ->
  serve clock (replicate_line t p off m) f = (o, f') ->
  (stored (mkTP t p) off m f f' /\ exists req, o = Ret (req, lit "OK")) \/
  (same_replica f f' /\ forall req, o <> Ret (req, lit "OK")).
Proof.
  intros Ht Hp Hoff [Hm Hs] Hrole Hrun. unfold serve in Hrun.
  set (req := mkRequest REPLICATE [] [] t p off m) in *.
  change (replicate_line t p off m) with (request_line req) in Hrun.
  rewrite parse_request_line in Hrun by (done || by constructor).
  rewrite (bind_ret _ _ f f f) in Hrun by done.
  unfold handle_request, dispatch in Hrun. cbn [r_type req] in Hrun.
  unfold mbind, M_bind in Hrun. destruct (handle_replicate req f) as [o1 f1] eqn:Hrep.
  destruct (replicate_outcome req f o1 f1 Hrole Hrep) as [[Hst ->]|[Hsame Hno]].
  - injection Hrun as <- <-. left. split; [exact Hst|]. by eexists.
  - right. destruct o1 as [[r b]|e|]; injection Hrun as <- <-; (split; [exact Hsame|]);
      [|done..].
    intros req' [= _ Hr]. apply (Hno b). simpl in Hr. by rewrite Hr.
Qed.

(** Serving a REPLICATION_PROGRESS line. *)
Lemma serve_progress t p f :
  is_word t -> is_int p -> role_ (broker f) = FOLLOWER ->
  exists req f', serve clock (progress_line t p) f =
    (Ret (req, match replication_progress_ (broker f) !! mkTP t p with
               | Some n => to_string n | None => lit "NONE" end), f') /\
    same_replica f f'.
Proof.
  intros Ht Hp Hrole. unfold serve.
  set (req := mkRequest REPLICATION_PROGRESS [] [] t p 0 []).
  change (progress_line t p) with (request_line req).
  rewrite parse_request_line by (done || by constructor).
  rewrite (bind_ret _ _ f f f) by done.
  unfold handle_request, dispatch, handle_replication_progress, get_replication_progress.
  cbn [r_type req r_topic r_partition]. unfold mbind, M_bind, gets, modify. simpl.
  rewrite Hrole. simpl. destruct (_ !! _); (do 2 eexists; split; [reflexivity|done]).
Qed.

End replica.

(** ** The leader's side *)

Lemma size_app ms m : size (ms ++ [m]) = (size ms + 1)%Z.
Proof. unfold size. rewrite length_app. simpl. lia. Qed.

Lemma last_offset_snoc ms m : last_offset (ms ++ [m]) = Some (size ms).
Proof.
  unfold last_offset. rewrite bool_decide_eq_false_2 by (by destruct ms). f_equal.
  rewrite size_app. lia.
Qed.

(** What a follower lacks is the rest of the log. *)
Lemma get_missing_rest tp vf b :
  is_tp tp -> vf `prefix_of` log_view (topics_ b) tp -> is_offset (size (log_view (topics_ b) tp)) ->
  get_missing_records (tp_topic tp) (tp_partition tp) (last_offset vf) b =
    drop (length vf) (log_view (topics_ b) tp).
Proof.
  intros Htp Hpre Hsize. unfold log_view, get_missing_records in *.
  destruct (topics_ b !! tp_topic tp) as [topic|]; [|by rewrite drop_nil].
  rewrite (proj2 (Z.ltb_ge _ _)) in * by apply Htp.
  destruct (bad_partition topic _) eqn:Hbad.
  { destruct (messages_of topic (tp_partition tp)) as [|m ms] eqn:Hms; [by rewrite drop_nil|].
    exfalso. unfold messages_of in Hms. destruct (partitions topic !! _) eqn:E; [|done].
    apply lookup_lt_Some in E. unfold is_tp, is_int in Htp.
    enough (bad_partition topic (tp_partition tp) = false) by congruence.
    apply bad_partition_false. lia. }
  set (ms := messages_of topic (tp_partition tp)) in *.
  case_bool_decide as Hms; [rewrite Hms; by rewrite drop_nil|].
  unfold last_offset. case_bool_decide as Hvf; [by subst vf|].
  apply prefix_length in Hpre. unfold size, is_offset in *.
  assert (length vf <> 0) by (by destruct vf).
  destruct (Z.of_nat (length ms) - 1 <=? Z.of_nat (length vf) - 1)%Z eqn:E.
  - rewrite drop_ge by lia. done.
  - f_equal. rewrite u64_small; [lia|]. unfold is_u64. pow2_consts. lia.
Qed.

Section leader.
Context {Q : Type} `{Peer Q} {order : IterOrder} (clock : World Q -> Request -> Z).

#[local] Instance link_peer : Peer (Follower Q) := follower_peer clock.

Implicit Types f : World Q.
Implicit Types s : Follower Q.
Implicit Types w : World (Follower Q).

Abbreviation replica w := (f_world (peer w)).

Lemma request_progress t p s r s' :
  is_word t -> is_int p -> role_ (broker (f_world s)) = FOLLOWER ->
  follower_request clock (progress_line t p) s = (r, s') ->
  same_replica (f_world s) (f_world s') /\
  forall resp, r = Ret resp ->
    resp = match replication_progress_ (broker (f_world s)) !! mkTP t p with
           | Some n => to_string n | None => lit "NONE" end.
Proof.
  intros Ht Hp Hrole Hrun. unfold follower_request in Hrun.
  destruct (_ <? _)%Z; [injection Hrun as <- <-; done|].
  destruct (serve_progress clock t p (f_world s) Ht Hp Hrole) as (req & f' & Hserve & Hsame).
  destruct (links s) as [|[| |] ls], (f_alive s); simpl in Hrun; rewrite ?Hserve in Hrun;
    repeat case_match; simplify_eq/=; (split; [done|intros ? ?; by simplify_eq/=]).
Qed.

Lemma request_replicate t p off m s r s' :
  is_word t -> is_int p -> is_offset off -> sendable m ->
  role_ (broker (f_world s)) = FOLLOWER ->
  follower_request clock (replicate_line t p off m) s = (r, s') ->
  (stored (mkTP t p) off m (f_world s) (f_world s') \/ same_replica (f_world s) (f_world s')) /\
  (r = Ret (lit "OK") -> stored (mkTP t p) off m (f_world s) (f_world s')).
Proof.
  intros Ht Hp Hoff Hm Hrole Hrun. unfold follower_request in Hrun.
  destruct (_ <? _)%Z; [injection Hrun as <- <-; split; [by right|done]|].
  destruct (serve clock (replicate_line t p off m) (f_world s)) as [o f'] eqn:Hserve.
  destruct (serve_replicate clock t p off m _ _ _ Ht Hp Hoff Hm Hrole Hserve)
    as [[Hst [req ->]]|[Hsame Hno]].
  - destruct (links s) as [|[| |] ls], (f_alive s); simpl in Hrun;
      repeat case_match; injection Hrun as <- <-;
      (split; [first [by left|by right]|congruence || (intros; exact Hst)]).
  - destruct o as [[req resp]|e|]; destruct (links s) as [|[| |] ls], (f_alive s); simpl in Hrun;
      repeat case_match; injection Hrun as <- <-;
      (split; [by right|first [done|intros [= ->]; by destruct (Hno req)]]).
Qed.

(** A replica that moves along the log: never back, never off it. *)
Definition moves (ms : list bytes) (tp : TopicPartition) f f' : Prop :=
  role_ (broker f') = role_ (broker f) /\
  (forall tp', tp' <> tp -> view f' tp' = view f tp' /\
     replication_progress_ (broker f') !! tp' = replication_progress_ (broker f) !! tp') /\
  follows_log ms f' tp /\ view f tp `prefix_of` view f' tp.

Lemma moves_same ms tp f f' :
  same_replica f f' -> follows_log ms f tp -> moves ms tp f f'.
Proof.
  intros (Hr & Hv & Hp) [Hpre Hpro]. unfold moves, follows_log. rewrite !Hv, !Hp.
  split_and!; done.
Qed.

Lemma moves_trans ms tp f1 f2 f3 :
  moves ms tp f1 f2 -> moves ms tp f2 f3 -> moves ms tp f1 f3.
Proof.
  intros (Hr1 & Ho1 & _ & Hg1) (Hr2 & Ho2 & Hf2 & Hg2). split_and!; [congruence| |done|].
  - intros tp' Hne. destruct (Ho1 tp' Hne) as [H1 H1'], (Ho2 tp' Hne) as [H2 H2'].
    by rewrite H2, H2'.
  - by transitivity (view f2 tp).
Qed.

Lemma moves_stored ms tp f f' m rest :
  stored tp (size (view f tp)) m f f' -> ms = view f tp ++ m :: rest -> moves ms tp f f'.
Proof.
  intros (Hr & Hv & Hp) Hms. unfold moves, follows_log. rewrite Hv, Hp, decide_True by done.
  split_and!; try done.
  - intros tp' Hne. rewrite Hv, decide_False, lookup_insert_ne by done. done.
  - exists rest. rewrite Hms. by rewrite <-app_assoc.
  - by rewrite lookup_insert_eq, last_offset_snoc.
  - by exists [m].
Qed.

Lemma send_missing_ok tp ms records first : forall index s r s',
  is_tp tp -> is_word (tp_topic tp) -> Forall sendable ms -> is_offset (size ms) ->
  role_ (broker (f_world s)) = FOLLOWER -> follows_log ms (f_world s) tp ->
  ms = view (f_world s) tp ++ records -> (first + index = size (view (f_world s) tp))%Z ->
  send_missing (tp_topic tp) (tp_partition tp) first index records s = (r, s') ->
  moves ms tp (f_world s) (f_world s') /\ (r = Ret true -> view (f_world s') tp = ms).
Proof.
  induction records as [|m records IH]; intros index s r s' Htp Ht Hms Hsize Hrole Hfol Heq Hidx Hrun.
  { injection Hrun as <- <-. split; [by apply moves_same|]. intros _. by rewrite Heq, app_nil_r. }
  cbn [send_missing] in Hrun. rewrite Hidx in Hrun.
  assert (is_offset (size (view (f_world s) tp))) as Hoff.
  { unfold is_offset, size in *. rewrite Heq, length_app in Hsize. lia. }
  rewrite u64_small in Hrun by (unfold is_u64, is_offset in *; pow2_consts; lia).
  assert (sendable m) as Hm.
  { rewrite Heq in Hms. apply Forall_app in Hms as [_ Hms]. by apply Forall_cons in Hms as [? _]. }
  assert (mkTP (tp_topic tp) (tp_partition tp) = tp) as Htpe by (by destruct tp).
  apply bind_inv in Hrun as [(resp & s1 & Hreq & Hrun)|(o1 & Hreq & Hne & Hr)];
    destruct (request_replicate _ _ _ _ _ _ _ Ht Htp Hoff Hm Hrole Hreq) as [Hor Hok];
    rewrite Htpe in Hor, Hok.
  - case_bool_decide as Hresp.
    + subst resp. specialize (Hok eq_refl). pose proof Hok as (Hr1 & Hv1 & _).
      assert (moves ms tp (f_world s) (f_world s1)) as Hmv by (by eapply moves_stored).
      specialize (Hv1 tp). rewrite decide_True in Hv1 by done.
      destruct (IH (index + 1)%Z s1 r s') as [Hmv2 Htrue]; try done.
      * congruence.
      * apply Hmv.
      * rewrite Hv1, <-app_assoc. done.
      * rewrite Hv1, size_app. lia.
      * split; [by eapply moves_trans|done].
    + injection Hrun as <- <-. split; [|done].
      destruct Hor; [by eapply moves_stored|by apply moves_same].
  - split; [destruct Hor; [by eapply moves_stored|by apply moves_same]|].
    intros ->. by destruct (Hr true).
Qed.

(** *** Sessions with the follower *)

Lemma session_inv {A} port (body : M (Follower Q) A) s r s' :
  session port body s = (r, s') ->
  (f_world s' = f_world s /\ forall a, r <> Ret a) \/
  (exists s1, f_world s1 = f_world s /\ body s1 = (r, s')).
Proof.
  intros Hrun. unfold session in Hrun.
  destruct ((_ ← peer_connect port; body) s) as [r1 s1] eqn:Hb.
  assert (r1 = r /\ s1 = s') as [-> ->] by (destruct r1; injection Hrun as <- <-; done).
  apply bind_inv in Hb as [([] & s1 & Hc & Hb)|(o1 & Hc & Hne & Hr)]; [right|left];
    cbn in Hc; unfold follower_connect in Hc.
  - exists s1. split; [|done]. by destruct (links s) as [|[| |] ls]; simplify_eq/=.
  - split; [|done]. by destruct (links s) as [|[| |] ls]; simplify_eq/=.
Qed.

(** The leader is as it was; its follower still follows it and has lost nothing. *)
Definition moved w w' : Prop :=
  broker w' = broker w /\ follows w' /\
  forall tp, is_tp tp -> view (replica w) tp `prefix_of` view (replica w') tp.

Lemma moved_trans w1 w2 w3 : moved w1 w2 -> moved w2 w3 -> moved w1 w3.
Proof.
  intros (Hb1 & _ & Hp1) (Hb2 & Hf2 & Hp2). split_and!; [congruence|done|].
  intros tp Htp. transitivity (view (replica w2) tp); auto.
Qed.

Lemma moved_same w w' :
  broker w' = broker w -> same_replica (replica w) (replica w') -> follows w -> moved w w'.
Proof.
  intros Hb (Hr & Hv & Hp) [Hrole Hfol]. split_and!; [done| |].
  - split; [congruence|]. intros tp Htp. destruct (Hfol tp Htp) as [Hpre Hpro].
    unfold follows_log. rewrite Hv, Hp. unfold view in *. rewrite Hb. done.
  - intros tp _. by rewrite Hv.
Qed.

Lemma moved_moves w w' tp :
  broker w' = broker w -> follows w -> moves (view w tp) tp (replica w) (replica w') -> moved w w'.
Proof.
  intros Hb [Hrole Hfol] (Hr & Ho & Hlog & Hg). split_and!; [done| |].
  - split; [congruence|]. intros tp' Htp'. assert (view w' tp' = view w tp') as ->
      by (unfold view; by rewrite Hb).
    destruct (decide (tp' = tp)) as [->|Hne]; [done|]. destruct (Ho tp' Hne) as [Hv Hp].
    unfold follows_log. rewrite Hv, Hp. by apply Hfol.
  - intros tp' _. destruct (decide (tp' = tp)) as [->|Hne]; [done|].
    by destruct (Ho tp' Hne) as [-> _].
Qed.

Lemma on_peer_inv {A} (m : M (Follower Q) A) w r w' :
  on_peer m w = (r, w') -> broker w' = broker w /\ m (peer w) = (r, peer w').
Proof.
  unfold on_peer, zoom. destruct (m (peer w)) as [o p]. intros [= <- <-]. done.
Qed.

Lemma to_string_not_none n : (0 <= n < 10 ^ 20)%Z -> to_string n <> lit "NONE".
Proof.
  intros Hn Heq. destruct (to_string_nonneg n Hn) as (_ & Hd & _). by rewrite Heq in Hd.
Qed.

Lemma query_ok tp w r w' :
  follows w -> is_tp tp -> is_word (tp_topic tp) -> is_offset (size (view w tp)) ->
  query_follower_progress (tp_topic tp) (tp_partition tp) w = (r, w') ->
  moved w w' /\ same_replica (replica w) (replica w') /\
  forall x, r = Ret x -> x = last_offset (view (replica w) tp).
Proof.
  intros Hfol Htp Ht Hsize Hrun. pose proof Hfol as [Hrole Hlogs]. unfold query_follower_progress in Hrun.
  rewrite (bind_ret _ _ w (broker w) w) in Hrun by done.
  apply on_peer_inv in Hrun as [Hb Hrun].
  assert (same_replica (replica w) (replica w') /\
    forall x, r = Ret x -> x = last_offset (view (replica w) tp)) as [Hsame Hx];
    [|split_and!; [by apply moved_same|done|done]].
  apply session_inv in Hrun as [[Hf Hne]|(s1 & Hf & Hrun)].
  { rewrite Hf. split; [done|]. intros x ->. by destruct (Hne x). }
  rewrite <-Hf in Hrole |- *.
  apply bind_inv in Hrun as [(resp & s2 & Hreq & Hrun)|(o1 & Hreq & Hne & Hr)];
    destruct (request_progress _ _ _ _ _ Ht Htp Hrole Hreq) as [Hsame Hresp].
  2: { split; [done|]. intros x ->. by destruct (Hr x). }
  specialize (Hresp resp eq_refl). destruct (Hlogs tp Htp) as [Hpre Hpro].
  rewrite <-Hf in Hpre, Hpro. assert (mkTP (tp_topic tp) (tp_partition tp) = tp) as Htpe by (by destruct tp).
  rewrite Htpe, Hpro in Hresp. unfold parse_progress in Hrun.
  destruct (last_offset (view (f_world s1) tp)) as [n|] eqn:Hn.
  - assert (0 <= n < 2 ^ 63)%Z as Hrange.
    { unfold last_offset in Hn. case_bool_decide as Hv; [done|]. injection Hn as <-.
      apply prefix_length in Hpre. unfold size, is_offset in *.
      destruct (view (f_world s1) tp); [done|]. simpl in *. lia. }
    subst resp. rewrite bool_decide_eq_false_2 in Hrun by (apply to_string_not_none; pow2_consts; lia).
    rewrite stoull_to_string, Z.eqb_refl in Hrun by (unfold is_u64; pow2_consts; lia).
    simpl in Hrun. injection Hrun as <- <-. split; [done|]. by intros x [= <-].
  - subst resp. simpl in Hrun. injection Hrun as <- <-. split; [done|]. by intros x [= <-].
Qed.

Lemma catch_up_ok tp w r w' :
  follows w -> all_sendable w -> is_tp tp -> view w tp <> [] ->
  catch_up_follower (tp_topic tp) (tp_partition tp) (last_offset (view (replica w) tp)) w = (r, w') ->
  moved w w' /\ (r = Ret true -> view (replica w') tp = view w tp).
Proof.
  intros Hfol Hsend Htp Hne Hrun. pose proof Hfol as [Hrole Hlogs].
  destruct (Hsend tp Hne) as (_ & Ht & Hms & Hsize). destruct (Hlogs tp Htp) as [Hpre Hpro].
  unfold catch_up_follower in Hrun. rewrite (bind_ret _ _ w (broker w) w) in Hrun by done.
  destruct (negb _); [injection Hrun as <- <-; split; [by apply moved_same|done]|].
  rewrite get_missing_rest in Hrun by done. fold (view w tp) in Hrun.
  pose proof Hpre as [rest Hrest]. rewrite Hrest, drop_app_length in Hrun.
  case_bool_decide as Hnil.
  { injection Hrun as <- <-. split; [by apply moved_same|]. intros _. by rewrite Hrest, Hnil, app_nil_r. }
  destruct (_ <=? _)%Z; [injection Hrun as <- <-; split; [by apply moved_same|done]|].
  set (first := match last_offset _ with Some p => u64 (p + 1) | None => 0%Z end) in *.
  assert (first + 0 = size (view (replica w) tp))%Z as Hfirst.
  { unfold first, last_offset. case_bool_decide as Hv; [by rewrite Hv|].
    apply prefix_length in Hpre. unfold size, is_offset in *.
    rewrite u64_small by (unfold is_u64; pow2_consts; lia). lia. }
  unfold try_catch in Hrun. destruct (on_peer _ w) as [o1 w1] eqn:Hp.
  apply on_peer_inv in Hp as [Hb1 Hses].
  assert (moved w w1 /\ (o1 = Ret true -> view (replica w1) tp = view w tp)) as [Hmv Htrue].
  { apply session_inv in Hses as [[Hf Hno]|(s1 & Hf & Hses)].
    { split; [apply moved_same; [done|by rewrite Hf|done]|]. intros ->. by destruct (Hno true). }
    rewrite <-Hf in Hrole, Hrest, Hfirst.
    destruct (send_missing_ok tp (view w tp) rest first 0 s1 o1 (peer w1)) as [Hm Hv]; try done.
    { rewrite Hf. by apply Hlogs. }
    split; [|done]. rewrite Hf in Hm. by apply (moved_moves _ _ tp). }
  destruct o1 as [b|e|]; injection Hrun as <- <-; (split; [done|]); [|done..].
  done.
Qed.

Lemma moved_view w w' tp : moved w w' -> view w' tp = view w tp.
Proof. intros (Hb & _). unfold view. by rewrite Hb. Qed.

Lemma all_sendable_broker w w' : broker w' = broker w -> all_sendable w -> all_sendable w'.
Proof. unfold all_sendable, view. by intros ->. Qed.

(** A partition that is synchronized stays so: the replica cannot leave the log. *)
Lemma moved_keeps w w' tp :
  moved w w' -> is_tp tp -> view (replica w) tp = view w tp -> view (replica w') tp = view w tp.
Proof.
  intros Hmv Htp Heq. pose proof Hmv as (_ & [_ Hfol] & Hgrow).
  apply (anti_symm prefix); [|rewrite <-Heq; by apply Hgrow].
  destruct (Hfol tp Htp) as [Hpre _]. by rewrite (moved_view w w') in Hpre.
Qed.

Lemma synchronize_partitions_ok tps : forall w r w',
  follows w -> all_sendable w -> Forall (fun tp => is_tp tp /\ view w tp <> []) tps ->
  synchronize_partitions tps w = (r, w') ->
  moved w w' /\ (r = Ret true -> forall tp, tp ∈ tps -> view (replica w') tp = view w tp).
Proof.
  induction tps as [|tp tps IH]; intros w r w' Hfol Hsend Htps Hrun.
  { injection Hrun as <- <-. split; [by apply moved_same|]. by intros _ tp ?%not_elem_of_nil. }
  apply Forall_cons in Htps as [[Htp Hne] Htps]. destruct (Hsend tp Hne) as (_ & Ht & _ & Hsize).
  cbn [synchronize_partitions] in Hrun.
  set (one := _ ← query_follower_progress _ _; _) in Hrun.
  assert (forall r1 w1, one w = (r1, w1) ->
    moved w w1 /\ (r1 = Ret true -> view (replica w1) tp = view w tp)) as Hone.
  { intros r1 w1 H1. unfold one in H1.
    apply bind_inv in H1 as [(x & w2 & Hq & Hc)|(o1 & Hq & _ & Hno)];
      destruct (query_ok _ _ _ _ Hfol Htp Ht Hsize Hq) as (Hmv & Hsame & Hx).
    2: { split; [done|]. intros ->. by destruct (Hno true). }
    rewrite (Hx x eq_refl) in Hc. pose proof Hsame as (_ & Hv & _). rewrite <-Hv in Hc.
    pose proof Hmv as (Hb2 & Hfol2 & _).
    destruct (catch_up_ok tp w2 r1 w1) as [Hmv2 Htrue]; try done.
    { by apply (all_sendable_broker w). } { by rewrite (moved_view w w2). }
    rewrite (moved_view w w2) in Htrue by done. split; [by eapply moved_trans|done]. }
  clearbody one. unfold mbind, M_bind, try_catch in Hrun. destruct (one w) as [r1 w1] eqn:H1.
  destruct (Hone r1 w1 eq_refl) as [Hmv1 Htrue1]. pose proof Hmv1 as (Hb1 & Hfol1 & _).
  destruct r1 as [[|]|e|]; simpl in Hrun; try (injection Hrun as <- <-; by split).
  destruct (IH w1 r w') as [Hmv2 Htrue2]; try done.
  { by apply (all_sendable_broker w). }
  { eapply Forall_impl; [exact Htps|]. intros tp' [? ?]. by rewrite (moved_view w w1). }
  split; [by eapply moved_trans|]. intros -> tp' [->|Hin]%elem_of_cons.
  - rewrite <-(moved_view w w1 tp) by done. apply (moved_keeps w1); [done|done|].
    rewrite (moved_view w w1) by done. by apply Htrue1.
  - rewrite <-(moved_view w w1 tp') by done. by apply Htrue2.
Qed.

(** Exactly the partitions with messages are visited. *)
Lemma elem_of_nonempty_partitions topics tp :
  topics_ok topics -> (tp ∈ nonempty_partitions topics <-> log_view topics tp <> []).
Proof.
  intros Hok. unfold nonempty_partitions. rewrite list_elem_of_In, in_concat.
  unfold log_view, messages_of. split.
  - intros (l & Hl & Hin). apply in_map_iff in Hl as ([name topic] & <- & He).
    apply list_elem_of_In in He. rewrite iter_perm, elem_of_map_to_list in He.
    apply in_map_iff in Hin as (part & <- & Hpart). simpl in *.
    apply list_elem_of_In, list_elem_of_filter in Hpart as [Hne Hpart].
    apply list_elem_of_lookup in Hpart as [i Hi].
    destruct (Hok _ _ He) as (_ & _ & Hnum). rewrite (Hnum i part Hi).
    rewrite (proj2 (Z.ltb_ge _ _)) by lia. by rewrite He, Nat2Z.id, Hi.
  - intros Hne. destruct (topics !! tp_topic tp) as [topic|] eqn:He; [|done].
    destruct (tp_partition tp <? 0)%Z eqn:Hp; [done|].
    destruct (partitions topic !! Z.to_nat (tp_partition tp)) as [part|] eqn:Hi; [|done].
    exists (map (fun part => mkTP (tp_topic tp) (p_id part))
      (filter (fun part => messages part <> []) (partitions topic))). split.
    + apply in_map_iff. exists (tp_topic tp, topic). split; [done|].
      apply list_elem_of_In. by rewrite iter_perm, elem_of_map_to_list.
    + apply in_map_iff. exists part. split.
      * destruct (Hok _ _ He) as (_ & _ & Hnum). rewrite (Hnum _ _ Hi).
        destruct tp; simpl in *. f_equal. lia.
      * apply list_elem_of_In, list_elem_of_filter. split; [done|].
        by apply list_elem_of_lookup_2 in Hi.
Qed.

Lemma synchronize_ok w r w' :
  follows w -> all_sendable w -> topics_ok (topics_ (broker w)) ->
  synchronize_follower w = (r, w') -> moved w w' /\ (r = Ret true -> synchronized w').
Proof.
  intros Hfol Hsend Hok Hrun. unfold synchronize_follower in Hrun.
  rewrite (bind_ret _ _ w (broker w) w) in Hrun by done.
  destruct (_ || _); [injection Hrun as <- <-; split; [by apply moved_same|done]|].
  apply synchronize_partitions_ok in Hrun as [Hmv Htrue]; [|done|done|].
  - split; [done|]. intros Hr tp Htp. rewrite (moved_view w w') by done.
    destruct (decide (view w tp = [])) as [Hnil|Hne].
    + pose proof Hmv as (_ & [_ Hlogs] & _). destruct (Hlogs tp Htp) as [Hpre _].
      rewrite (moved_view w w'), Hnil in Hpre by done.
      apply prefix_nil_inv in Hpre. by rewrite Hpre, Hnil.
    + apply Htrue; [done|]. by apply elem_of_nonempty_partitions.
  - apply Forall_forall. intros tp Hin%(elem_of_nonempty_partitions _ tp Hok).
    split; [by apply Hsend|done].
Qed.

(** One message more at the leader. *)
Lemma follows_grown w w' req :
  follows w -> synchronized w -> peer w' = peer w ->
  (forall tp, view w' tp = if decide (tp = target req) then view w tp ++ [r_payload req]
              else view w tp) -> follows w'.
Proof.
  intros [Hrole Hlogs] Hsync Hp Hv. unfold follows, follows_log. rewrite Hp. split; [done|].
  intros tp Htp. destruct (Hlogs tp Htp) as [_ Hpro]. split; [|done].
  rewrite Hv, Hsync by done. case_decide; [by apply prefix_app_r|done].
Qed.

(** Forwarding it when the replica is up to date but for this message. *)
Lemma forward_ok w req old r w' :
  follows w -> is_tp (target req) -> is_word (r_topic req) -> sendable (r_payload req) ->
  view (replica w) (target req) = old -> view w (target req) = old ++ [r_payload req] ->
  (forall tp, is_tp tp -> tp <> target req -> view (replica w) tp = view w tp) ->
  is_offset (size old) -> forward req (size old) w = (r, w') ->
  moved w w' /\ (r = Ret (Some (lit "OK")) -> synchronized w').
Proof.
  intros Hfol Htp Ht Hm Hold Hnew Hrest Hoff Hrun. pose proof Hfol as [Hrole Hlogs].
  unfold forward in Hrun. rewrite (bind_ret _ _ w (broker w) w) in Hrun by done.
  unfold try_catch in Hrun.
  set (run := response ← on_peer _; mret (Some response)) in Hrun.
  destruct (run w) as [r1 w1] eqn:H1.
  assert (moved w w1 /\ (r1 = Ret (Some (lit "OK")) -> synchronized w1)) as [Hmv Hok].
  2: { destruct r1 as [x|e|]; injection Hrun as <- <-; (split; [done|]); done. }
  clear Hrun r w'. unfold run in H1. clear run.
  assert (exists resp, on_peer (session (follower_port_ (broker w)) (peer_request
      (replicate_line (r_topic req) (r_partition req) (size old) (r_payload req)))) w =
      (resp, w1) /\ (r1 = Ret (Some (lit "OK")) -> resp = Ret (lit "OK"))) as (resp & Hses & Hresp).
  { apply bind_inv in H1 as [(resp & w2 & Hses & H1)|(o1 & Hses & _ & Hno)].
    - injection H1 as <- <-. exists (Ret resp). split; [done|]. by intros [= ->].
    - exists o1. split; [done|]. intros ->. by destruct (Hno (Some (lit "OK"))). }
  apply on_peer_inv in Hses as [Hb Hses].
  apply session_inv in Hses as [[Hf Hno]|(s1 & Hf & Hreq)].
  { split; [apply moved_same; [done|by rewrite Hf|done]|].
    intros Hr. by destruct (Hno (lit "OK") (Hresp Hr)). }
  rewrite <-Hf in Hrole, Hold.
  destruct (request_replicate _ _ _ _ _ _ _ Ht Htp Hoff Hm Hrole Hreq) as [Hor Hst].
  change (mkTP (r_topic req) (r_partition req)) with (target req) in Hor, Hst.
  rewrite <-Hold in Hor, Hst. rewrite Hf in Hor, Hst.
  assert (moves (view w (target req)) (target req) (replica w) (replica w1)) as Hmv.
  { destruct Hor as [Hst'|Hsame]; [|by apply moves_same, Hlogs].
    eapply (moves_stored _ _ _ _ _ []); [exact Hst'|]. rewrite <-Hf, Hold. done. }
  split; [by apply (moved_moves _ _ (target req))|]. intros Hr%Hresp%Hst tp' Htp'.
  destruct Hr as (_ & Hv & _). rewrite Hv.
  assert (view w1 tp' = view w tp') as -> by (unfold view; by rewrite Hb).
  case_decide as Heq; [|by apply Hrest]. rewrite Heq.
  change (view (replica w) (target req) ++ [r_payload req] = view w (target req)).
  by rewrite <-Hf, Hold, Hnew.
Qed.

Lemma produce_replica req w o w' :
  follows w -> all_sendable w -> topics_ok (topics_ (broker w)) ->
  replicates (broker w) = true -> is_word (r_topic req) -> sendable (r_payload req) ->
  (r_partition req <= INT_MAX)%Z -> is_offset (size (view w (target req))) ->
  (synchronize_follower w).1 = Ret true -> handle_produce req w = (o, w') ->
  follows w' /\ (forall b, o = Ret (lit "OK", b) -> synchronized w').
Proof.
  intros Hfol Hsend Hok Hrep Ht Hm Hp Hoff Htrue Hrun. unfold handle_produce, produce_locked in Hrun.
  rewrite (bind_ret _ _ w (broker w) w) in Hrun by done. rewrite Hrep in Hrun.
  destruct (synchronize_follower w) as [r0 w0] eqn:Hsync. simpl in Htrue. subst r0.
  destruct (synchronize_ok _ _ _ Hfol Hsend Hok Hsync) as [Hmv0 Hs0]. specialize (Hs0 eq_refl).
  pose proof Hmv0 as (Hb0 & Hfol0 & _). rewrite (bind_ret _ _ _ _ _ Hsync) in Hrun.
  destruct (get_topic_run (r_topic req) w0) as (topic & Hget & Htop).
  rewrite (bind_ret _ _ _ _ _ Hget) in Hrun. set (w1 := on_broker _ w0) in *.
  assert (Hv1 : forall tp, view w1 tp = view w0 tp) by (intros tp; apply view_get_topic).
  assert (Hfs : forall wx, peer wx = peer w0 -> (forall tp, view wx tp = view w0 tp) ->
    follows wx /\ synchronized wx).
  { intros wx Hpx Hvx. unfold follows, synchronized. rewrite Hpx. split.
    - split; [apply Hfol0|]. intros tp Htp. rewrite Hvx. by apply Hfol0.
    - intros tp Htp. rewrite Hvx. by apply Hs0. }
  destruct (bad_partition topic _) eqn:Hbad.
  { injection Hrun as <- <-. destruct (Hfs w1) as [? ?]; done. }
  assert (is_tp (target req)) as Htp by (by eapply good_target).
  assert (size (messages_of topic (r_partition req)) = size (view w0 (target req))) as Hsz.
  { rewrite <-Hv1. unfold view, log_view. simpl tp_topic. rewrite Htop. simpl tp_partition.
    apply bad_partition_false in Hbad. by rewrite (proj2 (Z.ltb_ge _ _)) by lia. }
  cbv zeta in Hrun. rewrite Hsz in Hrun.
  set (w2 := on_broker (set_topics (insert (r_topic req)
    (push_message (r_partition req) (r_payload req) topic))) w1).
  rewrite (bind_ret _ _ w1 tt w2) in Hrun by done.
  assert (Hv2 : forall tp, view w2 tp = if decide (tp = target req)
    then view w0 tp ++ [r_payload req] else view w0 tp).
  { intros tp. rewrite <-Hv1. by apply view_push. }
  destruct (persist_effect req w2) as (Hb3 & Hp3 & _).
  apply bind_inv in Hrun as [([] & w3 & Hper & Hrun)|(o1 & Hper & _ & Hno)];
    rewrite Hper in Hb3, Hp3; cbn [snd] in Hb3, Hp3; rewrite ?Hper in *.
  - assert (Hv3 : forall tp, view w3 tp = view w2 tp) by (intros; unfold view; by rewrite Hb3).
    assert (follows w3) as Hfol3.
    { apply (follows_grown w0 _ req); [done|done|done|]. intros tp. by rewrite Hv3. }
    assert (replicates (broker w3) = true) as Hrep3.
    { rewrite Hb3. change (replicates (broker w0) = true). by rewrite Hb0. }
    rewrite (bind_ret _ _ w3 (broker w3) w3), Hrep3 in Hrun by done.
    apply bind_inv in Hrun as [(x & w4 & Hfw & Hrun)|(o1 & Hfw & _ & Hno)];
      (apply (forward_ok w3 req (view w0 (target req))) in Hfw as [Hmv Hstored];
        [|done|done|done|done|rewrite Hp3; by apply Hs0|rewrite Hv3, Hv2; by rewrite decide_True
         |intros tp Htp' Hne; rewrite Hp3, Hv3, Hv2, decide_False by done; by apply Hs0
         |by rewrite (moved_view w w0)]).
    + injection Hrun as <- <-. destruct Hmv as (_ & Hfol4 & _). split; [done|].
      intros b Hb. apply Hstored. case_bool_decide as Hx; [by rewrite Hx|done].
    + destruct Hmv as (_ & Hfol4 & _). split; [done|]. intros b ->. by destruct (Hno (lit "OK", b)).
  - split; [|intros b ->; by destruct (Hno (lit "OK", b))].
    apply (follows_grown w0 _ req); [done|done|done|].
    intros tp. unfold view. rewrite Hb3. apply Hv2.
Qed.

End leader.

(** ** Properties *)

Section properties.
Context {Q : Type} `{Peer Q} {order : IterOrder} (clock : World Q -> Request -> Z).

#[local] Instance link_peer' : Peer (Follower Q) := follower_peer clock.

Implicit Types w : World (Follower Q).

(** C18. Catching up, by one thread.  Let each of the follower's replicas be a prefix of the
    leader's log with the progress that goes with it ([follows]), and let every message of the
    leader be one line that starts with a visible character ([all_sendable]).  Then this
    stays so whatever the link loses and wherever synchronization stops, and the follower
    drops no message; and when synchronization reports success, the follower holds
    every message of the leader, in the same order.  The leader itself does not change.
    ([replication_gap] and [concurrent_producers_duplicate] are about followers for which
    the hypothesis fails, and about more than one thread.) *)
Theorem synchronize_replicates w r w' :
  follows w -> all_sendable w -> topics_ok (topics_ (broker w)) ->
  synchronize_follower w = (r, w') ->
  broker w' = broker w /\ follows w' /\
  (forall tp, is_tp tp -> view (f_world (peer w)) tp `prefix_of` view (f_world (peer w')) tp) /\
  (r = Ret true -> synchronized w').
Proof.
  intros Hfol Hsend Hok Hrun.
  destruct (synchronize_ok clock _ _ _ Hfol Hsend Hok Hrun) as [(Hb & Hf & Hp) Hs]. done.
Qed.

(** C4. Replication, by one thread.  Let each of the follower's replicas be a prefix of the
    leader's log with the progress that goes with it, let the leader's messages and the new
    one be lines that start with a visible character, the topic a word, and the partition's
    size an [int64_t]; and let the synchronization that precedes the PRODUCE succeed.  Then
    the replicas are still such prefixes afterwards, whatever else fails on either side, and
    an answer [OK] means that both brokers hold the same messages.  (Without the successful
    synchronization see [replication_gap].) *)
Theorem produce_replicates elapsed req w o w' :
  follows w -> all_sendable w -> topics_ok (topics_ (broker w)) ->
  replicates (broker w) = true -> r_type req = PRODUCE -> is_word (r_topic req) ->
  sendable (r_payload req) -> (r_partition req <= INT_MAX)%Z ->
  is_offset (size (view w (target req))) -> (synchronize_follower w).1 = Ret true ->
  handle_request elapsed req w = (o, w') ->
  follows w' /\ (o = Ret (lit "OK") -> synchronized w').
Proof.
  intros Hfol Hsend Hok Hrep Hty Ht Hm Hp Hoff Hsync Hrun. unfold handle_request in Hrun.
  unfold dispatch in Hrun. rewrite Hty in Hrun.
  apply bind_inv in Hrun as [([resp b] & w1 & Hd & Hrun)|(o1 & Hd & _ & Hno)];
    destruct (produce_replica clock _ _ _ _ Hfol Hsend Hok Hrep Ht Hm Hp Hoff Hsync Hd) as [Hf Hs].
  - injection Hrun as <- <-. split; [exact Hf|]. intros [= Hr]. simpl in Hr. apply (Hs b).
    by rewrite Hr.
  - split; [done|]. intros ->. by destruct (Hno (lit "OK")).
Qed.

End properties.

(** *** Concrete brokers *)

(** A leader on port 9092 and its follower, both empty, with healthy disks. *)
Definition demo_disk : OS := mkOS (concat (repeat [SysOk 0; SysOk 3; SysOk 99; SysOk 0; SysOk 0] 9)) ∅.

Definition demo_pair (ls : list link) : World (Follower ClientWorld) :=
  mkWorld (configure LEADER 9093 new_Broker) demo_disk
    (mkFollower (mkWorld (configure FOLLOWER (-1) new_Broker) demo_disk demo_net) true ls).

Definition demo_link : Peer (Follower ClientWorld) :=
  @follower_peer ClientWorld client_peer canonical_order demo_clock.

Definition demo_lead := @handle_request (Follower ClientWorld) demo_link canonical_order 5000.

Definition demo_sync := @synchronize_follower (Follower ClientWorld) demo_link canonical_order.

Definition produce_to (m : bytes) : Request := mkRequest PRODUCE [] [] (lit "t") 1 0 m.

(** The result of the synchronization before a PRODUCE is ignored, and the follower
    does not compare the offset of a REPLICATE with its log.  A message that was not
    replicated, a synchronization that fails and a next message that is replicated leave a
    hole: the follower lacks the first message, its progress says it has both, and every
    later synchronization reports success without sending anything. *)
Theorem replication_gap :
  let tp := mkTP (lit "t") 1 in
  let w0 := demo_pair ([LinkDown] ++ [LinkDown; LinkOk; LinkOk] ++ [LinkOk; LinkOk]) in
  let '(r1, w1) := demo_lead (produce_to (lit "m1")) w0 in
  let '(r2, w2) := demo_lead (produce_to (lit "m2")) w1 in
  let '(r3, w3) := demo_sync w2 in
  r1 = Ret (lit "ERROR") /\ r2 = Ret (lit "OK") /\ r3 = Ret true /\
  view w3 tp = [lit "m1"; lit "m2"] /\ view (f_world (peer w3)) tp = [lit "m2"] /\
  replication_progress_ (broker (f_world (peer w3))) !! tp = Some 1%Z.
Proof. vm_compute. repeat split. Qed.

(** *** Witnesses *)

Definition demo_replicated : World (Follower ClientWorld) :=
  demo_pair [LinkOk; LinkOk].

Lemma demo_pair_empty ls :
  follows (demo_pair ls) /\ all_sendable (demo_pair ls) /\
  topics_ok (topics_ (broker (demo_pair ls))).
Proof.
  assert (forall tp, view (demo_pair ls) tp = [] /\ view (f_world (peer (demo_pair ls))) tp = [])
    as Hv by (intros tp; split; unfold view, log_view; simpl; by rewrite lookup_empty).
  split_and!.
  - split; [done|]. intros tp _. destruct (Hv tp) as [-> Hf]. unfold follows_log. rewrite Hf.
    split; [done|]. simpl. by rewrite lookup_empty.
  - intros tp Hne. by destruct (Hv tp) as [? _].
  - apply map_Forall_empty.
Qed.

(** A leader with two messages its follower has not seen. *)
Definition demo_behind : World (Follower ClientWorld) :=
  mkWorld (mkBroker
    {[ lit "t" := mkTopic (lit "t")
         [new_Partition 0; mkPartition 1 [lit "x"; lit "y"]; new_Partition 2] ]}
    ∅ ∅ new_Metrics LEADER 9093 (lit "data")) demo_disk
    (peer (demo_pair (repeat LinkOk 5))).

Lemma demo_behind_view tp :
  view demo_behind tp = if decide (tp = mkTP (lit "t") 1) then [lit "x"; lit "y"] else [].
Proof.
  unfold view, log_view, demo_behind; simpl. destruct tp as [t p]; simpl.
  destruct (decide (t = lit "t")) as [->|Hne].
  - rewrite lookup_singleton_eq. destruct (p <? 0)%Z eqn:E0.
    { rewrite decide_False; [done|]. intros [= ->]. done. }
    unfold messages_of; simpl.
    destruct (decide (p = 1%Z)) as [->|]; [done|]. rewrite decide_False by congruence.
    destruct (Z.to_nat p) as [|[|[|k]]] eqn:E; try done. lia.
  - rewrite lookup_singleton_ne by done. rewrite decide_False; [done|].
    intros Heq. apply Hne. by injection Heq.
Qed.

Lemma demo_behind_ok :
  follows demo_behind /\ all_sendable demo_behind /\ topics_ok (topics_ (broker demo_behind)).
Proof.
  split_and!.
  - split; [done|]. intros tp _.
    assert (view (f_world (peer demo_behind)) tp = []) as Hf
      by (unfold view, log_view; simpl; by rewrite lookup_empty).
    unfold follows_log. rewrite Hf. split; [apply prefix_nil|]. simpl. by rewrite lookup_empty.
  - intros tp. rewrite demo_behind_view. case_decide as Heq; [|done]. intros _. subst tp.
    split_and!; [split; closed|split; closed| |split; closed].
    repeat (apply Forall_cons; split; [split; [split; closed|closed]|]). by apply Forall_nil.
  - apply map_Forall_singleton. split_and!; [done|simpl; lia|].
    intros [|[|[|i]]] part Hpart; simplify_eq/=; done.
Qed.

Lemma synchronize_replicates_witness :
  exists w', demo_sync demo_behind = (Ret true, w') /\
    view (f_world (peer w')) (mkTP (lit "t") 1) = [lit "x"; lit "y"].
Proof.
  destruct demo_behind_ok as (Hf & Hs & Ht).
  assert ((demo_sync demo_behind).1 = Ret true) as Hr by (vm_compute; reflexivity).
  destruct (demo_sync demo_behind) as [r w'] eqn:Hrun. simpl in Hr. subst r.
  exists w'. split; [reflexivity|].
  destruct (@synchronize_replicates ClientWorld client_peer canonical_order demo_clock demo_behind
    (Ret true) w' Hf Hs Ht Hrun) as (Hb & _ & _ & Hsync).
  rewrite Hsync; [|reflexivity|split; closed]. unfold view. rewrite Hb. vm_compute. reflexivity.
Defined.

Lemma produce_replicates_witness :
  exists w', demo_lead (produce_to (lit "hi")) demo_replicated = (Ret (lit "OK"), w') /\
    synchronized w'.
Proof.
  destruct (demo_pair_empty [LinkOk; LinkOk]) as (Hf & Hs & Ht).
  assert ((demo_lead (produce_to (lit "hi")) demo_replicated).1 = Ret (lit "OK")) as Hr
    by (vm_compute; reflexivity).
  destruct (demo_lead (produce_to (lit "hi")) demo_replicated) as [r w'] eqn:Hrun.
  simpl in Hr. subst r. exists w'. split; [reflexivity|].
  refine (proj2 (@produce_replicates ClientWorld client_peer canonical_order demo_clock 5000
    (produce_to (lit "hi")) demo_replicated _ w' Hf Hs Ht eq_refl eq_refl _ _ _ _ _ Hrun) eq_refl).
  - split; closed.
  - split; [split; closed|closed].
  - closed.
  - closed.
  - vm_compute; reflexivity.
Defined.
