(* ===== verification/Concurrency.v ===== *)
(** * Requests handled at the same time ([Broker::handle_request] under threads)

    [TcpServer] handles each connection in a thread of its own, so requests interleave
    wherever no mutex is held.  A locked section of [src/broker.cpp] is one step; what a
    PRODUCE does before it takes [topics_mutex_], the synchronization of the follower,
    is split into its steps: the snapshot of the partitions, each progress query, each
    read of the missing records, each connection and each REPLICATE sent.  A system is a
    list of threads over one broker, and a schedule names the thread that moves next. *)

From S2P Require Import Prelude LogRecord Paths Posix TopicLog Protocol Metrics Topics Groups Client Broker Recovery Durability Servers Replication.

(** ** Definitions *)

(** Where a thread stands in [handle_request]. *)
Inductive pc :=
| PStart
| PQuery (tps : list TopicPartition)
| PMissing (tp : TopicPartition) (progress : option Z) (tps : list TopicPartition)
| PConnect (tp : TopicPartition) (first : Z) (records : list bytes)
    (tps : list TopicPartition)
| PSend (tp : TopicPartition) (first index : Z) (records : list bytes)
    (tps : list TopicPartition)
| PLocked
| PRecord (r : reply).

(** A thread runs, or has ended with a response or an exception. *)
Inductive thread_state :=
| Running (at_pc : pc)
| Finished (o : outcome bytes).

Section threads.
Context {P : Type} `{Peer P} {order : IterOrder} (elapsed : Request -> Z).

(** The destructor of the follower's client. *)
Definition close_session : M (World P) unit :=
  modify (fun w => mkWorld (broker w) (os w) (peer_close (peer w))).

(** The next step of a thread: where it goes on, or its response. *)
Definition advance (req : Request) (at_pc : pc) : M (World P) (pc + bytes) :=
  match at_pc with
  | PStart =>
      if bool_decide (r_type req = PRODUCE) then
        b ← gets broker;
        mret (inl (if replicates b then PQuery (nonempty_partitions (topics_ b)) else PLocked))
      else r ← dispatch req; mret (inl (PRecord r))
  | PQuery [] => mret (inl PLocked)
  | PQuery (tp :: tps) =>
      try_catch
        (progress ← query_follower_progress (tp_topic tp) (tp_partition tp);
         mret (inl (PMissing tp progress tps)))
        (mret (inl PLocked))
  | PMissing tp progress tps =>
      b ← gets broker;
      if negb (bool_decide (role_ b = LEADER)) then mret (inl PLocked) else
      let missing_records := get_missing_records (tp_topic tp) (tp_partition tp) progress b in
      if bool_decide (missing_records = []) then mret (inl (PQuery tps)) else
      if (follower_port_ b <=? 0)%Z then mret (inl PLocked) else
      let first_missing_offset :=
        match progress with Some p => u64 (p + 1) | None => 0%Z end in
      mret (inl (PConnect tp first_missing_offset missing_records tps))
  | PConnect tp first records tps =>
      b ← gets broker;
      try_catch
        (_ ← on_peer (peer_connect (follower_port_ b)); mret (inl (PSend tp first 0 records tps)))
        (_ ← close_session; mret (inl PLocked))
  | PSend tp first index [] tps => _ ← close_session; mret (inl (PQuery tps))
  | PSend tp first index (record :: records) tps =>
      try_catch
        (response ← on_peer (peer_request
           (replicate_line (tp_topic tp) (tp_partition tp) (u64 (first + index)) record));
         if bool_decide (response = lit "OK")
         then mret (inl (PSend tp first (index + 1) records tps))
         else _ ← close_session; mret (inl PLocked))
        (_ ← close_session; mret (inl PLocked))
  | PLocked => r ← produce_locked req; mret (inl (PRecord r))
  | PRecord r =>
      _ ← modify (on_broker (set_metrics
            (record_request (r_type req) r.2 (request_bytes req) (elapsed req))));
      mret (inr r.1)
  end.

(** A thread that nobody interrupts. *)
Fixpoint run_alone (n : nat) (req : Request) (at_pc : pc) : M (World P) (pc + bytes) :=
  match n with
  | O => mret (inl at_pc)
  | S n =>
      r ← advance req at_pc;
      match r with
      | inl at_pc => run_alone n req at_pc
      | inr response => mret (inr response)
      end
  end.

(** The process: its threads, the broker they share, and whether it still runs. *)
Record System := mkSystem {
  threads : list (Request * thread_state);
  shared : World P;
  stopped : bool
}.

Definition after_step (o : outcome (pc + bytes)) : thread_state :=
  match o with
  | Ret (inl at_pc) => Running at_pc
  | Ret (inr response) => Finished (Ret response)
  | Throw e => Finished (Throw e)
  | Crash => Finished Crash
  end.

Definition is_crash {A} (o : outcome A) : bool :=
  match o with Crash => true | _ => false end.

(** The turn of thread [i]. *)
Definition turn (i : nat) (s : System) : System :=
  if stopped s then s else
  match threads s !! i with
  | Some (req, Running at_pc) =>
      let (o, w) := advance req at_pc (shared s) in
      mkSystem (<[i := (req, after_step o)]> (threads s)) w (is_crash o)
  | _ => s
  end.

Definition run_schedule (sched : list nat) (s : System) : System :=
  fold_left (fun s i => turn i s) sched s.

Definition start_threads (reqs : list Request) (w : World P) : System :=
  mkSystem (map (fun req => (req, Running PStart)) reqs) w false.

(** *** Specification *)

(** The outcome of a thread, once the broker's state reflects its request. *)
Definition decided (t : thread_state) : option (outcome bytes) :=
  match t with
  | Running (PRecord r) => Some (Ret r.1)
  | Running _ => None
  | Finished o => Some o
  end.

Definition decided_events (s : System) : list event :=
  omap (fun t => mkEvent t.1 <$> decided t.2) (threads s).

(** The contract of [Durability], run over several events. *)
Inductive log_steps : list event -> logs -> logs -> Prop :=
| log_steps_nil l l' : (forall tp, is_tp tp -> l' tp = l tp) -> log_steps [] l l'
| log_steps_snoc es e l l1 l' :
    log_steps es l l1 -> log_step e l1 l' -> log_steps (es ++ [e]) l l'.

End threads.
Arguments System P : clear implicits.

(** ** Lemmas *)

(** *** One step *)

Section steps.
Context {P : Type} `{Peer P} {order : IterOrder} (elapsed : Request -> Z).

Implicit Types w : World P.

(** The steps that may change the topics or the disk. *)
Definition critical (req : Request) (at_pc : pc) : bool :=
  match at_pc with
  | PStart => negb (bool_decide (r_type req = PRODUCE))
  | PLocked => true
  | _ => false
  end.

Lemma quiet_close : quiet close_session.
Proof. done. Qed.

Lemma quiet_advance req at_pc :
  critical req at_pc = false -> (forall r, at_pc <> PRecord r) -> quiet (advance elapsed req at_pc).
Proof.
  intros Hc Hr. destruct at_pc as [|[|tp tps]|tp progress tps|tp first records tps
    |tp first index [|record records] tps| |r]; simpl in Hc |- *; try done; [..|by destruct (Hr r)].
  - apply negb_false_iff in Hc. by rewrite Hc.
  - apply quiet_try; [|done]. apply quiet_bind; [|done]. apply quiet_bind; [done|].
    intros b. apply quiet_on_peer.
  - apply quiet_bind; [done|]. intros b. repeat (case_match; try done).
  - apply quiet_bind; [done|]. intros b. apply quiet_try; [|done].
    apply quiet_bind; [apply quiet_on_peer|done].
  - apply quiet_try; [|done]. apply quiet_bind; [apply quiet_on_peer|].
    intros response. by case_bool_decide.
Qed.

(** Only a PRODUCE leaves the first step without its outcome. *)
Definition pc_ok (req : Request) (at_pc : pc) : Prop :=
  match at_pc with
  | PStart | PRecord _ => True
  | _ => r_type req = PRODUCE
  end.

Lemma bind_next (m : M (World P) reply) w o w' :
  (r ← m; mret (inl (PRecord r)) : M (World P) (pc + bytes)) w = (o, w') ->
  exists o1, m w = (o1, w') /\ decided (after_step o) = Some (outcome_map fst o1) /\
    forall at_pc, after_step o = Running at_pc -> exists r, at_pc = PRecord r.
Proof.
  unfold mbind, M_bind, mret, M_ret. destruct (m w) as [[r|e|] w1]; intros [= <- <-];
    eexists; (split_and!; [done|done|intros at_pc [=]; by eexists]).
Qed.

Lemma critical_effect req at_pc w o w' :
  (r_partition req <= INT_MAX)%Z -> pc_ok req at_pc -> critical req at_pc = true ->
  advance elapsed req at_pc w = (o, w') ->
  data_dir_ (broker w') = data_dir_ (broker w) /\ decided (Running at_pc) = None /\
  (exists r, decided (after_step o) = Some r /\ log_effect req w r w') /\
  forall at_pc', after_step o = Running at_pc' -> exists r, at_pc' = PRecord r.
Proof.
  intros Hp Hpc Hc Hrun. destruct at_pc; try done; simpl in Hc, Hpc.
  - apply negb_true_iff in Hc. simpl in Hrun. rewrite Hc in Hrun.
    apply bind_next in Hrun as (o1 & Hd & Hdec & Hnext).
    pose proof (config_dispatch (broker w) req w) as Hcfg. rewrite Hd in Hcfg.
    split_and!; [by apply Hcfg|done| |done].
    exists (outcome_map fst o1). split; [done|]. by apply dispatch_effect.
  - apply bind_next in Hrun as (o1 & Hd & Hdec & Hnext).
    pose proof (config_produce_locked (broker w) req w) as Hcfg. rewrite Hd in Hcfg.
    split_and!; [by apply Hcfg|done| |done].
    exists (outcome_map fst o1). split; [done|]. by apply produce_locked_effect.
Qed.

(** The steps of the synchronization, and where they lead. *)
Definition synchronizing (req : Request) (o : outcome (pc + bytes)) : Prop :=
  match o with
  | Ret (inl at_pc) => pc_ok req at_pc /\ decided (Running at_pc) = None
  | Ret (inr _) => False
  | _ => True
  end.

Lemma next_synchronizing req at_pc w o w' :
  pc_ok req at_pc -> critical req at_pc = false -> (forall r, at_pc <> PRecord r) ->
  advance elapsed req at_pc w = (o, w') -> synchronizing req o.
Proof.
  intros Hpc Hc Hr Hrun.
  assert (r_type req = PRODUCE) as Hty.
  { destruct at_pc; simpl in Hc, Hpc; try done; [|by destruct (Hr r)].
    apply negb_false_iff in Hc. by apply bool_decide_eq_true in Hc. }
  destruct at_pc as [|[|tp tps]|tp progress tps|tp first records tps
    |tp first index [|record records] tps| |r]; try done; [..|by destruct (Hr r)];
    unfold advance, try_catch, close_session, mbind, M_bind, gets, mret, M_ret, modify in Hrun;
    rewrite ?Hty in Hrun; simpl in Hrun;
    simplify_eq/=; repeat (case_match; simplify_eq/=); done.
Qed.

(** What a step does: when it decides the thread, the effect of its request on the logs;
    otherwise nothing but to the sessions and the metrics. *)
Lemma advance_effect req at_pc w o w' :
  (r_partition req <= INT_MAX)%Z -> pc_ok req at_pc -> advance elapsed req at_pc w = (o, w') ->
  data_dir_ (broker w') = data_dir_ (broker w) /\
  (forall at_pc', after_step o = Running at_pc' -> pc_ok req at_pc') /\
  match decided (Running at_pc), decided (after_step o) with
  | None, Some r => log_effect req w r w'
  | before, after => after = before /\ (forall tp, view w' tp = view w tp) /\ os w' = os w
  end.
Proof.
  intros Hp Hpc Hrun. destruct (critical req at_pc) eqn:Hc.
  { destruct (critical_effect _ _ _ _ _ Hp Hpc Hc Hrun) as (Hd & -> & (r & -> & Heff) & Hnext).
    split_and!; [done| |done]. intros q Hq. by destruct (Hnext q Hq) as [r' ->]. }
  destruct at_pc as [|tps|tp progress tps|tp first records tps|tp first index records tps| |r] eqn:Epc;
    [..|injection Hrun as <- <-; done];
    rewrite <-Epc in *; assert (forall r, at_pc <> PRecord r) as Hr by (intros r ->; done);
    pose proof (next_synchronizing _ _ _ _ _ Hpc Hc Hr Hrun) as Hsync;
    destruct (quiet_advance req at_pc Hc Hr w) as [Hb Ho];
    rewrite Hrun in Hb, Ho; cbn [snd] in Hb, Ho;
    (split; [by rewrite Hb|]); (split; [intros q Hq; destruct o as [[]| |]; simplify_eq/=; by apply Hsync|]);
    assert (decided (Running at_pc) = None) as -> by (by rewrite Epc);
    (destruct o as [[q|resp]|e|]; simpl in Hsync |- *; [destruct Hsync as [_ ->]|done|..]);
    first [by apply log_unchanged_quiet|unfold view; by rewrite Hb].
Qed.

End steps.

(** *** One turn *)

Section turns.
Context {P : Type} `{Peer P} {order : IterOrder} (elapsed : Request -> Z).

Implicit Types s : System P.

Definition thread_ok (t : Request * thread_state) : Prop :=
  (r_partition t.1 <= INT_MAX)%Z /\
  match t.2 with Running at_pc => pc_ok t.1 at_pc | Finished _ => True end.

Definition system_ok s : Prop := Forall thread_ok (threads s).

(** The requests that the broker's state does not reflect yet. *)
Definition pending (s : System P) : list Request :=
  omap (fun t => match decided t.2 with Some _ => None | None => Some t.1 end) (threads s).

(** Replacing a thread in one of the two lists. *)
Lemma omap_insert {A B} (f : A -> option B) l i x y :
  l !! i = Some x ->
  exists l1 l2, omap f l = l1 ++ option_list (f x) ++ l2 /\
    omap f (<[i := y]> l) = l1 ++ option_list (f y) ++ l2.
Proof.
  intros Hx. pose proof (lookup_lt_Some _ _ _ Hx) as Hi.
  exists (omap f (take i l)), (omap f (drop (S i) l)).
  assert (forall z k, omap f (k ++ z :: drop (S i) l) =
    omap f k ++ option_list (f z) ++ omap f (drop (S i) l)) as Hmid.
  { intros z k. rewrite omap_app. simpl. by destruct (f z). }
  split.
  - rewrite <-(take_drop_middle l i x Hx) at 1. apply Hmid.
  - rewrite insert_take_drop by done. apply Hmid.
Qed.

Definition silent s s' : Prop :=
  decided_events s' = decided_events s /\ pending s' = pending s /\
  (forall tp, view (shared s') tp = view (shared s) tp) /\ os (shared s') = os (shared s).

Definition decides (e : event) s s' : Prop :=
  decided_events s' ≡ₚ e :: decided_events s /\ pending s ≡ₚ ev_request e :: pending s' /\
  log_effect (ev_request e) (shared s) (ev_outcome e) (shared s').

Lemma turn_spec i s :
  system_ok s -> let s' := turn elapsed i s in
  system_ok s' /\ data_dir_ (broker (shared s')) = data_dir_ (broker (shared s)) /\
  (silent s s' \/ exists e, decides e s s').
Proof.
  intros Hok s'. unfold s', turn. destruct (stopped s); [by split_and!; try left|].
  destruct (threads s !! i) as [[req [q|o]]|] eqn:Ht; [|by split_and!; try left..].
  pose proof (proj1 (Forall_lookup _ _) Hok i _ Ht) as [Hp Hpc]. simpl in Hp, Hpc.
  destruct (advance elapsed req q (shared s)) as [o w'] eqn:Hrun.
  destruct (advance_effect _ _ _ _ _ _ Hp Hpc Hrun) as (Hdir & Hnext & Heff).
  split_and!; [|done|].
  { apply Forall_insert; [done|]. split; [done|]. simpl.
    destruct (after_step o) eqn:Ho; [by apply Hnext|done]. }
  destruct (omap_insert (fun t => mkEvent t.1 <$> decided t.2) (threads s) i _
    (req, after_step o) Ht) as (e1 & e2 & He & He').
  destruct (omap_insert (fun t => match decided t.2 with Some _ => None | None => Some t.1 end)
    (threads s) i _ (req, after_step o) Ht) as (p1 & p2 & Hpd & Hpd').
  unfold silent, decides, decided_events, pending. cbn [threads shared].
  rewrite He, He', Hpd, Hpd'. cbn [fst snd].
  destruct (decided (Running q)) as [r0|], (decided (after_step o)) as [r|];
    try (destruct Heff as (Heq & Hv & Hos); simplify_eq; by left).
  right. exists (mkEvent req r). simpl. split_and!; [by rewrite <-Permutation_middle..|done].
Qed.

(** *** Schedules *)

Lemma run_schedule_snoc sched i s :
  run_schedule elapsed (sched ++ [i]) s = turn elapsed i (run_schedule elapsed sched s).
Proof. unfold run_schedule. by rewrite fold_left_app. Qed.

Lemma log_step_ext e l l1 l2 :
  (forall tp, is_tp tp -> l2 tp = l1 tp) -> log_step e l l1 -> log_step e l l2.
Proof.
  intros Heq [Hl Hack|Ha Hl]; [apply log_kept|apply log_grown]; try done;
    intros tp Htp; rewrite Heq by done; auto.
Qed.

Lemma log_steps_ext es l l1 l2 :
  (forall tp, is_tp tp -> l2 tp = l1 tp) -> log_steps es l l1 -> log_steps es l l2.
Proof.
  intros Heq Hs. destruct Hs as [l1' l2' Hl|es e l0 l' l'' Hs Hl].
  - apply log_steps_nil. intros tp Htp. rewrite Heq; auto.
  - eapply log_steps_snoc; [done|]. by eapply log_step_ext.
Qed.

Lemma schedule_refines sched s :
  system_ok s -> decided_events s = [] ->
  let s' := run_schedule elapsed sched s in
  system_ok s' /\ exists es, es ≡ₚ decided_events s' /\
    log_steps es (view (shared s)) (view (shared s')).
Proof.
  intros Hok Hnil. induction sched as [|i sched IH] using rev_ind; cbv zeta.
  { change (run_schedule elapsed [] s) with s. split; [done|]. exists []. rewrite Hnil. split; [done|]. by apply log_steps_nil. }
  rewrite run_schedule_snoc. destruct IH as (Hok1 & es & Hes & Hlog).
  set (s1 := run_schedule elapsed sched s) in *.
  destruct (turn_spec i s1 Hok1) as (Hok2 & _ & [(He & _ & Hv & _)|(e & He & _ & Heff)]);
    (split; [done|]).
  - exists es. rewrite He. split; [done|]. eapply log_steps_ext; [|exact Hlog]. by intros tp _.
  - exists (es ++ [e]). rewrite He, <-Hes. split; [by rewrite Permutation_app_comm|].
    eapply log_steps_snoc; [done|]. destruct e. by apply effect_refines.
Qed.

(** What a run of the contract adds to a partition. *)
Lemma log_steps_add es l l' tp :
  log_steps es l l' -> is_tp tp ->
  exists added, l' tp = l tp ++ added /\
    acked_messages tp es `sublist_of` added /\ added `sublist_of` asked_messages tp es.
Proof.
  intros Hs Htp. induction Hs as [l l' Hl|es e l l1 l' _ (a1 & Hv1 & Hk1 & Hs1) Hstep].
  { exists []. rewrite Hl, app_nil_r by done. split_and!; [done|done|apply sublist_nil_l]. }
  destruct (log_step_adds _ _ _ _ Hstep Htp) as (a2 & Hv2 & Hk2 & Hs2).
  exists (a1 ++ a2). rewrite Hv2, Hv1, app_assoc.
  unfold acked_messages, asked_messages in *. rewrite !filter_app, !map_app.
  split_and!; [done|by apply sublist_app..].
Qed.

Lemma start_ok reqs (w : World P) :
  Forall (fun req => (r_partition req <= INT_MAX)%Z) reqs ->
  system_ok (start_threads reqs w) /\ decided_events (start_threads reqs w) = [] /\
  pending (start_threads reqs w) = reqs.
Proof.
  intros Hp. split_and!.
  - unfold system_ok, start_threads; simpl. apply Forall_map.
    eapply Forall_impl; [exact Hp|]. intros req Hr. by split.
  - unfold decided_events, start_threads; simpl. clear. induction reqs; simpl; done.
  - unfold pending, start_threads; cbn [threads]. clear.
    induction reqs as [|req reqs IH]; [done|]. simpl. f_equal. exact IH.
Qed.

End turns.

(** *** The disk under a schedule *)

Section disk.
Context {P : Type} `{Peer P} {order : IterOrder} (elapsed : Request -> Z).

Implicit Types w : World P.
Implicit Types s : System P.

(** The bytes some messages take in a log. *)
Definition log_size (ms : list bytes) : Z := blen (log_bytes (map mkRecord ms)).

(** A request whose message can be stored. *)
Definition storable_request (req : Request) : Prop :=
  (r_partition req < INT_MAX)%Z /\
  (appends req -> plain (r_topic req)) /\
  is_u32 (blen (r_payload req)).

(** Every log has room for all the requests to come. *)
Definition room w (reqs : list Request) : Prop :=
  Forall storable_request reqs /\
  forall tp, is_tp tp -> Forall (fun m => is_u32 (blen m)) (view w tp) /\
    (log_size (view w tp) + log_size (map r_payload reqs) < 2 ^ 64)%Z.

(** Nothing has failed: every thread that is decided has answered. *)
Definition clean (e : event) : Prop :=
  (exists r, ev_outcome e = Ret r) /\
  (r_type (ev_request e) = REPLICATE -> ev_outcome e = Ret (lit "OK")).

Lemma log_size_app ms1 ms2 : log_size (ms1 ++ ms2) = (log_size ms1 + log_size ms2)%Z.
Proof. unfold log_size. by rewrite map_app, log_bytes_app, blen_app. Qed.

Lemma log_size_nonneg ms : (0 <= log_size ms)%Z.
Proof. apply blen_nonneg. Qed.

Lemma log_size_perm ms1 ms2 : ms1 ≡ₚ ms2 -> log_size ms1 = log_size ms2.
Proof.
  induction 1 as [|m l1 l2 _ IH|m1 m2 l|l1 l2 l3 _ IH1 _ IH2]; [done|..|congruence].
  - change (m :: l1) with ([m] ++ l1). change (m :: l2) with ([m] ++ l2).
    rewrite !log_size_app. lia.
  - change (m1 :: m2 :: l) with ([m1] ++ [m2] ++ l).
    change (m2 :: m1 :: l) with ([m2] ++ [m1] ++ l). rewrite !log_size_app. lia.
Qed.

Lemma room_perm w reqs1 reqs2 : reqs1 ≡ₚ reqs2 -> room w reqs1 -> room w reqs2.
Proof.
  intros Hp [Hst Hroom]. split; [by rewrite <-Hp|]. intros tp Htp.
  destruct (Hroom tp Htp) as [Hok Hsize]. split; [done|].
  assert (log_size (map r_payload reqs1) = log_size (map r_payload reqs2)) as Heq
    by exact (log_size_perm _ _ (fmap_Permutation r_payload _ _ Hp)). lia.
Qed.

Lemma room_storable w req reqs : room w (req :: reqs) -> storable w req.
Proof.
  intros [Hst Hroom]. apply Forall_cons in Hst as [(Hp & Ht & Hm) _].
  split_and!; [done|done|]. intros tp Htp. destruct (Hroom tp Htp) as [Hok Hsize].
  split.
  - rewrite map_app. apply Forall_app. split; [by apply Forall_map|by apply Forall_singleton].
  - fold (log_size (view w tp ++ [r_payload req])).
    change (map r_payload (req :: reqs)) with ([r_payload req] ++ map r_payload reqs) in Hsize.
    rewrite log_size_app in *. unfold is_u64.
    pose proof (log_size_nonneg (view w tp)). pose proof (log_size_nonneg [r_payload req]).
    pose proof (log_size_nonneg (map r_payload reqs)). lia.
Qed.

(** Storing a message uses up the room it had. *)
Lemma room_effect req reqs w o w' :
  room w (req :: reqs) -> log_effect req w o w' -> room w' reqs.
Proof.
  intros Hr Heff. pose proof Hr as [Hst Hroom]. apply Forall_cons in Hst as [(_ & _ & Hm) Hst].
  split; [done|]. intros tp Htp. destruct (Hroom tp Htp) as [Hok Hsize].
  change (map r_payload (req :: reqs)) with ([r_payload req] ++ map r_payload reqs) in Hsize.
  rewrite log_size_app in Hsize. pose proof (log_size_nonneg [r_payload req]).
  assert (view w' tp = view w tp \/ view w' tp = view w tp ++ [r_payload req]) as [-> | ->].
  { destruct Heff as [Hv|oa _ _ Hv|oa _ _ Hv]; rewrite Hv; [by left| |by left].
    case_decide; [by right|by left]. }
  - split; [done|lia].
  - split; [apply Forall_app; split; [done|by apply Forall_singleton]|].
    rewrite log_size_app. lia.
Qed.

Lemma intact_same w w' :
  intact w -> (forall tp, view w' tp = view w tp) -> os w' = os w ->
  data_dir_ (broker w') = data_dir_ (broker w) -> intact w'.
Proof.
  intros [[Hdir Hdisk] Hlogs] Hv Ho Hd. split; [|unfold tidy; by rewrite Hd, Ho].
  split; [by rewrite Hd|]. intros tp Htp. unfold disk_at.
  rewrite Hv, Ho, (log_file_same_dir w w') by done. by apply Hdisk.
Qed.

Lemma schedule_intact sched s :
  system_ok s -> intact (shared s) -> room (shared s) (pending s) ->
  let s' := run_schedule elapsed sched s in
  Forall clean (decided_events s') -> intact (shared s') /\ room (shared s') (pending s').
Proof.
  intros Hok Hin Hroom. induction sched as [|i sched IH] using rev_ind; [done|]. cbv zeta.
  rewrite run_schedule_snoc. set (s1 := run_schedule elapsed sched s) in *.
  assert (system_ok s1) as Hok1.
  { clear IH. unfold s1. clear s1. induction sched as [|j sched IH] using rev_ind; [done|].
    rewrite run_schedule_snoc. by apply turn_spec. }
  destruct (turn_spec elapsed i s1 Hok1) as (_ & Hdir & [(He & Hpd & Hv & Ho)|(e & He & Hpd & Heff)]);
    intros Hclean.
  - rewrite He in Hclean. destruct (IH Hclean) as [Hin1 Hroom1].
    split; [by eapply intact_same|]. rewrite Hpd. destruct Hroom1 as [Hst Hr].
    split; [done|]. intros tp Htp. rewrite Hv. by apply Hr.
  - rewrite He in Hclean. apply Forall_cons in Hclean as [[[r Hret] Hrep] Hclean].
    destruct (IH Hclean) as [Hin1 Hroom1]. apply (room_perm _ _ _ Hpd) in Hroom1.
    split; [|by eapply room_effect]. rewrite Hret in Heff.
    eapply effect_intact; [done|by eapply room_storable|done|done|].
    intros Hty. specialize (Hrep Hty). congruence.
Qed.

End disk.

(** *** A thread that is alone *)

Section alone.
Context {P : Type} `{Peer P} {order : IterOrder} (elapsed : Request -> Z).

Implicit Types w : World P.

Abbreviation run := (run_alone elapsed).

Definition with_peer (p : P) w : World P := mkWorld (broker w) (os w) p.

Lemma run_step n req q w o w' :
  advance elapsed req q w = (o, w') ->
  run (S n) req q w =
    match o with
    | Ret (inl q') => run n req q' w'
    | Ret (inr response) => (Ret (inr response), w')
    | Throw e => (Throw e, w')
    | Crash => (Crash, w')
    end.
Proof.
  intros Hrun. cbn [run_alone]. unfold mbind, M_bind. rewrite Hrun.
  by destruct o as [[q'|response]|e|].
Qed.

(** Sending the missing records, inside the session it ends. *)
Lemma run_sends req tp first tps records : forall index w,
  exists n, forall m, run (n + m) req (PSend tp first index records tps) w =
    let (r, p) := send_missing (tp_topic tp) (tp_partition tp) first index records (peer w) in
    match r with
    | Crash => (Crash, with_peer p w)
    | Ret true => run m req (PQuery tps) (with_peer (peer_close p) w)
    | _ => run m req PLocked (with_peer (peer_close p) w)
    end.
Proof.
  induction records as [|record records IH]; intros index w.
  { exists 1. intros m. by rewrite (run_step m req _ w (Ret (inl (PQuery tps)))
      (with_peer (peer_close (peer w)) w)). }
  cbn [send_missing]. unfold mbind, M_bind.
  set (line := replicate_line _ _ _ _).
  destruct (peer_request line (peer w)) as [[resp|e|] p] eqn:Hreq.
  - case_bool_decide as Hresp.
    + destruct (IH (index + 1)%Z (with_peer p w)) as [n Hn]. exists (S n). intros m.
      cbn [Nat.add]. rewrite (run_step _ _ _ w
        (Ret (inl (PSend tp first (index + 1) records tps))) (with_peer p w)); [exact (Hn m)|].
      cbn [advance]. unfold try_catch, on_peer, zoom, mbind, M_bind. fold line.
      rewrite Hreq. by rewrite bool_decide_eq_true_2.
    + exists 1. intros m. cbn [Nat.add]. rewrite (run_step _ _ _ w (Ret (inl PLocked))
        (with_peer (peer_close p) w)); [reflexivity|].
      cbn [advance]. unfold try_catch, on_peer, zoom, mbind, M_bind. fold line.
      rewrite Hreq. by rewrite bool_decide_eq_false_2.
  - exists 1. intros m. cbn [Nat.add]. rewrite (run_step _ _ _ w (Ret (inl PLocked))
      (with_peer (peer_close p) w)); [reflexivity|]. cbn [advance]. unfold try_catch, on_peer, zoom, mbind, M_bind. fold line. by rewrite Hreq.
  - exists 1. intros m. cbn [Nat.add]. rewrite (run_step _ _ _ w Crash (with_peer p w));
      [reflexivity|]. cbn [advance]. unfold try_catch, on_peer, zoom, mbind, M_bind. fold line. by rewrite Hreq.
Qed.

Lemma run_catch_up req tp progress tps w :
  exists n, forall m, run (n + m) req (PMissing tp progress tps) w =
    let (r, w') := catch_up_follower (tp_topic tp) (tp_partition tp) progress w in
    match r with
    | Crash => (Crash, w')
    | Ret true => run m req (PQuery tps) w'
    | _ => run m req PLocked w'
    end.
Proof.
  set (missing := get_missing_records (tp_topic tp) (tp_partition tp) progress (broker w)).
  set (first := match progress with Some p => u64 (p + 1) | None => 0%Z end).
  unfold catch_up_follower. rewrite (bind_ret _ _ w (broker w) w) by done. cbv zeta.
  fold missing first. destruct (bool_decide (role_ (broker w) = LEADER)) eqn:Hrole; simpl negb; cycle 1.
  { exists 1. intros m. cbn [Nat.add]. rewrite (run_step _ _ _ w (Ret (inl PLocked)) w); [done|].
    cbn [advance]. rewrite (bind_ret _ _ w (broker w) w) by done. by rewrite Hrole. }
  destruct (bool_decide (missing = [])) eqn:Hmiss.
  { exists 1. intros m. cbn [Nat.add]. rewrite (run_step _ _ _ w (Ret (inl (PQuery tps))) w); [done|].
    cbn [advance]. rewrite (bind_ret _ _ w (broker w) w) by done. rewrite Hrole. cbn [negb].
    cbv zeta. fold missing. by rewrite Hmiss. }
  destruct (follower_port_ (broker w) <=? 0)%Z eqn:Hport.
  { exists 1. intros m. cbn [Nat.add]. rewrite (run_step _ _ _ w (Ret (inl PLocked)) w); [done|].
    cbn [advance]. rewrite (bind_ret _ _ w (broker w) w) by done. rewrite Hrole. cbn [negb].
    cbv zeta. fold missing. by rewrite Hmiss, Hport. }
  assert (Hstep : advance elapsed req (PMissing tp progress tps) w =
    (Ret (inl (PConnect tp first missing tps)), w)).
  { cbn [advance]. rewrite (bind_ret _ _ w (broker w) w) by done. rewrite Hrole. cbn [negb].
    cbv zeta. fold missing. by rewrite Hmiss, Hport. }
  unfold try_catch, on_peer, zoom, session, mbind, M_bind.
  destruct (peer_connect (follower_port_ (broker w)) (peer w)) as [[[]|e|] p] eqn:Hconn.
  - destruct (run_sends req tp first tps missing 0 (with_peer p w)) as [n Hn].
    exists (S (S n)). intros m. cbn [Nat.add]. rewrite (run_step _ _ _ _ _ _ Hstep).
    rewrite (run_step _ _ _ w (Ret (inl (PSend tp first 0 missing tps))) (with_peer p w)).
    + rewrite Hn. cbn [peer with_peer negb]. rewrite Hconn.
      by destruct (send_missing _ _ _ _ _ p) as [[[|]|e|] p'].
    + cbn [advance]. unfold try_catch, on_peer, zoom, mbind, M_bind, gets. by rewrite Hconn.
  - exists 2. intros m. cbn [Nat.add]. rewrite (run_step _ _ _ _ _ _ Hstep).
    rewrite (run_step _ _ _ w (Ret (inl PLocked)) (with_peer (peer_close p) w)); [cbn [negb]; by rewrite Hconn|].
    cbn [advance]. unfold try_catch, on_peer, zoom, mbind, M_bind, gets. by rewrite Hconn.
  - exists 2. intros m. cbn [Nat.add]. rewrite (run_step _ _ _ _ _ _ Hstep).
    rewrite (run_step _ _ _ w Crash (with_peer p w)); [cbn [negb]; by rewrite Hconn|].
    cbn [advance]. unfold try_catch, on_peer, zoom, mbind, M_bind, gets. by rewrite Hconn.
Qed.

Lemma run_queries req tps : forall w,
  exists n, forall m, run (n + m) req (PQuery tps) w =
    (_ ← synchronize_partitions tps; run m req PLocked) w.
Proof.
  induction tps as [|tp tps IH]; intros w.
  { exists 1. intros m. cbn [Nat.add]. by rewrite (run_step _ _ _ w (Ret (inl PLocked)) w). }
  cbn [synchronize_partitions].
  destruct (query_follower_progress (tp_topic tp) (tp_partition tp) w) as [r w1] eqn:Hq.
  assert (Hstep : advance elapsed req (PQuery (tp :: tps)) w =
    match r with
    | Ret progress => (Ret (inl (PMissing tp progress tps)), w1)
    | Throw _ => (Ret (inl PLocked), w1)
    | Crash => (Crash, w1)
    end).
  { cbn [advance]. unfold try_catch, mbind, M_bind. rewrite Hq. by destruct r. }
  unfold try_catch, mbind, M_bind. rewrite Hq. destruct r as [progress|e|].
  - destruct (run_catch_up req tp progress tps w1) as [n1 Hn1].
    destruct (catch_up_follower _ _ progress w1) as [r2 w2] eqn:Hc.
    destruct (IH w2) as [n2 Hn2].
    assert (exists n, forall m, run (n + m) req (PMissing tp progress tps) w1 =
      match r2 with
      | Crash => (Crash, w2)
      | Ret true => (_ ← synchronize_partitions tps; run m req PLocked) w2
      | _ => run m req PLocked w2
      end) as [n Hn].
    { destruct r2 as [[|]|e|]; [|by exists n1..]. exists (n1 + n2). intros m.
      by rewrite <-Nat.add_assoc, Hn1, Hn2. }
    exists (S n). intros m. cbn [Nat.add]. rewrite (run_step _ _ _ _ _ _ Hstep), Hn.
    by destruct r2 as [[|]|e|].
  - exists 1. intros m. cbn [Nat.add]. by rewrite (run_step _ _ _ _ _ _ Hstep).
  - exists 1. intros m. cbn [Nat.add]. by rewrite (run_step _ _ _ _ _ _ Hstep).
Qed.

(** The last two steps. *)
Lemma run_reply req q (m : M (World P) reply) w :
  (forall w, advance elapsed req q w = (r ← m; mret (inl (PRecord r))) w) ->
  run 2 req q w =
    (r ← m; _ ← modify (on_broker (set_metrics
       (record_request (r_type req) r.2 (request_bytes req) (elapsed req)))); mret (inr r.1)) w.
Proof.
  intros Hq. cbn [run_alone]. unfold mbind, M_bind. rewrite Hq. unfold mbind, M_bind.
  by destruct (m w) as [[r|e|] w1].
Qed.

(** Alone, a thread handles its request as [handle_request] does. *)
Lemma run_alone_handles req w :
  exists n, run n req PStart w =
    (response ← handle_request (elapsed req) req; mret (inr response)) w.
Proof.
  assert (Hhr : forall m : M (World P) reply,
    (response ← (r ← m; _ ← modify (on_broker (set_metrics
       (record_request (r_type req) r.2 (request_bytes req) (elapsed req)))); mret r.1);
     mret (inr response) : M (World P) (pc + bytes)) w =
    (r ← m; _ ← modify (on_broker (set_metrics
       (record_request (r_type req) r.2 (request_bytes req) (elapsed req)))); mret (inr r.1)) w).
  { intros m. unfold mbind, M_bind. by destruct (m w) as [[r|e|] w1]. }
  unfold handle_request. rewrite Hhr. clear Hhr.
  destruct (bool_decide (r_type req = PRODUCE)) eqn:Hty.
  2: { exists 2. apply run_reply. intros w'. cbn [advance]. by rewrite Hty. }
  pose proof Hty as Hp. apply bool_decide_eq_true in Hp. unfold dispatch. rewrite Hp.
  assert (Hstart : advance elapsed req PStart w =
    (Ret (inl (if replicates (broker w) then PQuery (nonempty_partitions (topics_ (broker w)))
               else PLocked)), w)) by (cbn [advance]; by rewrite Hty).
  assert (Hlocked : forall w', run 2 req PLocked w' = (r ← produce_locked req;
    _ ← modify (on_broker (set_metrics
       (record_request PRODUCE r.2 (request_bytes req) (elapsed req)))); mret (inr r.1)) w').
  { intros w'. rewrite (run_reply req PLocked (produce_locked req)) by done. by rewrite Hp. }
  destruct (replicates (broker w)) eqn:Hrep.
  - destruct (run_queries req (nonempty_partitions (topics_ (broker w))) w) as [n Hn].
    exists (S (n + 2)). rewrite (run_step _ _ _ _ _ _ Hstart), Hn.
    unfold handle_produce, synchronize_follower, mbind, M_bind, gets. rewrite Hrep.
    unfold replicates in Hrep. apply andb_true_iff in Hrep as [Hr1 Hr2].
    rewrite Hr1, (proj2 (Z.leb_gt _ _)) by lia. cbn [negb orb].
    destruct (synchronize_partitions _ w) as [[b|e|] w1]; [|done..]. apply Hlocked.
  - exists 3. rewrite (run_step _ _ _ _ _ _ Hstart), Hlocked.
    unfold handle_produce, mbind, M_bind, gets. rewrite Hrep. done.
Qed.

End alone.

(** ** Properties *)

Section properties.
Context {P : Type} `{Peer P} {order : IterOrder} (elapsed : Request -> Z).

(** C3. However the steps of concurrent requests interleave, whatever the kernel and the
    follower answer, and wherever the process stops, the requests that are decided are
    those of a run of the one-request-at-a-time contract, in some order: every partition
    keeps what it had and grows by a list that contains the message of every acknowledged
    request, and nothing that was not asked for. *)
Theorem interleavings_refine_contract reqs (w : World P) sched
    (Hp : Forall (fun req => (r_partition req <= INT_MAX)%Z) reqs) :
  let s' := run_schedule elapsed sched (start_threads reqs w) in
  exists es, es ≡ₚ decided_events s' /\ log_steps es (view w) (view (shared s')) /\
    forall tp, is_tp tp -> exists added, view (shared s') tp = view w tp ++ added /\
      acked_messages tp es `sublist_of` added /\ added `sublist_of` asked_messages tp es.
Proof.
  intros s'. destruct (start_ok reqs w Hp) as (Hok & Hnil & _).
  destruct (schedule_refines elapsed sched _ Hok Hnil) as (_ & es & Hes & Hlog).
  exists es. split_and!; [done|done|]. intros tp Htp. by eapply log_steps_add.
Qed.

(** C17. While no append fails, interleaved requests that the logs have room for, on topics
    that a directory can hold, keep memory and disk in step: at every moment of a schedule
    each log file is durably the serialization of its partition, and nothing else lies in
    the data directory. *)
Theorem interleaving_keeps_disk reqs (w : World P) sched
    (Hin : intact w) (Hroom : room w reqs) :
  let s' := run_schedule elapsed sched (start_threads reqs w) in
  Forall clean (decided_events s') -> intact (shared s').
Proof.
  intros s' Hclean.
  destruct (start_ok reqs w) as (Hok & Hnil & Hpend).
  { eapply Forall_impl; [apply Hroom|]. intros req [Hp _]. lia. }
  refine (proj1 (schedule_intact elapsed sched _ Hok Hin _ Hclean)). by rewrite Hpend.
Qed.

(** C24. A thread that is not interrupted ends after finitely many steps, with the response
    and the state of [handle_request]. *)
Theorem alone_is_handle_request req (w : World P) :
  exists n, run_alone elapsed n req PStart w =
    (response ← handle_request (elapsed req) req; mret (inr response)) w.
Proof. apply run_alone_handles. Qed.

End properties.

(** *** Two producers *)

Definition demo_system (ls : list link) (reqs : list Request) : System (Follower ClientWorld) :=
  start_threads reqs (demo_pair ls).

Definition demo_schedule : list nat -> System (Follower ClientWorld) -> System (Follower ClientWorld) :=
  @run_schedule (Follower ClientWorld) demo_link canonical_order (fun _ => 5000%Z).

Definition demo_producers : list Request := map produce_to [lit "m0"; lit "m1"; lit "m2"].

(** The first thread runs alone, the third stops after its progress query, and the second
    runs to its end before the third goes on. *)
Definition demo_sched : list nat := repeat 0 4 ++ repeat 2 2 ++ repeat 1 7 ++ repeat 2 12.

(** Nothing fails here, and yet the follower stores a message twice.  The follower's
    progress is read before the missing records are, and [topics_mutex_] is released
    between the two: a PRODUCE that another thread appends and replicates in between is
    replicated a second time, and the follower does not compare offsets.  Every producer
    is answered OK, and the next synchronization reports that nothing is missing. *)
Theorem concurrent_producers_duplicate :
  let tp := mkTP (lit "t") 1 in
  let s := demo_schedule demo_sched (demo_system (repeat LinkOk 40) demo_producers) in
  map snd (threads s) = repeat (Finished (Ret (lit "OK"))) 3 /\
  view (shared s) tp = [lit "m0"; lit "m1"; lit "m2"] /\
  view (f_world (peer (shared s))) tp = [lit "m0"; lit "m1"; lit "m1"; lit "m2"] /\
  (demo_sync (shared s)).1 = Ret true.
Proof. vm_compute. repeat split. Qed.

(** *** Witnesses *)

Lemma demo_producers_room ls : room (demo_pair ls) demo_producers.
Proof.
  split.
  - repeat (apply Forall_cons; split; [split_and!; [closed|intros _; by split_and!|closed]|]). by apply Forall_nil.
  - intros tp _. assert (view (demo_pair ls) tp = []) as ->
      by (unfold view, log_view; simpl; by rewrite lookup_empty).
    split; [by apply Forall_nil|closed].
Qed.

Lemma demo_pair_intact ls : intact (demo_pair ls).
Proof.
  split; [split; [by split|]|split; [by split|intros ns f Hf; done]]. intros tp _.
  unfold disk_at, view, log_view; simpl. rewrite lookup_empty. unfold file_at. by rewrite lookup_empty.
Qed.

Lemma interleavings_refine_contract_witness :
  let s' := demo_schedule demo_sched (demo_system (repeat LinkOk 40) demo_producers) in
  exists es, es ≡ₚ decided_events s' /\
    log_steps es (view (demo_pair (repeat LinkOk 40))) (view (shared s')).
Proof.
  destruct (@interleavings_refine_contract (Follower ClientWorld) demo_link canonical_order
    (fun _ => 5000%Z) demo_producers (demo_pair (repeat LinkOk 40)) demo_sched)
    as (es & Hes & Hlog & _).
  - repeat (apply Forall_cons; split; [closed|]). by apply Forall_nil.
  - exists es. by split.
Defined.

Lemma interleaving_keeps_disk_witness :
  let s' := @run_schedule (Follower ClientWorld) demo_link canonical_order (fun _ => 5000%Z)
    demo_sched (start_threads demo_producers (demo_pair (repeat LinkOk 40))) in
  Forall clean (decided_events s') /\ intact (shared s').
Proof.
  set (s' := run_schedule _ _ _).
  assert (decided_events s' = map (fun req => mkEvent req (Ret (lit "OK"))) demo_producers) as Heq
    by (vm_compute; reflexivity).
  assert (Forall clean (decided_events s')) as Hclean.
  { rewrite Heq.
    repeat (apply Forall_cons; split; [split; [by eexists|done]|]). by apply Forall_nil. }
  split; [exact Hclean|]. revert Hclean. unfold s'.
  apply interleaving_keeps_disk; [apply demo_pair_intact|apply demo_producers_room].
Defined.
