(* ===== verification/Programs.v ===== *)
(** * The client programs ([src/clients/producer.cpp], [src/clients/consumer.cpp])

    Both are a [main] over one [BrokerClient] connected to port 9092.  They are written
    against the [Peer] interface of [Client], so they run over the sockets of the program
    and over the broker that [Consumption] puts at the other end. *)

From S2P Require Import Prelude Text Framing Protocol Topics Groups Client.

(** ** Definitions *)

(** What a program has written to [std::cout], and its connection. *)
Record Terminal (P : Type) := mkTerminal { cout : bytes; connection : P }.
Arguments mkTerminal {P} cout connection.
Arguments cout {P} t.
Arguments connection {P} t.

(** [struct Assignment]. *)
Record Assignment := mkAssignment { a_topic : bytes; a_partition : Z; a_offset : Z }.

#[export] Instance Assignment_eq_dec : EqDecision Assignment.
Proof. solve_decision. Defined.

(** [fields >> topic >> partition >> offset] on a line, and the check that nothing
    follows: [None] is the exception. *)
Definition parse_assignment (line : bytes) : option Assignment :=
  match extract (open_stream line) with
  | (Some topic, fields) =>
      match extract_int fields with
      | (Some partition, fields) =>
          match extract_u64 fields with
          | (Some offset, fields) =>
              if has_extra_tokens fields then None else Some (mkAssignment topic partition offset)
          | _ => None
          end
      | _ => None
      end
  | _ => None
  end.

(** The [while (std::getline(lines, line))] loop: each turn uses up a character. *)
Fixpoint parse_lines (fuel : nat) (lines : istringstream) : outcome (list Assignment) :=
  match fuel with
  | O => Crash
  | S fuel =>
      match next_line lines with
      | None => Ret []
      | Some (line, lines) =>
          if bool_decide (line = []) then parse_lines fuel lines else
          match parse_assignment line with
          | None => Throw runtime_error
          | Some a => outcome_map (cons a) (parse_lines fuel lines)
          end
      end
  end.

Definition parse_assignments (response : bytes) : outcome (list Assignment) :=
  parse_lines (S (length response)) (open_stream response).

(** The lines of a response: its newlines and one. *)
Definition count_messages (response : bytes) : Z :=
  if bool_decide (response = []) then 0%Z
  else (Z.of_nat (length (filter (fun c => c = newline) response)) + 1)%Z.

(** A program's own validation of the partition argument: an [int] from 0 to 2. *)
Definition partition_argument (partition_str : bytes) : option Z :=
  match stoi partition_str with
  | inl _ => None
  | inr (partition, pos) =>
      if negb (pos =? blen partition_str)%Z || (partition <? 0)%Z || (2 <? partition)%Z
      then None else Some partition
  end.

Section programs.
Context {P : Type} `{Peer P}.

Definition on_connection {A} : M P A -> M (Terminal P) A :=
  zoom connection (fun p t => mkTerminal (cout t) p).

(** [std::cout << s << std::endl]. *)
Definition print_line (s : bytes) : M (Terminal P) unit :=
  modify (fun t => mkTerminal (cout t ++ s ++ [newline]) (connection t)).

(** [{ BrokerClient client("127.0.0.1", 9092); client.connect(); body }] inside the [try]
    block of a [main], whose handler returns 1. *)
Definition with_client (body : M (Terminal P) Z) : M (Terminal P) Z := fun t =>
  match (_ ← on_connection (peer_connect 9092); body) t with
  | (Crash, t) => (Crash, t)
  | (r, t) =>
      (Ret match r with Ret code => code | _ => 1%Z end,
       mkTerminal (cout t) (peer_close (connection t)))
  end.

(** *** The producer *)

(** [main] on the arguments after the program's name: its exit code. *)
Definition producer (argv : list bytes) : M (Terminal P) Z :=
  match argv with
  | [topic; partition_str; message] =>
      if bool_decide (topic = []) then mret 1%Z else
      match partition_argument partition_str with
      | None => mret 1%Z
      | Some partition =>
          if bool_decide (message = []) then mret 1%Z else
          with_client
            (response ← on_connection (peer_request (produce_line topic partition message));
             _ ← print_line response;
             mret 0%Z)
      end
  | _ => mret 1%Z
  end.

(** *** The consumer *)

(** The [for] loop over the assignments, with [consumed_any]. *)
Fixpoint consume_assignments (group_id consumer_id : bytes) (assignments : list Assignment)
    (consumed_any : bool) : M (Terminal P) bool :=
  match assignments with
  | [] => mret consumed_any
  | a :: assignments =>
      fetch_response ← on_connection (peer_request
        (fetch_line (a_topic a) (a_partition a) (a_offset a)));
      if bool_decide (fetch_response = lit "ERROR")
      then _ ← print_line fetch_response; mret false else
      let message_count := count_messages fetch_response in
      if (message_count =? 0)%Z
      then consume_assignments group_id consumer_id assignments consumed_any else
      _ ← print_line fetch_response;
      let offset := u64 (a_offset a + message_count) in
      commit_response ← on_connection (peer_request
        (commit_line group_id consumer_id (a_topic a) (a_partition a) offset));
      if negb (bool_decide (commit_response = lit "OK"))
      then _ ← print_line commit_response; mret false
      else consume_assignments group_id consumer_id assignments true
  end.

(** The [while (true)] loop. *)
Fixpoint poll_loop (fuel : nat) (group_id consumer_id : bytes) : M (Terminal P) unit :=
  match fuel with
  | O => fun t => (Crash, t)
  | S fuel =>
      poll_response ← on_connection (peer_request (poll_line group_id consumer_id));
      if bool_decide (poll_response = lit "ERROR") then print_line poll_response else
      assignments ← (fun t => (parse_assignments poll_response, t));
      if bool_decide (assignments = []) then mret tt else
      consumed_any ← consume_assignments group_id consumer_id assignments false;
      if (consumed_any : bool) then poll_loop fuel group_id consumer_id else mret tt
  end.

Definition consumer (fuel : nat) (argv : list bytes) : M (Terminal P) Z :=
  match argv with
  | [topic; group_id; consumer_id] =>
      if bool_decide (topic = []) then mret 1%Z else
      if bool_decide (group_id = []) then mret 1%Z else
      if bool_decide (consumer_id = []) then mret 1%Z else
      with_client
        (join_response ← on_connection (peer_request (join_line group_id consumer_id topic));
         if negb (bool_decide (join_response = lit "OK"))
         then _ ← print_line join_response; mret 1%Z else
         _ ← poll_loop fuel group_id consumer_id;
         _ ← on_connection (peer_request (leave_line group_id consumer_id));
         mret 0%Z)
  | _ => mret 1%Z
  end.

End programs.

(** *** Specification *)

(** What [GROUP_POLL] means by a line: the partition and the offset to continue at. *)
Definition assignment_of (group : ConsumerGroup) (tp : TopicPartition) : Assignment :=
  mkAssignment (tp_topic tp) (tp_partition tp) (committed_or_zero group tp).

(** A partition whose line can be read back. *)
Definition pollable (group : ConsumerGroup) (tp : TopicPartition) : Prop :=
  is_word (tp_topic tp) /\ is_int (tp_partition tp) /\ is_u64 (committed_or_zero group tp).

(** ** Lemmas *)

Lemma u64_word n : is_u64 n -> is_word (to_string n).
Proof. unfold is_u64. pow2_consts. intros. apply to_string_word. lia. Qed.

Lemma word_no_newline w : is_word w -> no_newline w.
Proof.
  intros [_ Hw]. apply forallb_forall. intros c Hc.
  apply (proj1 (forallb_forall _ _) Hw) in Hc. unfold isspace in Hc. lia.
Qed.

Lemma no_newline_app a b : no_newline a -> no_newline b -> no_newline (a ++ b).
Proof. unfold no_newline. rewrite forallb_app. by intros -> ->. Qed.

Lemma assignment_line_no_newline group tp :
  pollable group tp -> assignment_line group tp <> [] /\ no_newline (assignment_line group tp).
Proof.
  intros (Ht & Hp & Ho). unfold assignment_line. split.
  { destruct Ht as [Hne _]. by destruct (tp_topic tp). }
  repeat apply no_newline_app; try done; apply word_no_newline; [done|by apply int_word|].
  by apply u64_word.
Qed.

Lemma parse_assignment_line group tp :
  pollable group tp -> parse_assignment (assignment_line group tp) = Some (assignment_of group tp).
Proof.
  intros (Ht & Hp & Ho). unfold parse_assignment, assignment_line.
  rewrite <-(app_nil_r (to_string (committed_or_zero group tp))). cbn [app].
  rewrite extract_first by done. unfold is_int, INT_MAX in Hp.
  rewrite extract_int_to_string by (done || lia). by rewrite extract_u64_to_string.
Qed.

(** Reading lines that were joined. *)
Lemma parse_lines_join (ls : list bytes) xs : forall fuel,
  Forall2 (fun l a => l <> [] /\ no_newline l /\ parse_assignment l = Some a) ls xs ->
  length (join_lines ls) < fuel ->
  parse_lines fuel (open_stream (join_lines ls)) = Ret xs.
Proof.
  revert xs. induction ls as [|l ls IH]; intros xs fuel Hls Hfuel;
    apply Forall2_cons_inv_l in Hls as (a & xs' & (Hne & Hnl & Ha) & Hls & ->) ||
    (apply Forall2_nil_inv_l in Hls as ->); (destruct fuel as [|fuel]; [simpl in Hfuel; lia|]).
  { done. }
  destruct ls as [|l' ls].
  - apply Forall2_nil_inv_l in Hls as ->. cbn [parse_lines join_lines].
    rewrite next_line_last by done. rewrite bool_decide_eq_false_2, Ha by done.
    cbn [join_lines] in Hfuel. destruct fuel; [|done].
    destruct l; [done|simpl in Hfuel; lia].
  - change (join_lines (l :: l' :: ls)) with (l ++ newline :: join_lines (l' :: ls)) in *.
    cbn [parse_lines]. rewrite next_line_more by done.
    rewrite bool_decide_eq_false_2, Ha by done.
    rewrite length_app in Hfuel. cbn [length] in Hfuel. by rewrite (IH xs') by (done || lia).
Qed.

(** A line takes at least a character from the stream. *)
Lemma next_line_shorter s line s' :
  next_line s = Some (line, s') -> length (rest s') < length (rest s).
Proof.
  unfold next_line, getline. destruct (good s); [|done]. cbn [negb orb].
  case_bool_decide as Hne; [done|].
  destruct (span _ (rest s)) as [a b] eqn:E. apply span_spec in E as (Heq & _ & _).
  assert (length (rest s) <> 0) by (by destruct (rest s)).
  apply (f_equal length) in Heq. rewrite length_app in Heq.
  destruct b as [|c b]; intros [= <- <-]; simpl in *; lia.
Qed.

Lemma parse_lines_total fuel : forall s, length (rest s) < fuel -> parse_lines fuel s <> Crash.
Proof.
  induction fuel as [|fuel IH]; intros s Hs; [lia|]. cbn [parse_lines].
  destruct (next_line s) as [[line s']|] eqn:E; [|done]. apply next_line_shorter in E.
  case_bool_decide; [apply IH; lia|]. destruct (parse_assignment line) as [a|]; [|done].
  specialize (IH s'). destruct (parse_lines fuel s'); [done|done|]. by destruct IH; [lia|].
Qed.

Lemma parse_assignment_lines group tps :
  Forall (pollable group) tps ->
  parse_assignments (join_lines (map (assignment_line group) tps)) =
    Ret (map (assignment_of group) tps).
Proof.
  intros Hok. apply parse_lines_join; [|simpl; lia].
  induction Hok as [|tp tps Htp Hok IH]; [done|]. simpl. constructor; [|done].
  destruct (assignment_line_no_newline group tp Htp). split_and!; [done|done|].
  by apply parse_assignment_line.
Qed.

Lemma filter_no_newline l : no_newline l -> filter (fun c => c = newline) l = [].
Proof.
  induction l as [|c l IH]; [done|]. intros [Hc Hl]%andb_true_iff.
  rewrite filter_cons, decide_False; [by apply IH|]. intros ->. done.
Qed.

Lemma count_join ms :
  Forall is_payload ms -> count_messages (join_lines ms) = Z.of_nat (length ms).
Proof.
  intros Hms. unfold count_messages. destruct ms as [|m ms]; [done|].
  assert (forall m ms, Forall is_payload (m :: ms) -> join_lines (m :: ms) <> [] /\
    length (filter (fun c => c = newline) (join_lines (m :: ms))) = length ms) as Hcount.
  { clear. intros m ms. revert m. induction ms as [|m' ms IH]; intros m Hms;
      apply Forall_cons in Hms as [[Hne Hm] Hms].
    - cbn [join_lines]. by rewrite filter_no_newline.
    - change (join_lines (m :: m' :: ms)) with (m ++ newline :: join_lines (m' :: ms)).
      rewrite filter_app, filter_no_newline, filter_cons, decide_True by done.
      destruct (IH m' Hms) as [_ Hlen]. split; [by destruct m|]. cbn [app length].
      by rewrite Hlen. }
  destruct (Hcount m ms Hms) as [Hne Hlen]. rewrite bool_decide_eq_false_2, Hlen by done.
  simpl. lia.
Qed.

Lemma partition_argument_parse s : partition_argument s = parse_partition s.
Proof.
  unfold partition_argument, parse_partition. destruct (stoi s) as [|[v pos]]; [done|].
  destruct (negb _); [done|]; simpl. destruct (v <? 0)%Z; [done|]; simpl.
  destruct (2 <? v)%Z eqn:E1, (3 <=? v)%Z eqn:E2; done || lia.
Qed.

(** ** Properties *)

(** Round trip: the consumer reads from the response of [GROUP_POLL] exactly the
    partitions the broker has assigned, in its order, with their committed offsets. *)
Theorem poll_roundtrip groups req group member :
  groups !! r_group_id req = Some group -> members group !! r_consumer_id req = Some member ->
  Forall (pollable group) (assignments member) ->
  parse_assignments (group_poll req groups) = Ret (map (assignment_of group) (assignments member)).
Proof.
  intros Hg Hm Hok. unfold group_poll. rewrite Hg, Hm. by apply parse_assignment_lines.
Qed.

(** Whatever a server answers to [GROUP_POLL], reading it ends, with assignments or
    with the exception of a malformed response. *)
Theorem parse_assignments_total response :
  (exists xs, parse_assignments response = Ret xs) \/
  exists e, parse_assignments response = Throw e.
Proof.
  assert (parse_assignments response <> Crash) as Hc by (apply parse_lines_total; simpl; lia).
  destruct (parse_assignments response); eauto. done.
Qed.
