(* ===== verification/Consumption.v ===== *)
(** * The client programs against the broker

    [Service] is a broker at the other end of a client's connection: it serves the requests
    as a server's connection does, keeps the memberships that the connection owns, closes
    the connection when a server would, and releases the memberships when it ends.  The
    theorems run the programs of [Programs] over it. *)

From S2P Require Import Prelude Text Posix Framing Protocol Metrics Topics Groups Client Broker Servers Programs.

(** ** Definitions *)

(** The broker's process, and the memberships of the connection while it is open. *)
Record Service (Q : Type) := mkService {
  v_world : World Q;
  v_alive : bool;
  v_joined : option memberships
}.
Arguments mkService {Q} v_world v_alive v_joined.
Arguments v_world {Q} s.
Arguments v_alive {Q} s.
Arguments v_joined {Q} s.

Section service.
Context {Q : Type} `{Peer Q} {order : IterOrder} (clock : World Q -> Request -> Z).

Definition service_connect (port : Z) : M (Service Q) unit := fun s =>
  if v_alive s then (Ret tt, mkService (v_world s) true (Some [])) else (Throw runtime_error, s).

(** One request over the connection.  The server ends a connection whose response does not
    fit a frame or whose handler throws. *)
Definition service_request (m : bytes) : M (Service Q) bytes := fun s =>
  if (kMaxPayloadSize <? blen m)%Z then (Throw runtime_error, s) else
  match v_joined s with
  | None => (Throw runtime_error, s)
  | Some joined =>
      match serve clock m (v_world s) with
      | (Ret (req, response), w) =>
          let joined := track_membership req response joined in
          if (kMaxPayloadSize <? blen response)%Z
          then (Throw runtime_error, mkService (release joined w) true None)
          else (Ret response, mkService w true (Some joined))
      | (Throw _, w) => (Throw runtime_error, mkService (release joined w) true None)
      | (Crash, w) => (Throw runtime_error, mkService w false None)
      end
  end.

Definition service_close (s : Service Q) : Service Q :=
  match v_joined s with
  | None => s
  | Some joined => mkService (release joined (v_world s)) (v_alive s) None
  end.

Lemma service_request_oversize m s : ~ frame_ok m ->
  exists e s', service_request m s = (Throw e, s').
Proof.
  intros Hm. unfold service_request, frame_ok in *.
  rewrite (proj2 (Z.ltb_lt _ _)) by lia. eauto.
Qed.

Definition service_peer : Peer (Service Q) := {|
  peer_connect := service_connect;
  peer_request := service_request;
  peer_close := service_close;
  peer_request_oversize := service_request_oversize
|}.

(** Requests in a row on an open connection. *)
Fixpoint converse (ms : list bytes) : M (Service Q) (list bytes) :=
  match ms with
  | [] => mret []
  | m :: ms => r ← service_request m; rs ← converse ms; mret (r :: rs)
  end.

End service.

(** *** Specification *)

(** The broker with other groups and metrics: what the requests of a consumer change. *)
Definition with_state {Q} (w : World Q) (groups : Groups) (mt : Metrics) : World Q :=
  on_broker (fun b => set_metrics (fun _ => mt) (set_groups groups b)) w.

Definition settled {Q} (w : World Q) (groups : Groups) (w' : World Q) : Prop :=
  exists mt, w' = with_state w groups mt.

Section spec.
Context {Q : Type} (w : World Q).

Implicit Types offsets : gmap TopicPartition Z.

Definition offset_of offsets (tp : TopicPartition) : Z := default 0%Z (offsets !! tp).

(** The messages of a partition behind its committed offset. *)
Definition unread offsets (tp : TopicPartition) : list bytes :=
  drop (Z.to_nat (offset_of offsets tp)) (view w tp).

(** What the consumer prints for a partition. *)
Definition printed offsets (tp : TopicPartition) : bytes :=
  let ms := unread offsets tp in
  if bool_decide (ms = []) then [] else join_lines ms ++ [newline].

(** The offsets once the consumer has read the partitions [tps]. *)
Definition read_up offsets (tps : list TopicPartition) (to : gmap TopicPartition Z)
    : gmap TopicPartition Z :=
  fold_left (fun to tp => if bool_decide (unread offsets tp = []) then to
                          else <[tp := size (view w tp)]> to) tps to.

(** A partition whose unread messages a FETCH can deliver and a COMMIT can acknowledge. *)
Definition deliverable offsets (tp : TopicPartition) : Prop :=
  Forall is_payload (unread offsets tp) /\ join_lines (unread offsets tp) <> lit "ERROR" /\
  frame_ok (join_lines (unread offsets tp)) /\ is_offset (offset_of offsets tp) /\
  is_offset (size (view w tp)).

End spec.

(** ** Lemmas *)

(** *** A service and a server's connection *)

Section conversation.
Context {Q : Type} `{Peer Q} {order : IterOrder} (clock : World Q -> Request -> Z).

Lemma converse_serves ms : forall w joined rs s' out,
  converse clock ms (mkService w true (Some joined)) = (Ret rs, s') ->
  Forall frame_ok ms /\ exists w' joined', s' = mkService w' true (Some joined') /\
    serve_all clock ms (mkServed w joined out) =
      (Ret true, mkServed w' joined' (out ++ concat (map frame rs))).
Proof.
  induction ms as [|m ms IH]; intros w joined rs s' out Hrun.
  { injection Hrun as <- <-. split; [done|]. exists w, joined. by rewrite app_nil_r. }
  cbn [converse] in Hrun. apply bind_inv in Hrun as [(r & s1 & Hreq & Hrun)|(o & _ & _ & Ho)];
    [|by destruct (Ho rs)].
  apply bind_inv in Hrun as [(rs' & s2 & Hconv & Hrun)|(o & _ & _ & Ho)]; [|by destruct (Ho rs)].
  injection Hrun as <- <-. unfold service_request in Hreq. cbn [v_joined v_world] in Hreq.
  destruct (_ <? blen m)%Z eqn:Hsize; [done|]. apply Z.ltb_ge in Hsize.
  destruct (serve clock m w) as [[[req response]|e|] w1] eqn:Hs; [|done..].
  destruct (_ <? blen response)%Z eqn:Hresp; [done|]. injection Hreq as <- <-.
  destruct (IH _ _ _ _ (out ++ frame response) Hconv) as (Hms & w' & joined' & -> & Hall).
  split; [by apply Forall_cons|]. exists w', joined'. split; [done|]. cbn [serve_all].
  rewrite (bind_ret _ _ _ true
    (mkServed w1 (track_membership req response joined) (out ++ frame response))).
  - rewrite Hall. cbn [map concat]. by rewrite app_assoc.
  - unfold serve_one. cbn [o_world o_joined o_bytes]. by rewrite Hs, Hresp.
Qed.

End conversation.

(** *** Requests that leave the topics alone *)

Section requests.
Context {Q : Type} `{Peer Q} {order : IterOrder} (clock : World Q -> Request -> Z).

Implicit Types w : World Q.

Abbreviation term := (Terminal (Service Q)).

(** The program's side and the broker's, while the connection is open. *)
Definition session_state (out : bytes) w (joined : memberships) : term :=
  mkTerminal out (mkService w true (Some joined)).

Lemma with_state_topics w groups mt : topics_ (broker (with_state w groups mt)) = topics_ (broker w).
Proof. done. Qed.

Lemma ask {A} line req response out w w' joined (k : bytes -> M term A) :
  frame_ok line -> serve clock line w = (Ret (req, response), w') -> frame_ok response ->
  (r ← on_connection (@peer_request _ (service_peer clock) line); k r)
      (session_state out w joined) =
    k response (session_state out w' (track_membership req response joined)).
Proof.
  intros Hline Hs Hresp. apply bind_ret. unfold on_connection, zoom, session_state.
  cbn [peer_request service_peer connection cout]. unfold service_request, frame_ok in *.
  cbn [v_joined v_world].
  rewrite (proj2 (Z.ltb_ge _ (blen line))) by done. rewrite Hs.
  by rewrite (proj2 (Z.ltb_ge _ (blen response))) by done.
Qed.

(** A request line, what the broker answers and the groups afterwards. *)
Definition answers w line req groups response groups' : Prop :=
  forall w1, settled w groups w1 ->
    exists w2, serve clock line w1 = (Ret (req, response), w2) /\ settled w groups' w2.

Lemma serve_answers w line req groups response good groups' :
  parse_request line = req ->
  (forall mt, dispatch req (with_state w groups mt) =
     (Ret (response, good), with_state w groups' mt)) ->
  answers w line req groups response groups'.
Proof.
  intros Hreq Hd w1 [mt ->]. unfold serve. rewrite Hreq.
  rewrite (bind_ret _ _ _ (with_state w groups mt) (with_state w groups mt)) by done.
  unfold handle_request. eexists. split; [|eexists].
  - rewrite (bind_ret _ _ _ response (with_state w groups' (record_request (r_type req) good
      (request_bytes req) (clock (with_state w groups mt) req) mt))); [reflexivity|].
    rewrite (bind_ret _ _ _ _ _ (Hd mt)). reflexivity.
  - reflexivity.
Qed.

Lemma track_other req response joined :
  r_type req <> JOIN -> r_type req <> LEAVE -> track_membership req response joined = joined.
Proof.
  intros Hj Hl. unfold track_membership.
  by rewrite !bool_decide_eq_false_2 by (intros [_ ?]; congruence).
Qed.

Lemma ask_answers w line req groups response groups' w1 :
  answers w line req groups response groups' -> settled w groups w1 ->
  frame_ok line -> frame_ok response ->
  exists w2, settled w groups' w2 /\ forall A out joined (k : bytes -> M term A),
    (r ← on_connection (@peer_request _ (service_peer clock) line); k r)
        (session_state out w1 joined) =
      k response (session_state out w2 (track_membership req response joined)).
Proof.
  intros Ha Hw Hline Hresp. destruct (Ha w1 Hw) as (w2 & Hs & Hw2). exists w2.
  split; [done|]. intros A out joined k. by apply ask.
Qed.

Lemma fetch_answers w t p off groups :
  is_word t -> (0 <= p < 3)%Z -> is_offset off -> topics_ok (topics_ (broker w)) ->
  is_Some (topics_ (broker w) !! t) ->
  answers w (fetch_line t p off) (mkRequest FETCH [] [] t p off []) groups
    (join_lines (drop (Z.to_nat off) (view w (mkTP t p)))) groups.
Proof.
  intros Ht Hp Hoff Hok [topic Htopic].
  apply serve_answers with (good := true).
  { apply (parse_request_line (mkRequest FETCH [] [] t p off [])); [by apply wf_fetch|done]. }
  intros mt. unfold dispatch, gets. cbn [r_type]. f_equal. f_equal.
  unfold handle_fetch. rewrite with_state_topics. cbn [r_topic r_partition r_offset].
  rewrite Htopic. destruct (Hok _ _ Htopic) as (_ & Hlen & _).
  assert (bad_partition topic p = false) as -> by (apply bad_partition_false; lia).
  unfold view, log_view. cbn [tp_topic tp_partition]. rewrite Htopic.
  rewrite (proj2 (Z.ltb_ge p 0)) by lia.
  destruct (size (messages_of topic p) <=? off)%Z eqn:E; [|done].
  unfold size, is_offset in *. by rewrite drop_ge by lia.
Qed.

End requests.

(** *** A PRODUCE *)

Section produce.
Context {Q : Type} `{Peer Q} {order : IterOrder}.

Definition two_replies {A} (m : M A reply) : Prop :=
  forall s r s', m s = (Ret r, s') -> r = ok \/ r = error.

Lemma two_replies_bind {S A} (m : M S A) (k : A -> M S reply) :
  (forall a, two_replies (k a)) -> two_replies (m ≫= k).
Proof.
  intros Hk s r s' Hrun. apply bind_inv in Hrun as [(a & s1 & _ & Hrun)|(o & _ & _ & Ho)].
  - by apply Hk in Hrun.
  - by destruct (Ho r).
Qed.

Lemma two_replies_ret {S} r : r = ok \/ r = error -> two_replies (mret r : M S reply).
Proof. intros Hr s r' s' [= <- <-]. done. Qed.

Lemma produce_replies req : two_replies (handle_produce req : M (World Q) reply).
Proof.
  do 2 (apply two_replies_bind; intros ?). apply two_replies_bind. intros topic.
  destruct (bad_partition topic _); [apply two_replies_ret; by right|].
  do 3 (apply two_replies_bind; intros ?).
  destruct (replicates _); [apply two_replies_bind; intros ?|];
    apply two_replies_ret; [|by left]. case_bool_decide; [by left|by right].
Qed.

Lemma produce_response elapsed req (w : World Q) response w' :
  r_type req = PRODUCE -> handle_request elapsed req w = (Ret response, w') ->
  response = lit "OK" \/ response = lit "ERROR".
Proof.
  intros Hty Hrun. unfold handle_request, dispatch in Hrun. rewrite Hty in Hrun.
  apply bind_inv in Hrun as [(r & w1 & Hd & Hrun)|(o & _ & _ & Ho)]; [|by destruct (Ho response)].
  injection Hrun as <- _. destruct (produce_replies req w r w1 Hd) as [-> | ->]; [by left|by right].
Qed.

End produce.

(** *** The lengths of request lines *)

Lemma to_string_short n : (0 <= n)%Z -> (blen (to_string n) <= 20)%Z.
Proof.
  intros Hn. unfold to_string. rewrite (proj2 (Z.ltb_ge n 0)) by done.
  assert (forall fuel n acc, length (dec_digits fuel n acc) <= fuel + length acc) as Hlen.
  { clear. induction fuel as [|fuel IH]; intros n acc; [simpl; lia|]. cbn [dec_digits].
    case_match; [simpl; lia|]. specialize (IH (n / 10)%Z (digit (n mod 10) :: acc)). cbn [length] in *. lia. }
  specialize (Hlen 20 n []). unfold blen. cbn [length] in Hlen. lia.
Qed.

Lemma blen_join_sp ws : (blen (join_sp ws) <= foldr (fun w n => blen w + 1 + n) 0 ws)%Z.
Proof.
  induction ws as [|v [|v' ws] IH]; [done|unfold blen in *; simpl in *; lia|].
  change (join_sp (v :: v' :: ws)) with (v ++ [space] ++ join_sp (v' :: ws)).
  rewrite !blen_app. change (blen [space]) with 1%Z. cbn [foldr] in *. lia.
Qed.

Lemma blen_join_lines ls : (blen (join_lines ls) <= foldr (fun l n => blen l + 1 + n) 0 ls)%Z.
Proof.
  induction ls as [|l [|l' ls] IH]; [done|unfold blen in *; simpl in *; lia|].
  change (join_lines (l :: l' :: ls)) with (l ++ [newline] ++ join_lines (l' :: ls)).
  rewrite !blen_app. change (blen [newline]) with 1%Z. cbn [foldr] in *. lia.
Qed.

(** Lines of words whose lengths are bounded fit a frame. *)
Lemma line_fits ws : (foldr (fun w n => blen w + 1 + n) 0 ws <= kMaxPayloadSize)%Z ->
  frame_ok (join_sp ws).
Proof. intros Hws. pose proof (blen_join_sp ws). unfold frame_ok. lia. Qed.

(** *** The consumer's group *)

Section group.
Context {Q : Type} `{Peer Q} {order : IterOrder} (clock : World Q -> Request -> Z).
Context (w : World Q) (groups0 : Groups) (gid cid topic : bytes).
Hypothesis Hgid : is_word gid.
Hypothesis Hcid : is_word cid.
Hypothesis Htopic : is_word topic.

(** The group before the consumer joins it, and its members with the consumer. *)
Definition group_before : ConsumerGroup := default (mkGroup gid ∅ ∅) (groups0 !! gid).

Definition members_with : gmap bytes GroupMember :=
  <[cid := mkMember cid topic []]> (members group_before).

Hypothesis Hgroups : groups_ok groups0.
Hypothesis Hnew : members group_before !! cid = None.

(** The group while the consumer is a member, at some committed offsets, and after it. *)
Definition group_at (offsets : gmap TopicPartition Z) : ConsumerGroup :=
  mkGroup (g_group_id group_before) (balanced members_with) offsets.

Definition groups_at (offsets : gmap TopicPartition Z) : Groups :=
  <[gid := group_at offsets]> groups0.

Definition groups_after (offsets : gmap TopicPartition Z) : Groups :=
  match groups0 !! gid with
  | None => groups0
  | Some g => <[gid := mkGroup (g_group_id g) (members g) offsets]> groups0
  end.

(** The partitions the consumer gets. *)
Definition assigned : list TopicPartition := fair_share members_with cid topic.

Lemma with_groups_run f good groups mt response groups' :
  f (broker (with_state w groups mt)) = (response, groups') ->
  with_groups f good (with_state w groups mt) =
    (Ret (response, good response), with_state w groups' mt).
Proof. intros Hf. unfold with_groups, gets, mbind, M_bind. by rewrite Hf. Qed.

Lemma join_answers :
  answers clock w (join_line gid cid topic) (mkRequest JOIN gid cid topic 0 0 []) groups0
    (lit "OK") (groups_at (committed_offsets group_before)).
Proof using Hcid Hgid Hnew Htopic.
  apply serve_answers with (good := true).
  { apply (parse_request_line (mkRequest JOIN gid cid topic 0 0 [])); [by apply wf_join|done]. }
  intros mt. unfold dispatch. cbn [r_type]. apply with_groups_run. unfold join_group.
  cbn [r_group_id r_consumer_id r_topic consumer_groups_ with_state on_broker broker set_groups set_metrics].
  fold group_before. rewrite Hnew. fold members_with. by rewrite rebalance_group_balanced.
Qed.

Lemma member_at offsets :
  members (group_at offsets) !! cid = Some (mkMember cid topic assigned).
Proof.
  simpl. unfold balanced, assigned. rewrite map_lookup_imap.
  by assert (members_with !! cid = Some (mkMember cid topic [])) as -> by apply lookup_insert_eq.
Qed.

Lemma poll_answers offsets :
  answers clock w (poll_line gid cid) (mkRequest GROUP_POLL gid cid [] 0 0 [])
    (groups_at offsets) (join_lines (map (assignment_line (group_at offsets)) assigned))
    (groups_at offsets).
Proof using Hcid Hgid.
  apply serve_answers with
    (good := not_ERROR (join_lines (map (assignment_line (group_at offsets)) assigned))).
  { apply (parse_request_line (mkRequest GROUP_POLL gid cid [] 0 0 [])); [by apply wf_poll|done]. }
  intros mt. unfold dispatch. cbn [r_type]. apply with_groups_run. f_equal. unfold group_poll.
  cbn [r_group_id r_consumer_id consumer_groups_ with_state on_broker broker set_groups set_metrics].
  unfold groups_at. rewrite lookup_insert_eq. by rewrite member_at.
Qed.

Lemma commit_answers offsets t p off :
  is_word t -> (0 <= p < 3)%Z -> is_offset off -> topics_ok (topics_ (broker w)) ->
  is_Some (topics_ (broker w) !! t) ->
  answers clock w (commit_line gid cid t p off) (mkRequest COMMIT gid cid t p off [])
    (groups_at offsets) (lit "OK") (groups_at (<[mkTP t p := off]> offsets)).
Proof using Hcid Hgid.
  intros Ht Hp Hoff Hok [tc Htc]. apply serve_answers with (good := true).
  { apply (parse_request_line (mkRequest COMMIT gid cid t p off [])); [by apply wf_commit|done]. }
  intros mt. unfold dispatch. cbn [r_type]. apply with_groups_run. unfold commit_offset.
  rewrite with_state_topics. cbn [r_group_id r_consumer_id r_topic r_partition r_offset
    consumer_groups_ with_state on_broker broker set_groups set_metrics].
  unfold groups_at. rewrite lookup_insert_eq. rewrite member_at, Htc.
  destruct (Hok _ _ Htc) as (_ & Hlen & _).
  assert (bad_partition tc p = false) as -> by (apply bad_partition_false; lia).
  by rewrite insert_insert_eq.
Qed.

Lemma leave_answers offsets :
  answers clock w (leave_line gid cid) (mkRequest LEAVE gid cid [] 0 0 [])
    (groups_at offsets) (lit "OK") (groups_after offsets).
Proof using Hcid Hgid Hgroups Hnew.
  apply serve_answers with (good := true).
  { apply (parse_request_line (mkRequest LEAVE gid cid [] 0 0 [])); [by apply wf_leave|done]. }
  intros mt. unfold dispatch. cbn [r_type]. apply with_groups_run. unfold leave_group.
  cbn [r_group_id r_consumer_id consumer_groups_ with_state on_broker broker set_groups set_metrics].
  unfold groups_at at 1. rewrite lookup_insert_eq. rewrite member_at. f_equal.
  unfold erase_member, groups_at, groups_after. cbn [members group_at set_members g_group_id committed_offsets].
  unfold members_with, group_before in *.
  destruct (groups0 !! gid) as [g|] eqn:Hg; simpl in Hnew |- *.
  - destruct (Hgroups _ _ Hg) as (_ & Hne & _ & Hb & _).
    pose proof (balanced_delete_insert _ _ (mkMember cid topic []) Hb Hnew) as Hdel.
    rewrite bool_decide_eq_false_2; cycle 1.
    { rewrite <-balanced_empty, Hdel. done. }
    rewrite rebalance_group_balanced. unfold set_members, group_at, group_before. rewrite Hg. simpl.
    by rewrite Hdel, insert_insert_eq.
  - rewrite insert_empty, delete_balanced_single, bool_decide_eq_true_2 by done.
    by rewrite delete_insert_id.
Qed.

(** *** Reading the assigned partitions *)

Hypothesis Htopics : topics_ok (topics_ (broker w)).
Hypothesis Hexists : is_Some (topics_ (broker w) !! topic).
Hypothesis Hshort : (blen gid + blen cid + blen topic <= 20000)%Z.

Definition ours (tp : TopicPartition) : Prop :=
  tp_topic tp = topic /\ (0 <= tp_partition tp < 3)%Z.

Lemma assigned_ours : Forall ours assigned.
Proof using.
  unfold assigned, fair_share. apply Forall_map, Forall_forall. intros p Hp.
  apply list_elem_of_filter in Hp as [_ Hp]. apply elem_of_seq in Hp.
  unfold ours, kDefaultPartitionCount in *. simpl. split; [done|lia].
Qed.

Lemma length_assigned : length assigned <= 3.
Proof using.
  unfold assigned, fair_share. rewrite length_map.
  etrans; [apply length_filter|]. by rewrite length_seq.
Qed.

Lemma lines_fit tp off : ours tp -> (0 <= off)%Z ->
  frame_ok (fetch_line topic (tp_partition tp) off) /\
  frame_ok (commit_line gid cid topic (tp_partition tp) off) /\
  frame_ok (join_line gid cid topic) /\ frame_ok (poll_line gid cid) /\
  frame_ok (leave_line gid cid).
Proof using Hshort.
  intros [_ Hp] Hoff. pose proof (to_string_short (tp_partition tp) ltac:(lia)).
  pose proof (to_string_short off Hoff).
  pose proof (blen_nonneg gid). pose proof (blen_nonneg cid). pose proof (blen_nonneg topic).
  split_and!; apply line_fits; cbn [foldr];
    match goal with |- context [blen (lit ?s)] =>
      let n := eval vm_compute in (blen (lit s)) in change (blen (lit s)) with n end;
    unfold kMaxPayloadSize; lia.
Qed.

Definition anything_unread offsets (tps : list TopicPartition) : bool :=
  existsb (fun tp => negb (bool_decide (unread w offsets tp = []))) tps.

Abbreviation consume := (@consume_assignments _ (service_peer clock) gid cid).

Lemma unread_end offsets tp :
  is_offset (offset_of offsets tp) -> is_offset (size (view w tp)) -> unread w offsets tp <> [] ->
  u64 (offset_of offsets tp + Z.of_nat (length (unread w offsets tp))) = size (view w tp).
Proof using.
  intros Ho Hs Hne. unfold unread, size, is_offset in *. rewrite length_drop.
  assert (Z.to_nat (offset_of offsets tp) < length (view w tp)).
  { apply Nat.lt_nge. intros Hle. by rewrite drop_ge in Hne. }
  rewrite u64_small; unfold is_u64; pow2_consts; lia.
Qed.

(** The loop reads every partition up to its end. *)
Lemma consume_run offsets0 tps : forall offsets consumed out w1 joined,
  Forall (fun tp => ours tp /\ deliverable w offsets0 tp) tps -> settled w (groups_at offsets) w1 ->
  exists w2, settled w (groups_at (read_up w offsets0 tps offsets)) w2 /\
    consume (map (assignment_of (group_at offsets0)) tps) consumed (session_state out w1 joined) =
      (Ret (consumed || anything_unread offsets0 tps),
       session_state (out ++ concat (map (printed w offsets0) tps)) w2 joined).
Proof using Hcid Hexists Hgid Hshort Htopic Htopics.
  induction tps as [|tp tps IH]; intros offsets consumed out w1 joined Htps Hw1.
  { exists w1. split; [done|]. cbn. by rewrite orb_false_r, app_nil_r. }
  apply Forall_cons in Htps as [[Hours (Hms & Herr & Hfit & Ho & Hsize)] Htps].
  pose proof Hours as [Ht Hp].
  destruct (lines_fit tp (offset_of offsets0 tp) Hours ltac:(by destruct Ho)) as (Hl1 & _).
  destruct (lines_fit tp (size (view w tp)) Hours ltac:(by destruct Hsize)) as (_ & Hl2 & _).
  destruct (ask_answers clock w _ _ _ _ _ w1 (fetch_answers clock w topic (tp_partition tp)
    (offset_of offsets0 tp) (groups_at offsets) Htopic Hp Ho Htopics Hexists) Hw1 Hl1)
    as (w2 & Hw2 & Hask).
  { rewrite <-Ht. by destruct tp. }
  cbn [map]. unfold assignment_of at 1. cbn [consume_assignments a_topic a_partition a_offset].
  change (committed_or_zero (group_at offsets0) tp) with (offset_of offsets0 tp).
  rewrite Ht, Hask, track_other by done.
  assert (drop (Z.to_nat (offset_of offsets0 tp)) (view w (mkTP topic (tp_partition tp))) =
    unread w offsets0 tp) as -> by (rewrite <-Ht; by destruct tp).
  rewrite bool_decide_eq_false_2, count_join by done. cbv zeta.
  change (read_up w offsets0 (tp :: tps) offsets) with (read_up w offsets0 tps
    (if bool_decide (unread w offsets0 tp = []) then offsets
     else <[tp := size (view w tp)]> offsets)).
  unfold anything_unread. cbn [existsb concat map]. unfold printed at 1.
  case_bool_decide as Hnil.
  - rewrite Hnil. cbn [length Z.of_nat Z.eqb negb orb app]. by apply IH.
  - rewrite (proj2 (Z.eqb_neq _ 0)) by (destruct (unread w offsets0 tp); simpl; [done|lia]).
    rewrite unread_end by done.
    destruct (ask_answers clock w _ _ _ _ _ w2 (commit_answers offsets topic
      (tp_partition tp) _ Htopic Hp Hsize Htopics Hexists) Hw2 Hl2)
      as (w3 & Hw3 & Hask2); [closed|].
    replace (mkTP topic (tp_partition tp)) with tp in Hw3 by (rewrite <-Ht; by destruct tp).
    destruct (IH _ true (out ++ join_lines (unread w offsets0 tp) ++ [newline]) w3 joined Htps Hw3)
      as (w4 & Hw4 & Hrun).
    exists w4. split; [done|]. rewrite (bind_ret _ _ _ tt (session_state
      (out ++ join_lines (unread w offsets0 tp) ++ [newline]) w2 joined)) by done.
    rewrite Hask2, track_other by done. rewrite bool_decide_eq_true_2 by done. cbn [negb].
    rewrite Hrun. cbn [orb]. by rewrite orb_true_r, <-!app_assoc.
Qed.

(** *** Polling *)

Abbreviation poll := (@poll_loop _ (service_peer clock)).

Definition readable offsets : Prop := Forall (fun tp => deliverable w offsets tp) assigned.

Lemma read_up_some offsets0 tps tp : forall offsets,
  read_up w offsets0 tps offsets !! tp =
    if decide (tp ∈ tps /\ unread w offsets0 tp <> []) then Some (size (view w tp))
    else offsets !! tp.
Proof using.
  clear. induction tps as [|tp' tps IH]; intros offsets.
  { cbn [read_up fold_left]. rewrite decide_False; [done|]. by intros [?%elem_of_nil _]. }
  change (read_up w offsets0 (tp' :: tps) offsets) with (read_up w offsets0 tps
    (if bool_decide (unread w offsets0 tp' = []) then offsets
     else <[tp' := size (view w tp')]> offsets)).
  rewrite IH. destruct (decide (tp ∈ tps /\ _)) as [[Hin Hne]|Hno].
  { rewrite decide_True; [done|]. split; [|done]. by apply elem_of_cons; right. }
  destruct (decide (tp = tp')) as [->|Hne].
  - case_bool_decide as Hnil.
    + by rewrite decide_False by (by intros [_ ?]).
    + rewrite decide_True by (split; [by apply elem_of_cons; left|done]).
      apply lookup_insert_eq.
  - rewrite decide_False by (intros [[->|?]%elem_of_cons ?]; [done|by apply Hno]).
    case_bool_decide; [done|]. by rewrite lookup_insert_ne.
Qed.

Lemma read_up_lookup offsets0 tps tp offsets :
  offset_of (read_up w offsets0 tps offsets) tp =
    if decide (tp ∈ tps /\ unread w offsets0 tp <> []) then size (view w tp)
    else offset_of offsets tp.
Proof using. clear. unfold offset_of. rewrite read_up_some. by case_decide. Qed.

Lemma read_up_unread offsets tp :
  tp ∈ assigned -> unread w (read_up w offsets assigned offsets) tp = [].
Proof using.
  intros Hin. unfold unread at 1. rewrite read_up_lookup. case_decide as Hd.
  - apply drop_ge. unfold size. lia.
  - unfold unread in Hd. destruct (drop _ _) eqn:E; [done|]. exfalso. by apply Hd.
Qed.

Lemma readable_again offsets :
  readable offsets -> readable (read_up w offsets assigned offsets).
Proof using.
  unfold readable. rewrite !Forall_forall. intros Hr tp Hin.
  destruct (Hr tp Hin) as (_ & _ & _ & Ho & Hs). unfold deliverable.
  rewrite read_up_unread by done. split_and!; [by apply Forall_nil|done|closed| |done].
  rewrite read_up_lookup. by case_decide.
Qed.

Lemma all_read offsets tps :
  (forall tp, tp ∈ tps -> unread w offsets tp = []) ->
  anything_unread offsets tps = false /\ concat (map (printed w offsets) tps) = [] /\
  forall to, read_up w offsets tps to = to.
Proof using.
  clear. induction tps as [|tp tps IH]; intros Hall; [done|].
  assert (unread w offsets tp = []) as Hnil by (by apply Hall, elem_of_cons; left).
  destruct IH as (H1 & H2 & H3). { intros tp' Hin. by apply Hall, elem_of_cons; right. }
  unfold anything_unread, read_up in *. cbn [existsb map concat fold_left].
  unfold printed at 1. rewrite Hnil. cbn. by rewrite H2.
Qed.

Lemma pollable_assigned offsets : readable offsets -> Forall (pollable (group_at offsets)) assigned.
Proof using Htopic.
  intros Hr. apply Forall_forall. intros tp Hin.
  destruct (proj1 (Forall_forall _ _) Hr tp Hin) as (_ & _ & _ & Ho & _).
  destruct (proj1 (Forall_forall _ _) assigned_ours tp Hin) as [Ht Hp].
  unfold pollable. rewrite Ht. split_and!; [done|unfold is_int, INT_MAX; lia|].
  unfold is_offset, is_u64 in *. change (committed_or_zero (group_at offsets) tp)
    with (offset_of offsets tp). pow2_consts. lia.
Qed.

Lemma poll_fits offsets :
  readable offsets ->
  let response := join_lines (map (assignment_line (group_at offsets)) assigned) in
  frame_ok response /\ response <> lit "ERROR".
Proof using Hshort Htopic.
  intros Hr response. pose proof (pollable_assigned offsets Hr) as Hpoll. split.
  - unfold response, frame_ok, kMaxPayloadSize. etrans; [apply blen_join_lines|].
    assert (forall tps, Forall ours tps -> Forall (pollable (group_at offsets)) tps ->
      (foldr (fun l n => blen l + 1 + n) 0 (map (assignment_line (group_at offsets)) tps) <=
       Z.of_nat (length tps) * 20043)%Z) as Hsum.
    { induction tps as [|tp tps IH]; intros Hours Hps; [done|].
      apply Forall_cons in Hours as [[Ht Hp] Hours]. apply Forall_cons in Hps as [(_ & _ & Hoff) Hps].
      specialize (IH Hours Hps). cbn [map foldr length]. unfold assignment_line at 1.
      rewrite !blen_app, Ht. change (blen [space]) with 1%Z. unfold is_u64 in Hoff.
      pose proof (to_string_short (tp_partition tp) ltac:(lia)).
      pose proof (to_string_short (committed_or_zero (group_at offsets) tp) ltac:(lia)).
      pose proof (blen_nonneg gid). pose proof (blen_nonneg cid). lia. }
    specialize (Hsum assigned assigned_ours Hpoll). pose proof length_assigned. lia.
  - intros Heq. pose proof (parse_assignment_lines _ _ Hpoll) as Hparse.
    fold response in Hparse. rewrite Heq in Hparse.
    assert (parse_assignments (lit "ERROR") = Throw runtime_error) as Hthrow
      by (vm_compute; reflexivity).
    rewrite Hthrow in Hparse. discriminate.
Qed.

(** One turn of the loop. *)
Lemma poll_once n offsets out w1 joined :
  readable offsets -> settled w (groups_at offsets) w1 ->
  exists w2, settled w (groups_at (read_up w offsets assigned offsets)) w2 /\
    let t2 := session_state (out ++ concat (map (printed w offsets) assigned)) w2 joined in
    poll (S n) gid cid (session_state out w1 joined) =
      if anything_unread offsets assigned then poll n gid cid t2 else (Ret tt, t2).
Proof using Hcid Hexists Hgid Hshort Htopic Htopics.
  intros Hr Hw1. destruct (poll_fits offsets Hr) as [Hfit Herr].
  destruct (lines_fit (mkTP topic 0) 0 ltac:(by split) ltac:(done)) as (_ & _ & _ & Hline & _).
  destruct (ask_answers clock w _ _ _ _ _ w1 (poll_answers offsets) Hw1 Hline Hfit)
    as (w2 & Hw2 & Hask).
  set (xs := map (assignment_of (group_at offsets)) assigned).
  assert (poll (S n) gid cid (session_state out w1 joined) =
    (if bool_decide (xs = []) then mret tt
     else consumed ← consume xs false; if (consumed : bool) then poll n gid cid else mret tt)
    (session_state out w2 joined)) as Hstart.
  { cbn [poll_loop]. rewrite Hask, track_other by done. rewrite bool_decide_eq_false_2 by done.
    rewrite (bind_ret _ _ _ xs (session_state out w2 joined)); [done|].
    unfold xs. by rewrite (parse_assignment_lines _ _ (pollable_assigned offsets Hr)). }
  case_bool_decide as Hnil.
  { apply map_eq_nil in Hnil. exists w2. rewrite Hstart, Hnil. split; [done|]. cbn.
    by rewrite app_nil_r. }
  destruct (consume_run offsets assigned offsets false out w2 joined) as (w3 & Hw3 & Hrun);
    [|done|].
  { apply Forall_and. split; [apply assigned_ours|done]. }
  exists w3. split; [done|]. rewrite Hstart, (bind_ret _ _ _ _ _ Hrun). cbn [orb].
  by destruct (anything_unread offsets assigned).
Qed.

(** The loop ends with its second turn at the latest. *)
Lemma poll_run n offsets out w1 joined :
  readable offsets -> settled w (groups_at offsets) w1 ->
  exists w2, settled w (groups_at (read_up w offsets assigned offsets)) w2 /\
    poll (S (S n)) gid cid (session_state out w1 joined) =
      (Ret tt, session_state (out ++ concat (map (printed w offsets) assigned)) w2 joined).
Proof using Hcid Hexists Hgid Hshort Htopic Htopics.
  intros Hr Hw1. destruct (poll_once (S n) offsets out w1 joined Hr Hw1) as (w2 & Hw2 & Hrun).
  cbv zeta in Hrun. rewrite Hrun. destruct (anything_unread offsets assigned); [|by exists w2].
  destruct (poll_once n _ (out ++ concat (map (printed w offsets) assigned)) w2 joined
    (readable_again offsets Hr) Hw2) as (w3 & Hw3 & Hrun3).
  destruct (all_read (read_up w offsets assigned offsets) assigned) as (Ha & Hp & Hu).
  { intros tp. apply read_up_unread. }
  cbv zeta in Hrun3. rewrite Ha, Hp, app_nil_r in Hrun3. rewrite Hu in Hw3. by exists w3.
Qed.

(** The whole program. *)
Lemma consumer_run n out :
  readable (committed_offsets group_before) -> consumer_groups_ (broker w) = groups0 ->
  exists w2,
    settled w (groups_after (read_up w (committed_offsets group_before) assigned
                               (committed_offsets group_before))) w2 /\
    @consumer _ (service_peer clock) (S (S n)) [topic; gid; cid]
        (mkTerminal out (mkService w true None)) =
      (Ret 0%Z, mkTerminal
         (out ++ concat (map (printed w (committed_offsets group_before)) assigned))
         (mkService w2 true None)).
Proof using Hcid Hexists Hgid Hgroups Hnew Hshort Htopic Htopics.
  intros Hr Hg0. set (offsets := committed_offsets group_before) in *.
  destruct (lines_fit (mkTP topic 0) 0 ltac:(by split) ltac:(done)) as (_ & _ & Hl1 & _ & Hl2).
  assert (settled w groups0 w) as Hw0.
  { exists (metrics_ (broker w)). rewrite <-Hg0. by destruct w as [[] ? ?]. }
  destruct (ask_answers clock w _ _ _ _ _ w join_answers Hw0 Hl1) as (w1 & Hw1 & Hjoin); [closed|].
  destruct (poll_run n offsets out w1 [(gid, cid)] Hr Hw1) as (w2 & Hw2 & Hpoll).
  destruct (ask_answers clock w _ _ _ _ _ w2 (leave_answers _) Hw2 Hl2) as (w3 & Hw3 & Hleave);
    [closed|].
  exists w3. split; [done|]. unfold consumer.
  rewrite !bool_decide_eq_false_2 by (apply Htopic || apply Hgid || apply Hcid).
  unfold with_client. rewrite (bind_ret _ _ _ tt (session_state out w [])) by done.
  rewrite Hjoin. rewrite bool_decide_eq_true_2 by done. cbn [negb].
  change (track_membership (mkRequest JOIN gid cid topic 0 0 []) (lit "OK") []) with [(gid, cid)].
  rewrite (bind_ret _ _ _ _ _ Hpoll), Hleave. unfold mret, M_ret, session_state.
  cbn [peer_close service_peer connection cout]. f_equal. f_equal. unfold service_close.
  cbn [v_joined v_world v_alive]. unfold track_membership.
  rewrite bool_decide_eq_false_2 by (by intros [_ ?]).
  rewrite bool_decide_eq_true_2 by done. cbn [erase_membership r_group_id r_consumer_id].
  by rewrite bool_decide_eq_true_2.
Qed.

End group.

(** ** Properties *)

Section properties.
Context {Q : Type} `{Peer Q} {order : IterOrder} (clock : World Q -> Request -> Z).

Implicit Types w : World Q.

(** The groups of a broker, and the offsets of a group. *)
Definition groups_of w : Groups := consumer_groups_ (broker w).

Definition offsets_of w (gid : bytes) : gmap TopicPartition Z :=
  committed_offsets (group_before (groups_of w) gid).

Definition assigned_of w (gid cid topic : bytes) : list TopicPartition :=
  assigned (groups_of w) gid cid topic.

(** What a consumer needs to find: names that are words of a reasonable length, an existing
    topic, an id that is free, and messages that responses can carry. *)
Definition ready_for w (gid cid topic : bytes) : Prop :=
  (is_word gid /\ is_word cid /\ is_word topic /\
   (blen gid + blen cid + blen topic <= 20000)%Z) /\
  (groups_ok (groups_of w) /\ topics_ok (topics_ (broker w)) /\
   is_Some (topics_ (broker w) !! topic)) /\
  members (group_before (groups_of w) gid) !! cid = None /\
  Forall (deliverable w (offsets_of w gid)) (assigned_of w gid cid topic).

(** What it prints. *)
Definition output_of w (gid cid topic : bytes) : bytes :=
  concat (map (printed w (offsets_of w gid)) (assigned_of w gid cid topic)).

Definition run_consumer (fuel : nat) (gid cid topic out : bytes) w :=
  @consumer _ (service_peer clock) fuel [topic; gid; cid] (mkTerminal out (mkService w true None)).

Lemma ready_run n w gid cid topic out :
  ready_for w gid cid topic ->
  exists w2, settled w (groups_after (groups_of w) gid (read_up w (offsets_of w gid)
      (assigned_of w gid cid topic) (offsets_of w gid))) w2 /\
    run_consumer (S (S n)) gid cid topic out w =
      (Ret 0%Z, mkTerminal (out ++ output_of w gid cid topic) (mkService w2 true None)).
Proof.
  intros ((Hg & Hc & Ht & Hshort) & (Hgs & Hts & Hex) & Hnew & Hdel).
  by apply (consumer_run clock w (groups_of w) gid cid topic).
Qed.

Lemma read_up_u64 w offsets tps : forall to,
  Forall (deliverable w offsets) tps -> map_Forall (fun _ off => is_u64 off) to ->
  map_Forall (fun _ off => is_u64 off) (read_up w offsets tps to).
Proof.
  induction tps as [|tp tps IH]; intros to Htps Hto; [done|].
  apply Forall_cons in Htps as [(_ & _ & _ & _ & Hs) Htps]. apply IH; [done|].
  case_bool_decide; [done|]. apply map_Forall_insert_2; [|done].
  unfold is_offset, is_u64 in *. pow2_consts. lia.
Qed.

Lemma groups_after_ok w gid cid topic :
  ready_for w gid cid topic ->
  groups_ok (groups_after (groups_of w) gid (read_up w (offsets_of w gid)
    (assigned_of w gid cid topic) (offsets_of w gid))).
Proof.
  intros (_ & (Hgs & _) & _ & Hdel). unfold groups_after.
  destruct (groups_of w !! gid) as [g|] eqn:Hg; [|done].
  destruct (Hgs _ _ Hg) as (H1 & H2 & H3 & H4 & H5).
  apply map_Forall_insert_2; [|done]. split_and!; [done..|]. apply read_up_u64; [done|].
  unfold offsets_of, group_before. by rewrite Hg.
Qed.

(** The consumer finds the broker ready again. *)
Lemma ready_again w gid cid topic mt :
  ready_for w gid cid topic ->
  let w2 := with_state w (groups_after (groups_of w) gid (read_up w (offsets_of w gid)
    (assigned_of w gid cid topic) (offsets_of w gid))) mt in
  ready_for w2 gid cid topic /\ assigned_of w2 gid cid topic = assigned_of w gid cid topic /\
  offsets_of w2 gid = match groups_of w !! gid with
    | None => offsets_of w gid
    | Some _ => read_up w (offsets_of w gid) (assigned_of w gid cid topic) (offsets_of w gid)
    end.
Proof.
  intros Hready w2. pose proof (groups_after_ok w gid cid topic Hready) as Hok.
  destruct Hready as (Hwords & (Hgs & Hts & Hex) & Hnew & Hdel).
  assert (members (group_before (groups_of w2) gid) = members (group_before (groups_of w) gid) /\
    offsets_of w2 gid = match groups_of w !! gid with
    | None => offsets_of w gid
    | Some _ => read_up w (offsets_of w gid) (assigned_of w gid cid topic) (offsets_of w gid)
    end) as [Hms Hoff].
  { unfold offsets_of at 1. change (groups_of w2) with (groups_after (groups_of w) gid
      (read_up w (offsets_of w gid) (assigned_of w gid cid topic) (offsets_of w gid))).
    unfold groups_after. destruct (groups_of w !! gid) as [g|] eqn:Hg; [|done].
    unfold group_before at 1 3. rewrite lookup_insert_eq. split; [|done].
    unfold group_before. by rewrite Hg. }
  assert (assigned_of w2 gid cid topic = assigned_of w gid cid topic) as Has.
  { unfold assigned_of, assigned, members_with. by rewrite Hms. }
  split_and!; [|exact Has|exact Hoff].
  split; [exact Hwords|]. split; [split_and!; [exact Hok|exact Hts|exact Hex]|].
  split; [by rewrite Hms|]. rewrite Has, Hoff.
  destruct (groups_of w !! gid); [|done]. by apply (readable_again w).
Qed.

(** C6. When the consumer's id is free in its group, its topic exists, the names are words of
    together at most 20,000 bytes, and a response can carry what is unread of each
    partition it will be assigned without being the text ERROR ([ready_for]), the consumer
    program ends with its second GROUP_POLL at the latest and exits with 0.  It prints
    exactly the messages behind the committed offsets of these partitions, partition by
    partition.  In the broker only consumer groups and metrics have changed; of the groups
    only its own, and of that only committed offsets: of each assigned partition with
    something unread it is exactly the number of messages in the partition, and all
    other offsets are as they were.  A group the consumer created is gone. *)
Theorem consumer_reads_unread n w gid cid topic out :
  ready_for w gid cid topic ->
  exists w2 groups2 metrics2, run_consumer (S (S n)) gid cid topic out w =
      (Ret 0%Z, mkTerminal (out ++ output_of w gid cid topic) (mkService w2 true None)) /\
    w2 = with_state w groups2 metrics2 /\
    (forall gid', gid' <> gid -> groups2 !! gid' = groups_of w !! gid') /\
    match groups_of w !! gid with
    | None => groups2 !! gid = None
    | Some g => exists offsets,
        groups2 !! gid = Some (mkGroup (g_group_id g) (members g) offsets) /\
        forall tp, offsets !! tp =
          if decide (tp ∈ assigned_of w gid cid topic /\ unread w (committed_offsets g) tp <> [])
          then Some (size (view w tp)) else committed_offsets g !! tp
    end.
Proof.
  intros Hready. destruct (ready_run n w gid cid topic out Hready) as (w2 & [mt ->] & Hrun).
  eexists _, _, mt. split; [exact Hrun|]. split; [reflexivity|]. unfold groups_after. split.
  - intros gid' Hne. destruct (groups_of w !! gid); [|done]. by rewrite lookup_insert_ne.
  - destruct (groups_of w !! gid) as [g|] eqn:Hg; [|done]. eexists.
    assert (offsets_of w gid = committed_offsets g) as ->
      by (unfold offsets_of, group_before; by rewrite Hg).
    rewrite lookup_insert_eq. split; [reflexivity|]. intros tp. apply read_up_some.
Qed.

(** C34. A consumer that [ready_for] holds of, run twice in a row with nothing in between:
    when its group had another member, so that the group and its offsets outlive the first
    run, the second run prints nothing; when the group did not exist before, it is erased
    with its offsets by the LEAVE that ends the first run, and the second run prints the
    same messages again. *)
Theorem consumer_runs_twice n w gid cid topic out out' :
  ready_for w gid cid topic ->
  exists w2 w3, run_consumer (S (S n)) gid cid topic out w =
      (Ret 0%Z, mkTerminal (out ++ output_of w gid cid topic) (mkService w2 true None)) /\
    run_consumer (S (S n)) gid cid topic out' w2 =
      (Ret 0%Z, mkTerminal (out' ++ match groups_of w !! gid with
                                    | None => output_of w gid cid topic
                                    | Some _ => []
                                    end) (mkService w3 true None)).
Proof.
  intros Hready. destruct (ready_run n w gid cid topic out Hready) as (w2 & [mt ->] & Hrun).
  destruct (ready_again w gid cid topic mt Hready) as (Hready2 & Has & Hoff).
  destruct (ready_run n _ gid cid topic out' Hready2) as (w3 & _ & Hrun3).
  eexists _, w3. split; [exact Hrun|]. rewrite Hrun3. unfold output_of. rewrite Has, Hoff.
  destruct (groups_of w !! gid); [|done].
  destruct (all_read w (read_up w (offsets_of w gid) (assigned_of w gid cid topic)
    (offsets_of w gid)) (assigned_of w gid cid topic)) as (_ & Hp & _).
  { intros tp Hin. by apply read_up_unread. }
  do 4 f_equal. exact Hp.
Qed.

(** C20. [Service] is what a client meets on the wire: when its requests are answered there,
    [TcpServer] reads their frames from the socket, however they are cut, writes exactly
    the frames of the same responses, and leaves the same broker when the client closes. *)
Theorem service_refines_connection ms w rs s' evs tx fuel :
  converse clock ms (mkService w true (Some [])) = (Ret rs, s') -> length ms < fuel ->
  arriving evs -> data_of evs = concat (map frame ms) ->
  sends tx (length (concat (map frame rs))) ->
  exists conn, handle_client clock fuel (mkConn w (mkSock (evs ++ [RecvEof]) tx []) []) =
      (Ret tt, conn) /\
    conn_world conn = v_world (service_close s') /\
    sent (conn_sock conn) = concat (map frame rs).
Proof.
  intros Hrun Hfuel Harr Hdata Htx.
  destruct (converse_serves clock ms w [] rs s' [] Hrun) as (Hms & w' & joined' & -> & Hall).
  destruct (client_loop_ok clock ms fuel (mkConn w (mkSock (evs ++ [RecvEof]) tx []) []) evs _
    Hfuel eq_refl Harr Hms Hdata Hall) as [tx' Hloop].
  { simpl. by rewrite Nat.sub_0_r. }
  eexists (mkConn (release joined' w') (mkSock [RecvEof] tx' (concat (map frame rs))) joined').
  split_and!; [|done|done]. unfold handle_client. apply bind_ret with (a := tt)
    (s' := mkConn w' (mkSock [RecvEof] tx' (concat (map frame rs))) joined').
  unfold try_catch. by rewrite Hloop.
Qed.

(** C35. The producer program, given a topic that is a word, a partition from 0 to 2 and a
    message of one line that starts with a visible character and whose request fits a
    frame: it prints the broker's answer, and when that is OK exactly this message has been
    appended to exactly this partition; when the broker throws, it exits with 1. *)
Theorem producer_appends w topic p message out o w' :
  is_word topic -> (0 <= p < 3)%Z -> is_payload message -> starts_visible message ->
  frame_ok (produce_line topic p message) ->
  let req := mkRequest PRODUCE [] [] topic p 0 message in
  handle_request (clock w req) req w = (o, w') ->
  @producer _ (service_peer clock) [topic; to_string p; message]
      (mkTerminal out (mkService w true None)) =
    match o with
    | Ret response => (Ret 0%Z, mkTerminal (out ++ response ++ [newline]) (mkService w' true None))
    | Throw _ => (Ret 1%Z, mkTerminal out (mkService w' true None))
    | Crash => (Ret 1%Z, mkTerminal out (mkService w' false None))
    end /\
  (o = Ret (lit "OK") -> forall tp,
     view w' tp = view w tp ++ if decide (tp = mkTP topic p) then [message] else []).
Proof.
  intros Ht Hp Hm Hv Hfit req Hrun. split.
  - assert (serve clock (produce_line topic p message) w =
      match o with
      | Ret response => (Ret (req, response), w')
      | Throw e => (Throw e, w')
      | Crash => (Crash, w')
      end) as Hs.
    { unfold serve. change (produce_line topic p message) with (request_line req).
      rewrite (parse_request_line req) by (done || by apply wf_produce).
      rewrite (bind_ret _ _ _ w w) by done. unfold mbind, M_bind. rewrite Hrun. by destruct o. }
    unfold producer. destruct Ht as [Hne _]. rewrite bool_decide_eq_false_2 by done.
    rewrite partition_argument_parse, parse_partition_to_string by done.
    rewrite bool_decide_eq_false_2 by apply Hm. unfold with_client.
    rewrite (bind_ret _ _ _ tt (session_state out w [])) by done.
    unfold mbind at 1, M_bind at 1, on_connection, zoom, session_state.
    cbn [peer_request service_peer connection cout]. unfold service_request.
    cbn [v_joined v_world]. unfold frame_ok in Hfit. rewrite (proj2 (Z.ltb_ge _ _)) by done.
    rewrite Hs. destruct o as [response|e|]; [|done..].
    destruct (produce_response _ req w response w' eq_refl Hrun) as [-> | ->]; done.
  - intros ->. apply handle_request_effect in Hrun; [|unfold INT_MAX; simpl; lia].
    destruct Hrun as [_ _ Hno|oa _ _ Hview _ _|oa _ _ _ _ Hno];
      [by destruct (Hno (or_introl eq_refl))| |done].
    intros tp. rewrite Hview. unfold target, req; simpl. case_decide; [done|by rewrite app_nil_r].
Qed.

End properties.

(** *** Concrete runs *)

(** A broker whose topic "t" holds some messages, and where a group "g" has another
    consumer, of the topic "u". *)
Definition demo_holding (ms0 ms1 : list bytes) : World ClientWorld :=
  mkWorld (mkBroker
    {[ lit "t" := mkTopic (lit "t") [mkPartition 0 ms0; mkPartition 1 ms1; new_Partition 2] ]}
    {[ lit "g" := mkGroup (lit "g") {[ lit "b" := mkMember (lit "b") (lit "u")
         [mkTP (lit "u") 0; mkTP (lit "u") 1; mkTP (lit "u") 2] ]} ∅ ]}
    ∅ new_Metrics LEADER (-1) (lit "data"))
    (mkOS [SysOk 0; SysOk 3; SysOk 99; SysOk 0; SysOk 0] ∅) demo_net.

Definition demo_consume (w : World ClientWorld) :=
  @run_consumer ClientWorld client_peer canonical_order demo_clock 5 (lit "g") (lit "a") (lit "t")
    [] w.

(** The program's exit code and output, and the broker after it. *)
Definition demo_result {Q} (r : outcome Z * Terminal (Service Q)) : outcome Z * bytes * World Q :=
  (r.1, cout r.2, v_world (connection r.2)).

(** The text of a response is all there is of an error, so a message "ERROR" that is
    alone behind the committed offset reads as one: the consumer prints it, skips the rest
    of its partitions and leaves without a commit, this time and every time. *)
Theorem error_message_stops_consumer :
  let '(r1, out1, w1) := demo_result (demo_consume (demo_holding [lit "ERROR"] [lit "m"])) in
  let '(r2, out2, w2) := demo_result (demo_consume w1) in
  r1 = Ret 0%Z /\ out1 = lit "ERROR" ++ [newline] /\ r2 = Ret 0%Z /\ out2 = out1 /\
  get_committed_offset (lit "g") (lit "t") 0 (groups_of w2) = None.
Proof. vm_compute. repeat split. Qed.

(** FETCH answers with everything behind the offset, and a response over the maximum
    of a frame ends the connection: two messages that were accepted can no longer be
    consumed, since no request asks for fewer. *)
Theorem large_backlog_stops_consumer :
  let m := repeat (byte_of 120) (Z.to_nat 40000) in
  let '(r1, out1, w1) := demo_result (demo_consume (demo_holding [m; m] [lit "m"])) in
  let '(r2, out2, w2) := demo_result (demo_consume w1) in
  frame_ok (produce_line (lit "t") 0 m) /\
  r1 = Ret 1%Z /\ out1 = [] /\ r2 = Ret 1%Z /\ out2 = [] /\
  get_committed_offset (lit "g") (lit "t") 0 (groups_of w2) = None.
Proof. vm_compute. repeat split; discriminate. Qed.

Definition demo_run_producer (argv : list bytes) : outcome Z * bytes * World ClientWorld :=
  demo_result (@producer _ (@service_peer ClientWorld client_peer canonical_order demo_clock) argv
    (mkTerminal [] (mkService (demo_holding [] []) true None))).

(** The producer checks that its topic and its message are not empty, and not that
    the request line can hold them: a space in the topic moves the message to another
    partition with another text, and a line break cuts the message, both answered OK. *)
Theorem producer_misroutes :
  let '(r1, out1, w1) := demo_run_producer [lit "t 1"; lit "0"; lit "hello"] in
  let '(r2, out2, w2) := demo_run_producer [lit "t"; lit "0"; lit "a" ++ newline :: lit "b"] in
  r1 = Ret 0%Z /\ out1 = lit "OK" ++ [newline] /\ view w1 (mkTP (lit "t") 1) = [lit "0 hello"] /\
  r2 = Ret 0%Z /\ out2 = lit "OK" ++ [newline] /\ view w2 (mkTP (lit "t") 0) = [lit "a"].
Proof. vm_compute. repeat split. Qed.

(** *** Witnesses *)

Definition demo_two : World ClientWorld := demo_holding [lit "x"; lit "y"] [lit "z"].

Lemma demo_two_ready : @ready_for ClientWorld demo_two (lit "g") (lit "a") (lit "t").
Proof.
  split; [split_and!; [split; closed..|closed]|].
  split; [split_and!|split].
  - apply map_Forall_singleton. split_and!; [done|apply insert_non_empty| | |apply map_Forall_empty].
    + by apply map_Forall_singleton.
    + vm_compute; reflexivity.
  - apply map_Forall_singleton. split_and!; [done|simpl; lia|].
    intros [|[|[|i]]] part Hpart; simplify_eq/=; done.
  - vm_compute. by eexists.
  - vm_compute; reflexivity.
  - assert (assigned_of demo_two (lit "g") (lit "a") (lit "t") =
      [mkTP (lit "t") 0; mkTP (lit "t") 1; mkTP (lit "t") 2]) as -> by (vm_compute; reflexivity).
    repeat (apply Forall_cons; split; [split_and!; [|closed|closed|split; closed|split; closed]|]).
    4: { by apply Forall_nil. }
    all: vm_compute; repeat (apply Forall_cons; split; [split; closed|]); by apply Forall_nil.
Qed.

Lemma consumer_reads_unread_witness :
  let '(_, out, w2) := demo_result (demo_consume demo_two) in
  out = join_lines [lit "x"; lit "y"; lit "z"] ++ [newline] /\
  get_committed_offset (lit "g") (lit "t") 0 (groups_of w2) = Some 2%Z.
Proof.
  destruct (@consumer_reads_unread ClientWorld client_peer canonical_order demo_clock 3 demo_two
    (lit "g") (lit "a") (lit "t") [] demo_two_ready)
    as (w2 & groups2 & mt & Hrun & -> & _ & offsets & Hg & Hoffsets).
  unfold demo_consume, demo_result. rewrite Hrun. split; [vm_compute; reflexivity|].
  unfold get_committed_offset. cbn [connection v_world snd].
  change (groups_of (with_state demo_two groups2 mt)) with groups2. rewrite Hg.
  cbn [committed_offsets]. rewrite Hoffsets. vm_compute. reflexivity.
Defined.

Lemma consumer_runs_twice_witness :
  (demo_result (demo_consume (demo_result (demo_consume demo_two)).2)).1.2 = [].
Proof.
  destruct (@consumer_runs_twice ClientWorld client_peer canonical_order demo_clock 3 demo_two
    (lit "g") (lit "a") (lit "t") [] [] demo_two_ready) as (w2 & w3 & Hrun & Hagain).
  unfold demo_consume, demo_result. rewrite Hrun. cbn [fst snd connection v_world].
  rewrite Hagain. reflexivity.
Defined.

Lemma service_refines_connection_witness :
  exists conn, @handle_client ClientWorld client_peer canonical_order demo_clock 3
      (mkConn demo_two (mkSock ([RecvData (frame (lit "PING"))] ++ [RecvEof])
         (repeat (SysOk 1) 8) []) []) = (Ret tt, conn) /\
    sent (conn_sock conn) = frame (lit "PONG").
Proof.
  destruct (@service_refines_connection ClientWorld client_peer canonical_order demo_clock
    [lit "PING"] demo_two [lit "PONG"]
    (@converse ClientWorld client_peer canonical_order demo_clock [lit "PING"]
       (mkService demo_two true (Some []))).2
    [RecvData (frame (lit "PING"))] (repeat (SysOk 1) 8) 3) as (conn & Hrun & _ & Hsent).
  - vm_compute; reflexivity.
  - simpl; lia.
  - apply Forall_singleton. right. by exists (frame (lit "PING")).
  - reflexivity.
  - split; [|closed].
    repeat (apply Forall_cons; split; [right; by exists 0|]). by apply Forall_nil.
  - exists conn. split; [exact Hrun|exact Hsent].
Defined.

Lemma producer_appends_witness :
  let '(r, out, w) := demo_run_producer [lit "t"; lit "1"; lit "hello"] in
  r = Ret 0%Z /\ view w (mkTP (lit "t") 1) = [lit "hello"].
Proof.
  unfold demo_run_producer.
  destruct (@producer_appends ClientWorld client_peer canonical_order demo_clock
    (demo_holding [] []) (lit "t") 1 (lit "hello") [] (Ret (lit "OK"))
    (@handle_request ClientWorld client_peer canonical_order 5000
       (mkRequest PRODUCE [] [] (lit "t") 1 0 (lit "hello")) (demo_holding [] [])).2)
    as [Hrun Hview].
  - split; closed.
  - done.
  - split; closed.
  - reflexivity.
  - closed.
  - vm_compute; reflexivity.
  - change (lit "1") with (to_string 1). rewrite Hrun. split; [reflexivity|].
    cbn [fst snd connection v_world].
    rewrite Hview by done. reflexivity.
Defined.
